(** * inc: incremental, encrypted backups -- a shallow embedding of the core

    The Go packages of the repository are embedded as Rocq modules that keep
    the names of the source: [Json] (the decoders of encoding/json the code
    relies on, and package util), [File] (package file), [Store] (package
    store with its mock storage layer), [Backup] (package backup) and
    [Crypto] (package crypto).  The pieces of the Go runtime the code calls
    ([fmt.Sprintf] with the verb [%0wx], errors, panics) are embedded in [Go]
    from their documented behaviour.

    Part I holds the definitions, Part II the theorems. *)

From Stdlib Require Import ZArith Ascii String List Lia OrderedTypeEx.
From stdpp Require Import gmap strings list fin_maps.
From Equations Require Import Equations.

Local Open Scope Z_scope.

(* ===================================================================== *)
(** * Part I: definitions                                                 *)
(* ===================================================================== *)

(** ** The Go runtime, as far as the code uses it *)

Module Go.

(** The digit table of package fmt: ["0123456789abcdef"]. *)
Definition ldigits : list ascii :=
  ["0"; "1"; "2"; "3"; "4"; "5"; "6"; "7"; "8"; "9"; "a"; "b"; "c"; "d"; "e"; "f"]%char.

Definition hexDigit (d : Z) : ascii := nth (Z.to_nat d) ldigits "?"%char.

Lemma shiftr4_log2_lt (n : Z) :
  16 <= n -> (Z.to_nat (Z.log2 (Z.shiftr n 4)) < Z.to_nat (Z.log2 n))%nat.
Proof.
  intros Hn. rewrite Z.log2_shiftr by lia.
  assert (4 <= Z.log2 n) by (change 4 with (Z.log2 16); apply Z.log2_le_mono; lia).
  lia.
Qed.

(** [fmtInteger] in base 16: the digits of [u], most significant first;
    the loop of package fmt peels [u & 0xF] and shifts by four. *)
Equations? hexDigits (u : Z) : list ascii by wf (Z.to_nat (Z.log2 u)) lt :=
  hexDigits u with Z_lt_dec u 16 => {
    | left _ := [hexDigit u];
    | right _ := hexDigits (Z.shiftr u 4) ++ [hexDigit (Z.land u 15)] }.
Proof. apply shiftr4_log2_lt. lia. Qed.

(** The zero flag with a width: leading zeros up to [w] characters. *)
Definition zeroPad (w : Z) (ds : list ascii) : list ascii :=
  repeat "0"%char (Z.to_nat w - length ds) ++ ds.

(** A format string [%0wx], as [fmt.Sprintf("%%0%dx", w)] builds it. *)
Record hexFormat := HexFormat { fmtWidth : Z }.

(** [fmt.Sprintf(format, k)] for the format [%0wx] and a non-negative [k]. *)
Definition Sprintf (f : hexFormat) (k : Z) : string :=
  string_of_list_ascii (zeroPad (fmtWidth f) (hexDigits k)).

(** Go's [error] values the code creates or tests for, by the variable or the
    text that names them. *)
Inductive error : Type :=
| EOF                          (* io.EOF *)
| ErrMalformedMetadata         (* store: "malformed metadata" *)
| ErrBadVersionStore           (* store: "bad version" *)
| ErrMissingMetadata           (* store: "user metadata not set" *)
| ErrStoreNotInitialized
| ErrStoreNotConnected
| ErrForbiddenKey
| ErrMalformedConfig           (* backup: "malformed config data" *)
| ErrBadVersion                (* backup: "bad version" *)
| ErrTooShort                  (* crypto: "ciphertext too short" *)
| ErrNotBlockMultiple          (* crypto: "ciphertext is not a multiple of the block size" *)
| ErrNotAuthentic              (* crypto: "ciphertext not authentic" *)
| ErrPadLength                 (* crypto: "invalid padding length" *)
| ErrPadBytes                  (* crypto: "invalid padding bytes" *)
| ErrNoSuchKey                 (* storage: "The specified key does not exist." *)
| ErrJSON (what : string)      (* an error of encoding/json or of a decoder it calls *)
| ErrIO (what : string).       (* an error of the environment: disk, network *)

#[global] Instance error_eq_dec : EqDecision error.
Proof. solve_decision. Defined.

(** How a call ends: it returns, it panics, or it never returns (the
    embedding of a loop ran out of fuel). *)
Inductive outcome (A : Type) : Type :=
| Done (a : A)
| Panic (why : string)
| Spin.
#[global] Arguments Done {A} a.
#[global] Arguments Panic {A} why.
#[global] Arguments Spin {A}.

#[global] Instance outcome_ret : MRet outcome := fun _ a => Done a.
#[global] Instance outcome_bind : MBind outcome := fun _ _ f m =>
  match m with
  | Done a => f a
  | Panic why => Panic why
  | Spin => Spin
  end.

End Go.

(** ** encoding/json, and package util *)

Module Json.
Import Go.

(** A JSON document.  A number is kept as its integer value when its literal
    is an integer, and as its literal otherwise. *)
#[warnings="-register-all"]
Inductive json : Type :=
| JNull
| JBool (b : bool)
| JInt (z : Z)
| JFrac (literal : string)
| JStr (s : string)
| JArr (items : list json)
| JObj (fields : list (string * json)).

(** The bytes handed to [json.Unmarshal], read as the document they spell:
    [None] when they are not valid JSON (the decoder checks the whole input
    before it stores anything). *)
Definition data := option json.

(** The base64 and RFC 3339 readers the decoders call. *)
Class Codecs := {
  base64Decode : string -> option (list Z);
  base64Encode : list Z -> string;
  parseRFC3339 : string -> option Z;
  formatRFC3339 : Z -> string
}.

(** Key folding of the struct decoder: a key names a field when the two are
    equal under Unicode simple case folding.  For the ASCII field names of
    this program that is ASCII case folding, with U+017F (long s, bytes C5
    BF) read as [s] and U+212A (Kelvin sign, bytes E2 84 AA) as [k]. *)
Definition lowerAscii (c : ascii) : ascii :=
  let n := nat_of_ascii c in
  if ((65 <=? n) && (n <=? 90))%nat then ascii_of_nat (n + 32) else c.

Fixpoint foldName (s : string) : string :=
  match s with
  | String "197" (String "191" s') => String "s" (foldName s')
  | String "226" (String "132" (String "170" s')) => String "k" (foldName s')
  | String c s' => String (lowerAscii c) (foldName s')
  | EmptyString => EmptyString
  end.

Definition keyMatches (field key : string) : bool :=
  String.eqb (foldName key) (foldName field).

(** [json.Unmarshal(raw, &x)] at an integer [x] of the range [lo..hi]: the
    new value of [x] and the error returned. *)
Definition unmarshalInt (lo hi : Z) (raw : json) (x : Z) : Z * option error :=
  match raw with
  | JNull => (x, None)
  | JInt z => if (lo <=? z) && (z <=? hi) then (z, None)
              else (x, Some (ErrJSON "cannot unmarshal number into integer"))
  | _ => (x, Some (ErrJSON "cannot unmarshal into integer"))
  end.

Definition minInt : Z := - 2 ^ 63.
Definition maxInt : Z := 2 ^ 63 - 1.
Definition maxUint32 : Z := 2 ^ 32 - 1.

Definition unmarshalString (raw : json) (x : string) : string * option error :=
  match raw with
  | JNull => (x, None)
  | JStr s => (s, None)
  | _ => (x, Some (ErrJSON "cannot unmarshal into string"))
  end.

(** At an [x] of type [time.Time], whose [UnmarshalJSON] reads a quoted RFC
    3339 time and ignores [null]. *)
Definition unmarshalTime `{Codecs} (raw : json) (x : Z) : Z * option error :=
  match raw with
  | JNull => (x, None)
  | JStr s => match parseRFC3339 s with
              | Some t => (t, None)
              | None => (x, Some (ErrJSON "parsing time"))
              end
  | _ => (x, Some (ErrJSON "Time.UnmarshalJSON: input is not a JSON string"))
  end.

(** At an [x] of type [[]byte]: a base64 string, or an array of numbers. *)
Definition unmarshalBytes `{Codecs} (raw : json) (x : list Z) : list Z * option error :=
  match raw with
  | JNull => ([], None)
  | JStr s => match base64Decode s with
              | Some b => (b, None)
              | None => (x, Some (ErrJSON "illegal base64 data"))
              end
  | JArr items =>
      fold_left (fun acc item =>
                   let '(b, e) := unmarshalInt 0 255 item 0 in
                   (fst acc ++ [b], if snd acc is Some e0 then Some e0 else e))
                items ([], None)
  | _ => (x, Some (ErrJSON "cannot unmarshal into []byte"))
  end.

(** A [map[string]*json.RawMessage] decoded from an object: a later field of
    the same key replaces an earlier one, and [null] is stored as the nil
    pointer. *)
Definition keymap := gmap string (option json).

Definition unmarshalKeymap (raw : json) : option keymap :=
  match raw with
  | JNull => Some ∅
  | JObj fields =>
      Some (fold_left (fun (m : keymap) kv =>
                         <[fst kv := if snd kv is JNull then None else Some (snd kv)]> m)
                      fields ∅)
  | _ => None
  end.

(** [*keymap[key]]: the dereference panics on the nil pointer, which is what
    indexing the map gives for a missing key. *)
Definition deref (m : keymap) (key : string) : outcome json :=
  match m !! key with
  | Some (Some raw) => Done raw
  | _ => Panic "invalid memory address or nil pointer dereference"
  end.

(** *** Package util (src/unnamed/part_000) *)

(** Parses any JSON map of (string) keys to whatever, and returns the value
    of the "version" key as an integer. Otherwise, returns (-1, false). *)
Definition ParseVersionJSON (raw : data) : Z * bool :=
  match raw with
  | None => (-1, false)
  | Some JNull => (0, true)
  | Some (JObj fields) =>
      let '(version, err) :=
        fold_left (fun acc kv =>
                     if keyMatches "version" (fst kv)
                     then let '(v, e) := unmarshalInt minInt maxInt (snd kv) (fst acc) in
                          (v, if snd acc is Some e0 then Some e0 else e)
                     else acc)
                  fields (0, None) in
      if err is None then (version, true) else (-1, false)
  | Some _ => (-1, false)
  end.

End Json.

(** ** Package file *)

Module File.

(** [filepath.Join] of the Go library joins and cleans path elements; the
    development is parametric in it. *)
Class FilePath := Join : string -> string -> string.

(** The file system as the program meets it: the SHA-1 of a regular file's
    contents and of a symlink's target, by path (a read error there ends the
    process with [log.Fatal], so the two are total); the error, if any, of
    reading files into a tarball; and the error, if any, of writing a local
    file. *)
Class FileSystem := {
  checksumFile : string -> list Z;
  checksumSymlink : string -> list Z;
  packError : list string -> option Go.error;
  writeError : string -> option Go.error
}.

(** The zero value of a [[sha1.Size]byte] array. *)
Definition zeroSHA1 : list Z := repeat 0 20.

Record File := mkFile {
  Root : string;    (* Parent path of the file. *)
  Name : string;    (* Base name of the file. *)
  Size : Z;         (* Length in bytes for regular files. *)
  Mode : Z;         (* File mode and permission bits (os.FileMode, uint32). *)
  ModTime : Z;      (* Last modification time, an instant. *)
  UID : Z;          (* User identifier of owner. *)
  GID : Z;          (* Group identifier of owner. *)
  SHA1 : list Z     (* Checksum of the file contents, [sha1.Size] bytes. *)
}.

(** The bits of [os.FileMode] the predicates test. *)
Definition ModeDir : Z := Z.shiftl 1 31.
Definition ModeSymlink : Z := Z.shiftl 1 27.
Definition ModeDevice : Z := Z.shiftl 1 26.
Definition ModeNamedPipe : Z := Z.shiftl 1 25.
Definition ModeSocket : Z := Z.shiftl 1 24.
Definition ModeCharDevice : Z := Z.shiftl 1 21.
Definition ModeIrregular : Z := Z.shiftl 1 19.
Definition ModeType : Z :=
  Z.lor ModeDir (Z.lor ModeSymlink (Z.lor ModeNamedPipe (Z.lor ModeSocket
    (Z.lor ModeDevice (Z.lor ModeCharDevice ModeIrregular))))).

(** Path returns the full file path (Root+Name). *)
Definition Path `{FilePath} (f : File) : string := Join (Root f) (Name f).

(** IsDir checks if this is a directory. *)
Definition IsDir (f : File) : bool := negb (Z.land (Mode f) ModeDir =? 0).

(** IsRegular checks if this is a regular file. *)
Definition IsRegular (f : File) : bool := Z.land (Mode f) ModeType =? 0.

(** IsSymlink checks if this is a symlink. *)
Definition IsSymlink (f : File) : bool := negb (Z.land (Mode f) ModeSymlink =? 0).

(** HasChecksum checks if the SHA1 for this file has been populated. *)
Definition HasChecksum (f : File) : bool := negb (bool_decide (SHA1 f = zeroSHA1)).

Definition setSHA1 (f : File) (h : list Z) : File :=
  mkFile (Root f) (Name f) (Size f) (Mode f) (ModTime f) (UID f) (GID f) h.

(** [sort.Sort] over a [Less]: an insertion sort.  Go's sort is not stable;
    the embedding fixes the order of elements that [Less] does not tell
    apart to their order in the input. *)
Fixpoint insertBy {A : Type} (less : A -> A -> bool) (x : A) (l : list A) : list A :=
  match l with
  | [] => [x]
  | y :: l' => if less x y then x :: y :: l' else y :: insertBy less x l'
  end.

Definition sortBy {A : Type} (less : A -> A -> bool) (l : list A) : list A :=
  fold_left (fun acc x => insertBy less x acc) l [].

(** BySize and ByPath implement sort.Interface; these are their [Less]. *)
Definition BySize (a b : File) : bool := Size a <? Size b.

(** Sort by root path and then by filename within each root. *)
Definition ByPath (a b : File) : bool :=
  if String.eqb (Root a) (Root b) then String.ltb (Name a) (Name b)
  else String.ltb (Root a) (Root b).

Section Checksum.
Context `{FilePath} `{FileSystem}.

Definition needsChecksum (f : File) : bool :=
  (IsRegular f || IsSymlink f) && negb (HasChecksum f).

(** The second loop of [ChecksumFilesFS] at one file. *)
Definition checksumOne (f : File) : File :=
  if IsRegular f then setSHA1 f (checksumFile (Path f))
  else if IsSymlink f then setSHA1 f (checksumSymlink (Path f))
  else f.

(** ChecksumFilesFS scans the contents of a list of files, calculating their
    SHA1 checksums and populating the File details.  The groups are updated
    in place; the embedding returns them. *)
Definition ChecksumFiles (groups : list (list File)) : list (list File) :=
  let totalFiles := length (filter (fun f => needsChecksum f = true) (concat groups)) in
  if (totalFiles =? 0)%nat then groups (* no files to hash *)
  else map (map checksumOne) groups.

End Checksum.

End File.

(** ** Packages storage and store *)

Module Store.
Import Go Json File.

(** What an object of the store holds.  The metadata header is written as it
    is; everything else goes through compress and encrypt (package crypto
    below), so it is kept as what it decrypts and decompresses to: a
    tarball of files or a JSON document. *)
Inductive body : Type :=
| Tarball (files : list File)
| Document (doc : json).

Inductive content : Type :=
| Plain (doc : data)
| Sealed (b : body).

(** *** The storage layer (storage/mock.go)

    [MockStorage] keeps the objects in a map and fails a request when one of
    its [requestFn] callbacks says so.  [putFn] stands for the ways a real
    layer can fail a [PutReader]: while it reads, or when it has read all. *)
Inductive putFault : Type :=
| PutFine
| PutBreaks (e : error)
| PutRejects (e : error).

Record Layer := mkLayer {
  dataStore : gmap string content;
  requestFn : string -> option error;
  putFn : string -> putFault
}.

Definition setData (l : Layer) (d : gmap string content) : Layer :=
  mkLayer d (requestFn l) (putFn l).

Definition GetReader (l : Layer) (key : string) : content + error :=
  match requestFn l key with
  | Some e => inr e
  | None => match dataStore l !! key with
            | Some c => inl c
            | None => inr ErrNoSuchKey
            end
  end.

(** [PutReader] at a reader that yields [c], or fails with an error. *)
Definition PutReader (l : Layer) (key : string) (r : content + error) : Layer * option error :=
  match putFn l key with
  | PutBreaks e => (l, Some e)
  | fault =>
      match r with
      | inr e => (l, Some e)
      | inl c => match fault with
                 | PutRejects e => (l, Some e)
                 | _ => (setData l (<[key := c]> (dataStore l)), None)
                 end
      end
  end.

(** *** store/metadata.go *)

Record storeMetadata := mkMetadata {
  Version : Z;
  StoreFormat : Z;
  Salt : list Z;                 (* base64 encoded *)
  UserData : gmap string json
}.

Definition c_METADATA_KEY : string := "metadata".

Definition newMetadata (salt : list Z) : storeMetadata := mkMetadata 1 1 salt ∅.

(** Keys is a struct for handling the encryption and authentication keys. *)
Record Keys := mkKeys { EncKey : list Z; AuthKey : list Z }.

(** Store handles compressing, encrypting and uploading blobs to some
    storage medium.  [enc] is the crypter, nil until the store is opened. *)
Record Store := mkStore {
  layer : Layer;
  id : string;
  meta : option storeMetadata;
  enc : option Keys
}.

Definition setLayer (s : Store) (l : Layer) : Store := mkStore l (id s) (meta s) (enc s).
Definition setMeta (s : Store) (md : storeMetadata) : Store :=
  mkStore (layer s) (id s) (Some md) (enc s).

Section Metadata.
Context `{Codecs}.

(** [json.Unmarshal(data, &md)] at a zero [storeMetadata]. *)
Definition firstErr (a b : option error) : option error :=
  if a is Some e then Some e else b.

Definition unmarshalUserData (raw : json) (x : gmap string json) :
    gmap string json * option error :=
  match raw with
  | JNull => (∅, None)
  | JObj fields => (fold_left (fun m kv => <[fst kv := snd kv]> m) fields x, None)
  | _ => (x, Some (ErrJSON "cannot unmarshal into map"))
  end.

Definition unmarshalMetadataField (acc : storeMetadata * option error) (kv : string * json) :
    storeMetadata * option error :=
  let '(md, err) := acc in
  let '(key, raw) := kv in
  if keyMatches "version" key then
    let '(v, e) := unmarshalInt minInt maxInt raw (Version md) in
    (mkMetadata v (StoreFormat md) (Salt md) (UserData md), firstErr err e)
  else if keyMatches "storeFormat" key then
    let '(v, e) := unmarshalInt minInt maxInt raw (StoreFormat md) in
    (mkMetadata (Version md) v (Salt md) (UserData md), firstErr err e)
  else if keyMatches "salt" key then
    let '(v, e) := unmarshalBytes raw (Salt md) in
    (mkMetadata (Version md) (StoreFormat md) v (UserData md), firstErr err e)
  else if keyMatches "userData" key then
    let '(v, e) := unmarshalUserData raw (UserData md) in
    (mkMetadata (Version md) (StoreFormat md) (Salt md) v, firstErr err e)
  else acc.

Definition unmarshalMetadata (raw : data) : storeMetadata * option error :=
  let zero := mkMetadata 0 0 [] ∅ in
  match raw with
  | None => (zero, Some (ErrJSON "invalid character"))
  | Some JNull => (zero, None)
  | Some (JObj fields) => fold_left unmarshalMetadataField fields (zero, None)
  | Some _ => (zero, Some (ErrJSON "cannot unmarshal into storeMetadata"))
  end.

Definition marshalMetadata (md : storeMetadata) : json :=
  JObj [("version", JInt (Version md)); ("storeFormat", JInt (StoreFormat md));
        ("salt", JStr (base64Encode (Salt md)));
        ("userData", JObj (map_to_list (UserData md)))]%string.

(** What reading the layer's object gives [ioutil.ReadAll]: the bytes of a
    header written as it is; a sealed object is no JSON at all. *)
Definition readPlain (c : content) : data :=
  match c with
  | Plain doc => doc
  | Sealed _ => None
  end.

Definition getStoreMetadata (s : Store) : Store * storeMetadata * option error :=
  let zero := mkMetadata 0 0 [] ∅ in
  match meta s with
  | Some md => (s, md, None)
  | None =>
      match GetReader (layer s) c_METADATA_KEY with
      | inr err => (s, zero, Some err)
      | inl reader =>
          let data := readPlain reader in
          let '(ver, ok) := ParseVersionJSON data in
          if ok then
            if ver =? 1 then
              let '(md, f) := unmarshalMetadata data in
              if f is None then (setMeta s md, md, None)
              else (s, md, Some ErrMalformedMetadata)
            else (s, zero, Some ErrBadVersionStore)
          else (s, zero, Some ErrMalformedMetadata)
      end
  end.

Definition putStoreMetadata (s : Store) (md : storeMetadata) : Store * option error :=
  let data := marshalMetadata md in
  let '(l, err) := PutReader (layer s) c_METADATA_KEY (inl (Plain (Some data))) in
  if err is Some e then (setLayer s l, Some e)
  else (setMeta (setLayer s l) md, None).

Definition getUserMetadata (s : Store) (key : string) : Store * option json * option error :=
  let '(s', md, err) := getStoreMetadata s in
  if err is Some e then (s', None, Some e)
  else match UserData md !! key with
       | Some v => (s', Some v, None)
       | None => (s', None, Some ErrMissingMetadata)
       end.

Definition putUserMetadata (s : Store) (key : string) (v : json) : Store * option error :=
  let '(s', md, err) := getStoreMetadata s in
  if err is Some e then (s', Some e)
  else putStoreMetadata s'
         (mkMetadata (Version md) (StoreFormat md) (Salt md) (<[key := v]> (UserData md))).

End Metadata.

(** *** store/store.go *)

Definition isConnected (s : Store) : bool := if enc s is Some _ then true else false.

Definition isForbiddenKey (key : string) : bool := String.eqb key c_METADATA_KEY.

(** Put reads data into an object in the store: compress, encrypt, and hand
    the ciphertext to the layer.  The reader yields [b] or fails. *)
Definition StorePutReader (s : Store) (key : string) (r : body + error) : Store * option error :=
  if isForbiddenKey key then (s, Some ErrForbiddenKey)
  else if negb (isConnected s) then (s, Some ErrStoreNotConnected)
  else
    let '(l, err) := PutReader (layer s) key
                       (match r with inl b => inl (Sealed b) | inr e => inr e end) in
    (setLayer s l, err).

Definition Put (s : Store) (key : string) (b : body) : Store * option error :=
  StorePutReader s key (inl b).

(** A Packer is used for storing multiple blobs as a single object.  Its
    uploader runs [layer.PutReader] on the read end of a pipe; [piped] is
    what the pipe has carried, and the layer sees the end of the object when
    the write end is closed. *)
Record Packer := mkPacker {
  pkey : string;
  piped : list body;
  closed : bool;
  closeErr : option error
}.

Definition ErrClosedPipe : error := ErrIO "io: read/write on closed pipe".

Definition Pack (s : Store) (key : string) : Packer + error :=
  if isForbiddenKey key then inr ErrForbiddenKey
  else if negb (isConnected s) then inr ErrStoreNotConnected
  else inl (mkPacker key [] false None).

(** The object the uploader stores: the blobs of the pipe, one after the
    other.  The packer of the backup carries one tarball. *)
Definition pipedBody (bs : list body) : body :=
  match bs with
  | [b] => b
  | _ => Tarball (concat (map (fun b => if b is Tarball fs then fs else []) bs))
  end.

(** [closeWriter]: close the write end of the pipe with [err], and block on
    hearing back from the uploader. *)
Definition closeWriter (s : Store) (p : Packer) (err : option error) : Store * Packer :=
  if closed p then (s, p)
  else
    let r := match err with
             | Some e => inr e
             | None => inl (Sealed (pipedBody (piped p)))
             end in
    let '(l, e) := PutReader (layer s) (pkey p) r in
    (setLayer s l, mkPacker (pkey p) (piped p) true e).

(** PutReader reads data into the object. *)
Definition PackerPutReader (s : Store) (p : Packer) (r : body + error) :
    Store * Packer * option error :=
  match r with
  | inr e => let '(s', p') := closeWriter s p (Some e) in (s', p', Some e)
  | inl b =>
      if closed p then (s, p, Some ErrClosedPipe)
      else match putFn (layer s) (pkey p) with
           | PutBreaks e =>
               let '(s', p') := closeWriter s p (Some e) in (s', p', Some e)
           | _ => (s, mkPacker (pkey p) (piped p ++ [b]) false None, None)
           end
  end.

(** Close finishes writing, returning any last errors. *)
Definition PackerClose (s : Store) (p : Packer) : Store * Packer * option error :=
  let '(s', p') := closeWriter s p None in (s', p', closeErr p').

End Store.

(** ** Package backup *)

Module Backup.
Import Go Json File.

(** *** util.go *)

(** How many hexadecimal places we need for a number of size n. *)
Equations? hexLog (n : Z) : Z by wf (Z.to_nat (Z.log2 n)) lt :=
  hexLog n with Z_lt_dec n 16 => {
    | left _ := 1;
    | right _ := 1 + hexLog (Z.shiftr n 4) }.
Proof. apply Go.shiftr4_log2_lt. lia. Qed.

(** [manifestKey]: 16 hexadecimal places of the nanosecond clock. *)
Definition manifestKey (unixNano : Z) : string :=
  Go.Sprintf (Go.HexFormat 16) unixNano.

(** The closure [keyFactory] returns: its format and its counter [k]. *)
Record keyState := KeyState { keyFormat : Go.hexFormat; k : Z }.

Definition keyFactory (size : Z) : keyState :=
  KeyState (Go.HexFormat (hexLog size)) 0.

(** One call of the closure: the key, and the closure with [k] advanced. *)
Definition nextKey (s : keyState) : string * keyState :=
  (Go.Sprintf (keyFormat s) (k s), KeyState (keyFormat s) (k s + 1)).

(** The keys of [n] successive calls. *)
Fixpoint takeKeys (n : nat) (s : keyState) : list string :=
  match n with
  | O => []
  | S n' => let '(key, s') := nextKey s in key :: takeKeys n' s'
  end.

(** *** manifest.go *)

Record ManifestEntryPart := mkPart {
  Key : string;
  Range : Z * Z
}.

(** A [file.File] with the set that uploaded it and its parts. *)
Record ManifestEntry := mkEntry {
  EFile : File;
  Set_ : string;
  Parts : list ManifestEntryPart
}.

(** A [*ManifestEntry]: the address of an entry object.  The objects live in
    a heap, so that two holders of one pointer see one object. *)
Abbreviation ptr := nat.
Abbreviation heap := (gmap nat ManifestEntry).

Record Manifest := mkManifest {
  Version : Z;
  LastSet : string;
  Created : Z;
  Updated : Z;
  Entries : list ptr;
  pathMap : gmap string ptr
}.

Definition setIndex (m : Manifest) (es : list ptr) (pm : gmap string ptr) : Manifest :=
  mkManifest (Version m) (LastSet m) (Created m) (Updated m) es pm.

(** [*p] for a pointer into the heap. *)
Definition load (h : heap) (p : ptr) : outcome ManifestEntry :=
  match h !! p with
  | Some e => Done e
  | None => Panic "invalid memory address or nil pointer dereference"
  end.

(** [l[i]] for a slice. *)
Definition index {A : Type} (l : list A) (i : Z) : outcome A :=
  if i <? 0 then Panic "index out of range"
  else match l !! Z.to_nat i with
       | Some a => Done a
       | None => Panic "index out of range"
       end.

(** [&ManifestEntry{...}]: a new object at an address not in use. *)
Definition alloc (h : heap) (e : ManifestEntry) : heap * ptr :=
  let p := fresh (dom h) in (<[p := e]> h, p).

Section Manifest.
Context `{FilePath} `{FileSystem} `{Codecs}.

Definition EPath (e : ManifestEntry) : string := Path (EFile e).

Definition Has (m : Manifest) (f : File) : bool :=
  if pathMap m !! Path f is Some _ then true else false.

Definition removeEntry (h : heap) (m : Manifest) (p : ptr) : outcome (heap * Manifest) :=
  e ← load h p;
  let oldPath := EPath e in
  (* Replace the deleted entry arbitrarily with the last entry from the list.
     We take over the deleted entry pointer and use that now for the last entry. *)
  let lastIndex := Z.of_nat (length (Entries m)) - 1 in
  lastEntry ← index (Entries m) lastIndex;          (* pointer to the last entry *)
  last ← load h lastEntry;
  let h1 := <[p := last]> h in                       (* replace the actual entry data *)
  last' ← load h1 lastEntry;
  let pm1 := <[EPath last' := p]> (pathMap m) in     (* use the new pointer to last entry *)
  let entries := take (Z.to_nat lastIndex) (Entries m) in  (* truncate the slice *)
  Done (h1, setIndex m entries (delete oldPath pm1)). (* delete the old pointer *)

Definition Remove (h : heap) (m : Manifest) (f : File) : outcome (heap * Manifest * bool) :=
  match pathMap m !! Path f with
  | None => Done (h, m, false)
  | Some p => '(h', m') ← removeEntry h m p; Done (h', m', true)
  end.

Definition HasIdentical (h : heap) (m : Manifest) (their : File) : outcome bool :=
  match pathMap m !! Path their with
  | None => Done false
  | Some p =>
      our ← load h p;
      let our := EFile our in
      if negb (IsDir our) && negb (Size our =? Size their) then Done false
      else if negb (Mode our =? Mode their) then Done false
      else if negb (ModTime our =? ModTime their)
           then Done (bool_decide (SHA1 our = SHA1 their))
           else Done true
  end.

(** The first loop of [Compare] at one scanned file. *)
Definition compareOne (h : heap) (before : Manifest)
    (acc : outcome (list File * list File)) (a : File) : outcome (list File * list File) :=
  '(touched, changed) ← acc;
  match pathMap before !! Path a with
  | Some p =>
      b ← load h p;
      let b := EFile b in
      if negb (IsDir a) && negb (Size a =? Size b)      (* non-dir, size different *)
      then Done (touched, changed ++ [a])
      else if negb (ModTime a =? ModTime b)             (* timestamp touched *)
      then Done (touched ++ [a], changed)
      else Done (touched, changed)
  | None => Done (touched, changed ++ [a])              (* not found; must be new *)
  end.

(** The second loop of [Compare] at one touched file. *)
Definition promoteOne (h : heap) (before : Manifest)
    (acc : outcome (list File)) (a : File) : outcome (list File) :=
  changed ← acc;
  match pathMap before !! Path a with
  | Some p =>
      b ← load h p;
      if bool_decide (SHA1 a = SHA1 (EFile b)) then Done changed else Done (changed ++ [a])
  | None => Panic "invalid memory address or nil pointer dereference"
  end.

Definition Compare (h : heap) (before : Manifest) (after : list File) : outcome (list File) :=
  '(touched, changed) ← fold_left (compareOne h before) after (Done ([], []));
  match ChecksumFiles [touched; changed] with
  | [touched'; changed'] => fold_left (promoteOne h before) touched' (Done changed')
  | _ => Done changed
  end.

Definition buildPathMap (h : heap) (entries : list ptr) : outcome (gmap string ptr) :=
  fold_left (fun acc p => pm ← acc; f ← load h p; Done (<[EPath f := p]> pm))
            entries (Done ∅).

End Manifest.

(** *** The bundler (src/unnamed/part_001) *)

Definition c_BUNDLE_LIMIT_SIZE : Z := Z.shiftl 1000 6.  (* don't bundle files >64KB *)
Definition c_BUNDLE_MAX_SIZE : Z := Z.shiftl 1000 10.   (* bundles are max. 1MB *)

(** Create the initial bundle. *)
Definition makeBundle (files : list File) : list (list File) :=
  if (0 <? length files)%nat then [files] else [].

(** Sort each bundle by file size. *)
Definition sortBundlesBySize (bundles : list (list File)) : list (list File) :=
  map (sortBy BySize) bundles.

(** Sort each bundle by path. *)
Definition sortBundlesByPath (bundles : list (list File)) : list (list File) :=
  map (sortBy ByPath) bundles.

(** Split each bundle on c_BUNDLE_LIMIT_SIZE. Splits into 3 parts; small files
    (<= cutoff size), large files (> cutoff size) and directories. *)
Definition splitOne (acc : list File * list File * list File) (f : File) :
    list File * list File * list File :=
  let '(small, big, dirs) := acc in
  if IsDir f then (small, big, dirs ++ [f])
  else if Size f >? c_BUNDLE_LIMIT_SIZE then (small, big ++ [f], dirs)
  else (small ++ [f], big, dirs).

Definition splitBundlesBySizeLimit (bundles : list (list File)) : list (list File) :=
  fold_left (fun out bundle =>
               let '(small, big, dirs) := fold_left splitOne bundle ([], [], []) in
               out ++ [small; big; dirs])
            bundles [].

(** The variables of [bundleByPath] and [bundleSmallFiles] that their
    closure [nextBundle] and their loops share. *)
Record bundler := Bundler {
  out : list (list File);
  currRoot : string;
  currBytes : Z;
  currBundle : list File;
  dirBundle : list File
}.

Definition bundler0 : bundler := Bundler [] EmptyString 0 [] [].

(** [nextBundle] of [bundleByPath]. *)
Definition nextBundleP (b : bundler) : bundler :=
  if (0 <? length (currBundle b))%nat
  then Bundler (out b ++ [currBundle b]) (currRoot b) (currBytes b) [] (dirBundle b)
  else b.

(** Bundle files with the same root together (note: you should sort before
    doing this). *)
Definition bundleByPath (bundles : list (list File)) : list (list File) :=
  out (fold_left
         (fun b bundle =>
            nextBundleP
              (fold_left
                 (fun b f =>
                    let b1 := if String.eqb (Root f) (currRoot b) then b
                              else let b' := nextBundleP b in
                                   Bundler (out b') (Root f) (currBytes b')
                                           (currBundle b') (dirBundle b') in
                    Bundler (out b1) (currRoot b1) (currBytes b1)
                            (currBundle b1 ++ [f]) (dirBundle b1))
                 bundle b))
         bundles bundler0).

(** [nextBundle] of [bundleSmallFiles]. *)
Definition nextBundle (b : bundler) : bundler :=
  if (0 <? length (currBundle b))%nat
  then Bundler (out b ++ [currBundle b]) (currRoot b) 0 [] (dirBundle b)
  else b.

(** The body of the inner loop of [bundleSmallFiles]. *)
Definition addFile (b : bundler) (f : File) : bundler :=
  if IsDir f
  then Bundler (out b) (currRoot b) (currBytes b) (currBundle b) (dirBundle b ++ [f])
  else
    let b1 := if Size f >? c_BUNDLE_LIMIT_SIZE then nextBundle b else b in
    let b2 := if currBytes b1 >? c_BUNDLE_MAX_SIZE then nextBundle b1 else b1 in
    Bundler (out b2) (currRoot b2) (currBytes b2 + Size f) (currBundle b2 ++ [f])
            (dirBundle b2).

Definition bundleLoop (bundles : list (list File)) : bundler :=
  fold_left (fun b bundle => nextBundle (fold_left addFile bundle b)) bundles bundler0.

(** Bundle small files together. *)
Definition bundleSmallFiles (bundles : list (list File)) : list (list File) :=
  let b := bundleLoop bundles in
  if (0 <? length (dirBundle b))%nat then out b ++ [dirBundle b] else out b.

(** Traditional bundling approach; group files into similar paths, and then
    bundle by size within each path. *)
Definition bundleByPathAndSize (files : list File) : list (list File) :=
  bundleSmallFiles (sortBundlesBySize (bundleByPath (sortBundlesByPath (makeBundle files)))).

(** New bundling approach; first split by size cutoff, then sort by path and
    bundle up small files. *)
Definition bundleSmallFilesAcrossPaths (files : list File) : list (list File) :=
  bundleSmallFiles (sortBundlesByPath (splitBundlesBySizeLimit (makeBundle files))).

(** *** Update and LatestEntries (src/unnamed/part_001) *)

Section Update.
Context `{FilePath} `{FileSystem}.

(** [now.Truncate(time.Second)] for an instant in nanoseconds. *)
Definition truncateSecond (now : Z) : Z := now - now mod 1000000000.

(** The body of the inner loop of [Update]. *)
Definition updateOne (lastSet key : string) (acc : heap * Manifest) (f : File) :
    heap * Manifest :=
  let '(h, m) := acc in
  let parts := if negb (IsDir f) then [mkPart key (0, 0)] else [] in
  let newEntry := mkEntry f lastSet parts in
  match pathMap m !! Path f with
  | Some p => (<[p := newEntry]> h, m)                     (* replace the entry *)
  | None =>                                                 (* add a new entry *)
      let '(h', p) := alloc h newEntry in
      (h', setIndex m (Entries m ++ [p]) (<[Path f := p]> (pathMap m)))
  end.

Definition updateBundle (lastSet : string) (acc : heap * Manifest * keyState)
    (bundle : list File) : heap * Manifest * keyState :=
  let '(hm, nextKeyState) := acc in
  let '(key, nextKeyState') := nextKey nextKeyState in
  (fold_left (updateOne lastSet key) bundle hm, nextKeyState').

Definition Update (h : heap) (m : Manifest) (files : list File) (now : Z) :
    heap * Manifest * Z :=
  let files := match ChecksumFiles [files] with    (* pre-populate hashes *)
               | [fs] => fs
               | _ => files
               end in
  let m := mkManifest (Version m) (manifestKey now) (Created m) (truncateSecond now)
                      (Entries m) (pathMap m) in
  let bundles := bundleSmallFilesAcrossPaths files in
  let nextKeyState := keyFactory (Z.of_nat (length bundles)) in
  let '(hm, _) := fold_left (updateBundle (LastSet m)) bundles (h, m, nextKeyState) in
  (hm, now).

Definition LatestEntries (h : heap) (m : Manifest) : outcome (gmap string (list ptr)) :=
  fold_left
    (fun acc p =>
       entries ← acc;
       e ← load h p;
       if String.eqb (Set_ e) (LastSet m)
       then Done (fold_left
                    (fun (entries : gmap string (list ptr)) part =>
                       let obj := (LastSet m ++ "/" ++ Key part)%string in
                       <[obj := default [] (entries !! obj) ++ [p]]> entries)
                    (Parts e) entries)
       else Done entries)
    (Entries m) (Done ∅).

(** The zero value of [time.Time], an instant long before any clock reads. *)
Definition zeroTime : Z := -62135596800000000000.

Definition NewManifest (h : heap) (files : list File) (now : Z) : heap * Manifest :=
  let m := mkManifest 0 EmptyString zeroTime zeroTime [] ∅ in
  let '(h', m', now) := Update h m files now in
  (h', mkManifest (Version m') (LastSet m') (truncateSecond now) (Updated m')
                  (Entries m') (pathMap m')).

End Update.

(** *** The JSON codec (manifest.go) *)

Section Codec.
Context `{FilePath} `{FileSystem} `{Codecs}.

Definition zeroFile : File := mkFile EmptyString EmptyString 0 0 zeroTime 0 0 zeroSHA1.
Definition zeroEntry : ManifestEntry := mkEntry zeroFile EmptyString [].

Definition emptyRange : Z * Z := (0, 0).

Definition marshalPart (p : ManifestEntryPart) : json :=
  JObj (("key", JStr (Key p)) ::
        (if bool_decide (Range p = emptyRange) then []
         else [("range", JArr [JInt (fst (Range p)); JInt (snd (Range p))])]))%string.

(** [ManifestEntry.MarshalJSON]: a map, which Go writes with its keys sorted. *)
Definition field (key : string) (v : json) : string * json := (key, v).

Definition marshalEntry (e : ManifestEntry) : json :=
  let f := EFile e in
  JObj ([field "gid" (JInt (GID f)); field "mode" (JInt (Mode f));
         field "mtime" (JStr (formatRFC3339 (ModTime f))); field "name" (JStr (Name f))]
        ++ (if (0 <? length (Parts e))%nat
            then [field "parts" (JArr (map marshalPart (Parts e)))] else [])
        ++ [field "root" (JStr (Root f)); field "set" (JStr (Set_ e))]
        ++ (if HasChecksum f then [field "sha1" (JStr (base64Encode (SHA1 f)))] else [])
        ++ (if negb (IsDir f) then [field "size" (JInt (Size f))] else [])
        ++ [field "uid" (JInt (UID f))]).

(** [Manifest.JSON]: [MarshalJSON] sets the version to 3. *)
Definition marshalManifest (h : heap) (m : Manifest) : outcome json :=
  entries ← fold_left (fun acc p => es ← acc; e ← load h p; Done (es ++ [marshalEntry e]))
                      (Entries m) (Done []);
  Done (JObj [("version", JInt 3); ("lastSet", JStr (LastSet m));
              ("created", JStr (formatRFC3339 (Created m)));
              ("updated", JStr (formatRFC3339 (Updated m)));
              ("entries", JArr entries)]%string).

(** [json.Unmarshal(raw, &x)] at a [store.ByteRange], an array of two ints. *)
Definition unmarshalRange (raw : json) (x : Z * Z) : (Z * Z) * option error :=
  match raw with
  | JNull => (x, None)
  | JArr items =>
      let '(lo, e1) := match items with
                       | i :: _ => unmarshalInt minInt maxInt i (fst x)
                       | [] => (0, None)
                       end in
      let '(hi, e2) := match items with
                       | _ :: i :: _ => unmarshalInt minInt maxInt i (snd x)
                       | _ => (0, None)
                       end in
      ((lo, hi), Store.firstErr e1 e2)
  | _ => (x, Some (ErrJSON "cannot unmarshal into ByteRange"))
  end.

Definition unmarshalPart (raw : json) : ManifestEntryPart * option error :=
  let zero := mkPart EmptyString emptyRange in
  match raw with
  | JNull => (zero, None)
  | JObj fields =>
      fold_left (fun acc kv =>
                   let '(p, err) := acc in
                   if keyMatches "key" (fst kv) then
                     let '(v, e) := unmarshalString (snd kv) (Key p) in
                     (mkPart v (Range p), Store.firstErr err e)
                   else if keyMatches "range" (fst kv) then
                     let '(v, e) := unmarshalRange (snd kv) (Range p) in
                     (mkPart (Key p) v, Store.firstErr err e)
                   else acc)
                fields (zero, None)
  | _ => (zero, Some (ErrJSON "cannot unmarshal into ManifestEntryPart"))
  end.

Definition unmarshalParts (raw : json) (x : list ManifestEntryPart) :
    list ManifestEntryPart * option error :=
  match raw with
  | JNull => ([], None)
  | JArr items =>
      fold_left (fun acc item =>
                   let '(p, e) := unmarshalPart item in
                   (fst acc ++ [p], Store.firstErr (snd acc) e))
                items ([], None)
  | _ => (x, Some (ErrJSON "cannot unmarshal into []ManifestEntryPart"))
  end.

(** [if raw, ok := keymap[key]; ok { ... *raw ... }]: the value of an
    optional key, whose dereference panics when the key holds [null]. *)
Definition optional (m : keymap) (key : string) : outcome (option json) :=
  match m !! key with
  | None => Done None
  | Some (Some raw) => Done (Some raw)
  | Some None => Panic "invalid memory address or nil pointer dereference"
  end.

(** [copy(f.SHA1[:], b)]. *)
Definition copySHA1 (old b : list Z) : list Z :=
  let b := take (length old) b in b ++ drop (length b) old.

(** The first error of the map [errors], for some order of its keys. *)
Definition anyError (errs : list (option error)) : option error :=
  fold_left Store.firstErr errs None.

Definition UnmarshalEntry (raw : json) (f : ManifestEntry) :
    outcome (ManifestEntry * option error) :=
  match unmarshalKeymap raw with
  | None => Done (f, Some (ErrJSON "cannot unmarshal into map"))
  | Some keymap =>
      r ← deref keymap "root";  let '(root, e1) := unmarshalString r (Root (EFile f)) in
      r ← deref keymap "name";  let '(name, e2) := unmarshalString r (Name (EFile f)) in
      r ← deref keymap "mode";  let '(mode, e3) := unmarshalInt 0 maxUint32 r (Mode (EFile f)) in
      r ← deref keymap "mtime"; let '(mtime, e4) := unmarshalTime r (ModTime (EFile f)) in
      r ← deref keymap "uid";   let '(uid, e5) := unmarshalInt minInt maxInt r (UID (EFile f)) in
      r ← deref keymap "gid";   let '(gid, e6) := unmarshalInt minInt maxInt r (GID (EFile f)) in
      r ← deref keymap "set";   let '(set, e7) := unmarshalString r (Set_ f) in
      parts ← optional keymap "parts";
      let '(parts, e8) := match parts with
                          | Some r => unmarshalParts r (Parts f)
                          | None => (Parts f, None)
                          end in
      size ← optional keymap "size";
      let '(size, e9) := match size with
                         | Some r => unmarshalInt minInt maxInt r (Size (EFile f))
                         | None => (Size (EFile f), None)
                         end in
      sha1 ← optional keymap "sha1";
      let '(sha1, e10) := match sha1 with
                          | Some r => let '(b, e) := unmarshalBytes r [] in
                                      (copySHA1 (SHA1 (EFile f)) b, e)
                          | None => (SHA1 (EFile f), None)
                          end in
      Done (mkEntry (mkFile root name size mode mtime uid gid sha1) set parts,
            anyError [e1; e2; e3; e4; e5; e6; e7; e8; e9; e10])
  end.

(** How the struct decoder leaves a value: decoded, with the first type
    error it saved on the way, or given up at the error of an
    [UnmarshalJSON] it called. *)
Inductive decoding (A : Type) : Type :=
| Decoded (a : A) (saved : option error)
| Aborted (e : error).
#[global] Arguments Decoded {A} a saved.
#[global] Arguments Aborted {A} e.

(** The fields of [manifest] while they are decoded: the entries are the
    objects behind the pointers of the slice, [None] for a nil pointer. *)
Record manifestFields := mkFields {
  fVersion : Z;
  fLastSet : string;
  fCreated : Z;
  fUpdated : Z;
  fEntries : list (option ManifestEntry)
}.

Definition zeroFields : manifestFields := mkFields 0 EmptyString zeroTime zeroTime [].

(** An element of [[]*ManifestEntry]: [null] is the nil pointer, anything
    else a new entry that unmarshals itself. *)
Definition unmarshalEntryItem (acc : outcome (decoding (list (option ManifestEntry))))
    (item : json) : outcome (decoding (list (option ManifestEntry))) :=
  d ← acc;
  match d with
  | Aborted e => Done (Aborted e)
  | Decoded es saved =>
      match item with
      | JNull => Done (Decoded (es ++ [None]) saved)
      | _ => '(e, err) ← UnmarshalEntry item zeroEntry;
             match err with
             | Some err => Done (Aborted err)
             | None => Done (Decoded (es ++ [Some e]) saved)
             end
      end
  end.

Definition unmarshalField (acc : outcome (decoding manifestFields)) (kv : string * json) :
    outcome (decoding manifestFields) :=
  d ← acc;
  match d with
  | Aborted e => Done (Aborted e)
  | Decoded t saved =>
      let '(key, raw) := kv in
      if keyMatches "version" key then
        let '(v, e) := unmarshalInt minInt maxInt raw (fVersion t) in
        Done (Decoded (mkFields v (fLastSet t) (fCreated t) (fUpdated t) (fEntries t))
                      (Store.firstErr saved e))
      else if keyMatches "lastSet" key then
        let '(v, e) := unmarshalString raw (fLastSet t) in
        Done (Decoded (mkFields (fVersion t) v (fCreated t) (fUpdated t) (fEntries t))
                      (Store.firstErr saved e))
      else if keyMatches "created" key then
        match unmarshalTime raw (fCreated t) with
        | (v, None) =>
            Done (Decoded (mkFields (fVersion t) (fLastSet t) v (fUpdated t) (fEntries t)) saved)
        | (_, Some e) => Done (Aborted e)
        end
      else if keyMatches "updated" key then
        match unmarshalTime raw (fUpdated t) with
        | (v, None) =>
            Done (Decoded (mkFields (fVersion t) (fLastSet t) (fCreated t) v (fEntries t)) saved)
        | (_, Some e) => Done (Aborted e)
        end
      else if keyMatches "entries" key then
        match raw with
        | JNull =>
            Done (Decoded (mkFields (fVersion t) (fLastSet t) (fCreated t) (fUpdated t) []) saved)
        | JArr items =>
            d ← fold_left unmarshalEntryItem items (Done (Decoded [] saved));
            match d with
            | Aborted e => Done (Aborted e)
            | Decoded es saved =>
                Done (Decoded (mkFields (fVersion t) (fLastSet t) (fCreated t) (fUpdated t) es)
                              saved)
            end
        | _ => Done (Decoded t (Store.firstErr saved
                                  (Some (ErrJSON "cannot unmarshal into []*ManifestEntry"))))
        end
      else Done (Decoded t saved)
  end.

(** [m.Entries] and [m.buildPathMap()] for decoded entries: every entry
    becomes an object of the heap, and building the map calls [Path] through
    every pointer, the nil ones too. *)
Definition installEntries (h : heap) (es : list (option ManifestEntry)) :
    outcome (heap * list ptr) :=
  fold_left (fun acc e =>
               '(h, ps) ← acc;
               match e with
               | None => Panic "invalid memory address or nil pointer dereference"
               | Some e => let '(h', p) := alloc h e in Done (h', ps ++ [p])
               end)
            es (Done (h, [])).

Definition zeroManifest : Manifest := mkManifest 0 EmptyString zeroTime zeroTime [] ∅.

(** [json.Unmarshal(data, &m)], which calls [Manifest.UnmarshalJSON]. *)
Definition UnmarshalManifest (h : heap) (raw : json) : outcome (heap * Manifest * option error) :=
  d ← match raw with
      | JNull => Done (Decoded zeroFields None)
      | JObj fields => fold_left unmarshalField fields (Done (Decoded zeroFields None))
      | _ => Done (Decoded zeroFields (Some (ErrJSON "cannot unmarshal into manifest")))
      end;
  match d with
  | Aborted e => Done (h, zeroManifest, Some e)
  | Decoded _ (Some e) => Done (h, zeroManifest, Some e)
  | Decoded t None =>
      '(h', ps) ← installEntries h (fEntries t);
      pm ← buildPathMap h' ps;
      Done (h', mkManifest (fVersion t) (fLastSet t) (fCreated t) (fUpdated t) ps pm, None)
  end.

End Codec.

(** *** compatibility.go *)

Section Compatibility.
Context `{FilePath} `{FileSystem} `{Codecs}.

(** [strings.Split(s, "/")]. *)
Fixpoint splitSlash (cur : string) (s : string) : list string :=
  match s with
  | EmptyString => [cur]
  | String c s' =>
      if Ascii.eqb c "/" then cur :: splitSlash EmptyString s'
      else splitSlash (cur ++ String c EmptyString) s'
  end.

Definition unmarshalV2ManifestEntry (raw : json) (f : ManifestEntry) :
    outcome (ManifestEntry * option error) :=
  match unmarshalKeymap raw with
  | None => Done (f, Some (ErrJSON "cannot unmarshal into map"))
  | Some keymap =>
      r ← deref keymap "root";  let '(root, e1) := unmarshalString r (Root (EFile f)) in
      r ← deref keymap "name";  let '(name, e2) := unmarshalString r (Name (EFile f)) in
      r ← deref keymap "mode";  let '(mode, e3) := unmarshalInt 0 maxUint32 r (Mode (EFile f)) in
      r ← deref keymap "mtime"; let '(mtime, e4) := unmarshalTime r (ModTime (EFile f)) in
      r ← deref keymap "uid";   let '(uid, e5) := unmarshalInt minInt maxInt r (UID (EFile f)) in
      r ← deref keymap "gid";   let '(gid, e6) := unmarshalInt minInt maxInt r (GID (EFile f)) in
      size ← optional keymap "size";
      let '(size, e7) := match size with
                         | Some r => unmarshalInt minInt maxInt r (Size (EFile f))
                         | None => (Size (EFile f), None)
                         end in
      let f1 := mkEntry (mkFile root name size mode mtime uid gid (SHA1 (EFile f)))
                        (Set_ f) (Parts f) in
      match anyError [e1; e2; e3; e4; e5; e6; e7] with
      | Some e => Done (f1, Some e)
      | None =>
          key ← optional keymap "_";
          r2 ← match key with
               | None => Done (inl f1)
               | Some r =>
                   (* The possibility exited for a V2 manifest to have multiple keys,
                      but in practice this never happened, so just unmarshall the single
                      string key. *)
                   match unmarshalString r EmptyString with
                   | (_, Some e) => Done (inr e)
                   | (obj, None) =>
                       let setKey := splitSlash EmptyString obj in
                       set ← index setKey 0;
                       k ← index setKey 1;
                       Done (inl (mkEntry (EFile f1) set [mkPart k emptyRange]))
                   end
               end;
          match r2 with
          | inr e => Done (f1, Some e)
          | inl f2 =>
              sha1 ← optional keymap "sha1";
              match sha1 with
              | None => Done (f2, None)
              | Some r =>
                  match unmarshalBytes r [] with
                  | (_, Some e) => Done (f2, Some e)
                  | (b, None) =>
                      let g := EFile f2 in
                      Done (mkEntry (mkFile (Root g) (Name g) (Size g) (Mode g) (ModTime g)
                                            (UID g) (GID g) (copySHA1 (SHA1 g) b))
                                    (Set_ f2) (Parts f2), None)
                  end
              end
          end
      end
  end.

(** [json.Unmarshal(raw, &entries)] at a [[]*json.RawMessage]. *)
Definition unmarshalRawItems (raw : json) : list (option json) * option error :=
  match raw with
  | JNull => ([], None)
  | JArr items => (map (fun i => if i is JNull then None else Some i) items, None)
  | _ => ([], Some (ErrJSON "cannot unmarshal into []*json.RawMessage"))
  end.

Definition unmarshalV2ManifestEntries (raw : json) :
    outcome (list (option ManifestEntry) * option error) :=
  match unmarshalRawItems raw with
  | (_, Some e) => Done ([], Some e)
  | (entries, None) =>
      fold_left (fun acc item =>
                   '(es, err) ← acc;
                   match err with
                   | Some e => Done (es, Some e)
                   | None =>
                       match item with
                       | None => Panic "invalid memory address or nil pointer dereference"
                       | Some r =>
                           '(e, err) ← unmarshalV2ManifestEntry r zeroEntry;
                           match err with
                           | Some err => Done (es, Some err)
                           | None => Done (es ++ [Some e], None)
                           end
                       end
                   end)
                entries (Done ([], None))
  end.

Definition unmarshalV2Manifest (h : heap) (raw : json) :
    outcome (heap * Manifest * option error) :=
  match unmarshalKeymap raw with
  | None => Done (h, zeroManifest, Some (ErrJSON "cannot unmarshal into map"))
  | Some keymap =>
      r ← deref keymap "version"; let '(version, e1) := unmarshalInt minInt maxInt r 0 in
      r ← deref keymap "key";     let '(lastSet, e2) := unmarshalString r EmptyString in
      r ← deref keymap "created"; let '(created, e3) := unmarshalTime r zeroTime in
      r ← deref keymap "entries";
      '(entries, e4) ← unmarshalV2ManifestEntries r;
      match anyError [e1; e2; e3; e4] with
      | Some e => Done (h, zeroManifest, Some e)
      | None =>
          '(h', ps) ← installEntries h entries;
          pm ← buildPathMap h' ps;
          Done (h', mkManifest version lastSet created zeroTime ps pm, None)
      end
  end.

(** [ReadManifestData] (manifest.go). *)
Definition ReadManifestData (h : heap) (raw : data) : outcome (heap * Manifest * option error) :=
  let '(ver, ok) := ParseVersionJSON raw in
  if ok then
    match raw with
    | Some doc =>
        if (ver =? 1) || (ver =? 2) then unmarshalV2Manifest h doc
        else if ver =? 3 then UnmarshalManifest h doc
        else Done (h, zeroManifest, Some ErrBadVersion)
    | None => Done (h, zeroManifest, Some ErrMalformedConfig)
    end
  else Done (h, zeroManifest, Some ErrMalformedConfig).

(** Write the latest manifest to the store and to disk. *)
Definition saveManifest (bucket : Store.Store) (h : heap) (m : Manifest) :
    outcome (Store.Store * option error) :=
  let localFile := "manifest.json~"%string in
  doc ← marshalManifest h m;
  match writeError localFile with
  | Some e => Done (bucket, Some e)
  | None =>
      let '(bucket, err) := Store.Put bucket ("manifest/" ++ LastSet m) (Store.Document doc) in
      match err with
      | Some e => Done (bucket, Some e)
      | None => Done (Store.putUserMetadata bucket "manifest/latest" (JStr (LastSet m)))
      end
  end.

(** *** backupLatest (src/unnamed/part_001)

    The uploads run as goroutines behind a semaphore; the embedding runs
    them one after the other, each to its end, in the order the loop starts
    them.  [totalPuts] and [donePuts] are the counters the closures share. *)
Record uploads := mkUploads {
  totalPuts : Z;
  donePuts : Z;
  man : Manifest;
  hp : heap;
  st : Store.Store
}.

Definition setStore (u : uploads) (s : Store.Store) : uploads :=
  mkUploads (totalPuts u) (donePuts u) (man u) (hp u) s.

(** [archive.PackReader(files...)]: the tarball, or the error of reading a
    file into it. *)
Definition PackReader (files : list File) : Store.body + error :=
  match packError (map Path files) with
  | Some e => inr e
  | None => inl (Store.Tarball files)
  end.

Definition dropFromManifest (u : uploads) (files : list File) : outcome uploads :=
  fold_left (fun acc f =>
               u ← acc;
               '(h, m, _) ← Remove (hp u) (man u) f;
               Done (mkUploads (totalPuts u) (donePuts u) m h (st u)))
            files
            (Done (mkUploads (totalPuts u - 1) (donePuts u) (man u) (hp u) (st u))).

(** The files of a bundle: don't put an object in the store for a
    directory, use the manifest. *)
Definition bundleFiles (h : heap) (entries : list ptr) : outcome (list File) :=
  fold_left (fun acc p =>
               files ← acc;
               e ← load h p;
               if IsDir (EFile e) then Done files else Done (files ++ [EFile e]))
            entries (Done []).

(** One iteration of the loop, with the goroutine it starts. *)
Definition uploadBundle (acc : outcome uploads) (kv : string * list ptr) : outcome uploads :=
  u ← acc;
  let '(key, entries) := kv in
  files ← bundleFiles (hp u) entries;
  let tarball := PackReader files in
  match Store.Pack (st u) ("blob/" ++ key) with
  | inr _ => dropFromManifest u files
  | inl packer =>
      let '(s, packer, err) := Store.PackerPutReader (st u) packer tarball in
      match err with
      | Some _ => dropFromManifest (setStore u s) files
      | None =>
          let '(s, packer, err) := Store.PackerClose s packer in
          match err with
          | Some _ => dropFromManifest (setStore u s) files
          | None => Done (mkUploads (totalPuts u) (donePuts u + 1) (man u) (hp u) s)
          end
      end
  end.

(** Backup changed files only.  Beside the error it returns, the embedding
    gives the state the call leaves behind. *)
Definition backupLatest (store : Store.Store) (h : heap) (m : Manifest) :
    outcome (uploads * option error) :=
  latest ← LatestEntries h m;
  let totalPuts := Z.of_nat (size latest) in
  if 0 <? totalPuts then
    u ← fold_left uploadBundle (map_to_list latest) (Done (mkUploads totalPuts 0 m h store));
    '(s, err) ← saveManifest (st u) (hp u) (man u);
    Done (setStore u s, err)
  else Done (mkUploads totalPuts 0 m h store, None).

(** *** RestoreToPath: scan and tag for restore

    Restore changed files from the store to a particular folder: the loop
    over the entries of the manifest [m] that was fetched.  [local] is the
    manifest of the files found under the root, [incl] the paths asked
    for, and [targets] the map of which blobs to fetch, containing the
    files for restore; a directory is restored directly from the manifest
    data and gets no target. *)
Definition included (incl : list string) (path : string) : bool :=
  existsb (fun p => String.prefix p path) incl.       (* strings.HasPrefix(path, p) *)

Definition tagForRestore (hl : heap) (local : Manifest) (incl : list string) (h : heap)
    (acc : outcome (gmap string (list File))) (p : ptr) : outcome (gmap string (list File)) :=
  targets ← acc;
  e ← load h p;
  identical ← HasIdentical hl local (EFile e);
  if negb identical && included incl (EPath e) then
    if IsDir (EFile e) then Done targets   (* restore directly from the manifest data *)
    else
      part ← index (Parts e) 0;
      let key := ("blob/" ++ Set_ e ++ "/" ++ Key part)%string in
      Done (<[key := default [] (targets !! key) ++ [EFile e]]> targets)
  else Done targets.

Definition restoreTargets (hl : heap) (local : Manifest) (incl : list string)
    (h : heap) (m : Manifest) : outcome (gmap string (list File)) :=
  fold_left (tagForRestore hl local incl h) (Entries m) (Done ∅).

End Compatibility.

End Backup.

(** ** Package crypto (the file of package crypto in src/store/store_test.go)

    Bytes are integers of [0, 256).  AES, HMAC-SHA1 and the source of
    randomness are parameters; [io.CopyN], [ioutil.ReadAll] and the readers
    of packages bytes, io and iotest are embedded from the library. *)

Module Crypto.
Import Go.

Definition c_HMAC_SIZE : Z := 20.      (* sha1.Size: 20-byte checksum for SHA1 *)
Definition c_BLOCK_SIZE : Z := 16.     (* aes.BlockSize *)
Definition c_MIN_READ : Z := 512.      (* bytes.MinRead *)

Definition len (b : list Z) : Z := Z.of_nat (length b).

(** *** io.Reader

    [Read fuel r n] is [r.Read(p)] at a slice of [n] bytes: the reader after
    the call, the bytes it stored in [p], and the error.  [fuel] bounds the
    loops of the readers below. *)
Class Reader (S : Type) : Type :=
  Read : nat -> S -> Z -> outcome (S * list Z * option error).

(** [cipher.Block] for the key of the crypter, and HMAC-SHA1 of all the
    bytes written, under its authentication key. *)
Class Primitives : Type := {
  blockEncrypt : list Z -> list Z;
  blockDecrypt : list Z -> list Z;
  hmacSum : list Z -> list Z
}.

(** The free capacity a [bytes.Buffer] that holds [n] bytes has after
    [grow(MinRead)]. *)
Class Allocator : Type := room : Z -> Z.

(** *** bytes.Buffer and bytes.Reader *)

Definition Buffer : Type := list Z.

Definition bufferRead (b : Buffer) (n : Z) : Buffer * list Z * option error :=
  match b with
  | [] => if n =? 0 then ([], [], None) else ([], [], Some EOF)
  | _ => (drop (Z.to_nat n) b, take (Z.to_nat n) b, None)
  end.

#[global] Instance Buffer_Reader : Reader Buffer := fun _ b n => Done (bufferRead b n).

Record BytesReader : Type := NewReader { unreadBytes : list Z }.

#[global] Instance BytesReader_Reader : Reader BytesReader := fun _ r n =>
  match unreadBytes r with
  | [] => Done (r, [], Some EOF)
  | s => Done (NewReader (drop (Z.to_nat n) s), take (Z.to_nat n) s, None)
  end.

(** *** io.LimitReader, io.CopyN, ioutil.ReadAll, iotest.OneByteReader *)

Record LimitedReader (S : Type) : Type := LimitReader { R : S; N : Z }.
#[global] Arguments LimitReader {S} R N.
#[global] Arguments R {S} l.
#[global] Arguments N {S} l.

#[global] Instance LimitedReader_Reader {S : Type} `{Reader S} : Reader (LimitedReader S) :=
  fun fuel l n =>
    if N l <=? 0 then Done (l, [], Some EOF)
    else '(r, p, e) ← Read fuel (R l) (Z.min n (N l));
         Done (LimitReader r (N l - len p), p, e).

(** [b.ReadFrom(r)]: reads from [r] until EOF and appends to the buffer. *)
Fixpoint ReadFrom `{Allocator} {S : Type} `{Reader S} (fuel : nat) (b : Buffer) (r : S) :
    outcome (S * Buffer * option error) :=
  match fuel with
  | O => Spin
  | S fuel =>
      '(r, p, e) ← Read fuel r (room (len b));
      let b := b ++ p in
      match e with
      | Some EOF => Done (r, b, None)        (* e is EOF, so return nil explicitly *)
      | Some e => Done (r, b, Some e)
      | None => ReadFrom fuel b r
      end
  end.

(** [io.CopyN(dst, src, n)] at a [*bytes.Buffer]: [io.Copy] hands the
    limited reader to [dst.ReadFrom]. *)
Definition CopyN `{Allocator} {S : Type} `{Reader S} (fuel : nat) (dst : Buffer) (src : S)
    (n : Z) : outcome (S * Buffer * Z * option error) :=
  '(l, b, e) ← ReadFrom fuel dst (LimitReader src n);
  let written := len b - len dst in
  if written =? n then Done (R l, b, n, None)
  else if (written <? n) && bool_decide (e = None) then Done (R l, b, written, Some EOF)
  else Done (R l, b, written, e).

Definition ReadAll `{Allocator} {S : Type} `{Reader S} (fuel : nat) (r : S) :
    outcome (S * list Z * option error) :=
  ReadFrom fuel [] r.

Record oneByteReader (S : Type) : Type := OneByteReader { r1 : S }.
#[global] Arguments OneByteReader {S} r1.
#[global] Arguments r1 {S} o.

#[global] Instance oneByteReader_Reader {S : Type} `{Reader S} : Reader (oneByteReader S) :=
  fun fuel o n =>
    if n =? 0 then Done (o, [], None)
    else '(r, p, e) ← Read fuel (r1 o) 1; Done (OneByteReader r, p, e).

(** *** Padding *)

(** Pad a plaintext to the next whole block size. We use PKCS7-style
    padding. *)
Definition padBuffer (buf : Buffer) : Buffer :=
  let pad := c_BLOCK_SIZE - Z.rem (len buf) c_BLOCK_SIZE in
  buf ++ repeat pad (Z.to_nat pad).

(** Strip a padded plaintext. *)
Definition unpadBuffer (buf : Buffer) : outcome (Buffer * option error) :=
  let length := len buf in
  match last buf with
  | None => Panic "index out of range"
  | Some pad =>
      (* Validate the padding length and bytes. *)
      if (pad >? c_BLOCK_SIZE) || (pad <=? 0) then Done (buf, Some ErrPadLength)
      else if length - pad <? 0 then Panic "slice bounds out of range"
      else if forallb (Z.eqb pad) (drop (Z.to_nat (length - pad)) buf)
      then Done (take (Z.to_nat (length - pad)) buf, None)     (* Discard the padding. *)
      else Done (buf, Some ErrPadBytes)
  end.

(** *** cipher.NewCBCEncrypter and cipher.NewCBCDecrypter *)

Definition xorBytes (a b : list Z) : list Z := zip_with Z.lxor a b.

Section Modes.
Context `{Primitives}.

Fixpoint encryptBlocks (n : nat) (iv src : list Z) : list Z * list Z :=
  match n with
  | O => ([], iv)
  | S n =>
      let c := blockEncrypt (xorBytes (take 16 src) iv) in
      let '(dst, iv') := encryptBlocks n c (drop 16 src) in
      (c ++ dst, iv')
  end.

Fixpoint decryptBlocks (n : nat) (iv src : list Z) : list Z * list Z :=
  match n with
  | O => ([], iv)
  | S n =>
      let c := take 16 src in
      let '(dst, iv') := decryptBlocks n c (drop 16 src) in
      (xorBytes (blockDecrypt c) iv ++ dst, iv')
  end.

(** [x.CryptBlocks(buf, buf)]: the bytes of the buffer after the call and
    the vector the mode keeps for the next call. *)
Definition CryptBlocks (mode : nat -> list Z -> list Z -> list Z * list Z) (iv src : list Z) :
    outcome (list Z * list Z) :=
  if Z.rem (len src) c_BLOCK_SIZE =? 0
  then Done (mode (Z.to_nat (Z.quot (len src) c_BLOCK_SIZE)) iv src)
  else Panic "crypto/cipher: input not full blocks".

End Modes.

(** *** encryptReader and decryptReader

    [cbc] is the vector of the block mode, [mac] the bytes written to the
    HMAC so far. *)

Record encryptReader (T : Type) : Type := mkEncryptReader {
  text : T;
  cbc : list Z;
  mac : list Z;
  buf : Buffer;
  fin : bool
}.
#[global] Arguments mkEncryptReader {T} text cbc mac buf fin.
#[global] Arguments text {T} e.
#[global] Arguments cbc {T} e.
#[global] Arguments mac {T} e.
#[global] Arguments buf {T} e.
#[global] Arguments fin {T} e.

Record decryptReader (T : Type) : Type := mkDecryptReader {
  dtext : T;
  dcbc : list Z;
  dmac : list Z;
  dbuf : Buffer;
  dfin : bool;
  enc : Buffer                 (* Read bytes not yet decrypted. *)
}.
#[global] Arguments mkDecryptReader {T} dtext dcbc dmac dbuf dfin enc.
#[global] Arguments dtext {T} d.
#[global] Arguments dcbc {T} d.
#[global] Arguments dmac {T} d.
#[global] Arguments dbuf {T} d.
#[global] Arguments dfin {T} d.
#[global] Arguments enc {T} d.

Section Readers.
Context `{Primitives} `{Allocator} {T : Type} `{Reader T}.

(** The second half of [encryptReader.Read], after the input is read: [n]
    bytes [out] are stored already, [size] is [len(b)]. *)
Definition encryptRest (e : encryptReader T) (out : list Z) (size : Z) :
    outcome (encryptReader T * list Z * option error) :=
  (* Pad the plaintext to ensure we're a multiple of aes.BlockSize. *)
  let b := if fin e then padBuffer (buf e) else buf e in
  (* Encrypt the buffer contents and continue to HMAC the ciphertext. *)
  '(b, iv) ← CryptBlocks encryptBlocks (cbc e) b;
  let m := mac e ++ b in
  (* Append the final HMAC signature. *)
  let b := if fin e then b ++ hmacSum m else b in
  (* Remaining read from the buffer. *)
  let '(b, p, err) := bufferRead b (size - len out) in
  Done (mkEncryptReader (text e) iv m b (fin e), out ++ p, err).

(** Implement io.Reader. *)
Definition encryptRead (fuel : nat) (e : encryptReader T) (size : Z) :
    outcome (encryptReader T * list Z * option error) :=
  (* Drain the buffer. *)
  let '(b, out, err) := bufferRead (buf e) size in
  let n := len out in
  if (n =? size) || fin e then Done (mkEncryptReader (text e) (cbc e) (mac e) b (fin e), out, err)
  else
    (* Read the remaining required, rounded up to the nearest aes.BlockSize. *)
    let target := (Z.quot (size - n) c_BLOCK_SIZE + 1) * c_BLOCK_SIZE in
    '(t, b, _, err) ← CopyN fuel b (text e) target;
    match err with
    | Some EOF =>
        (* We've reached the end of our input. Pad plaintext, sign ciphertext. *)
        encryptRest (mkEncryptReader t (cbc e) (mac e) b true) out size
    | None => encryptRest (mkEncryptReader t (cbc e) (mac e) b (fin e)) out size
    | Some err =>
        (* We had trouble reading from our input. Return with the error. *)
        Done (mkEncryptReader t (cbc e) (mac e) b (fin e), out, Some err)
    end.

#[global] Instance encryptReader_Reader : Reader (encryptReader T) := encryptRead.

(** The second half of [decryptReader.Read], after the input is read. *)
Definition decryptRest (fuel : nat) (d : decryptReader T) (out : list Z) (size target : Z) :
    outcome (decryptReader T * list Z * option error) :=
  (* Put the required amount of ciphertext in the buffer. Leave the rest. *)
  '(e, b, copied, err) ← CopyN fuel (dbuf d) (enc d) target;
  if negb (copied =? target) then Panic "sanity check"
  else
    (* Continue calculating the HMAC and decrypt what's in the buffer. *)
    let m := dmac d ++ b in
    '(b, iv) ← CryptBlocks decryptBlocks (dcbc d) b;
    let d := mkDecryptReader (dtext d) iv m b (dfin d) e in
    (* Check that message is authentic, then unpad the decrypted buffer
       contents. *)
    if dfin d then
      if negb (bool_decide (e = hmacSum m)) then Done (d, out, Some ErrNotAuthentic)
      else
        '(b, err) ← unpadBuffer b;
        let d := mkDecryptReader (dtext d) iv m b (dfin d) e in
        match err with
        | Some err => Done (d, out, Some err)
        | None =>
            let '(b, p, err) := bufferRead b (size - len out) in
            Done (mkDecryptReader (dtext d) iv m b (dfin d) e, out ++ p, err)
        end
    else
      (* Remaining read from the buffer. *)
      let '(b, p, err) := bufferRead b (size - len out) in
      Done (mkDecryptReader (dtext d) iv m b (dfin d) e, out ++ p, err).

(** Found our message boundary. Leave the HMAC, decrypt the rest. *)
Definition decryptLast (fuel : nat) (d : decryptReader T) (out : list Z) (size : Z) :
    outcome (decryptReader T * list Z * option error) :=
  let target := len (enc d) - c_HMAC_SIZE in
  (* Check message length before CryptBlocks() panics below. *)
  if negb (Z.rem target c_BLOCK_SIZE =? 0) then Done (d, out, Some ErrNotBlockMultiple)
  else decryptRest fuel d out size target.

(** Implement io.Reader. *)
Definition decryptRead (fuel : nat) (d : decryptReader T) (size : Z) :
    outcome (decryptReader T * list Z * option error) :=
  (* Drain the buffer. *)
  let '(b, out, err) := bufferRead (dbuf d) size in
  let n := len out in
  if (n =? size) || dfin d
  then Done (mkDecryptReader (dtext d) (dcbc d) (dmac d) b (dfin d) (enc d), out, err)
  else
    (* Read the remaining required, rounded up to the nearest aes.BlockSize,
       but also ensure we always read ahead by at least c_HMAC_SIZE+1 so we
       know when we hit the end of the ciphertext stream and need to unpad
       and authenticate. *)
    let target := (Z.quot (size - n) c_BLOCK_SIZE + 1) * c_BLOCK_SIZE in
    '(t, e, _, err) ← CopyN fuel (enc d) (dtext d) (target + c_HMAC_SIZE + 1);
    match err with
    | Some EOF =>
        (* We've reached the end of our input. Auth ciphertext, unpad
           plaintext. *)
        decryptLast fuel (mkDecryptReader t (dcbc d) (dmac d) b true e) out size
    | None => decryptRest fuel (mkDecryptReader t (dcbc d) (dmac d) b (dfin d) e) out size target
    | Some err =>
        (* We had trouble reading from our input. Return with the error. *)
        Done (mkDecryptReader t (dcbc d) (dmac d) b (dfin d) e, out, Some err)
    end.

#[global] Instance decryptReader_Reader : Reader (decryptReader T) := decryptRead.

(** [rnd] is what [rand.Reader] delivers of the 16 bytes asked for, with
    the error of the copy. *)
Definition EncryptReader (rnd : list Z * option error) (plaintext : T) :
    encryptReader T + error :=
  (* The IV must be unique, but need not be secure. It precedes the
     ciphertext. *)
  let '(iv, err) := rnd in
  match err with
  | Some err => inr err
  | None =>
      (* Start the signing HMAC and add the IV. *)
      inl (mkEncryptReader plaintext iv iv iv false)
  end.

Definition DecryptReader (fuel : nat) (ciphertext : T) : outcome (decryptReader T + error) :=
  (* Read the IV from the start of the stream. *)
  '(t, iv, n, err) ← CopyN fuel [] ciphertext c_BLOCK_SIZE;
  if (n <? c_BLOCK_SIZE) || bool_decide (err = Some EOF) then Done (inr ErrTooShort)
  else match err with
       | Some err => Done (inr err)
       | None =>
           (* Start the signing HMAC and add the IV. *)
           Done (inl (mkDecryptReader t iv iv [] false []))
       end.

End Readers.

Section Crypter.
Context `{Primitives} `{Allocator}.

(** Encrypt plaintext, then sign ciphertext with HMAC-SHA1 signature. *)
Definition Encrypt (fuel : nat) (rnd : list Z * option error) (plaintext : list Z) :
    outcome (list Z * option error) :=
  match EncryptReader rnd (NewReader plaintext) with
  | inr err => Done ([], Some err)
  | inl r => '(_, b, err) ← ReadAll fuel r; Done (b, err)
  end.

(** Authenticate ciphertext by its HMAC-SHA1 signature, then decrypt. *)
Definition Decrypt (fuel : nat) (ciphertext : list Z) : outcome (list Z * option error) :=
  r ← DecryptReader fuel (NewReader ciphertext);
  match r with
  | inr err => Done ([], Some err)
  | inl r => '(_, b, err) ← ReadAll fuel r; Done (b, err)
  end.

End Crypter.

End Crypto.

(** ** Package crypto, the one-shot functions (src/store/crypto/old.go)

    The envelope (iv||ciphertext||hmac) sealed and opened in one piece. *)

Module Old.
Import Go Crypto.

(** [s[lo:hi]] for a slice whose capacity is its length, as the slices
    here are; the nil slice is the empty list. *)
Definition subslice (s : list Z) (lo hi : Z) : outcome (list Z) :=
  if (lo <? 0) || (hi <? lo) || (len s <? hi) then Panic "slice bounds out of range"
  else Done (take (Z.to_nat (hi - lo)) (drop (Z.to_nat lo) s)).

(** [copy(s[at:], bytes)] for bytes that fit. *)
Definition overwrite (s : list Z) (at_ : Z) (bytes : list Z) : list Z :=
  take (Z.to_nat at_) s ++ bytes ++ drop (Z.to_nat (at_ + len bytes)) s.

(** Pad a plaintext to the next whole block size. We use PKCS7-style
    padding. *)
Definition pad (slice : list Z) : list Z :=
  let oldLen := len slice in
  let pad := c_BLOCK_SIZE - Z.rem oldLen c_BLOCK_SIZE in
  slice ++ repeat pad (Z.to_nat pad).

(** Strip a padded plaintext. *)
Definition unpad (slice : list Z) : outcome (list Z * option error) :=
  match last slice with
  | None => Panic "index out of range"
  | Some pad =>
      if (pad >? c_BLOCK_SIZE) || (pad =? 0) then Done ([], Some ErrPadLength)
      else
        (* Validate the padding bytes. *)
        tail ← subslice slice (len slice - pad) (len slice);
        if forallb (Z.eqb pad) tail
        then head ← subslice slice 0 (len slice - pad); Done (head, None)
        else Done ([], Some ErrPadBytes)
  end.

(** Our encryption envelope consists of (iv||ciphertext||hmac). *)
Definition envelope : Type := list Z.

(** Create a new envelope, generating a random IV: [rnd] is what
    [rand.Read] stores of the 16 bytes, with its error. *)
Definition newEnvelope (size : Z) (rnd : list Z * option error) : envelope * option error :=
  (take 16 (fst rnd ++ repeat 0 16) ++ repeat 0 (Z.to_nat (size + c_HMAC_SIZE)), snd rnd).

(** The length of the message part (iv||ciphertext). *)
Definition msgLen (e : envelope) : Z := len e - c_HMAC_SIZE.

(** Read an encryption envelope and validate its length. *)
Definition readEnvelope (blob : list Z) : envelope * option error :=
  (* The IV and ciphertext will both be at least aes.BlockSize. *)
  if msgLen blob <? c_BLOCK_SIZE * 2 then ([], Some ErrTooShort)
  (* CBC mode always works in whole blocks. *)
  else if negb (Z.rem (msgLen blob) c_BLOCK_SIZE =? 0) then ([], Some ErrNotBlockMultiple)
  else (blob, None).

(** Get the first (iv), the middle (ciphertext) and the last (hmac) part
    of the envelope. *)
Definition iv (e : envelope) : outcome (list Z) := subslice e 0 c_BLOCK_SIZE.
Definition ciphertext (e : envelope) : outcome (list Z) := subslice e c_BLOCK_SIZE (msgLen e).
Definition hmac (e : envelope) : outcome (list Z) := subslice e (msgLen e) (len e).

Section Envelope.
Context `{Primitives}.

(** Sign the contents of the envelope and append the signature. *)
Definition sign (e : envelope) : outcome envelope :=
  msg ← subslice e 0 (msgLen e);
  tag ← hmac e;
  Done (overwrite e (msgLen e) (take (length tag) (hmacSum msg))).

(** Authenticate the contents of the envelope against its signature. *)
Definition auth (e : envelope) : outcome bool :=
  msg ← subslice e 0 (msgLen e);
  tag ← hmac e;
  Done (bool_decide (tag = hmacSum msg)).

(** Encrypt some plaintext using AES-256 in CBC (block chaining) mode.
    The ciphertext is then signed by HMAC-SHA1 signature. *)
Definition encrypt (plaintext : list Z) (rnd : list Z * option error) :
    outcome (list Z * option error) :=
  let plaintext := pad plaintext in
  let '(blob, err) := newEnvelope (len plaintext) rnd in
  match err with
  | Some err => Done ([], Some err)
  | None =>
      v ← iv blob;
      dst ← ciphertext blob;
      '(c, _) ← CryptBlocks encryptBlocks v plaintext;
      if len dst <? len plaintext then Panic "crypto/cipher: output smaller than input"
      else
        blob ← sign (overwrite blob c_BLOCK_SIZE c);
        Done (blob, None)
  end.

(** Decrypt some ciphertext using AES-256 in CBC (block chaining) mode.
    Authenticated by its HMAC-SHA1 signature before decrypting.  The error
    of [readEnvelope] is not looked at. *)
Definition decrypt (ciphertext_ : list Z) : outcome (list Z * option error) :=
  let '(blob, _) := readEnvelope ciphertext_ in
  c ← ciphertext blob;
  ok ← auth blob;
  if negb ok then Done ([], Some ErrNotAuthentic)
  else
    v ← iv blob;
    '(p, _) ← CryptBlocks decryptBlocks v c;      (* decrypt in place *)
    unpad p.

End Envelope.

End Old.

(** ** Package main: the paths of a scan (src/backup/manifest.go, second part) *)

Module Main.
Import File.

(** [file.CleanPath]: the shortest path name equivalent, with the home
    directory for a leading tilde; it asks the environment. *)
Class PathCleaner := CleanPath : string -> string.

(** De-dupe, clean and sort a list of file paths.  The keys of the map
    come in no order of their own; [sort.Strings] puts them in theirs. *)
Definition cleanPaths `{PathCleaner} (paths : list string) : list string :=
  let uniq := fold_left (fun (uniq : gmap string bool) p => <[CleanPath p := true]> uniq)
                        paths ∅ in
  let out := fst <$> map_to_list uniq in
  sortBy String.ltb out.

End Main.

(** ** Package store: wiping, unlocking and opening (src/store/store.go) *)

Module Opening.
Import Go Json Store.

(** *** storage/mock.go *)

Definition Exists (l : Layer) : bool * option error := (true, None).
Definition Create (l : Layer) : option error := None.

Definition IsNotExist (err : option error) : bool := bool_decide (err = Some ErrNoSuchKey).

(** *** Package crypto: salt and keys *)

Definition c_SALT_SIZE : Z := 8.
Definition c_ENC_KEY_SIZE : Z := 32.        (* 32-byte key for AES-256 *)
Definition c_HMAC_KEY_SIZE : Z := 64.       (* 64-byte key for HMAC-SHA1 *)

(** [pbkdf2.Key(secret, salt, c_HASH_ITER, keyLen, sha1.New)]. *)
Class KeyDerivation := pbkdf2Key : list Z -> list Z -> Z -> list Z.

(** The errors: those of the variables of the program, and those made by
    [errors.New] at the place, by their text. *)
Inductive failure : Type :=
| Err (e : error)
| ErrNew (text : string).

(** Create a new cyptographically secure salt for hashing passwords:
    [rnd] is what [rand.Read] stores of the 8 bytes, with its error. *)
Definition Salt (rnd : list Z * option error) : list Z * option error :=
  if snd rnd is Some e then ([], Some e) else (fst rnd, None).

(** PBKDF2 for generating encryption and auth keys, derived from
    secret/salt. *)
Definition DeriveKeys `{KeyDerivation} (secret salt : list Z) : list Z * list Z :=
  let key := pbkdf2Key secret salt (c_ENC_KEY_SIZE + c_HMAC_KEY_SIZE) in
  (take (Z.to_nat c_ENC_KEY_SIZE) key, drop (Z.to_nat c_ENC_KEY_SIZE) key).

(** [aes.NewCipher] refuses the keys that have not 16, 24 or 32 bytes. *)
Definition NewCrypter (encKey authKey : list Z) : Keys + failure :=
  if negb (Crypto.len encKey =? c_ENC_KEY_SIZE)
  then inr (ErrNew "invalid encryption key length")
  else if negb (Crypto.len authKey =? c_HMAC_KEY_SIZE)
  then inr (ErrNew "invalid authentication key length")
  else inl (mkKeys encKey authKey).

Definition setEnc (s : Store) (enc : Keys) : Store :=
  mkStore (layer s) (id s) (meta s) (Some enc).

Section Store.
Context `{Codecs} `{KeyDerivation}.

(** IsClean returns true if the store is clean (has no metadata) and is
    thus safe to wipe. *)
Definition IsClean (s : Store) : Store * bool :=
  let '(s, _, err) := getStoreMetadata s in (s, IsNotExist err).

(** Open sets the encryption keys to use, tests that we can read from the
    store. *)
Definition Open (s : Store) (keys : Keys) : Store * option failure :=
  let '(ok, err) := Exists (layer s) in
  match err with
  | Some e => (s, Some (Err e))
  | None =>
      if negb ok then (s, Some (Err ErrStoreNotInitialized))
      else match NewCrypter (EncKey keys) (AuthKey keys) with
           | inr e => (s, Some e)
           | inl enc => (setEnc s enc, None)
           end
  end.

(** Unlock reads the store metadata and returns encryption keys derived
    from our secret+salt. *)
Definition Unlock (s : Store) (secret : list Z) : Store * Keys * option failure :=
  let '(s, md, err) := getStoreMetadata s in
  match err with
  | Some e =>
      if IsNotExist (Some e) then (s, mkKeys [] [], Some (Err ErrStoreNotInitialized))
      else (s, mkKeys [] [], Some (Err e))
  | None =>
      let '(encKey, authKey) := DeriveKeys secret (Store.Salt md) in
      let keys := mkKeys encKey authKey in
      let '(s, err) := Open s keys in
      (s, keys, err)
  end.

(** Wipe initializes the store by (re)populating it with metadata/salt. *)
Definition Wipe (s : Store) (secret : list Z) (rnd : list Z * option error) :
    Store * Keys * option failure :=
  let '(salt, err) := Opening.Salt rnd in
  match err with
  | Some e => (s, mkKeys [] [], Some (Err e))
  | None =>
      let '(ok, err) := Exists (layer s) in
      match err with
      | Some e => (s, mkKeys [] [], Some (Err e))
      | None =>
          match (if negb ok then Create (layer s) else None) with
          | Some e => (s, mkKeys [] [], Some (Err e))
          | None =>
              let '(s, err) := putStoreMetadata s (newMetadata salt) in
              match err with
              | Some e => (s, mkKeys [] [], Some (Err e))
              | None => Unlock s secret
              end
          end
      end
  end.

End Store.

End Opening.

(* ===================================================================== *)
(** * Part II: theorems                                                   *)
(* ===================================================================== *)

(** ** The object key factory *)

Section KeyFactory.
Import Go Backup.

(** Reading a lowercase hexadecimal numeral back. *)
Definition hexValue1 (c : ascii) : option Z :=
  (fix find (ds : list ascii) (i : Z) : option Z :=
     match ds with
     | [] => None
     | d :: ds' => if Ascii.eqb c d then Some i else find ds' (i + 1)
     end) ldigits 0.

Fixpoint hexValueFrom (acc : Z) (cs : list ascii) : option Z :=
  match cs with
  | [] => Some acc
  | c :: cs' =>
      match hexValue1 c with
      | Some d => hexValueFrom (16 * acc + d) cs'
      | None => None
      end
  end.

Definition hexValue (s : string) : option Z :=
  hexValueFrom 0 (list_ascii_of_string s).

Example hexLog_65536 : hexLog 65536 = 5.
Proof. reflexivity. Qed.

Example takeKeys_3 : takeKeys 3 (keyFactory 3) = ["0"; "1"; "2"]%string.
Proof. reflexivity. Qed.

Example takeKeys_17_last : last (takeKeys 17 (keyFactory 17)) = Some "10"%string.
Proof. reflexivity. Qed.


Lemma hexLog_unfold (n : Z) :
  hexLog n = if Z_lt_dec n 16 then 1 else 1 + hexLog (Z.shiftr n 4).
Proof. rewrite hexLog_equation_1. destruct (Z_lt_dec n 16); reflexivity. Qed.

Lemma hexDigits_unfold (u : Z) :
  hexDigits u =
  if Z_lt_dec u 16 then [hexDigit u]
  else hexDigits (Z.shiftr u 4) ++ [hexDigit (Z.land u 15)].
Proof. rewrite hexDigits_equation_1. destruct (Z_lt_dec u 16); reflexivity. Qed.

Lemma shiftr4_div (n : Z) : Z.shiftr n 4 = n / 16.
Proof. rewrite Z.shiftr_div_pow2 by lia. reflexivity. Qed.

Lemma land15_mod (n : Z) : Z.land n 15 = n mod 16.
Proof. change 15 with (Z.ones 4). rewrite Z.land_ones by lia. reflexivity. Qed.

(** Induction along the recursion of [hexLog]: from [n / 16] to [n]. *)
Lemma hex_ind (P : Z -> Prop) :
  (forall n, 0 <= n < 16 -> P n) ->
  (forall n, 16 <= n -> P (n / 16) -> P n) ->
  forall n, 0 <= n -> P n.
Proof.
  intros Hsmall Hstep n Hn. pattern n.
  apply Zlt_0_ind; [|exact Hn]. clear n Hn. intros n IH Hn.
  destruct (Z_lt_dec n 16) as [Hlt|Hge]; [apply Hsmall; lia|].
  apply Hstep; [lia|]. apply IH.
  split; [apply Z.div_pos; lia | apply Z.div_lt; lia].
Qed.

Lemma hexLog_bounds (n : Z) :
  0 <= n -> 1 <= hexLog n /\ n < 16 ^ hexLog n /\ (1 <= n -> 16 ^ (hexLog n - 1) <= n).
Proof.
  intros Hn. pattern n. apply hex_ind; [| |exact Hn]; clear n Hn.
  - intros n Hn. rewrite hexLog_unfold. destruct (Z_lt_dec n 16); [|lia].
    change (16 ^ 1) with 16. change (16 ^ (1 - 1)) with 1. lia.
  - intros n Hn (Hw & Hup & Hlo). rewrite hexLog_unfold.
    destruct (Z_lt_dec n 16); [lia|]. rewrite shiftr4_div.
    set (w := hexLog (n / 16)) in *.
    replace (1 + w - 1) with (Z.succ (w - 1)) by lia.
    replace (1 + w) with (Z.succ w) by lia.
    rewrite !Z.pow_succ_r by lia.
    pose proof (Z.div_mod n 16 ltac:(lia)) as Hdm.
    pose proof (Z.mod_pos_bound n 16 ltac:(lia)) as Hmod.
    assert (1 <= n / 16) by (apply Z.div_le_lower_bound; lia).
    split; [lia|]. split; [lia|]. intros _. specialize (Hlo ltac:(lia)). lia.
Qed.

Lemma hexDigits_length (n : Z) :
  0 <= n -> Z.of_nat (length (hexDigits n)) = hexLog n.
Proof.
  intros Hn. pattern n. apply hex_ind; [| |exact Hn]; clear n Hn.
  - intros n Hn. rewrite hexDigits_unfold, hexLog_unfold.
    destruct (Z_lt_dec n 16); [reflexivity|lia].
  - intros n Hn IH. rewrite hexDigits_unfold, hexLog_unfold.
    destruct (Z_lt_dec n 16); [lia|]. rewrite shiftr4_div.
    rewrite length_app, Nat2Z.inj_add, IH. simpl. lia.
Qed.

Lemma hexLog_mono (a b : Z) : 0 <= a <= b -> hexLog a <= hexLog b.
Proof.
  intros Hab. destruct (Z_le_dec (hexLog a) (hexLog b)) as [|Hgt]; [assumption|].
  exfalso.
  destruct (hexLog_bounds a ltac:(lia)) as (Ha1 & _ & Halo).
  destruct (hexLog_bounds b ltac:(lia)) as (Hb1 & Hbup & _).
  assert (1 <= a).
  { destruct (Z_le_dec 1 a); [assumption|]. assert (a = 0) by lia. subst a.
    rewrite hexLog_unfold in Hgt. destruct (Z_lt_dec 0 16); lia. }
  specialize (Halo ltac:(lia)).
  assert (16 ^ hexLog b <= 16 ^ (hexLog a - 1)) by (apply Z.pow_le_mono_r; lia).
  lia.
Qed.

Lemma hexValue1_hexDigit (d : Z) : 0 <= d < 16 -> hexValue1 (hexDigit d) = Some d.
Proof.
  intros Hd.
  assert (Hcases : d = 0 \/ d = 1 \/ d = 2 \/ d = 3 \/ d = 4 \/ d = 5 \/ d = 6 \/ d = 7 \/
                   d = 8 \/ d = 9 \/ d = 10 \/ d = 11 \/ d = 12 \/ d = 13 \/ d = 14 \/ d = 15)
    by lia.
  repeat (destruct Hcases as [->|Hcases]; [reflexivity|]). subst d. reflexivity.
Qed.

Lemma hexValueFrom_app (acc : Z) (l1 l2 : list ascii) :
  hexValueFrom acc (l1 ++ l2) =
  match hexValueFrom acc l1 with
  | Some a => hexValueFrom a l2
  | None => None
  end.
Proof.
  revert acc. induction l1 as [|c l1 IH]; intros acc; simpl; [reflexivity|].
  destruct (hexValue1 c); [apply IH|reflexivity].
Qed.

Lemma hexValueFrom_hexDigits (n : Z) :
  0 <= n -> hexValueFrom 0 (hexDigits n) = Some n.
Proof.
  intros Hn. pattern n. apply hex_ind; [| |exact Hn]; clear n Hn.
  - intros n Hn. rewrite hexDigits_unfold. destruct (Z_lt_dec n 16); [|lia].
    simpl. rewrite hexValue1_hexDigit by lia. f_equal; lia.
  - intros n Hn IH. rewrite hexDigits_unfold. destruct (Z_lt_dec n 16); [lia|].
    rewrite shiftr4_div, land15_mod, hexValueFrom_app, IH. simpl.
    pose proof (Z.mod_pos_bound n 16 ltac:(lia)).
    rewrite hexValue1_hexDigit by lia.
    pose proof (Z.div_mod n 16 ltac:(lia)). f_equal; lia.
Qed.

Lemma hexValueFrom_zeros (m : nat) (ds : list ascii) :
  hexValueFrom 0 (repeat "0"%char m ++ ds) = hexValueFrom 0 ds.
Proof. induction m as [|m IH]; simpl; [reflexivity|exact IH]. Qed.

Lemma hexValue_Sprintf (w i : Z) : 0 <= i -> hexValue (Sprintf (HexFormat w) i) = Some i.
Proof.
  intros Hi. unfold hexValue, Sprintf, zeroPad. simpl.
  rewrite list_ascii_of_string_of_list_ascii, hexValueFrom_zeros.
  apply hexValueFrom_hexDigits, Hi.
Qed.

Lemma string_length_of_list (l : list ascii) :
  String.length (string_of_list_ascii l) = length l.
Proof. induction l as [|c l IH]; simpl; [reflexivity|]. now rewrite IH. Qed.

Lemma Sprintf_length (w i : Z) :
  0 <= i -> hexLog i <= w -> Z.of_nat (String.length (Sprintf (HexFormat w) i)) = w.
Proof.
  intros Hi Hw. unfold Sprintf, zeroPad. simpl.
  rewrite string_length_of_list, length_app, repeat_length.
  pose proof (hexDigits_length i Hi). lia.
Qed.

Lemma takeKeys_seqZ (n : nat) (f : hexFormat) (k0 : Z) :
  takeKeys n (KeyState f k0) = map (Sprintf f) (seqZ k0 (Z.of_nat n)).
Proof.
  revert k0. induction n as [|n IH]; intros k0; [reflexivity|].
  cbn [takeKeys nextKey keyFormat k]. rewrite IH.
  replace (Z.of_nat (S n)) with (Z.succ (Z.of_nat n)) by lia.
  rewrite (seqZ_cons k0) by lia. simpl.
  rewrite Z.pred_succ. replace (Z.succ k0) with (k0 + 1) by lia. reflexivity.
Qed.

(** C8. For every N >= 1 the factory made with N pads to [w = hexLog N]
    places, where [w] is the least width that can express N: [16^(w-1) < N+1
    <= 16^w], i.e. [w] is the ceiling of [log16 (N+1)], and at least 1.  Its
    first N calls yield, in order, the lowercase hexadecimal numerals of 0, 1,
    ..., N-1, each zero-padded to exactly [w] characters: the keys read back
    as [0, N) and are pairwise distinct. *)
Theorem keyFactory_dense (N : Z) (HN : 1 <= N) :
  let w := hexLog N in
  let keys := takeKeys (Z.to_nat N) (keyFactory N) in
  (1 <= w /\ 16 ^ (w - 1) < N + 1 <= 16 ^ w) /\
  keys = map (fun i => string_of_list_ascii (zeroPad w (hexDigits i))) (seqZ 0 N) /\
  Forall (fun key => Z.of_nat (String.length key) = w) keys /\
  map hexValue keys = map Some (seqZ 0 N) /\
  NoDup keys.
Proof.
  intros w keys.
  destruct (hexLog_bounds N ltac:(lia)) as (Hw & Hup & Hlo). specialize (Hlo HN).
  assert (Hkeys : keys = map (Sprintf (HexFormat w)) (seqZ 0 N)).
  { subst keys. unfold keyFactory. rewrite takeKeys_seqZ, Z2Nat.id by lia. reflexivity. }
  assert (Hval : map hexValue keys = map Some (seqZ 0 N)).
  { rewrite Hkeys, map_map. apply map_ext_in. intros i Hi.
    apply list_elem_of_In, elem_of_seqZ in Hi. apply hexValue_Sprintf. lia. }
  split; [unfold w; lia|]. split; [exact Hkeys|]. split; [|split; [exact Hval|]].
  - rewrite Hkeys. apply Forall_forall. intros key Hkey.
    apply list_elem_of_In, in_map_iff in Hkey. destruct Hkey as (i & <- & Hi).
    apply list_elem_of_In, elem_of_seqZ in Hi. apply Sprintf_length; [lia|].
    apply hexLog_mono. lia.
  - apply (NoDup_fmap_1 hexValue). change (NoDup (map hexValue keys)).
    rewrite Hval. apply NoDup_fmap_2; [intros a b; congruence|]. apply NoDup_seqZ.
Qed.

Lemma keyFactory_dense_witness :
  1 <= 17 /\
  takeKeys (Z.to_nat 17) (keyFactory 17) =
  map (fun i => string_of_list_ascii (zeroPad (hexLog 17) (hexDigits i))) (seqZ 0 17).
Proof.
  split; [lia|]. exact (proj1 (proj2 (keyFactory_dense 17 ltac:(lia)))).
Defined.

End KeyFactory.

(** ** The bundler *)

Section Bundler.
Import File Backup.

Definition totalSize (l : list File) : Z := fold_right (fun f a => Size f + a) 0 l.

(** What the running-sum policy gives a bundle: when a file was added, the
    bytes already in the bundle were at most [c_BUNDLE_MAX_SIZE], and a file
    above [c_BUNDLE_LIMIT_SIZE] was added to an empty bundle only. *)
Definition packedOK (bd : list File) : Prop :=
  forall pre f suf, bd = pre ++ f :: suf ->
    IsDir f = false /\ totalSize pre <= c_BUNDLE_MAX_SIZE /\
    (c_BUNDLE_LIMIT_SIZE < Size f -> pre = []).

Definition regularFile (n : string) (size : Z) : File :=
  mkFile "/" n size 420 0 0 0 (repeat 7 20).

Definition seventeen : list File :=
  map (fun i => regularFile (Go.Sprintf (Go.HexFormat 2) i) 64000) (seqZ 0 17).

Example constants_are :
  c_BUNDLE_LIMIT_SIZE = 64000 /\ c_BUNDLE_MAX_SIZE = 1024000.
Proof. split; reflexivity. Qed.

Lemma totalSize_app (l1 l2 : list File) :
  totalSize (l1 ++ l2) = totalSize l1 + totalSize l2.
Proof. induction l1 as [|f l1 IH]; simpl; [reflexivity|]. rewrite IH. lia. Qed.

Lemma packedOK_nil : packedOK [].
Proof. intros pre f suf Heq. destruct pre; discriminate. Qed.

Lemma packedOK_snoc (bd : list File) (f : File) :
  packedOK bd -> IsDir f = false -> totalSize bd <= c_BUNDLE_MAX_SIZE ->
  (c_BUNDLE_LIMIT_SIZE < Size f -> bd = []) -> packedOK (bd ++ [f]).
Proof.
  intros Hbd Hdir Htot Hbig pre g suf Heq.
  destruct suf as [|h suf _] using rev_ind.
  - apply app_inj_tail in Heq as [<- <-]. auto.
  - rewrite app_comm_cons, app_assoc in Heq. apply app_inj_tail in Heq as [-> _].
    exact (Hbd pre g suf eq_refl).
Qed.

(** The loop invariant of [bundleSmallFiles] after the files [seen]. *)
Record bundlerInv (seen : list File) (b : bundler) : Prop := {
  inv_bytes : currBytes b = totalSize (currBundle b);
  inv_curr : packedOK (currBundle b);
  inv_out : Forall (fun bd => bd <> [] /\ packedOK bd) (out b);
  inv_files : concat (out b) ++ currBundle b = filter (fun f => IsDir f = false) seen;
  inv_dirs : dirBundle b = filter (fun f => IsDir f = true) seen
}.

Lemma bundlerInv_init : bundlerInv [] bundler0.
Proof. split; simpl; auto using packedOK_nil. Qed.

Lemma nextBundle_inv (seen : list File) (b : bundler) :
  bundlerInv seen b -> bundlerInv seen (nextBundle b) /\ currBundle (nextBundle b) = [].
Proof.
  intros [Hb Hc Ho Hf Hd]. unfold nextBundle.
  destruct (currBundle b) as [|f bd] eqn:Hcur; simpl.
  - split; [split; rewrite ?Hcur; auto|assumption].
  - split; [|reflexivity]. split; simpl; auto using packedOK_nil.
    + apply Forall_app. split; [assumption|]. constructor; [|constructor].
      split; [discriminate|assumption].
    + rewrite concat_app. simpl. rewrite !app_nil_r. exact Hf.
Qed.

Lemma addFile_inv (seen : list File) (b : bundler) (f : File) :
  bundlerInv seen b -> bundlerInv (seen ++ [f]) (addFile b f).
Proof.
  intros Hinv. unfold addFile. destruct (IsDir f) eqn:Hdir.
  - destruct Hinv as [Hb Hc Ho Hf Hd]. split; simpl; auto.
    + rewrite filter_app, Hf. simpl. rewrite filter_cons_False, filter_nil, app_nil_r; congruence.
    + rewrite filter_app, Hd. simpl. rewrite filter_cons_True by assumption. reflexivity.
  - set (b1 := if Size f >? c_BUNDLE_LIMIT_SIZE then nextBundle b else b).
    assert (H1 : bundlerInv seen b1 /\ (c_BUNDLE_LIMIT_SIZE < Size f -> currBundle b1 = [])).
    { subst b1. destruct (Z.gtb_spec (Size f) c_BUNDLE_LIMIT_SIZE).
      - destruct (nextBundle_inv seen b Hinv). auto.
      - split; [assumption|lia]. }
    destruct H1 as [Hinv1 Hbig1].
    set (b2 := if currBytes b1 >? c_BUNDLE_MAX_SIZE then nextBundle b1 else b1).
    assert (H2 : bundlerInv seen b2 /\ currBytes b2 <= c_BUNDLE_MAX_SIZE /\
                 (c_BUNDLE_LIMIT_SIZE < Size f -> currBundle b2 = [])).
    { subst b2. destruct (Z.gtb_spec (currBytes b1) c_BUNDLE_MAX_SIZE).
      - destruct (nextBundle_inv seen b1 Hinv1) as [Hi Hnil]. split; [assumption|].
        split; [|auto]. rewrite (inv_bytes _ _ Hi), Hnil. vm_compute. congruence.
      - auto. }
    destruct H2 as ([Hb Hc Ho Hf Hd] & Hmax & Hbig). split; simpl; auto.
    + rewrite totalSize_app, Hb. simpl. lia.
    + apply packedOK_snoc; auto. rewrite <- Hb. exact Hmax.
    + rewrite filter_app, app_assoc, Hf. simpl.
      rewrite filter_cons_True by assumption. reflexivity.
    + rewrite filter_app, Hd. simpl.
      rewrite filter_cons_False, filter_nil, app_nil_r; congruence.
Qed.

Lemma addFiles_inv (l seen : list File) (b : bundler) :
  bundlerInv seen b -> bundlerInv (seen ++ l) (fold_left addFile l b).
Proof.
  revert seen b. induction l as [|f l IH]; intros seen b Hinv; simpl.
  - rewrite app_nil_r. assumption.
  - replace (seen ++ f :: l) with ((seen ++ [f]) ++ l) by (rewrite <- app_assoc; reflexivity).
    apply IH, addFile_inv, Hinv.
Qed.

Lemma bundleLoop_inv (bundles : list (list File)) (seen : list File) (b : bundler) :
  bundlerInv seen b ->
  let b' := fold_left (fun b bundle => nextBundle (fold_left addFile bundle b)) bundles b in
  bundlerInv (seen ++ concat bundles) b' /\ (bundles <> [] -> currBundle b' = []).
Proof.
  revert seen b. induction bundles as [|bd bundles IH]; intros seen b Hinv; simpl.
  - rewrite app_nil_r. split; [assumption|congruence].
  - rewrite app_assoc.
    destruct (nextBundle_inv _ _ (addFiles_inv bd seen b Hinv)) as [Hi Hnil].
    destruct (IH _ _ Hi) as [Hfin Hcur]. split; [exact Hfin|]. intros _.
    destruct bundles; [exact Hnil|]. apply Hcur. discriminate.
Qed.

(** C4, as the code has it.  [bundleSmallFiles] emits the files that are not
    directories, in their order, cut into non-empty bundles, and then the
    directories as one last bundle if there are any.  A bundle is cut by the
    running sum: a file was added to a bundle only while the bytes already in
    it were at most [c_BUNDLE_MAX_SIZE] = 1_024_000, and a file above
    [c_BUNDLE_LIMIT_SIZE] = 64000 bytes was added to an empty bundle only (it
    forces a break).  So a bundle without its last file holds at most
    1_024_000 bytes, and a bundle of small files at most 1_088_000. *)
Theorem bundleSmallFiles_policy (bundles : list (list File)) :
  let files := concat bundles in
  let dirs := filter (fun f => IsDir f = true) files in
  exists packed : list (list File),
    bundleSmallFiles bundles = packed ++ (if dirs is [] then [] else [dirs]) /\
    concat packed = filter (fun f => IsDir f = false) files /\
    Forall (fun bd => bd <> [] /\ packedOK bd) packed /\
    Forall (fun bd => Forall (fun f => Size f <= c_BUNDLE_LIMIT_SIZE) bd ->
                      totalSize bd <= c_BUNDLE_MAX_SIZE + c_BUNDLE_LIMIT_SIZE) packed.
Proof.
  intros files dirs. unfold bundleSmallFiles, bundleLoop.
  destruct (bundleLoop_inv bundles [] bundler0 bundlerInv_init) as [[Hb Hc Ho Hf Hd] Hcur].
  simpl in Hf, Hd. fold files in Hf, Hd. fold dirs in Hd.
  set (b := fold_left _ bundles bundler0) in *.
  assert (Hnil : currBundle b = []).
  { destruct bundles; [reflexivity|]. apply Hcur. discriminate. }
  rewrite Hnil, app_nil_r in Hf.
  exists (out b). split; [rewrite Hd; destruct dirs; simpl; rewrite ?app_nil_r; reflexivity|].
  split; [exact Hf|]. split; [exact Ho|].
  eapply Forall_impl; [exact Ho|]. intros bd [Hne Hok] Hsmall.
  destruct bd as [|l bd _] using rev_ind; [congruence|].
  destruct (Hok bd l [] eq_refl) as (_ & Hpre & _).
  apply Forall_app in Hsmall as [_ Hl]. apply Forall_inv in Hl.
  rewrite totalSize_app. simpl. lia.
Qed.

(** C4, as stated, fails: seventeen regular files of 64000 bytes each are
    small files, and they are emitted as one bundle of 1_088_000 bytes. *)
Lemma bundle_exceeds_max :
  Forall (fun f => IsDir f = false /\ Size f <= c_BUNDLE_LIMIT_SIZE) seventeen /\
  bundleSmallFiles [seventeen] = [seventeen] /\
  bundleSmallFilesAcrossPaths seventeen = [seventeen] /\
  totalSize seventeen = 1088000 /\
  ~ totalSize seventeen <= 1024000.
Proof.
  split; [repeat constructor; discriminate|].
  split; [reflexivity|]. split; [reflexivity|]. split; [reflexivity|].
  vm_compute. congruence.
Qed.

End Bundler.

(** ** The store metadata *)

Section StoreMetadata.
Import Go Json Store.
Context {CD : Codecs}.

Lemma ParseVersionJSON_no_version (fields : list (string * json)) :
  Forall (fun kv => keyMatches "version" (fst kv) = false) fields ->
  ParseVersionJSON (Some (JObj fields)) = (0, true).
Proof.
  intros Hno. unfold ParseVersionJSON.
  assert (Hfold : forall acc,
            fold_left (fun acc kv =>
                         if keyMatches "version" (fst kv)
                         then let '(v, e) := unmarshalInt minInt maxInt (snd kv) (fst acc) in
                              (v, if snd acc is Some e0 then Some e0 else e)
                         else acc) fields acc = acc).
  { induction Hno as [|kv fields Hkv _ IH]; intros acc; simpl; [reflexivity|].
    rewrite Hkv. apply IH. }
  rewrite Hfold. reflexivity.
Qed.

(** C6 at the metadata that parses but has no version key: the struct
    decoder leaves [Version] at zero and reports no error, so
    [ParseVersionJSON] returns [(0, true)] and the switch takes its default
    branch: the error is [ErrBadVersion], not [ErrMalformedMetadata]. *)
Theorem getStoreMetadata_version_absent (s : Store) (fields : list (string * json)) :
  meta s = None ->
  GetReader (layer s) c_METADATA_KEY = inl (Plain (Some (JObj fields))) ->
  Forall (fun kv => keyMatches "version" (fst kv) = false) fields ->
  snd (getStoreMetadata s) = Some ErrBadVersionStore.
Proof.
  intros Hmeta Hget Hno. unfold getStoreMetadata. rewrite Hmeta, Hget.
  cbn [readPlain]. rewrite (ParseVersionJSON_no_version fields Hno). reflexivity.
Qed.

(** With a version that is an integer other than 1 the error is
    [ErrBadVersion]. *)
Lemma getStoreMetadata_version_unknown (s : Store) (v : Z) (rest : list (string * json)) :
  meta s = None ->
  GetReader (layer s) c_METADATA_KEY = inl (Plain (Some (JObj (("version"%string, JInt v) :: rest)))) ->
  Forall (fun kv => keyMatches "version" (fst kv) = false) rest ->
  minInt <= v <= maxInt -> v <> 1 ->
  snd (getStoreMetadata s) = Some ErrBadVersionStore.
Proof.
  intros Hmeta Hget Hno Hrange Hv. unfold getStoreMetadata. rewrite Hmeta, Hget.
  cbn [readPlain].
  assert (Hparse : ParseVersionJSON (Some (JObj (("version"%string, JInt v) :: rest))) = (v, true)).
  { unfold ParseVersionJSON. simpl fold_left.
    replace (keyMatches "version" (fst ("version"%string, JInt v))) with true by reflexivity.
    unfold unmarshalInt.
    destruct (Z.leb_spec minInt v); [|lia]. destruct (Z.leb_spec v maxInt); [|lia]. simpl.
    assert (Hfold : forall acc,
              fold_left (fun acc kv =>
                           if keyMatches "version" (fst kv)
                           then let '(v, e) := unmarshalInt minInt maxInt (snd kv) (fst acc) in
                                (v, if snd acc is Some e0 then Some e0 else e)
                           else acc) rest acc = acc).
    { clear -Hno. induction Hno as [|kv fields Hkv _ IH]; intros acc; simpl; [reflexivity|].
      rewrite Hkv. apply IH. }
    rewrite Hfold. reflexivity. }
  rewrite Hparse. destruct (Z.eqb_spec v 1); [contradiction|reflexivity].
Qed.

(** Metadata that is no JSON at all is [ErrMalformedMetadata]. *)
Lemma getStoreMetadata_unparseable (s : Store) :
  meta s = None ->
  GetReader (layer s) c_METADATA_KEY = inl (Plain None) ->
  snd (getStoreMetadata s) = Some ErrMalformedMetadata.
Proof. intros Hmeta Hget. unfold getStoreMetadata. rewrite Hmeta, Hget. reflexivity. Qed.

End StoreMetadata.

(** Codecs that read nothing, for running the definitions. *)
Definition noCodecs : Json.Codecs :=
  {| Json.base64Decode := fun _ => None;
     Json.base64Encode := fun _ => EmptyString;
     Json.parseRFC3339 := fun _ => None;
     Json.formatRFC3339 := fun _ => EmptyString |}.

(** The store of the tests: a mock layer that holds [doc] as its metadata. *)
Definition mockStore (doc : Json.data) : Store.Store :=
  Store.mkStore
    (Store.mkLayer {[ "metadata"%string := Store.Plain doc ]} (fun _ => None)
                   (fun _ => Store.PutFine))
    "test" None None.

Definition versionless : list (string * Json.json) :=
  [("storeFormat", Json.JInt 1); ("salt", Json.JStr "5+ZOMGkPADM=")]%string.

Lemma getStoreMetadata_version_absent_witness :
  snd (Store.getStoreMetadata (H := noCodecs) (mockStore (Some (Json.JObj versionless))))
  = Some Go.ErrBadVersionStore.
Proof.
  apply (getStoreMetadata_version_absent (CD := noCodecs) _ versionless).
  - reflexivity.
  - reflexivity.
  - repeat constructor.
Defined.

(** ** The manifest and its index *)

Section ManifestIndex.
Import Go Json File Backup.
Context {FP : FilePath} {FS : FileSystem} {CD : Codecs}.

(** The invariant of a manifest over the heap of its entries: no pointer is
    listed twice, every listed pointer holds an entry that [pathMap] indexes
    under the entry's own path by that very pointer, and [pathMap] indexes
    nothing else. *)
Record manifestOK (h : heap) (m : Manifest) : Prop := {
  ok_nodup : NoDup (Entries m);
  ok_entries : forall p, p ∈ Entries m ->
    exists e, h !! p = Some e /\ pathMap m !! EPath e = Some p;
  ok_paths : forall path p, pathMap m !! path = Some p ->
    p ∈ Entries m /\ exists e, h !! p = Some e /\ EPath e = path
}.

(** The entries of a manifest by path, read through the pointers. *)
Definition view (h : heap) (m : Manifest) : gmap string ManifestEntry :=
  omap (fun p => h !! p) (pathMap m).

Lemma manifestOK_ext (h : heap) (m m' : Manifest) :
  Entries m' = Entries m -> pathMap m' = pathMap m -> manifestOK h m -> manifestOK h m'.
Proof. intros He Hp [Hn Hen Hpa]. split; rewrite ?He, ?Hp; assumption. Qed.

(** At most one listed entry has a given path. *)
Lemma manifestOK_unique (h : heap) (m : Manifest) (p q : ptr) (e e' : ManifestEntry) :
  manifestOK h m -> p ∈ Entries m -> q ∈ Entries m ->
  h !! p = Some e -> h !! q = Some e' -> EPath e = EPath e' -> p = q.
Proof.
  intros Hok Hp Hq He He' Hpath.
  destruct (ok_entries _ _ Hok p Hp) as (e1 & H1 & Hm1).
  destruct (ok_entries _ _ Hok q Hq) as (e2 & H2 & Hm2).
  congruence.
Qed.

Lemma manifestOK_empty (h : heap) (m : Manifest) :
  Entries m = [] -> pathMap m = ∅ -> manifestOK h m.
Proof.
  intros He Hp. split; rewrite ?He, ?Hp.
  - constructor.
  - intros p Hin. inversion Hin.
  - intros path p Hl. rewrite lookup_empty in Hl. discriminate.
Qed.

Lemma updateOne_ok (lastSet key : string) (h : heap) (m : Manifest) (f : File) :
  manifestOK h m ->
  manifestOK (fst (updateOne lastSet key (h, m) f)) (snd (updateOne lastSet key (h, m) f)).
Proof.
  intros [Hn Hen Hpa]. unfold updateOne.
  set (new := mkEntry f lastSet _).
  assert (Hnew : EPath new = Path f) by reflexivity.
  destruct (pathMap m !! Path f) as [p|] eqn:Hl; simpl.
  - destruct (Hpa _ _ Hl) as (Hin & e & He & Hpath). split; [assumption| |].
    + intros q Hq. destruct (decide (q = p)) as [->|Hne].
      * exists new. rewrite lookup_insert_eq. split; [reflexivity|]. rewrite Hnew. exact Hl.
      * rewrite lookup_insert_ne by congruence. apply Hen, Hq.
    + intros path q Hq. destruct (Hpa _ _ Hq) as (Hqin & e' & He' & Hp'). split; [assumption|].
      destruct (decide (q = p)) as [->|Hne].
      * exists new. rewrite lookup_insert_eq. split; [reflexivity|]. congruence.
      * exists e'. rewrite lookup_insert_ne by congruence. auto.
  - set (p := fresh (dom h)).
    assert (Hfresh : h !! p = None) by (apply not_elem_of_dom, is_fresh).
    assert (Hnotin : p ∉ Entries m).
    { intros Hin. destruct (Hen _ Hin) as (e & He & _). congruence. }
    split; simpl.
    + apply NoDup_app. split; [assumption|]. split; [|apply NoDup_singleton].
      intros q Hq Hq'. apply list_elem_of_singleton in Hq'. congruence.
    + intros q Hq. apply elem_of_app in Hq as [Hq|Hq].
      * destruct (Hen _ Hq) as (e & He & Hm). exists e.
        rewrite lookup_insert_ne by congruence. split; [assumption|].
        rewrite lookup_insert_ne by congruence. assumption.
      * apply list_elem_of_singleton in Hq as ->. exists new.
        rewrite lookup_insert_eq. split; [reflexivity|]. rewrite Hnew. apply lookup_insert_eq.
    + intros path q Hq. destruct (decide (Path f = path)) as [<-|Hne].
      * rewrite lookup_insert_eq in Hq. injection Hq as <-.
        split; [apply elem_of_app; right; apply list_elem_of_singleton; reflexivity|].
        exists new. rewrite lookup_insert_eq. auto.
      * rewrite lookup_insert_ne in Hq by assumption.
        destruct (Hpa _ _ Hq) as (Hqin & e & He & Hp). split; [apply elem_of_app; auto|].
        exists e. rewrite lookup_insert_ne by congruence. auto.
Qed.

Lemma updateFiles_ok (lastSet key : string) (files : list File) (hm : heap * Manifest) :
  manifestOK (fst hm) (snd hm) ->
  manifestOK (fst (fold_left (updateOne lastSet key) files hm))
             (snd (fold_left (updateOne lastSet key) files hm)).
Proof.
  revert hm. induction files as [|f files IH]; intros [h m] Hok; cbn [fold_left]; [exact Hok|].
  apply IH. apply (updateOne_ok lastSet key h m f Hok).
Qed.

Lemma updateBundles_ok (lastSet : string) (bundles : list (list File))
    (acc : heap * Manifest * keyState) :
  manifestOK (fst (fst acc)) (snd (fst acc)) ->
  let r := fold_left (updateBundle lastSet) bundles acc in
  manifestOK (fst (fst r)) (snd (fst r)).
Proof.
  revert acc. induction bundles as [|b bundles IH]; intros [[h m] ks] Hok;
    cbn [fold_left]; [exact Hok|].
  apply IH. unfold updateBundle. cbn [nextKey fst snd].
  apply (updateFiles_ok _ _ b (h, m)), Hok.
Qed.

Lemma Update_ok (h : heap) (m : Manifest) (files : list File) (now : Z) :
  manifestOK h m ->
  manifestOK (fst (fst (Update h m files now))) (snd (fst (Update h m files now))).
Proof.
  intros Hok. unfold Update.
  set (files' := match ChecksumFiles [files] with [fs] => fs | _ => files end).
  set (m1 := mkManifest _ _ _ _ _ _).
  set (acc := (h, m1, _)).
  pose proof (updateBundles_ok (LastSet m1) (bundleSmallFilesAcrossPaths files') acc) as Hb.
  simpl in Hb. specialize (Hb (manifestOK_ext h m m1 eq_refl eq_refl Hok)).
  destruct (fold_left _ _ acc) as [[h' m'] ks]. exact Hb.
Qed.

Lemma NewManifest_ok (h : heap) (files : list File) (now : Z) :
  manifestOK (fst (NewManifest h files now)) (snd (NewManifest h files now)).
Proof.
  unfold NewManifest.
  set (m0 := mkManifest 0 EmptyString zeroTime zeroTime [] ∅).
  pose proof (Update_ok h m0 files now (manifestOK_empty h m0 eq_refl eq_refl)) as Hok.
  destruct (Update h m0 files now) as [[h' m'] now']. simpl in *.
  apply (manifestOK_ext h' m'); [reflexivity|reflexivity|exact Hok].
Qed.

Lemma index_last {A : Type} (init : list A) (q : A) :
  index (init ++ [q]) (Z.of_nat (length (init ++ [q])) - 1) = Done q.
Proof.
  unfold index. rewrite length_app. simpl.
  destruct (Z.ltb_spec (Z.of_nat (length init + 1) - 1) 0); [lia|].
  replace (Z.to_nat (Z.of_nat (length init + 1) - 1)) with (length init) by lia.
  rewrite lookup_app_r, Nat.sub_diag by lia. reflexivity.
Qed.

Lemma take_last {A : Type} (init : list A) (q : A) :
  take (Z.to_nat (Z.of_nat (length (init ++ [q])) - 1)) (init ++ [q]) = init.
Proof.
  rewrite length_app. simpl.
  replace (Z.to_nat (Z.of_nat (length init + 1) - 1)) with (length init) by lia.
  apply take_app_length.
Qed.

Lemma lookup_view (h : heap) (m : Manifest) (path : string) :
  view h m !! path = pathMap m !! path ≫= (fun p => h !! p).
Proof. unfold view. apply lookup_omap. Qed.

(** What [removeEntry] does to a manifest that satisfies the invariant, at
    the pointer [p] the index holds for [path]: the object at [p] takes the
    data of the last entry, the list loses its tail, and by path the
    manifest loses exactly the entry of [path]. *)
Lemma removeEntry_spec (h : heap) (m : Manifest) (path : string) (p : ptr) :
  manifestOK h m -> pathMap m !! path = Some p ->
  exists (q : ptr) (tail : ManifestEntry) (m' : Manifest),
    last (Entries m) = Some q /\ h !! q = Some tail /\
    removeEntry h m p = Done (<[p := tail]> h, m') /\
    length (Entries m') = pred (length (Entries m)) /\
    LastSet m' = LastSet m /\
    (forall path' r, pathMap m' !! path' = Some r -> pathMap m !! path' = Some r \/ r = p) /\
    manifestOK (<[p := tail]> h) m' /\
    view (<[p := tail]> h) m' = delete path (view h m).
Proof.
  intros Hok Hl. pose proof Hok as [Hn Hen Hpa].
  destruct (Hpa _ _ Hl) as (Hin & e & He & Hpath).
  destruct (Entries m) as [|q0 init0] eqn:Hentries using rev_ind;
    [inversion Hin|clear IHinit0].
  rename q0 into q, init0 into init.
  assert (Hq : q ∈ init ++ [q]) by (apply elem_of_app; right; constructor).
  destruct (Hen _ Hq) as (tail & Htail & Hmq).
  set (h1 := <[p := tail]> h).
  assert (Hload : h1 !! q = Some tail).
  { subst h1. destruct (decide (q = p)) as [->|Hne];
      [apply lookup_insert_eq|rewrite lookup_insert_ne by congruence; exact Htail]. }
  set (m' := setIndex m init (delete (EPath e) (<[EPath tail := p]> (pathMap m)))).
  exists q, tail, m'. fold h1.
  split; [apply last_snoc|]. split; [exact Htail|].
  split.
  { unfold removeEntry, load. rewrite He. cbn [mbind outcome_bind].
    rewrite Hentries, index_last. cbn [mbind outcome_bind]. rewrite Htail.
    cbn [mbind outcome_bind]. fold h1. rewrite Hload. cbn [mbind outcome_bind].
    rewrite take_last. reflexivity. }
  split; [rewrite length_app; simpl; lia|]. split; [reflexivity|].
  split.
  { intros path' r Hr. subst m'. simpl in Hr. apply lookup_delete_Some in Hr as [_ Hr].
    apply lookup_insert_Some in Hr as [[_ <-]|[_ Hr]]; auto. }
  apply NoDup_app in Hn as (Hninit & Hdisj & _).
  assert (Hqinit : q ∉ init).
  { intros Hq'. apply (Hdisj q Hq'). constructor. }
  rewrite <- Hpath.
  destruct (decide (p = q)) as [->|Hpq].
  - (* the entry removed is the last one *)
    assert (e = tail) by congruence. subst tail.
    assert (Hh1 : h1 = h) by (apply insert_id; exact He).
    assert (Hpm : pathMap m' = delete (EPath e) (pathMap m)).
    { subst m'. simpl. apply delete_insert_eq. }
    split.
    + rewrite Hh1. split.
      * exact Hninit.
      * intros r Hr. assert (Hr' : r ∈ init ++ [q]) by (apply elem_of_app; auto).
        destruct (Hen _ Hr') as (er & Her & Hmr). exists er. split; [assumption|].
        rewrite Hpm, lookup_delete_ne; [assumption|].
        intros Heq. rewrite <- Heq, Hmq in Hmr. injection Hmr as <-. contradiction.
      * intros path' r Hr. rewrite Hpm in Hr.
        apply lookup_delete_Some in Hr as [Hne Hr].
        destruct (Hpa _ _ Hr) as (Hrin & er & Her & Hpr). split; [|eauto].
        apply elem_of_app in Hrin as [Hrin|Hrin]; [exact Hrin|].
        apply list_elem_of_singleton in Hrin. subst r. congruence.
    + rewrite Hh1. apply map_eq. intros path'. rewrite lookup_view, Hpm.
      destruct (decide (EPath e = path')) as [<-|Hne].
      * rewrite !lookup_delete_eq. reflexivity.
      * rewrite !lookup_delete_ne by assumption. symmetry. apply lookup_view.
  - (* the last entry moves into the object of the entry removed *)
    assert (Hpinit : p ∈ init).
    { apply elem_of_app in Hin as [Hin|Hin]; [exact Hin|].
      apply list_elem_of_singleton in Hin. congruence. }
    assert (Hpaths : EPath tail <> EPath e).
    { intros Heq. rewrite Heq, Hpath, Hl in Hmq. congruence. }
    split.
    + split.
      * exact Hninit.
      * intros r Hr. destruct (decide (r = p)) as [->|Hrp].
        -- exists tail. subst h1. rewrite lookup_insert_eq. split; [reflexivity|].
           subst m'. simpl. rewrite lookup_delete_ne by congruence. apply lookup_insert_eq.
        -- assert (Hr' : r ∈ init ++ [q]) by (apply elem_of_app; auto).
           destruct (Hen _ Hr') as (er & Her & Hmr). exists er.
           subst h1. rewrite lookup_insert_ne by congruence. split; [assumption|].
           subst m'. simpl.
           rewrite lookup_delete_ne, lookup_insert_ne; [assumption| |].
           ++ intros Heq. rewrite <- Heq, Hmq in Hmr. injection Hmr as <-. contradiction.
           ++ intros Heq. rewrite <- Heq, Hpath, Hl in Hmr. congruence.
      * intros path' r Hr. subst m'. simpl in Hr.
        apply lookup_delete_Some in Hr as [Hne Hr].
        destruct (decide (EPath tail = path')) as [<-|Hne'].
        -- rewrite lookup_insert_eq in Hr. injection Hr as <-. split; [exact Hpinit|].
           exists tail. subst h1. rewrite lookup_insert_eq. auto.
        -- rewrite lookup_insert_ne in Hr by assumption.
           destruct (Hpa _ _ Hr) as (Hrin & er & Her & Hpr).
           assert (r <> q) by (intros ->; congruence).
           assert (r <> p) by (intros ->; congruence).
           split.
           ++ apply elem_of_app in Hrin as [Hrin|Hrin]; [exact Hrin|].
              apply list_elem_of_singleton in Hrin. congruence.
           ++ exists er. subst h1. rewrite lookup_insert_ne by congruence. auto.
    + apply map_eq. intros path'. rewrite lookup_view. subst m'. simpl.
      destruct (decide (EPath e = path')) as [<-|Hne].
      * rewrite !lookup_delete_eq. reflexivity.
      * rewrite !lookup_delete_ne by assumption. rewrite lookup_view.
        destruct (decide (EPath tail = path')) as [<-|Hne'].
        -- rewrite lookup_insert_eq, Hmq. simpl. subst h1. rewrite lookup_insert_eq.
           symmetry. exact Htail.
        -- rewrite lookup_insert_ne by assumption.
           destruct (pathMap m !! path') as [r|] eqn:Hr; [simpl|reflexivity].
           destruct (Hpa _ _ Hr) as (_ & er & Her & Hpr).
           subst h1. rewrite lookup_insert_ne; [reflexivity|]. intros ->. congruence.
Qed.

(** [Remove] on a manifest that satisfies the invariant: it returns, the
    invariant holds after it, by path the manifest loses exactly [Path f],
    and the only object written is the one the index held for [Path f]. *)
Lemma Remove_spec (h : heap) (m : Manifest) (f : File) :
  manifestOK h m ->
  exists (h' : heap) (m' : Manifest) (found : bool),
    Remove h m f = Done (h', m', found) /\
    manifestOK h' m' /\
    view h' m' = delete (Path f) (view h m) /\
    LastSet m' = LastSet m /\
    (forall r, pathMap m !! Path f <> Some r -> h' !! r = h !! r) /\
    (forall path' r, pathMap m' !! path' = Some r ->
       pathMap m !! path' = Some r \/ pathMap m !! Path f = Some r).
Proof.
  intros Hok. unfold Remove. destruct (pathMap m !! Path f) as [p|] eqn:Hl.
  - destruct (removeEntry_spec h m (Path f) p Hok Hl)
      as (q & tail & m' & _ & _ & Hrun & _ & Hset & Hptr & Hok' & Hview).
    exists (<[p := tail]> h), m', true. rewrite Hrun.
    split; [reflexivity|]. split; [exact Hok'|]. split; [exact Hview|]. split; [exact Hset|].
    split.
    + intros r Hr. apply lookup_insert_ne. congruence.
    + intros path' r Hr. destruct (Hptr _ _ Hr) as [?| ->]; auto.
  - exists h, m, false. split; [reflexivity|]. split; [exact Hok|].
    split; [|split; [reflexivity|split; [reflexivity|auto]]].
    symmetry. apply delete_id. rewrite lookup_view, Hl. reflexivity.
Qed.

(** *** Unmarshalling *)

Definition installStep (acc : outcome (heap * list ptr)) (e : option ManifestEntry) :
    outcome (heap * list ptr) :=
  '(h, ps) ← acc;
  match e with
  | None => Panic "invalid memory address or nil pointer dereference"
  | Some e => let '(h', p) := alloc h e in Done (h', ps ++ [p])
  end.

Lemma install_not_done (es : list (option ManifestEntry)) (acc : outcome (heap * list ptr)) :
  (forall r, acc <> Done r) -> forall r, fold_left installStep es acc <> Done r.
Proof.
  revert acc. induction es as [|e es IH]; intros acc Hacc r; simpl; [apply Hacc|].
  apply IH. intros r'. destruct acc as [[h ps]| |]; simpl; try discriminate.
  exfalso. exact (Hacc _ eq_refl).
Qed.

(** The objects [installEntries] allocates are new, distinct, and hold the
    decoded entries in their order. *)
Lemma install_inv (es : list (option ManifestEntry)) (h0 : heap) (ps0 : list ptr)
    (h' : heap) (ps' : list ptr) :
  fold_left installStep es (Done (h0, ps0)) = Done (h', ps') ->
  NoDup ps0 -> (forall p, p ∈ ps0 -> is_Some (h0 !! p)) ->
  exists (ps : list ptr) (vs : list ManifestEntry),
    ps' = ps0 ++ ps /\ es = Some <$> vs /\ NoDup ps' /\
    Forall2 (fun p v => h' !! p = Some v) ps vs /\
    (forall p, is_Some (h0 !! p) -> h' !! p = h0 !! p).
Proof.
  revert h0 ps0. induction es as [|e es IH]; intros h0 ps0 Hrun Hnd Hdom.
  - simpl in Hrun. injection Hrun as <- <-. exists [], [].
    rewrite app_nil_r. repeat split; auto using Forall2_nil.
  - cbn [fold_left] in Hrun. destruct e as [e|].
    + unfold installStep at 2 in Hrun. cbn [mbind outcome_bind alloc] in Hrun.
      set (p := fresh (dom h0)) in *.
      assert (Hfresh : h0 !! p = None) by (apply not_elem_of_dom, is_fresh).
      destruct (IH (<[p := e]> h0) (ps0 ++ [p]) Hrun) as (ps & vs & -> & -> & Hnd' & Hall & Hold).
      * apply NoDup_app. split; [assumption|]. split; [|apply NoDup_singleton].
        intros q Hq Hq'. apply list_elem_of_singleton in Hq' as ->.
        destruct (Hdom _ Hq) as [? ?]. congruence.
      * intros q Hq. apply elem_of_app in Hq as [Hq|Hq].
        -- rewrite lookup_insert_ne; [apply Hdom, Hq|].
           intros <-. destruct (Hdom _ Hq) as [? ?]. congruence.
        -- apply list_elem_of_singleton in Hq as ->. rewrite lookup_insert_eq. eauto.
      * exists (p :: ps), (e :: vs). rewrite <- app_assoc. simpl.
        split; [reflexivity|]. split; [reflexivity|]. split; [rewrite <- app_assoc in Hnd'; exact Hnd'|].
        split.
        -- constructor; [|exact Hall]. rewrite Hold; rewrite lookup_insert_eq; eauto.
        -- intros q Hq. rewrite Hold.
           ++ apply lookup_insert_ne. intros <-. destruct Hq as [? ?]. congruence.
           ++ rewrite lookup_insert_ne; [exact Hq|]. intros <-. destruct Hq as [? ?]. congruence.
    + exfalso. eapply install_not_done; [|exact Hrun]. intros r. discriminate.
Qed.

Lemma buildPathMap_snoc (h : heap) (ps : list ptr) (p : ptr) :
  buildPathMap h (ps ++ [p]) =
  pm ← buildPathMap h ps; f ← load h p; Done (<[EPath f := p]> pm).
Proof. unfold buildPathMap. rewrite fold_left_app. reflexivity. Qed.

(** [buildPathMap] over entries of pairwise distinct paths gives the
    invariant. *)
Lemma buildPathMap_ok (h : heap) (ps : list ptr) (vs : list ManifestEntry) :
  Forall2 (fun p v => h !! p = Some v) ps vs -> NoDup ps -> NoDup (EPath <$> vs) ->
  exists pm, buildPathMap h ps = Done pm /\
    forall m, Entries m = ps -> pathMap m = pm -> manifestOK h m.
Proof.
  revert vs. induction ps as [|p ps IH] using rev_ind; intros vs Hall Hnd Hpaths.
  - exists ∅. split; [reflexivity|]. intros m He Hp. apply manifestOK_empty; assumption.
  - apply Forall2_app_inv_l in Hall as (vs1 & vs2 & Hall1 & Hall2 & ->).
    apply Forall2_cons_inv_l in Hall2 as (v & vs3 & Hv & Hnil & ->).
    apply Forall2_nil_inv_l in Hnil as ->.
    apply NoDup_app in Hnd as (Hnd1 & Hdisj & _).
    rewrite fmap_app in Hpaths. apply NoDup_app in Hpaths as (Hp1 & Hpdisj & _).
    destruct (IH vs1 Hall1 Hnd1 Hp1) as (pm & Hrun & Hok).
    exists (<[EPath v := p]> pm). split.
    { rewrite buildPathMap_snoc, Hrun. cbn [mbind outcome_bind]. unfold load. rewrite Hv.
      reflexivity. }
    intros m He Hpm.
    specialize (Hok (mkManifest 0 EmptyString 0 0 ps pm) eq_refl eq_refl).
    destruct Hok as [_ Hen Hpa]. simpl in Hen, Hpa.
    assert (Hnotin : p ∉ ps) by (intros Hin; apply (Hdisj p Hin); constructor).
    assert (Hnone : pm !! EPath v = None).
    { destruct (pm !! EPath v) as [r|] eqn:Hr; [exfalso|reflexivity].
      destruct (Hpa _ _ Hr) as (Hrin & e & He' & Hpe).
      apply list_elem_of_lookup in Hrin as [i Hi].
      destruct (Forall2_lookup_l _ _ _ _ _ Hall1 Hi) as (e' & Hvi & He'').
      assert (e' = e) by congruence. subst e'.
      apply (Hpdisj (EPath v)); [|constructor].
      rewrite <- Hpe. apply list_elem_of_fmap. exists e. split; [reflexivity|].
      apply list_elem_of_lookup. eauto. }
    split; rewrite ?He, ?Hpm.
    + apply NoDup_app. split; [assumption|]. split; [assumption|apply NoDup_singleton].
    + intros q Hq. apply elem_of_app in Hq as [Hq|Hq].
      * destruct (Hen _ Hq) as (e & He' & Hm). exists e. split; [assumption|].
        rewrite lookup_insert_ne; [assumption|]. intros Heq. congruence.
      * apply list_elem_of_singleton in Hq as ->. exists v. split; [assumption|].
        apply lookup_insert_eq.
    + intros path q Hq. destruct (decide (EPath v = path)) as [<-|Hne].
      * rewrite lookup_insert_eq in Hq. injection Hq as <-.
        split; [apply elem_of_app; right; constructor|eauto].
      * rewrite lookup_insert_ne in Hq by assumption.
        destruct (Hpa _ _ Hq) as (Hqin & e & He' & Hpe).
        split; [apply elem_of_app; auto|eauto].
Qed.

Lemma installEntries_fold (h : heap) (es : list (option ManifestEntry)) :
  installEntries h es = fold_left installStep es (Done (h, [])).
Proof. reflexivity. Qed.

Lemma UnmarshalManifest_inv (h : heap) (raw : json) (h' : heap) (m : Manifest) :
  UnmarshalManifest h raw = Done (h', m, None) ->
  exists es, installEntries h es = Done (h', Entries m) /\
             buildPathMap h' (Entries m) = Done (pathMap m).
Proof.
  unfold UnmarshalManifest. intros Hrun.
  destruct (match raw with
            | JNull => _
            | JObj fields => _
            | _ => _
            end) as [[t [e|]|e]| |]; cbn [mbind outcome_bind] in Hrun; try discriminate.
  exists (fEntries t).
  destruct (installEntries h (fEntries t)) as [[h1 ps]| |];
    cbn [mbind outcome_bind] in Hrun; try discriminate.
  destruct (buildPathMap h1 ps) as [pm| |] eqn:Hpm;
    cbn [mbind outcome_bind] in Hrun; try discriminate.
  injection Hrun as <- <-. simpl. auto.
Qed.

Lemma unmarshalV2Manifest_inv (h : heap) (raw : json) (h' : heap) (m : Manifest) :
  unmarshalV2Manifest h raw = Done (h', m, None) ->
  exists es, installEntries h es = Done (h', Entries m) /\
             buildPathMap h' (Entries m) = Done (pathMap m).
Proof.
  unfold unmarshalV2Manifest. intros Hrun.
  destruct (unmarshalKeymap raw) as [keymap|]; [|discriminate].
  destruct (deref keymap "version") as [r1| |]; cbn [mbind outcome_bind] in Hrun; try discriminate.
  destruct (unmarshalInt minInt maxInt r1 0) as [version e1].
  destruct (deref keymap "key") as [r2| |]; cbn [mbind outcome_bind] in Hrun; try discriminate.
  destruct (unmarshalString r2 EmptyString) as [lastSet e2].
  destruct (deref keymap "created") as [r3| |]; cbn [mbind outcome_bind] in Hrun; try discriminate.
  destruct (unmarshalTime r3 zeroTime) as [created e3].
  destruct (deref keymap "entries") as [r4| |]; cbn [mbind outcome_bind] in Hrun; try discriminate.
  destruct (unmarshalV2ManifestEntries r4) as [[entries e4]| |];
    cbn [mbind outcome_bind] in Hrun; try discriminate.
  destruct (anyError [e1; e2; e3; e4]); [discriminate|].
  exists entries.
  destruct (installEntries h entries) as [[h1 ps]| |];
    cbn [mbind outcome_bind] in Hrun; try discriminate.
  destruct (buildPathMap h1 ps) as [pm| |] eqn:Hpm;
    cbn [mbind outcome_bind] in Hrun; try discriminate.
  injection Hrun as <- <-. simpl. auto.
Qed.

Lemma ReadManifestData_inv (h : heap) (raw : data) (h' : heap) (m : Manifest) :
  ReadManifestData h raw = Done (h', m, None) ->
  exists es, installEntries h es = Done (h', Entries m) /\
             buildPathMap h' (Entries m) = Done (pathMap m).
Proof.
  unfold ReadManifestData. destruct (ParseVersionJSON raw) as [ver [|]]; [|discriminate].
  destruct raw as [doc|]; [|discriminate].
  destruct ((ver =? 1) || (ver =? 2)); [apply unmarshalV2Manifest_inv|].
  destruct (ver =? 3); [apply UnmarshalManifest_inv|discriminate].
Qed.

(** The paths of the listed entries, read through the pointers. *)
Definition entryPaths (h : heap) (m : Manifest) : list (option string) :=
  (fun p => EPath <$> h !! p) <$> Entries m.

Lemma ReadManifestData_ok (h : heap) (raw : data) (h' : heap) (m : Manifest) :
  ReadManifestData h raw = Done (h', m, None) -> NoDup (entryPaths h' m) -> manifestOK h' m.
Proof.
  intros Hrun Hnd. destruct (ReadManifestData_inv _ _ _ _ Hrun) as (es & Hinst & Hbuild).
  rewrite installEntries_fold in Hinst.
  destruct (install_inv es h [] h' (Entries m) Hinst (NoDup_nil_2))
    as (ps & vs & Hps & -> & Hndp & Hall & _).
  { intros p Hp. inversion Hp. }
  simpl in Hps.
  assert (Hpaths : entryPaths h' m = Some <$> (EPath <$> vs)).
  { unfold entryPaths. rewrite Hps. clear -Hall.
    induction Hall as [|p v ps vs Hpv _ IH]; [reflexivity|].
    rewrite !fmap_cons, Hpv, IH. reflexivity. }
  rewrite Hpaths in Hnd. apply (NoDup_fmap_1 Some) in Hnd.
  rewrite Hps in Hndp.
  destruct (buildPathMap_ok h' ps vs Hall Hndp Hnd) as (pm & Hpm & Hok).
  apply Hok; [exact Hps|]. rewrite Hps, Hpm in Hbuild. congruence.
Qed.

(** C5, as the code has it.  [NewManifest], [Update] and [Remove] keep the
    invariant [manifestOK]: for every path at most one listed entry has it
    ([manifestOK_unique]), [pathMap] holds exactly the paths of the listed
    entries, and it holds each under the very pointer that is listed.
    [Remove] never panics on such a manifest.  Unmarshalling gives the
    invariant when the entries it decoded have pairwise distinct paths. *)
Theorem manifest_invariant (h : heap) (m : Manifest) (Hok : manifestOK h m) :
  (forall files now,
     manifestOK (fst (NewManifest h files now)) (snd (NewManifest h files now))) /\
  (forall files now,
     manifestOK (fst (fst (Update h m files now))) (snd (fst (Update h m files now)))) /\
  (forall f, exists h' m' found,
     Remove h m f = Done (h', m', found) /\ manifestOK h' m') /\
  (forall raw h' m',
     ReadManifestData h raw = Done (h', m', None) -> NoDup (entryPaths h' m') ->
     manifestOK h' m').
Proof.
  split; [intros; apply NewManifest_ok|].
  split; [intros; apply Update_ok, Hok|].
  split; [|intros; eapply ReadManifestData_ok; eassumption].
  intros f. destruct (Remove_spec h m f Hok) as (h' & m' & found & Hrun & Hok' & _).
  eauto.
Qed.

End ManifestIndex.

(** ** Compare *)

Section Compare.
Import Go Json File Backup.
Context {FP : FilePath} {FS : FileSystem} {CD : Codecs}.

(** The file the manifest holds for the path of [a]. *)
Definition stored (h : heap) (m : Manifest) (a : File) : option File :=
  pathMap m !! Path a ≫= (fun p => EFile <$> h !! p).

Definition sizeChanged (a b : File) : bool := negb (IsDir a) && negb (Size a =? Size b).

(** The two lists the first loop of [Compare] fills. *)
Definition isChanged (h : heap) (m : Manifest) (a : File) : bool :=
  match stored h m a with
  | None => true
  | Some b => sizeChanged a b
  end.

Definition isTouched (h : heap) (m : Manifest) (a : File) : bool :=
  match stored h m a with
  | None => false
  | Some b => negb (sizeChanged a b) && negb (ModTime a =? ModTime b)
  end.

(** What the checksum pass of [Compare] makes of a file: nothing when no
    file of the two lists lacks a checksum, its hash from the file system
    otherwise. *)
Definition hashed (h : heap) (m : Manifest) (after : list File) (a : File) : File :=
  let touched := filter (fun a => isTouched h m a = true) after in
  let changed := filter (fun a => isChanged h m a = true) after in
  if (length (filter (fun f => needsChecksum f = true) (touched ++ changed)) =? 0)%nat
  then a else checksumOne a.

Definition shaDiffers (h : heap) (m : Manifest) (a : File) : bool :=
  match stored h m a with
  | None => false
  | Some b => negb (bool_decide (SHA1 a = SHA1 b))
  end.

Lemma stored_lookup (h : heap) (m : Manifest) (a : File) (p : ptr) :
  manifestOK h m -> pathMap m !! Path a = Some p ->
  exists e, h !! p = Some e /\ stored h m a = Some (EFile e).
Proof.
  intros Hok Hl. destruct (ok_paths _ _ Hok _ _ Hl) as (_ & e & He & _).
  exists e. split; [exact He|]. unfold stored. rewrite Hl. simpl. rewrite He. reflexivity.
Qed.

Lemma stored_absent (h : heap) (m : Manifest) (a : File) :
  pathMap m !! Path a = None -> stored h m a = None.
Proof. intros Hl. unfold stored. rewrite Hl. reflexivity. Qed.

Lemma filter_cons_bool {A : Type} (f : A -> bool) (a : A) (l : list A) :
  filter (fun x => f x = true) (a :: l) =
  if f a then a :: filter (fun x => f x = true) l else filter (fun x => f x = true) l.
Proof.
  rewrite filter_cons. destruct (f a) eqn:Hf; case_decide; congruence.
Qed.

Lemma compare_pass1 (h : heap) (m : Manifest) (after touched changed : list File) :
  manifestOK h m ->
  fold_left (compareOne h m) after (Done (touched, changed)) =
  Done (touched ++ filter (fun a => isTouched h m a = true) after,
        changed ++ filter (fun a => isChanged h m a = true) after).
Proof.
  intros Hok. revert touched changed.
  induction after as [|a after IH]; intros touched changed; cbn [fold_left].
  - rewrite !filter_nil, !app_nil_r. reflexivity.
  - rewrite !filter_cons_bool. unfold compareOne at 2. cbn [mbind outcome_bind].
    destruct (pathMap m !! Path a) as [p|] eqn:Hl.
    + destruct (stored_lookup h m a p Hok Hl) as (e & He & Hst).
      unfold load. rewrite He. cbn [mbind outcome_bind].
      unfold isTouched at 1, isChanged at 1. rewrite Hst.
      fold (sizeChanged a (EFile e)).
      destruct (sizeChanged a (EFile e)); cbn [negb andb].
      * rewrite IH, <- app_assoc. reflexivity.
      * destruct (negb (ModTime a =? ModTime (EFile e))); rewrite IH, <- ?app_assoc;
          reflexivity.
    + unfold isTouched at 1, isChanged at 1.
      rewrite (stored_absent h m a Hl), IH, <- app_assoc. reflexivity.
Qed.

Lemma checksumOne_Path (a : File) : Path (checksumOne a) = Path a.
Proof.
  unfold checksumOne. destruct (IsRegular a); [reflexivity|].
  destruct (IsSymlink a); reflexivity.
Qed.

Lemma hashed_Path (h : heap) (m : Manifest) (after : list File) (a : File) :
  Path (hashed h m after a) = Path a.
Proof. unfold hashed. destruct (_ =? _)%nat; [reflexivity|apply checksumOne_Path]. Qed.

Lemma stored_hashed (h : heap) (m : Manifest) (after : list File) (a : File) :
  stored h m (hashed h m after a) = stored h m a.
Proof. unfold stored. rewrite hashed_Path. reflexivity. Qed.

Lemma compare_pass2 (h : heap) (m : Manifest) (touched changed : list File) :
  manifestOK h m ->
  Forall (fun a => is_Some (pathMap m !! Path a)) touched ->
  fold_left (promoteOne h m) touched (Done changed) =
  Done (changed ++ filter (fun a => shaDiffers h m a = true) touched).
Proof.
  intros Hok Hall. revert changed.
  induction Hall as [|a touched [p Hl] _ IH]; intros changed; cbn [fold_left].
  - rewrite filter_nil, app_nil_r. reflexivity.
  - unfold promoteOne at 2. cbn [mbind outcome_bind]. rewrite Hl.
    destruct (stored_lookup h m a p Hok Hl) as (e & He & Hst).
    unfold load. rewrite He. cbn [mbind outcome_bind].
    rewrite filter_cons_bool. unfold shaDiffers at 1. rewrite Hst.
    destruct (bool_decide (SHA1 a = SHA1 (EFile e))); cbn [negb]; rewrite IH, <- ?app_assoc;
      reflexivity.
Qed.

Lemma checksumOne_fields (a : File) :
  Mode (checksumOne a) = Mode a /\ Size (checksumOne a) = Size a /\
  ModTime (checksumOne a) = ModTime a.
Proof.
  unfold checksumOne. destruct (IsRegular a); [auto|]. destruct (IsSymlink a); auto.
Qed.

Lemma hashed_fields (h : heap) (m : Manifest) (after : list File) (a : File) :
  Mode (hashed h m after a) = Mode a /\ Size (hashed h m after a) = Size a /\
  ModTime (hashed h m after a) = ModTime a.
Proof. unfold hashed. destruct (_ =? _)%nat; [auto|apply checksumOne_fields]. Qed.

(** The two tests of the first loop read the path, the mode, the size and
    the time of a file, which the checksum pass leaves as they are. *)
Lemma tests_of_fields (h : heap) (m : Manifest) (a a' : File) :
  Path a = Path a' -> Mode a = Mode a' -> Size a = Size a' -> ModTime a = ModTime a' ->
  isChanged h m a = isChanged h m a' /\ isTouched h m a = isTouched h m a'.
Proof.
  intros Hp Hm Hs Ht. unfold isChanged, isTouched, stored, sizeChanged, IsDir.
  rewrite Hp, Hm, Hs, Ht. auto.
Qed.

Lemma ChecksumFiles_two (h : heap) (m : Manifest) (after : list File) :
  let touched := filter (fun a => isTouched h m a = true) after in
  let changed := filter (fun a => isChanged h m a = true) after in
  ChecksumFiles [touched; changed] =
  [map (hashed h m after) touched; map (hashed h m after) changed].
Proof.
  intros touched changed. unfold ChecksumFiles, hashed. fold touched. fold changed.
  cbn [concat]. rewrite app_nil_r.
  destruct (length (filter _ (touched ++ changed)) =? 0)%nat.
  - rewrite !map_id. reflexivity.
  - reflexivity.
Qed.


End Compare.

(** ** backupLatest *)

Section BackupLatest.
Import Go Json File Backup.
Context {FP : FilePath} {FS : FileSystem} {CD : Codecs}.

(** Directory entries carry no parts: [Update] gives a directory the nil
    slice. *)
Definition dirsBare (h : heap) (m : Manifest) : Prop :=
  forall p e, p ∈ Entries m -> h !! p = Some e -> IsDir (EFile e) = true -> Parts e = [].

(** Every entry of the latest set is a directory. *)
Definition latestAreDirs (h : heap) (m : Manifest) : Prop :=
  forall p e, p ∈ Entries m -> h !! p = Some e -> Set_ e = LastSet m -> IsDir (EFile e) = true.

Lemma updateOne_dirsBare (lastSet key : string) (h : heap) (m : Manifest) (f : File) :
  manifestOK h m -> dirsBare h m ->
  dirsBare (fst (updateOne lastSet key (h, m) f)) (snd (updateOne lastSet key (h, m) f)).
Proof.
  intros Hok Hbare. unfold updateOne.
  set (new := mkEntry f lastSet _).
  assert (Hnew : IsDir (EFile new) = true -> Parts new = []).
  { subst new. simpl. intros ->. reflexivity. }
  destruct (pathMap m !! Path f) as [p|] eqn:Hl; simpl.
  - intros q e Hq He Hdir. destruct (decide (q = p)) as [->|Hne].
    + rewrite lookup_insert_eq in He. injection He as <-. auto.
    + rewrite lookup_insert_ne in He by congruence. eapply Hbare; eassumption.
  - intros q e Hq He Hdir. apply elem_of_app in Hq as [Hq|Hq].
    + destruct (ok_entries _ _ Hok q Hq) as (e' & He' & _).
      rewrite lookup_insert_ne in He.
      * eapply Hbare; eassumption.
      * intros <-. pose proof (is_fresh (dom h)) as Hf.
        apply not_elem_of_dom in Hf. congruence.
    + apply list_elem_of_singleton in Hq as ->. rewrite lookup_insert_eq in He.
      injection He as <-. auto.
Qed.

Lemma updateFiles_dirsBare (lastSet key : string) (files : list File) (hm : heap * Manifest) :
  manifestOK (fst hm) (snd hm) -> dirsBare (fst hm) (snd hm) ->
  dirsBare (fst (fold_left (updateOne lastSet key) files hm))
           (snd (fold_left (updateOne lastSet key) files hm)).
Proof.
  revert hm. induction files as [|f files IH]; intros [h m] Hok Hbare; cbn [fold_left];
    [exact Hbare|].
  apply IH; [apply (updateOne_ok lastSet key h m f Hok)|].
  apply (updateOne_dirsBare lastSet key h m f Hok Hbare).
Qed.

Lemma updateBundles_dirsBare (lastSet : string) (bundles : list (list File))
    (acc : heap * Manifest * keyState) :
  manifestOK (fst (fst acc)) (snd (fst acc)) -> dirsBare (fst (fst acc)) (snd (fst acc)) ->
  let r := fold_left (updateBundle lastSet) bundles acc in
  dirsBare (fst (fst r)) (snd (fst r)).
Proof.
  revert acc. induction bundles as [|b bundles IH]; intros [[h m] ks] Hok Hbare;
    cbn [fold_left]; [exact Hbare|].
  apply IH; unfold updateBundle; cbn [nextKey fst snd].
  - apply (updateFiles_ok _ _ b (h, m)), Hok.
  - apply (updateFiles_dirsBare _ _ b (h, m)); assumption.
Qed.

Lemma Update_dirsBare (h : heap) (m : Manifest) (files : list File) (now : Z) :
  manifestOK h m -> dirsBare h m ->
  dirsBare (fst (fst (Update h m files now))) (snd (fst (Update h m files now))).
Proof.
  intros Hok Hbare. unfold Update.
  set (files' := match ChecksumFiles [files] with [fs] => fs | _ => files end).
  set (m1 := mkManifest _ _ _ _ _ _).
  set (acc := (h, m1, _)).
  pose proof (updateBundles_dirsBare (LastSet m1) (bundleSmallFilesAcrossPaths files') acc) as Hb.
  simpl in Hb. specialize (Hb (manifestOK_ext h m m1 eq_refl eq_refl Hok) Hbare).
  destruct (fold_left _ _ acc) as [[h' m'] ks]. exact Hb.
Qed.

(** With no entry of the latest set that has a part, [LatestEntries] is the
    empty map. *)
Lemma LatestEntries_empty (h : heap) (m : Manifest) :
  (forall p, p ∈ Entries m -> exists e, h !! p = Some e /\
                                        (Set_ e = LastSet m -> Parts e = [])) ->
  LatestEntries h m = Done ∅.
Proof.
  unfold LatestEntries. generalize (∅ : gmap string (list ptr)) as acc.
  induction (Entries m) as [|p ps IH]; intros acc Hall; cbn [fold_left]; [reflexivity|].
  destruct (Hall p) as (e & He & Hparts); [constructor|].
  cbn [mbind outcome_bind]. unfold load. rewrite He. cbn [mbind outcome_bind].
  destruct (String.eqb_spec (Set_ e) (LastSet m)) as [Heq|Hne].
  - rewrite (Hparts Heq). cbn [fold_left]. apply IH. intros q Hq. apply Hall. now constructor.
  - apply IH. intros q Hq. apply Hall. now constructor.
Qed.

(** C10.  When every entry of the updated manifest with the latest set is a
    directory, [backupLatest] returns nil and leaves the store as it found
    it: it takes the branch of "no new entries to store", which neither puts
    [manifest/<LastSet>] nor updates the pointer [manifest/latest]. *)
Theorem backupLatest_only_dirs (store : Store.Store) (h0 : heap) (m0 : Manifest)
    (files : list File) (now : Z) :
  manifestOK h0 m0 -> dirsBare h0 m0 ->
  let h := fst (fst (Update h0 m0 files now)) in
  let m := snd (fst (Update h0 m0 files now)) in
  latestAreDirs h m ->
  exists u, backupLatest store h m = Done (u, None) /\ st u = store /\
            man u = m /\ hp u = h.
Proof.
  intros Hok Hbare h m Hdirs.
  assert (Hok' : manifestOK h m) by apply Update_ok, Hok.
  assert (Hbare' : dirsBare h m) by (apply Update_dirsBare; assumption).
  unfold backupLatest. rewrite LatestEntries_empty.
  - cbn [mbind outcome_bind]. rewrite map_size_empty. simpl. eauto.
  - intros p Hp. destruct (ok_entries _ _ Hok' p Hp) as (e & He & _).
    exists e. split; [exact He|]. intros Hset. eapply Hbare'; eauto.
Qed.

(** *** Properties of every entry that [Update] keeps *)

Definition entriesAll (P : ManifestEntry -> Prop) (h : heap) (m : Manifest) : Prop :=
  forall p e, p ∈ Entries m -> h !! p = Some e -> P e.

Lemma updateOne_all (P : ManifestEntry -> Prop) (lastSet key : string) (h : heap)
    (m : Manifest) (f : File) :
  (forall f parts, parts = (if negb (IsDir f) then [mkPart key (0, 0)] else []) ->
                   P (mkEntry f lastSet parts)) ->
  manifestOK h m -> entriesAll P h m ->
  entriesAll P (fst (updateOne lastSet key (h, m) f)) (snd (updateOne lastSet key (h, m) f)).
Proof.
  intros Hnew Hok Hall. unfold updateOne.
  specialize (Hnew f _ eq_refl).
  destruct (pathMap m !! Path f) as [p|] eqn:Hl; simpl.
  - intros q e Hq He. destruct (decide (q = p)) as [->|Hne].
    + rewrite lookup_insert_eq in He. injection He as <-. exact Hnew.
    + rewrite lookup_insert_ne in He by congruence. eapply Hall; eassumption.
  - intros q e Hq He. apply elem_of_app in Hq as [Hq|Hq].
    + destruct (ok_entries _ _ Hok q Hq) as (e' & He' & _).
      rewrite lookup_insert_ne in He.
      * eapply Hall; eassumption.
      * intros <-. pose proof (is_fresh (dom h)) as Hf.
        apply not_elem_of_dom in Hf. congruence.
    + apply list_elem_of_singleton in Hq as ->. rewrite lookup_insert_eq in He.
      injection He as <-. exact Hnew.
Qed.

Lemma updateFiles_all (P : ManifestEntry -> Prop) (lastSet key : string) (files : list File)
    (hm : heap * Manifest) :
  (forall f parts, parts = (if negb (IsDir f) then [mkPart key (0, 0)] else []) ->
                   P (mkEntry f lastSet parts)) ->
  manifestOK (fst hm) (snd hm) -> entriesAll P (fst hm) (snd hm) ->
  entriesAll P (fst (fold_left (updateOne lastSet key) files hm))
               (snd (fold_left (updateOne lastSet key) files hm)).
Proof.
  intros Hnew. revert hm.
  induction files as [|f files IH]; intros [h m] Hok Hall; cbn [fold_left]; [exact Hall|].
  apply IH; [apply (updateOne_ok lastSet key h m f Hok)|].
  apply (updateOne_all P lastSet key h m f Hnew Hok Hall).
Qed.

Lemma updateBundles_all (P : ManifestEntry -> Prop) (lastSet : string)
    (bundles : list (list File)) (acc : heap * Manifest * keyState) :
  (forall key f parts, parts = (if negb (IsDir f) then [mkPart key (0, 0)] else []) ->
                       P (mkEntry f lastSet parts)) ->
  manifestOK (fst (fst acc)) (snd (fst acc)) -> entriesAll P (fst (fst acc)) (snd (fst acc)) ->
  let r := fold_left (updateBundle lastSet) bundles acc in
  entriesAll P (fst (fst r)) (snd (fst r)).
Proof.
  intros Hnew. revert acc.
  induction bundles as [|b bundles IH]; intros [[h m] ks] Hok Hall;
    cbn [fold_left]; [exact Hall|].
  apply IH; unfold updateBundle; cbn [nextKey fst snd].
  - apply (updateFiles_ok _ _ b (h, m)), Hok.
  - apply (updateFiles_all P _ _ b (h, m)); [apply Hnew|assumption|assumption].
Qed.

Lemma Update_all (P : ManifestEntry -> Prop) (h : heap) (m : Manifest) (files : list File)
    (now : Z) :
  (forall key f parts, parts = (if negb (IsDir f) then [mkPart key (0, 0)] else []) ->
                       P (mkEntry f (manifestKey now) parts)) ->
  manifestOK h m -> entriesAll P h m ->
  entriesAll P (fst (fst (Update h m files now))) (snd (fst (Update h m files now))).
Proof.
  intros Hnew Hok Hall. unfold Update.
  set (files' := match ChecksumFiles [files] with [fs] => fs | _ => files end).
  set (m1 := mkManifest _ _ _ _ _ _).
  set (acc := (h, m1, _)).
  pose proof (updateBundles_all P (LastSet m1) (bundleSmallFilesAcrossPaths files') acc) as Hb.
  simpl in Hb. specialize (Hb Hnew (manifestOK_ext h m m1 eq_refl eq_refl Hok) Hall).
  destruct (fold_left _ _ acc) as [[h' m'] ks]. exact Hb.
Qed.

(** Every entry has at most one part: [Update] gives a file one part and a
    directory none. *)
Definition onePart (h : heap) (m : Manifest) : Prop :=
  entriesAll (fun e => (length (Parts e) <= 1)%nat) h m.

Lemma Update_onePart (h : heap) (m : Manifest) (files : list File) (now : Z) :
  manifestOK h m -> onePart h m ->
  onePart (fst (fst (Update h m files now))) (snd (fst (Update h m files now))).
Proof.
  apply Update_all. intros key f parts ->. destruct (IsDir f); simpl; lia.
Qed.

(** *** The bundles of [LatestEntries] *)

(** Entries of the latest set have at most one part: [Update] gives a file
    one part and a directory none. *)
Definition singlePart (h : heap) (m : Manifest) : Prop :=
  forall p e, p ∈ Entries m -> h !! p = Some e -> Set_ e = LastSet m ->
    (length (Parts e) <= 1)%nat.

(** The object an entry of the latest set is uploaded in, for an entry of
    one part. *)
Definition bundleKey (h : heap) (m : Manifest) (p : ptr) : option string :=
  e ← h !! p;
  if String.eqb (Set_ e) (LastSet m) then
    match Parts e with
    | [part] => Some (LastSet m ++ "/" ++ Key part)%string
    | _ => None
    end
  else None.

Definition bundleOf (h : heap) (m : Manifest) (key : string) : list ptr :=
  filter (fun p => bundleKey h m p = Some key) (Entries m).

(** The files at a list of pointers. *)
Definition filesAt (h : heap) (ps : list ptr) : list File :=
  omap (fun p => EFile <$> h !! p) ps.

Definition latestStep (h : heap) (m : Manifest) (acc : outcome (gmap string (list ptr)))
    (p : ptr) : outcome (gmap string (list ptr)) :=
  entries ← acc;
  e ← load h p;
  if String.eqb (Set_ e) (LastSet m)
  then Done (fold_left
               (fun (entries : gmap string (list ptr)) part =>
                  let obj := (LastSet m ++ "/" ++ Key part)%string in
                  <[obj := default [] (entries !! obj) ++ [p]]> entries)
               (Parts e) entries)
  else Done entries.

Definition merge (o : option (list ptr)) (new : list ptr) : option (list ptr) :=
  match o, new with
  | None, [] => None
  | _, _ => Some (default [] o ++ new)
  end.

Lemma merge_nil (o : option (list ptr)) : merge o [] = o.
Proof. destruct o as [l|]; simpl; [rewrite app_nil_r|]; reflexivity. Qed.

Lemma latest_fold (h : heap) (m : Manifest) (l : list ptr) (acc : gmap string (list ptr)) :
  (forall p, p ∈ l -> exists e, h !! p = Some e /\
                                (Set_ e = LastSet m -> (length (Parts e) <= 1)%nat)) ->
  exists acc', fold_left (latestStep h m) l (Done acc) = Done acc' /\
    forall key, acc' !! key =
                merge (acc !! key) (filter (fun p => bundleKey h m p = Some key) l).
Proof.
  revert acc. induction l as [|p l IH]; intros acc Hall.
  - exists acc. split; [reflexivity|]. intros key. rewrite filter_nil, merge_nil. reflexivity.
  - destruct (Hall p) as (e & He & Hone); [constructor|].
    assert (Hrest : forall q, q ∈ l -> exists e, h !! q = Some e /\
                      (Set_ e = LastSet m -> (length (Parts e) <= 1)%nat)).
    { intros q Hq. apply Hall. now constructor. }
    cbn [fold_left]. unfold latestStep at 2. cbn [mbind outcome_bind].
    unfold load. rewrite He. cbn [mbind outcome_bind].
    assert (Hkey : bundleKey h m p =
                   if String.eqb (Set_ e) (LastSet m)
                   then match Parts e with
                        | [part] => Some (LastSet m ++ "/" ++ Key part)%string
                        | _ => None
                        end
                   else None).
    { unfold bundleKey. rewrite He. reflexivity. }
    destruct (String.eqb_spec (Set_ e) (LastSet m)) as [Heq|Hne].
    + specialize (Hone Heq). destruct (Parts e) as [|part [|part' parts]] eqn:Hparts.
      * cbn [fold_left]. destruct (IH acc Hrest) as (acc' & Hrun & Hacc).
        exists acc'. split; [exact Hrun|]. intros key. rewrite Hacc, filter_cons.
        case_decide; [congruence|reflexivity].
      * cbn [fold_left].
        set (obj := (LastSet m ++ "/" ++ Key part)%string) in *.
        destruct (IH (<[obj := default [] (acc !! obj) ++ [p]]> acc) Hrest)
          as (acc' & Hrun & Hacc).
        exists acc'. split; [exact Hrun|]. intros key. rewrite Hacc, filter_cons.
        destruct (decide (obj = key)) as [<-|Hk].
        -- rewrite lookup_insert_eq. case_decide; [|congruence].
           unfold merge. simpl. rewrite <- app_assoc. simpl.
           destruct (acc !! obj); reflexivity.
        -- rewrite lookup_insert_ne by assumption. case_decide; [congruence|reflexivity].
      * simpl in Hone. lia.
    + destruct (IH acc Hrest) as (acc' & Hrun & Hacc).
      exists acc'. split; [exact Hrun|]. intros key. rewrite Hacc, filter_cons.
      case_decide; [congruence|reflexivity].
Qed.

(** [LatestEntries] on a manifest that satisfies the invariant and whose
    latest entries have at most one part: it returns, and the bundle of an
    object is the list of the entries that are uploaded in it. *)
Lemma LatestEntries_spec (h : heap) (m : Manifest) :
  manifestOK h m -> singlePart h m ->
  exists latest, LatestEntries h m = Done latest /\
    forall key, latest !! key = merge None (bundleOf h m key).
Proof.
  intros Hok Hone.
  destruct (latest_fold h m (Entries m) ∅) as (latest & Hrun & Hl).
  { intros p Hp. destruct (ok_entries _ _ Hok p Hp) as (e & He & _).
    exists e. split; [exact He|]. intros Hset. eapply Hone; eassumption. }
  exists latest. split; [exact Hrun|]. intros key. rewrite Hl, lookup_empty. reflexivity.
Qed.

Lemma latest_bundle (h : heap) (m : Manifest) (latest : gmap string (list ptr))
    (key : string) (ps : list ptr) :
  (forall key, latest !! key = merge None (bundleOf h m key)) ->
  latest !! key = Some ps -> ps = bundleOf h m key.
Proof.
  intros Hl Hps. rewrite Hl in Hps. unfold merge in Hps.
  destruct (bundleOf h m key); [discriminate|]. simpl in Hps. congruence.
Qed.

Lemma bundleFiles_spec (h : heap) (ps : list ptr) (acc : list File) :
  (forall p, p ∈ ps -> exists e, h !! p = Some e /\ IsDir (EFile e) = false) ->
  fold_left (fun acc p =>
               files ← acc;
               e ← load h p;
               if IsDir (EFile e) then Done files else Done (files ++ [EFile e]))
            ps (Done acc)
  = Done (acc ++ filesAt h ps).
Proof.
  revert acc. induction ps as [|p ps IH]; intros acc Hall; cbn [fold_left].
  - unfold filesAt. simpl. rewrite app_nil_r. reflexivity.
  - destruct (Hall p) as (e & He & Hdir); [constructor|].
    cbn [mbind outcome_bind]. unfold load. rewrite He. cbn [mbind outcome_bind].
    rewrite Hdir, IH by (intros q Hq; apply Hall; now constructor).
    unfold filesAt. cbn [omap list_omap]. rewrite He. simpl. rewrite <- app_assoc.
    reflexivity.
Qed.

Lemma filesAt_agree (h h' : heap) (ps : list ptr) :
  (forall p, p ∈ ps -> h' !! p = h !! p) -> filesAt h' ps = filesAt h ps.
Proof.
  induction ps as [|p ps IH]; intros Hall; [reflexivity|].
  unfold filesAt in *. cbn [omap list_omap].
  rewrite (Hall p) by constructor. rewrite IH; [reflexivity|].
  intros q Hq. apply Hall. now constructor.
Qed.

Lemma elem_of_filesAt (h : heap) (ps : list ptr) (f : File) :
  f ∈ filesAt h ps <-> exists p e, p ∈ ps /\ h !! p = Some e /\ EFile e = f.
Proof.
  unfold filesAt. rewrite list_elem_of_omap. split.
  - intros (p & Hp & Hf). destruct (h !! p) as [e|] eqn:He; [|discriminate].
    simpl in Hf. injection Hf as <-. eauto.
  - intros (p & e & Hp & He & <-). exists p. rewrite He. auto.
Qed.

(** *** One upload *)

#[local] Instance putFault_eq_dec : EqDecision Store.putFault.
Proof. solve_decision. Defined.

Definition blobKey (key : string) : string := ("blob/" ++ key)%string.

(** Opening the packer, streaming the tarball into it and closing it all
    succeed: the store is connected, the files can be read into the
    tarball, and the layer takes the object. *)
Definition uploadOK (s : Store.Store) (key : string) (files : list File) : bool :=
  Store.isConnected s &&
  bool_decide (packError (map Path files) = None) &&
  bool_decide (Store.putFn (Store.layer s) (blobKey key) = Store.PutFine).

(** What no upload changes of a store: its keys and the way its layer
    fails. *)
Definition sameService (s' s : Store.Store) : Prop :=
  Store.enc s' = Store.enc s /\
  Store.putFn (Store.layer s') = Store.putFn (Store.layer s).

Lemma uploadOK_sameService (s' s : Store.Store) (key : string) (files : list File) :
  sameService s' s -> uploadOK s' key files = uploadOK s key files.
Proof. intros [He Hp]. unfold uploadOK, Store.isConnected. rewrite He, Hp. reflexivity. Qed.

Lemma uploadBundle_step (u : uploads) (key : string) (ps : list ptr) (files : list File) :
  bundleFiles (hp u) ps = Done files ->
  exists s',
    sameService s' (st u) /\
    if uploadOK (st u) key files
    then uploadBundle (Done u) (key, ps)
         = Done (mkUploads (totalPuts u) (donePuts u + 1) (man u) (hp u) s') /\
         Store.dataStore (Store.layer s')
         = <[blobKey key := Store.Sealed (Store.Tarball files)]>
             (Store.dataStore (Store.layer (st u)))
    else uploadBundle (Done u) (key, ps) = dropFromManifest (setStore u s') files /\
         Store.dataStore (Store.layer s') = Store.dataStore (Store.layer (st u)).
Proof.
  intros Hfiles. unfold uploadBundle, uploadOK. cbn [mbind outcome_bind].
  rewrite Hfiles. cbn [mbind outcome_bind].
  unfold Store.Pack, PackReader. fold (blobKey key).
  replace (Store.isForbiddenKey (blobKey key)) with false by reflexivity.
  unfold Store.isConnected. destruct (Store.enc (st u)) as [keys|] eqn:Henc; cbn [negb andb].
  2:{ exists (st u). split; [split; reflexivity|]. split; [|reflexivity].
      destruct u; reflexivity. }
  destruct (packError (map Path files)) as [e|] eqn:Hpack.
  { rewrite bool_decide_eq_false_2 by discriminate. cbn [andb].
    unfold Store.PackerPutReader, Store.closeWriter. cbn [Store.closed Store.pkey Store.piped].
    unfold Store.PutReader.
    destruct (Store.putFn (Store.layer (st u)) (blobKey key)) eqn:Hput;
      (eexists; split; [|split; [reflexivity|]]; [split|]; simpl; congruence). }
  rewrite bool_decide_eq_true_2 by reflexivity. cbn [andb].
  unfold Store.PackerPutReader. cbn [Store.closed Store.pkey Store.piped].
  destruct (Store.putFn (Store.layer (st u)) (blobKey key)) as [|e|e] eqn:Hput.
  - rewrite bool_decide_eq_true_2 by reflexivity.
    unfold Store.PackerClose, Store.closeWriter.
    cbn [Store.closed Store.pkey Store.piped app Store.pipedBody].
    unfold Store.PutReader. rewrite Hput. cbn [Store.closeErr].
    eexists. split; [|split; [reflexivity|]]; [split|]; simpl; congruence.
  - rewrite bool_decide_eq_false_2 by discriminate.
    unfold Store.closeWriter. cbn [Store.closed Store.pkey Store.piped].
    unfold Store.PutReader. rewrite Hput.
    eexists. split; [|split; [reflexivity|]]; [split|]; simpl; congruence.
  - rewrite bool_decide_eq_false_2 by discriminate.
    unfold Store.PackerClose, Store.closeWriter.
    cbn [Store.closed Store.pkey Store.piped app Store.pipedBody].
    unfold Store.PutReader. rewrite Hput. cbn [Store.closeErr].
    eexists. split; [|split; [reflexivity|]]; [split|]; simpl; congruence.
Qed.

(** *** The rollback of a failed bundle *)

Section Rollback.
Variables (h0 : heap) (m0 : Manifest).
Hypothesis Hok0 : manifestOK h0 m0.

(** What the uploads keep of the manifest [m0] over the heap [h0] they
    started from, when [dead] are the pointers of the bundles that failed so
    far and [gone] the paths removed for them: the invariant, the objects
    outside [dead] as they were, an index that holds for a path its pointer
    of the start or a dead one, and a manifest that by path is the one of
    the start without [gone]. *)
Record tracks (dead : list ptr) (gone : list string) (u : uploads) : Prop := {
  tr_ok : manifestOK (hp u) (man u);
  tr_set : LastSet (man u) = LastSet m0;
  tr_heap : forall p, p ∉ dead -> hp u !! p = h0 !! p;
  tr_index : forall path p, pathMap (man u) !! path = Some p ->
               pathMap m0 !! path = Some p \/ p ∈ dead;
  tr_view : forall path, view (hp u) (man u) !! path =
               if decide (path ∈ gone) then None else view h0 m0 !! path
}.

Lemma tracks_start (total : Z) (s : Store.Store) :
  tracks [] [] (mkUploads total 0 m0 h0 s).
Proof.
  split; simpl; auto.
Qed.

Lemma tracks_more (dead dead' : list ptr) (gone : list string) (u : uploads) :
  (forall p, p ∈ dead -> p ∈ dead') -> tracks dead gone u -> tracks dead' gone u.
Proof.
  intros Hsub [Hok Hset Hheap Hidx Hview]. split; [exact Hok|exact Hset| | |exact Hview].
  - intros p Hp. apply Hheap. auto.
  - intros path p Hl. destruct (Hidx _ _ Hl); auto.
Qed.

Lemma tracks_store (dead : list ptr) (gone : list string) (u : uploads)
    (total done : Z) (s : Store.Store) :
  tracks dead gone u -> tracks dead gone (mkUploads total done (man u) (hp u) s).
Proof. intros [Hok Hset Hheap Hidx Hview]. split; assumption. Qed.

(** The body of the loop of [dropFromManifest]. *)
Definition dropStep (acc : outcome uploads) (f : File) : outcome uploads :=
  u ← acc;
  '(h, m, _) ← Remove (hp u) (man u) f;
  Done (mkUploads (totalPuts u) (donePuts u) m h (st u)).

Lemma dropStep_tracks (dead : list ptr) (gone : list string) (u : uploads) (f : File) :
  tracks dead gone u ->
  (forall r, pathMap m0 !! Path f = Some r -> r ∈ dead) ->
  exists u', dropStep (Done u) f = Done u' /\ tracks dead (Path f :: gone) u' /\
             totalPuts u' = totalPuts u /\ donePuts u' = donePuts u /\ st u' = st u.
Proof.
  intros [Hok Hset Hheap Hidx Hview] Hdead.
  destruct (Remove_spec (hp u) (man u) f Hok)
    as (h' & m' & found & Hrun & Hok' & Hview' & Hset' & Hwrite & Hptr).
  exists (mkUploads (totalPuts u) (donePuts u) m' h' (st u)).
  split; [unfold dropStep; cbn [mbind outcome_bind]; rewrite Hrun; reflexivity|].
  assert (Hcur : forall r, pathMap (man u) !! Path f = Some r -> r ∈ dead).
  { intros r Hr. destruct (Hidx _ _ Hr); auto. }
  split; [|auto]. split; simpl.
  - exact Hok'.
  - congruence.
  - intros p Hp. rewrite Hwrite; [apply Hheap, Hp|]. intros Hr. apply Hp, Hcur, Hr.
  - intros path p Hl. destruct (Hptr _ _ Hl) as [Hl'|Hl']; [apply Hidx, Hl'|].
    right. apply Hcur, Hl'.
  - intros path. rewrite Hview'. destruct (decide (Path f = path)) as [<-|Hne].
    + rewrite lookup_delete_eq. case_decide as Hin; [reflexivity|].
      exfalso. apply Hin. constructor.
    + rewrite lookup_delete_ne by assumption. rewrite Hview.
      repeat case_decide; try reflexivity.
      * exfalso. match goal with Hn : ¬ _ |- _ => apply Hn end. now constructor.
      * exfalso. match goal with Hi : path ∈ Path f :: gone |- _ =>
                   apply elem_of_cons in Hi as [?|?] end; congruence.
Qed.

Lemma dropSteps_tracks (dead : list ptr) (files : list File) (gone : list string)
    (u : uploads) :
  tracks dead gone u ->
  (forall f r, f ∈ files -> pathMap m0 !! Path f = Some r -> r ∈ dead) ->
  exists u', fold_left dropStep files (Done u) = Done u' /\
             tracks dead (rev (Path <$> files) ++ gone) u' /\
             totalPuts u' = totalPuts u /\ donePuts u' = donePuts u /\ st u' = st u.
Proof.
  revert gone u. induction files as [|f files IH]; intros gone u Htr Hdead.
  - exists u. simpl. auto.
  - cbn [fold_left].
    destruct (dropStep_tracks dead gone u f Htr) as (u1 & Hrun & Htr1 & Ht & Hd & Hs).
    { intros r. apply Hdead. constructor. }
    rewrite Hrun.
    destruct (IH (Path f :: gone) u1 Htr1) as (u' & Hrun' & Htr' & Ht' & Hd' & Hs').
    { intros g r Hg. apply Hdead. now constructor. }
    exists u'. split; [exact Hrun'|]. split; [|split; [|split]; congruence].
    rewrite fmap_cons. cbn [rev]. rewrite <- app_assoc. exact Htr'.
Qed.

Lemma dropFromManifest_tracks (dead : list ptr) (files : list File) (gone : list string)
    (u : uploads) :
  tracks dead gone u ->
  (forall f r, f ∈ files -> pathMap m0 !! Path f = Some r -> r ∈ dead) ->
  exists u', dropFromManifest u files = Done u' /\
             tracks dead (rev (Path <$> files) ++ gone) u' /\
             totalPuts u' = totalPuts u - 1 /\ donePuts u' = donePuts u /\ st u' = st u.
Proof.
  intros Htr Hdead.
  destruct (dropSteps_tracks dead files gone
              (mkUploads (totalPuts u - 1) (donePuts u) (man u) (hp u) (st u)))
    as (u' & Hrun & Htr' & Ht & Hd & Hs); [apply tracks_store, Htr|exact Hdead|].
  exists u'. split; [exact Hrun|]. auto.
Qed.

Lemma elem_of_concat {A : Type} (x : A) (ls : list (list A)) :
  x ∈ concat ls <-> exists l, x ∈ l /\ l ∈ ls.
Proof.
  rewrite list_elem_of_In, in_concat.
  split; intros (l & H1 & H2); exists l; rewrite ?list_elem_of_In in *; auto.
Qed.

Lemma tracks_gone (dead : list ptr) (gone gone' : list string) (u : uploads) :
  (forall path, path ∈ gone <-> path ∈ gone') -> tracks dead gone u -> tracks dead gone' u.
Proof.
  intros Heq [Hok Hset Hheap Hidx Hview]. split; [exact Hok|exact Hset|exact Hheap|exact Hidx|].
  intros path. rewrite Hview. repeat case_decide; try reflexivity; exfalso; firstorder.
Qed.

Lemma bundleKey_Some (h : heap) (m : Manifest) (p : ptr) (key : string) :
  bundleKey h m p = Some key ->
  exists e part, h !! p = Some e /\ Set_ e = LastSet m /\ Parts e = [part] /\
                 key = (LastSet m ++ "/" ++ Key part)%string.
Proof.
  unfold bundleKey. destruct (h !! p) as [e|]; [|discriminate]. simpl.
  destruct (String.eqb_spec (Set_ e) (LastSet m)) as [Heq|]; [|discriminate].
  destruct (Parts e) as [|part [|]] eqn:Hparts; try discriminate.
  intros [= <-]. exists e, part. auto.
Qed.

Lemma blobKey_inj (a b : string) : blobKey a = blobKey b -> a = b.
Proof. unfold blobKey. intros Heq. apply (inj (String.append "blob/")) in Heq. exact Heq. Qed.

Hypothesis Hbare : dirsBare h0 m0.
Variable s0 : Store.Store.
Variable total : Z.
Variable bundles : list (string * list ptr).
Hypothesis Hkeys : NoDup (fst <$> bundles).
Hypothesis Hmem : forall key ps p, (key, ps) ∈ bundles -> p ∈ ps ->
                    p ∈ Entries m0 /\ bundleKey h0 m0 p = Some key.

(** The bundles of a list whose upload fails, their pointers, and the paths
    of their files. *)
Definition failedOf (l : list (string * list ptr)) : list (string * list ptr) :=
  filter (fun kv => uploadOK s0 (fst kv) (filesAt h0 (snd kv)) = false) l.

Definition deadOf (l : list (string * list ptr)) : list ptr :=
  concat (snd <$> failedOf l).

Definition goneOf (l : list (string * list ptr)) : list string :=
  Path <$> concat ((fun kv => filesAt h0 (snd kv)) <$> failedOf l).

(** The invariant of the loop of [backupLatest] after the bundles [done]. *)
Record loopInv (done : list (string * list ptr)) (u : uploads) : Prop := {
  li_tracks : tracks (deadOf done) (goneOf done) u;
  li_service : sameService (st u) s0;
  li_total : totalPuts u = total - Z.of_nat (length (failedOf done));
  li_done : donePuts u = Z.of_nat (length done) - Z.of_nat (length (failedOf done));
  li_stored : forall key ps, (key, ps) ∈ done -> uploadOK s0 key (filesAt h0 ps) = true ->
      Store.dataStore (Store.layer (st u)) !! blobKey key
      = Some (Store.Sealed (Store.Tarball (filesAt h0 ps)));
  li_other : forall k,
      (forall key ps, (key, ps) ∈ done -> uploadOK s0 key (filesAt h0 ps) = true ->
                      blobKey key <> k) ->
      Store.dataStore (Store.layer (st u)) !! k
      = Store.dataStore (Store.layer s0) !! k
}.

Lemma loopInv_start : loopInv [] (mkUploads total 0 m0 h0 s0).
Proof.
  split; simpl.
  - apply tracks_start.
  - split; reflexivity.
  - lia.
  - lia.
  - intros key ps Hin. inversion Hin.
  - reflexivity.
Qed.

Lemma failedOf_snoc (done : list (string * list ptr)) (kv : string * list ptr) :
  failedOf (done ++ [kv]) =
  failedOf done ++ (if uploadOK s0 (fst kv) (filesAt h0 (snd kv)) then [] else [kv]).
Proof.
  unfold failedOf. rewrite filter_app, filter_cons, filter_nil.
  case_decide as Hup; rewrite Hup || (apply not_false_is_true in Hup; rewrite Hup); reflexivity.
Qed.

Lemma bundle_entries (key : string) (ps : list ptr) (p : ptr) :
  (key, ps) ∈ bundles -> p ∈ ps ->
  exists e part, p ∈ Entries m0 /\ h0 !! p = Some e /\ IsDir (EFile e) = false /\
                 pathMap m0 !! EPath e = Some p /\ Set_ e = LastSet m0 /\
                 Parts e = [part] /\ key = (LastSet m0 ++ "/" ++ Key part)%string.
Proof.
  intros Hkv Hp. destruct (Hmem _ _ _ Hkv Hp) as [Hin Hkey].
  destruct (bundleKey_Some _ _ _ _ Hkey) as (e & part & He & Hset & Hparts & Hk).
  exists e, part. split; [exact Hin|]. split; [exact He|]. split.
  - destruct (IsDir (EFile e)) eqn:Hdir; [|reflexivity].
    rewrite (Hbare p e Hin He Hdir) in Hparts. discriminate.
  - destruct (ok_entries _ _ Hok0 p Hin) as (e' & He' & Hl).
    assert (e' = e) by congruence. subst e'. auto.
Qed.

Lemma loopInv_step (done todo : list (string * list ptr)) (kv : string * list ptr)
    (u : uploads) :
  bundles = done ++ kv :: todo -> loopInv done u ->
  exists u', uploadBundle (Done u) kv = Done u' /\ loopInv (done ++ [kv]) u'.
Proof.
  intros Hsplit [Htr Hserv Htot Hdone Hstored Hother]. destruct kv as [key ps].
  assert (Hkv : (key, ps) ∈ bundles).
  { rewrite Hsplit. apply elem_of_app. right. constructor. }
  assert (Hdonein : forall kv', kv' ∈ done -> kv' ∈ bundles).
  { intros kv' Hin. rewrite Hsplit. apply elem_of_app. auto. }
  assert (Hfresh : forall ps', (key, ps') ∉ done).
  { intros ps' Hin. rewrite Hsplit, fmap_app in Hkeys. apply NoDup_app in Hkeys as (_ & Hd & _).
    apply (Hd key).
    - apply list_elem_of_fmap. exists (key, ps'). auto.
    - rewrite fmap_cons. constructor. }
  assert (Halive : forall p, p ∈ ps -> p ∉ deadOf done).
  { intros p Hp Hdead. unfold deadOf in Hdead.
    apply elem_of_concat in Hdead as (ps' & Hp' & Hps').
    apply list_elem_of_fmap in Hps' as ([key' ps''] & -> & Hkv').
    apply list_elem_of_filter in Hkv' as [_ Hkv']. simpl in Hp'.
    destruct (Hmem _ _ _ Hkv Hp) as [_ Hk].
    destruct (Hmem _ _ _ (Hdonein _ Hkv') Hp') as [_ Hk'].
    assert (key' = key) by congruence. subst key'. exact (Hfresh _ Hkv'). }
  assert (Hagree : forall p, p ∈ ps -> hp u !! p = h0 !! p).
  { intros p Hp. apply (tr_heap _ _ _ Htr), Halive, Hp. }
  assert (Hfiles : bundleFiles (hp u) ps = Done (filesAt h0 ps)).
  { unfold bundleFiles. rewrite bundleFiles_spec.
    - simpl. f_equal. apply filesAt_agree, Hagree.
    - intros p Hp. destruct (bundle_entries key ps p Hkv Hp) as (e & part & _ & He & Hdir & _).
      exists e. rewrite (Hagree p Hp). auto. }
  destruct (uploadBundle_step u key ps (filesAt h0 ps) Hfiles) as (s' & Hserv' & Hstep).
  assert (Hserv1 : sameService s' s0).
  { destruct Hserv, Hserv'. split; congruence. }
  rewrite (uploadOK_sameService _ _ _ _ Hserv) in Hstep.
  destruct (uploadOK s0 key (filesAt h0 ps)) eqn:Hup.
  - (* the upload succeeds *)
    destruct Hstep as [Hrun Hdata]. eexists. split; [exact Hrun|].
    assert (Hfail : failedOf (done ++ [(key, ps)]) = failedOf done).
    { rewrite failedOf_snoc. simpl. rewrite Hup. apply app_nil_r. }
    split; cbn [st totalPuts donePuts man hp].
    + unfold deadOf, goneOf. rewrite Hfail. apply (tracks_store _ _ u), Htr.
    + exact Hserv1.
    + rewrite Hfail. exact Htot.
    + rewrite Hfail, length_app. simpl. lia.
    + intros key' ps' Hin Hok'. rewrite Hdata.
      apply elem_of_app in Hin as [Hin|Hin].
      * rewrite lookup_insert_ne; [apply Hstored; assumption|].
        intros Heq. apply blobKey_inj in Heq. subst key'. exact (Hfresh _ Hin).
      * apply list_elem_of_singleton in Hin. injection Hin as -> ->. apply lookup_insert_eq.
    + intros k Hk. rewrite Hdata, lookup_insert_ne.
      * apply Hother. intros key' ps' Hin. apply Hk, elem_of_app. auto.
      * apply (Hk key ps); [apply elem_of_app; right; constructor|exact Hup].
  - (* the upload fails: the files of the bundle are dropped *)
    destruct Hstep as [Hrun Hdata].
    assert (Hfail : failedOf (done ++ [(key, ps)]) = failedOf done ++ [(key, ps)]).
    { rewrite failedOf_snoc. simpl. rewrite Hup. reflexivity. }
    destruct (dropFromManifest_tracks (deadOf done ++ ps) (filesAt h0 ps) (goneOf done)
                (setStore u s')) as (u' & Hdrop & Htr' & Htot' & Hdone' & Hst').
    { apply (tracks_more (deadOf done)); [intros p Hp; apply elem_of_app; auto|].
      apply (tracks_store _ _ u), Htr. }
    { intros f r Hf Hr. apply elem_of_filesAt in Hf as (p & e & Hp & He & <-).
      destruct (bundle_entries key ps p Hkv Hp) as (e' & part & _ & He' & _ & Hl & _).
      assert (e' = e) by congruence. subst e'. unfold EPath in Hl.
      apply elem_of_app. right. congruence. }
    exists u'. split; [rewrite Hrun; exact Hdrop|].
    simpl in Htot', Hdone', Hst'.
    split.
    + unfold deadOf, goneOf. rewrite Hfail, !fmap_app, !concat_app. simpl.
      rewrite !app_nil_r, fmap_app.
      eapply tracks_gone; [|exact Htr'].
      intros path. rewrite !elem_of_app. rewrite (list_elem_of_In (rev _)), <- in_rev, <- list_elem_of_In. tauto.
    + rewrite Hst'. exact Hserv1.
    + rewrite Hfail, length_app. simpl. lia.
    + rewrite Hfail, !length_app. simpl. lia.
    + intros key' ps' Hin Hok'. rewrite Hst', Hdata.
      apply elem_of_app in Hin as [Hin|Hin]; [apply Hstored; assumption|].
      apply list_elem_of_singleton in Hin. injection Hin as -> ->. congruence.
    + intros k Hk. rewrite Hst', Hdata. apply Hother.
      intros key' ps' Hin. apply Hk, elem_of_app. auto.
Qed.

Lemma loopInv_run (todo done : list (string * list ptr)) (u : uploads) :
  bundles = done ++ todo -> loopInv done u ->
  exists u', fold_left uploadBundle todo (Done u) = Done u' /\ loopInv bundles u'.
Proof.
  revert done u. induction todo as [|kv todo IH]; intros done u Hsplit Hinv.
  - rewrite app_nil_r in Hsplit. subst done. exists u. auto.
  - destruct (loopInv_step done todo kv u Hsplit Hinv) as (u1 & Hrun & Hinv1).
    cbn [fold_left]. rewrite Hrun. apply (IH (done ++ [kv])); [|exact Hinv1].
    rewrite <- app_assoc. exact Hsplit.
Qed.

Lemma elem_of_goneOf (l : list (string * list ptr)) (path : string) :
  path ∈ goneOf l <->
  exists key ps f, (key, ps) ∈ l /\ uploadOK s0 key (filesAt h0 ps) = false /\
                   f ∈ filesAt h0 ps /\ Path f = path.
Proof.
  unfold goneOf, failedOf. rewrite list_elem_of_fmap. split.
  - intros (f & -> & Hf). apply elem_of_concat in Hf as (fs & Hf & Hfs).
    apply list_elem_of_fmap in Hfs as ([key ps] & -> & Hkv).
    apply list_elem_of_filter in Hkv as [Hup Hkv]. exists key, ps, f. auto.
  - intros (key & ps & f & Hkv & Hup & Hf & <-). exists f. split; [reflexivity|].
    apply elem_of_concat. exists (filesAt h0 ps). split; [exact Hf|].
    apply list_elem_of_fmap. exists (key, ps). split; [reflexivity|].
    apply list_elem_of_filter. auto.
Qed.

End Rollback.

(** *** Saving the manifest *)

Lemma PutReader_other (l : Store.Layer) (key : string) (r : Store.content + error) (k : string) :
  k <> key ->
  Store.dataStore (fst (Store.PutReader l key r)) !! k = Store.dataStore l !! k.
Proof.
  intros Hne. unfold Store.PutReader.
  destruct (Store.putFn l key), r; simpl; try reflexivity; apply lookup_insert_ne; congruence.
Qed.

Lemma getStoreMetadata_layer (s : Store.Store) :
  Store.layer (fst (fst (Store.getStoreMetadata s))) = Store.layer s.
Proof.
  unfold Store.getStoreMetadata. destruct (Store.meta s); [reflexivity|].
  destruct (Store.GetReader _ _); [|reflexivity].
  destruct (ParseVersionJSON _) as [ver [|]]; [|reflexivity].
  destruct (ver =? 1); [|reflexivity].
  destruct (Store.unmarshalMetadata _) as [md [e|]]; reflexivity.
Qed.

Lemma putUserMetadata_other (s : Store.Store) (key : string) (v : json) (k : string) :
  k <> Store.c_METADATA_KEY ->
  Store.dataStore (Store.layer (fst (Store.putUserMetadata s key v))) !! k
  = Store.dataStore (Store.layer s) !! k.
Proof.
  intros Hne. unfold Store.putUserMetadata.
  pose proof (getStoreMetadata_layer s) as Hl.
  destruct (Store.getStoreMetadata s) as [[s' md] err]. simpl in Hl.
  destruct err as [e|]; simpl; [rewrite Hl; reflexivity|].
  unfold Store.putStoreMetadata.
  match goal with
  | |- context [Store.PutReader ?l ?key ?r] =>
      pose proof (PutReader_other l key r k Hne) as Hput;
      destruct (Store.PutReader l key r) as [l' e]
  end.
  simpl in Hput. rewrite Hl in Hput. destruct e; simpl; exact Hput.
Qed.

Lemma Put_spec (s : Store.Store) (key : string) (b : Store.body) :
  (forall k, k <> key ->
     Store.dataStore (Store.layer (fst (Store.Put s key b))) !! k
     = Store.dataStore (Store.layer s) !! k) /\
  (snd (Store.Put s key b) = None ->
     Store.dataStore (Store.layer (fst (Store.Put s key b))) !! key
     = Some (Store.Sealed b)).
Proof.
  unfold Store.Put, Store.StorePutReader.
  destruct (Store.isForbiddenKey key); [split; [reflexivity|discriminate]|].
  destruct (negb (Store.isConnected s)); [split; [reflexivity|discriminate]|].
  split.
  - intros k Hne.
    match goal with
    | |- context [Store.PutReader ?l ?key ?r] =>
        pose proof (PutReader_other l key r k Hne) as Hput;
        destruct (Store.PutReader l key r) as [l' e]
    end.
    exact Hput.
  - unfold Store.PutReader. destruct (Store.putFn (Store.layer s) key); simpl;
      try discriminate. intros _. apply lookup_insert_eq.
Qed.

Lemma marshalEntries_total (h : heap) (l : list ptr) (acc : list json) :
  (forall p, p ∈ l -> is_Some (h !! p)) ->
  exists es, fold_left (fun acc p => es ← acc; e ← load h p; Done (es ++ [marshalEntry e]))
                       l (Done acc) = Done es.
Proof.
  revert acc. induction l as [|p l IH]; intros acc Hall; cbn [fold_left]; [eauto|].
  destruct (Hall p) as [e He]; [constructor|].
  cbn [mbind outcome_bind]. unfold load. rewrite He. cbn [mbind outcome_bind].
  apply IH. intros q Hq. apply Hall. now constructor.
Qed.

Lemma marshalManifest_total (h : heap) (m : Manifest) :
  manifestOK h m -> exists doc, marshalManifest h m = Done doc.
Proof.
  intros Hok. unfold marshalManifest.
  destruct (marshalEntries_total h (Entries m) []) as (es & ->).
  - intros p Hp. destruct (ok_entries _ _ Hok p Hp) as (e & He & _). eauto.
  - cbn [mbind outcome_bind]. eauto.
Qed.

Lemma blobKey_manifest (key set : string) : blobKey key <> ("manifest/" ++ set)%string.
Proof. unfold blobKey. intros Heq. apply (f_equal (String.get 0)) in Heq. discriminate. Qed.

Lemma blobKey_metadata (key : string) : blobKey key <> Store.c_METADATA_KEY.
Proof. unfold blobKey. intros Heq. apply (f_equal (String.get 0)) in Heq. discriminate. Qed.

(** [saveManifest] returns, touches no blob, and when it returns nil the
    object [manifest/<LastSet>] holds the manifest it was given. *)
Lemma saveManifest_spec (s : Store.Store) (h : heap) (m : Manifest) :
  manifestOK h m ->
  exists doc s' err,
    marshalManifest h m = Done doc /\
    saveManifest s h m = Done (s', err) /\
    (forall key, Store.dataStore (Store.layer s') !! blobKey key
                 = Store.dataStore (Store.layer s) !! blobKey key) /\
    (err = None ->
     Store.dataStore (Store.layer s') !! ("manifest/" ++ LastSet m)%string
     = Some (Store.Sealed (Store.Document doc))).
Proof.
  intros Hok. destruct (marshalManifest_total h m Hok) as (doc & Hdoc).
  exists doc. unfold saveManifest. rewrite Hdoc. cbn [mbind outcome_bind].
  destruct (writeError "manifest.json~") as [e|].
  { exists s, (Some e). split; [reflexivity|]. split; [reflexivity|].
    split; [reflexivity|discriminate]. }
  destruct (Put_spec s ("manifest/" ++ LastSet m) (Store.Document doc)) as [Hother Hkey].
  destruct (Store.Put s _ _) as [s1 [e|]]; simpl in Hother, Hkey.
  { exists s1, (Some e). split; [reflexivity|]. split; [reflexivity|].
    split; [|discriminate]. intros key. apply Hother, blobKey_manifest. }
  pose proof (putUserMetadata_other s1 "manifest/latest" (JStr (LastSet m))) as Hmeta.
  destruct (Store.putUserMetadata s1 _ _) as [s2 err]. simpl in Hmeta.
  exists s2, err. split; [reflexivity|]. split; [reflexivity|]. split.
  - intros key. rewrite Hmeta by apply blobKey_metadata. apply Hother, blobKey_manifest.
  - intros _. rewrite Hmeta by discriminate. apply Hkey. reflexivity.
Qed.


(** *** Manifests that meet the conditions *)

Lemma dirsBare_empty (h : heap) (m : Manifest) : Entries m = [] -> dirsBare h m.
Proof. intros He p e Hp. rewrite He in Hp. inversion Hp. Qed.

Lemma onePart_empty (h : heap) (m : Manifest) : Entries m = [] -> onePart h m.
Proof. intros He p e Hp. rewrite He in Hp. inversion Hp. Qed.

Lemma onePart_singlePart (h : heap) (m : Manifest) : onePart h m -> singlePart h m.
Proof. intros Hone p e Hp He _. exact (Hone p e Hp He). Qed.

Lemma latestAreDirs_check (h : heap) (m : Manifest) :
  forallb (fun p => match h !! p with
                    | Some e => implb (String.eqb (Set_ e) (LastSet m)) (IsDir (EFile e))
                    | None => true
                    end) (Entries m) = true ->
  latestAreDirs h m.
Proof.
  intros Hall p e Hp He Hset. rewrite forallb_forall in Hall.
  specialize (Hall p (proj1 (list_elem_of_In _ _) Hp)). rewrite He in Hall.
  apply String.eqb_eq in Hset. rewrite Hset in Hall. exact Hall.
Qed.

(** *** The contract of [backupLatest] *)


(** What a run of [backupLatest] leaves: the bundles as [LatestEntries]
    gives them, a manifest that holds nothing it did not hold, and for
    every bundle either its object or none of its files. *)
Lemma backupLatest_outcome (store : Store.Store) (h : heap) (m : Manifest) :
  manifestOK h m -> dirsBare h m -> singlePart h m ->
  exists (latest : gmap string (list ptr)) u err,
    (forall key, latest !! key = merge None (bundleOf h m key)) /\
    backupLatest store h m = Done (u, err) /\
    manifestOK (hp u) (man u) /\
    (forall path e, view (hp u) (man u) !! path = Some e -> view h m !! path = Some e) /\
    (forall key ps, latest !! key = Some ps ->
       if uploadOK store key (filesAt h ps)
       then Store.dataStore (Store.layer (st u)) !! blobKey key
            = Some (Store.Sealed (Store.Tarball (filesAt h ps)))
       else forall f, f ∈ filesAt h ps -> view (hp u) (man u) !! Path f = None).
Proof.
  intros Hok Hbare Hone.
  destruct (LatestEntries_spec h m Hok Hone) as (latest & Hlat & Hspec).
  exists latest.
  assert (Hkeys : NoDup (fst <$> map_to_list latest)) by apply NoDup_fst_map_to_list.
  assert (Hmem : forall key ps p, (key, ps) ∈ map_to_list latest -> p ∈ ps ->
                   p ∈ Entries m /\ bundleKey h m p = Some key).
  { intros key ps p Hkv Hp. apply elem_of_map_to_list in Hkv.
    rewrite (latest_bundle h m latest key ps Hspec Hkv) in Hp.
    apply list_elem_of_filter in Hp. tauto. }
  unfold backupLatest. rewrite Hlat. cbn [mbind outcome_bind].
  destruct (0 <? Z.of_nat (size latest)) eqn:Hsize.
  - destruct (loopInv_run h m Hok Hbare store (Z.of_nat (size latest)) (map_to_list latest)
                Hkeys Hmem (map_to_list latest) [] (mkUploads (Z.of_nat (size latest)) 0 m h store)
                eq_refl (loopInv_start h m Hok store (Z.of_nat (size latest))))
      as (u1 & Hrun & Hinv).
    rewrite Hrun. cbn [mbind outcome_bind].
    destruct Hinv as [Htr Hserv Htot Hdone Hstored Hother].
    destruct (saveManifest_spec (st u1) (hp u1) (man u1) (tr_ok _ _ _ _ _ Htr))
      as (doc & s' & err & Hdoc & Hsave & Hblobs & Hsaved).
    rewrite Hsave. cbn [mbind outcome_bind].
    exists (setStore u1 s'), err. cbn [setStore st hp man totalPuts donePuts].
    split; [exact Hspec|]. split; [reflexivity|].
    split; [exact (tr_ok _ _ _ _ _ Htr)|]. split.
    + intros path e. rewrite (tr_view _ _ _ _ _ Htr). case_decide; [discriminate|auto].
    + intros key ps Hkv.
      assert (Hin : (key, ps) ∈ map_to_list latest) by (apply elem_of_map_to_list, Hkv).
      destruct (uploadOK store key (filesAt h ps)) eqn:Hup.
      * rewrite Hblobs. apply Hstored; assumption.
      * intros f Hf. rewrite (tr_view _ _ _ _ _ Htr). case_decide as Hgone; [reflexivity|].
        exfalso. apply Hgone, elem_of_goneOf. exists key, ps, f. auto.
  - assert (Hempty : latest = ∅).
    { apply map_size_empty_iff. apply Z.ltb_ge in Hsize. lia. }
    subst latest.
    exists (mkUploads (Z.of_nat (size (∅ : gmap string (list ptr)))) 0 m h store), None.
    cbn [st hp man totalPuts donePuts].
    split; [exact Hspec|]. split; [reflexivity|]. split; [exact Hok|].
    split; [auto|]. intros key ps Hkv. rewrite lookup_empty in Hkv. discriminate.
Qed.

End BackupLatest.

(** ** Manifests with a missing key *)

Section MissingKeys.
Import Go Json File Backup.
Context {FP : FilePath} {FS : FileSystem} {CD : Codecs}.

(** The keys an entry is dereferenced at without a test: those of the
    current format, those of versions 1 and 2, and the keys of the document
    of versions 1 and 2. *)
Definition entryKeys : list string :=
  ["root"; "name"; "mode"; "mtime"; "uid"; "gid"; "set"]%string.

Definition entryKeysV2 : list string :=
  ["root"; "name"; "mode"; "mtime"; "uid"; "gid"]%string.

Definition documentKeysV2 : list string :=
  ["version"; "key"; "created"; "entries"]%string.

(** An object that has no value for one of [keys]. *)
Definition omits (keys : list string) (raw : json) : bool :=
  match raw with
  | JObj _ =>
      match unmarshalKeymap raw with
      | Some km => existsb (fun k => if km !! k is Some (Some _) then false else true) keys
      | None => false
      end
  | _ => false
  end.

Definition decodes (item : json) : Prop :=
  item = JNull \/ exists e, UnmarshalEntry item zeroEntry = Done (e, None).

Definition decodesV2 (item : json) : Prop :=
  item <> JNull /\ exists e, unmarshalV2ManifestEntry item zeroEntry = Done (e, None).

(** Decoding comes to an object that omits a key it needs: an entry of a
    document of version 3, after fields and entries that decode; an entry of
    a document of version 1 or 2, after entries that decode; or the document
    of version 1 or 2 itself. *)
Inductive reachesOmission : Z -> json -> Prop :=
| omission_v3 (before after : list (string * json)) (key : string)
      (good rest : list json) (bad : json) (t : manifestFields) (saved : option error) :
    keyMatches "entries" key = true ->
    fold_left unmarshalField before (Done (Decoded zeroFields None)) = Done (Decoded t saved) ->
    Forall decodes good ->
    omits entryKeys bad = true ->
    reachesOmission 3 (JObj (before ++ (key, JArr (good ++ bad :: rest)) :: after))
| omission_v2_entry (ver : Z) (fields : list (string * json)) (km : keymap)
      (good rest : list json) (bad : json) :
    ver = 1 \/ ver = 2 ->
    unmarshalKeymap (JObj fields) = Some km ->
    km !! "entries"%string = Some (Some (JArr (good ++ bad :: rest))) ->
    Forall decodesV2 good ->
    omits entryKeysV2 bad = true ->
    reachesOmission ver (JObj fields)
| omission_v2_document (ver : Z) (fields : list (string * json)) :
    ver = 1 \/ ver = 2 ->
    omits documentKeysV2 (JObj fields) = true ->
    reachesOmission ver (JObj fields).

Ltac need km key :=
  destruct (km !! key%string) as [[?r|]|] eqn:?Hkey;
  [cbn [mbind outcome_bind]|eexists; reflexivity|eexists; reflexivity].

Lemma UnmarshalEntry_omits (raw : json) (f : ManifestEntry) :
  omits entryKeys raw = true -> exists why, UnmarshalEntry raw f = Panic why.
Proof.
  unfold omits, UnmarshalEntry. destruct raw as [| | | | | |fields]; try discriminate.
  destruct (unmarshalKeymap (JObj fields)) as [km|]; [|discriminate].
  unfold entryKeys, deref. cbn [existsb]. intros Hom.
  need km "root". destruct (unmarshalString _ _) as [root e1].
  need km "name". destruct (unmarshalString _ _) as [name e2].
  need km "mode". destruct (unmarshalInt _ _ _ _) as [mode e3].
  need km "mtime". destruct (unmarshalTime _ _) as [mtime e4].
  need km "uid". destruct (unmarshalInt _ _ _ _) as [uid e5].
  need km "gid". destruct (unmarshalInt _ _ _ _) as [gid e6].
  need km "set". discriminate.
Qed.

Lemma unmarshalV2ManifestEntry_omits (raw : json) (f : ManifestEntry) :
  omits entryKeysV2 raw = true -> exists why, unmarshalV2ManifestEntry raw f = Panic why.
Proof.
  unfold omits, unmarshalV2ManifestEntry. destruct raw as [| | | | | |fields]; try discriminate.
  destruct (unmarshalKeymap (JObj fields)) as [km|]; [|discriminate].
  unfold entryKeysV2, deref. cbn [existsb]. intros Hom.
  need km "root". destruct (unmarshalString _ _) as [root e1].
  need km "name". destruct (unmarshalString _ _) as [name e2].
  need km "mode". destruct (unmarshalInt _ _ _ _) as [mode e3].
  need km "mtime". destruct (unmarshalTime _ _) as [mtime e4].
  need km "uid". destruct (unmarshalInt _ _ _ _) as [uid e5].
  need km "gid". discriminate.
Qed.

Lemma unmarshalEntryItem_panic (items : list json) (why : string) :
  fold_left unmarshalEntryItem items (Panic why) = Panic why.
Proof. induction items as [|i items IH]; [reflexivity|exact IH]. Qed.

Lemma unmarshalField_panic (fields : list (string * json)) (why : string) :
  fold_left unmarshalField fields (Panic why) = Panic why.
Proof. induction fields as [|kv fields IH]; [reflexivity|exact IH]. Qed.

Lemma unmarshalEntryItem_good (good : list json) (es : list (option ManifestEntry))
    (saved : option error) :
  Forall decodes good ->
  exists es', fold_left unmarshalEntryItem good (Done (Decoded es saved))
              = Done (Decoded es' saved).
Proof.
  intros Hgood. revert es. induction Hgood as [|i good Hi _ IH]; intros es; [eauto|].
  cbn [fold_left]. destruct Hi as [->|(e & He)].
  - apply IH.
  - assert (Hstep : unmarshalEntryItem (Done (Decoded es saved)) i
                    = Done (Decoded (es ++ [Some e]) saved)).
    { unfold unmarshalEntryItem. cbn [mbind outcome_bind].
      destruct i; try (rewrite He; reflexivity).
      unfold UnmarshalEntry in He. cbn in He. discriminate. }
    rewrite Hstep. apply IH.
Qed.

Lemma entries_panic (good rest : list json) (bad : json) (saved : option error) :
  Forall decodes good -> omits entryKeys bad = true ->
  exists why, fold_left unmarshalEntryItem (good ++ bad :: rest) (Done (Decoded [] saved))
              = Panic why.
Proof.
  intros Hgood Hbad.
  destruct (unmarshalEntryItem_good good [] saved Hgood) as (es & Hes).
  destruct (UnmarshalEntry_omits bad zeroEntry Hbad) as (why & Hwhy).
  exists why. rewrite fold_left_app, Hes. cbn [fold_left].
  assert (Hstep : unmarshalEntryItem (Done (Decoded es saved)) bad = Panic why).
  { unfold unmarshalEntryItem. cbn [mbind outcome_bind].
    destruct bad; try discriminate. rewrite Hwhy. reflexivity. }
  rewrite Hstep. apply unmarshalEntryItem_panic.
Qed.

Lemma entriesV2_panic (good rest : list json) (bad : json) :
  Forall decodesV2 good -> omits entryKeysV2 bad = true ->
  exists why, unmarshalV2ManifestEntries (JArr (good ++ bad :: rest)) = Panic why.
Proof.
  intros Hgood Hbad.
  destruct (unmarshalV2ManifestEntry_omits bad zeroEntry Hbad) as (why & Hwhy).
  exists why. unfold unmarshalV2ManifestEntries. cbn [unmarshalRawItems].
  rewrite map_app, fold_left_app.
  match goal with |- fold_left ?f _ _ = _ => set (step := f) end.
  cbn [map fold_left].
  assert (Hpanic : forall items, fold_left step items (Panic why) = Panic why).
  { induction items as [|i items IH]; [reflexivity|exact IH]. }
  assert (Hrun : forall es, exists es',
             fold_left step (map (fun i => if i is JNull then None else Some i) good)
                       (Done (es, None)) = Done (es', None)).
  { clear Hpanic. induction Hgood as [|i good [Hi (e & He)] _ IH]; intros es; [eauto|].
    cbn [map fold_left].
    assert (Hstep : step (Done (es, None)) (if i is JNull then None else Some i)
                    = Done (es ++ [Some e], None)).
    { unfold step. cbn [mbind outcome_bind]. destruct i; try congruence;
        rewrite He; reflexivity. }
    rewrite Hstep. apply IH. }
  destruct (Hrun []) as (es & ->).
  assert (Hstep : step (Done (es, None)) (if bad is JNull then None else Some bad) = Panic why).
  { unfold step. cbn [mbind outcome_bind]. destruct bad; try discriminate.
    rewrite Hwhy. reflexivity. }
  rewrite Hstep. apply Hpanic.
Qed.

Lemma unmarshalV2Manifest_entry_panic (h : heap) (fields : list (string * json)) (km : keymap)
    (good rest : list json) (bad : json) :
  unmarshalKeymap (JObj fields) = Some km ->
  km !! "entries"%string = Some (Some (JArr (good ++ bad :: rest))) ->
  Forall decodesV2 good -> omits entryKeysV2 bad = true ->
  exists why, unmarshalV2Manifest h (JObj fields) = Panic why.
Proof.
  intros Hkm Hentries Hgood Hbad.
  destruct (entriesV2_panic good rest bad Hgood Hbad) as (why & Hwhy).
  unfold unmarshalV2Manifest. rewrite Hkm. unfold deref.
  need km "version". destruct (unmarshalInt _ _ _ _) as [version e1].
  need km "key". destruct (unmarshalString _ _) as [lastSet e2].
  need km "created". destruct (unmarshalTime _ _) as [created e3].
  rewrite Hentries. cbn [mbind outcome_bind]. rewrite Hwhy. eauto.
Qed.

Lemma unmarshalV2Manifest_document_panic (h : heap) (fields : list (string * json)) :
  omits documentKeysV2 (JObj fields) = true ->
  exists why, unmarshalV2Manifest h (JObj fields) = Panic why.
Proof.
  unfold omits, unmarshalV2Manifest.
  destruct (unmarshalKeymap (JObj fields)) as [km|]; [|discriminate].
  unfold documentKeysV2, deref. cbn [existsb]. intros Hom.
  need km "version". destruct (unmarshalInt _ _ _ _) as [version e1].
  need km "key". destruct (unmarshalString _ _) as [lastSet e2].
  need km "created". destruct (unmarshalTime _ _) as [created e3].
  need km "entries". discriminate.
Qed.

Lemma UnmarshalManifest_panic (h : heap) (before after : list (string * json)) (key : string)
    (good rest : list json) (bad : json) (t : manifestFields) (saved : option error) :
  keyMatches "entries" key = true ->
  fold_left unmarshalField before (Done (Decoded zeroFields None)) = Done (Decoded t saved) ->
  Forall decodes good -> omits entryKeys bad = true ->
  exists why,
    UnmarshalManifest h (JObj (before ++ (key, JArr (good ++ bad :: rest)) :: after))
    = Panic why.
Proof.
  intros Hkey Hbefore Hgood Hbad.
  destruct (entries_panic good rest bad saved Hgood Hbad) as (why & Hwhy).
  exists why. unfold UnmarshalManifest. rewrite fold_left_app, Hbefore. cbn [fold_left].
  assert (Hstep : unmarshalField (Done (Decoded t saved)) (key, JArr (good ++ bad :: rest))
                  = Panic why).
  { unfold unmarshalField. cbn [mbind outcome_bind].
    pose proof Hkey as Hfold. unfold keyMatches in Hfold. apply String.eqb_eq in Hfold.
    unfold keyMatches at 1 2 3 4. rewrite Hfold. cbn [foldName lowerAscii]. cbn.
    rewrite Hkey, Hwhy. reflexivity. }
  rewrite Hstep, unmarshalField_panic. reflexivity.
Qed.

(** C9.  [ReadManifestData] panics on the nil pointer, and returns no
    error, when the data has a recognized version and decoding comes to an
    object that omits a key: in version 3 an entry without one of root,
    name, mode, mtime, uid, gid, set; in versions 1 and 2 an entry without
    one of root, name, mode, mtime, uid, gid, or the document without one
    of version, key, created, entries. *)
Theorem ReadManifestData_panics (h : heap) (ver : Z) (doc : json) :
  ParseVersionJSON (Some doc) = (ver, true) -> reachesOmission ver doc ->
  exists why, ReadManifestData h (Some doc) = Panic why.
Proof.
  intros Hver Hreach. unfold ReadManifestData. rewrite Hver.
  destruct Hreach as [before after key good rest bad t saved Hkey Hbefore Hgood Hbad
                     |ver fields km good rest bad Hv Hkm Hentries Hgood Hbad
                     |ver fields Hv Hom].
  - cbn. eapply UnmarshalManifest_panic; eassumption.
  - replace ((ver =? 1) || (ver =? 2)) with true by (destruct Hv; subst; reflexivity).
    eapply unmarshalV2Manifest_entry_panic; eassumption.
  - replace ((ver =? 1) || (ver =? 2)) with true by (destruct Hv; subst; reflexivity).
    apply unmarshalV2Manifest_document_panic, Hom.
Qed.

End MissingKeys.

(** ** The encryption envelope *)

Section Streams.
Import Go Crypto.
Context {PR : Primitives} {AL : Allocator}.

(** With enough fuel the call returns [a]. *)
Definition returns {A : Type} (f : nat -> outcome A) (a : A) : Prop :=
  exists k, forall fuel, (k <= fuel)%nat -> f fuel = Done a.

(** With enough fuel the call panics. *)
Definition panics {A : Type} (f : nat -> outcome A) : Prop :=
  exists k why, forall fuel, (k <= fuel)%nat -> f fuel = Panic why.

Lemma returns_done {A : Type} (a : A) : returns (fun _ => Done a) a.
Proof. exists 0%nat. reflexivity. Qed.

Lemma returns_bind {A B : Type} (f : nat -> outcome A) (g : nat -> A -> outcome B) (a : A) (b : B) :
  returns f a -> returns (fun fuel => g fuel a) b ->
  returns (fun fuel => f fuel ≫= g fuel) b.
Proof.
  intros [k Hk] [k' Hk']. exists (Nat.max k k'). intros fuel Hfuel.
  rewrite Hk by lia. cbn [mbind outcome_bind]. apply Hk'. lia.
Qed.

Lemma panics_bind {A B : Type} (f : nat -> outcome A) (g : nat -> A -> outcome B) (a : A) :
  returns f a -> panics (fun fuel => g fuel a) ->
  panics (fun fuel => f fuel ≫= g fuel).
Proof.
  intros [k Hk] (k' & why & Hk'). exists (Nat.max k k'), why. intros fuel Hfuel.
  rewrite Hk by lia. cbn [mbind outcome_bind]. apply Hk'. lia.
Qed.

Lemma returns_ext {A : Type} (f g : nat -> outcome A) (a : A) :
  (forall fuel, f fuel = g fuel) -> returns g a -> returns f a.
Proof. intros Heq [k Hk]. exists k. intros fuel Hfuel. rewrite Heq. auto. Qed.

Lemma returns_inj {A : Type} (f : nat -> outcome A) (a b : A) :
  returns f a -> returns f b -> a = b.
Proof.
  intros [k Hk] [k' Hk'].
  specialize (Hk (Nat.max k k') ltac:(lia)). specialize (Hk' (Nat.max k k') ltac:(lia)).
  congruence.
Qed.

(** *** Readers that deliver a stream

    A reader in a state that [inv] relates to [rest] has the bytes [rest]
    left: a read of one byte or more gives the next of them, at least one
    unless the error is EOF, and EOF comes with the last of them or after. *)
Definition wellBehaved {S : Type} `{Reader S} (inv : S -> list Z -> Prop) : Prop :=
  forall st rest size, inv st rest -> 1 <= size ->
    exists st' out rest' err,
      returns (fun fuel => Read fuel st size) (st', out, err) /\
      rest = out ++ rest' /\ len out <= size /\ inv st' rest' /\
      ((err = None /\ out <> []) \/ (err = Some EOF /\ rest' = [])).

Definition delivers {S : Type} `{Reader S} (st : S) (s : list Z) : Prop :=
  exists inv, wellBehaved inv /\ inv st s.

Lemma len_app (a b : list Z) : len (a ++ b) = len a + len b.
Proof. unfold len. rewrite length_app. lia. Qed.

Lemma len_nonneg (a : list Z) : 0 <= len a.
Proof. unfold len. lia. Qed.

Lemma len_nil_inv (a : list Z) : len a = 0 -> a = [].
Proof. unfold len. destruct a; [reflexivity|simpl; lia]. Qed.

Lemma len_take (n : Z) (a : list Z) : len (take (Z.to_nat n) a) = Z.max 0 (Z.min n (len a)).
Proof. unfold len. rewrite length_take. lia. Qed.

Lemma len_drop (n : Z) (a : list Z) : len (drop (Z.to_nat n) a) = len a - Z.max 0 (Z.min n (len a)).
Proof. unfold len. rewrite length_drop. lia. Qed.

Lemma Buffer_wellBehaved : wellBehaved (S := Buffer) (fun b rest => b = rest).
Proof.
  intros b rest size <- Hsize. unfold Read, Buffer_Reader, bufferRead.
  destruct b as [|z b].
  - exists [], [], [], (Some EOF). replace (size =? 0) with false by lia.
    split; [apply returns_done|]. unfold len. simpl. repeat split; auto; lia.
  - exists (drop (Z.to_nat size) (z :: b)), (take (Z.to_nat size) (z :: b)),
           (drop (Z.to_nat size) (z :: b)), None.
    split; [apply returns_done|]. split; [symmetry; apply take_drop|].
    split; [rewrite len_take; lia|]. split; [reflexivity|]. left. split; [reflexivity|].
    destruct (Z.to_nat size) eqn:Hn; [lia|discriminate].
Qed.

Lemma BytesReader_wellBehaved : wellBehaved (fun r rest => unreadBytes r = rest).
Proof.
  intros [b] rest size <- Hsize. unfold Read, BytesReader_Reader. simpl.
  destruct b as [|z b].
  - exists (NewReader []), [], [], (Some EOF).
    split; [apply returns_done|]. unfold len. simpl. repeat split; auto; lia.
  - exists (NewReader (drop (Z.to_nat size) (z :: b))), (take (Z.to_nat size) (z :: b)),
           (drop (Z.to_nat size) (z :: b)), None.
    split; [apply returns_done|]. split; [symmetry; apply take_drop|].
    split; [rewrite len_take; lia|]. split; [reflexivity|]. left. split; [reflexivity|].
    destruct (Z.to_nat size) eqn:Hn; [lia|discriminate].
Qed.

Lemma NewReader_delivers (s : list Z) : delivers (NewReader s) s.
Proof. eexists. split; [apply BytesReader_wellBehaved|reflexivity]. Qed.

Lemma Buffer_delivers (b : Buffer) : delivers b b.
Proof. eexists. split; [apply Buffer_wellBehaved|reflexivity]. Qed.

(** [iotest.OneByteReader] delivers what the reader it wraps delivers. *)
Lemma OneByteReader_delivers {S : Type} `{Reader S} (st : S) (s : list Z) :
  delivers st s -> delivers (OneByteReader st) s.
Proof.
  intros (inv & Hwb & Hinv). exists (fun o rest => inv (r1 o) rest). split; [|exact Hinv].
  intros [r] rest size Hr Hsize. simpl in Hr.
  destruct (Hwb r rest 1 Hr ltac:(lia)) as (st' & out & rest' & err & Hrun & Hrest & Hlen & Hinv' & Hend).
  exists (OneByteReader st'), out, rest', err.
  split; [|split; [exact Hrest|split; [lia|split; [exact Hinv'|exact Hend]]]].
  unfold Read, oneByteReader_Reader. replace (size =? 0) with false by lia.
  eapply returns_bind; [exact Hrun|]. apply returns_done.
Qed.

(** [io.LimitReader]: of the bytes [full] the reader has left, the limited
    one delivers the first [N] and leaves [tail]. *)
Definition limited {S : Type} (inv : S -> list Z -> Prop) (tail : list Z)
    (l : LimitedReader S) (rest : list Z) : Prop :=
  exists full, inv (R l) full /\ rest = take (Z.to_nat (N l)) full /\
               drop (Z.to_nat (N l)) full = tail.

Lemma LimitedReader_wellBehaved {S : Type} `{Reader S} (inv : S -> list Z -> Prop)
    (tail : list Z) :
  wellBehaved inv -> wellBehaved (limited inv tail).
Proof.
  intros Hwb [r n] rest size (full & Hr & Hrest & Htail) Hsize. simpl in *.
  unfold Read, LimitedReader_Reader. cbn [N R].
  destruct (Z.leb_spec n 0) as [Hn|Hn].
  - exists (LimitReader r n), [], [], (Some EOF).
    replace (Z.to_nat n) with 0%nat in * by lia. rewrite take_0 in Hrest. subst rest.
    split; [apply returns_done|]. split; [reflexivity|]. split; [unfold len; simpl; lia|].
    split; [|auto]. exists full. simpl. replace (Z.to_nat n) with 0%nat by lia. auto.
  - destruct (Hwb r full (Z.min size n) Hr ltac:(lia))
      as (r' & out & full' & err & Hrun & Hfull & Hlen & Hinv' & Hend).
    assert (Hout : (length out <= Z.to_nat n)%nat) by (unfold len in Hlen; lia).
    exists (LimitReader r' (n - len out)), out, (take (Z.to_nat (n - len out)) full'), err.
    split; [eapply returns_bind; [exact Hrun|apply returns_done]|].
    assert (Hn' : Z.to_nat (n - len out) = (Z.to_nat n - length out)%nat) by (unfold len; lia).
    split; [|split; [lia|split]].
    + rewrite Hrest, Hfull, take_app, Hn'. f_equal. apply take_ge. lia.
    + exists full'. cbn [N R]. split; [exact Hinv'|]. split; [reflexivity|].
      rewrite <- Htail, Hfull, drop_app, Hn'. rewrite (drop_ge out) by lia. reflexivity.
    + destruct Hend as [Hend|[-> ->]]; [left; exact Hend|right]. rewrite take_nil. auto.
Qed.

Hypothesis room_MinRead : forall n, c_MIN_READ <= room n.

(** [b.ReadFrom(r)] appends all that [r] delivers and returns nil. *)
Lemma ReadFrom_delivers {S : Type} `{Reader S} (inv : S -> list Z -> Prop) :
  wellBehaved inv ->
  forall s st b, inv st s ->
    exists st', returns (fun fuel => ReadFrom fuel b st) (st', b ++ s, None) /\ inv st' [].
Proof.
  intros Hwb s. induction s as [s IH] using (induction_ltof1 _ (@length Z)).
  intros st b Hinv.
  assert (Hroom : 1 <= room (len b)).
  { pose proof (room_MinRead (len b)) as Hroom. unfold c_MIN_READ in Hroom. lia. }
  destruct (Hwb st s (room (len b)) Hinv Hroom)
    as (st1 & out & rest & err & [k Hrun] & Hs & Hlen & Hinv1 & Hend).
  destruct Hend as [[-> Hout]|[-> ->]].
  - destruct (IH rest) with (st := st1) (b := b ++ out) as (st' & [k' Hrun'] & Hinv').
    { unfold ltof. subst s. rewrite length_app. destruct out; [congruence|simpl; lia]. }
    { exact Hinv1. }
    exists st'. split; [|exact Hinv'].
    exists (Datatypes.S (Nat.max k k')). intros [|fuel] Hfuel; [lia|].
    cbn [ReadFrom]. rewrite Hrun by lia. cbn [mbind outcome_bind].
    rewrite Hrun' by lia. subst s. rewrite app_assoc. reflexivity.
  - exists st1. split; [|exact Hinv1].
    exists (Datatypes.S k). intros [|fuel] Hfuel; [lia|].
    cbn [ReadFrom]. rewrite Hrun by lia. cbn [mbind outcome_bind].
    subst s. rewrite app_nil_r. reflexivity.
Qed.

Lemma ReadAll_delivers {S : Type} `{Reader S} (st : S) (s : list Z) :
  delivers st s -> exists st', returns (fun fuel => ReadAll fuel st) (st', s, None).
Proof.
  intros (inv & Hwb & Hinv).
  destruct (ReadFrom_delivers inv Hwb s st [] Hinv) as (st' & Hrun & _). eauto.
Qed.

(** [io.CopyN] moves the next [n] bytes, or all there are with EOF. *)
Lemma CopyN_delivers {S : Type} `{Reader S} (inv : S -> list Z -> Prop) (st : S)
    (rest dst : list Z) (n : Z) :
  wellBehaved inv -> inv st rest ->
  exists st',
    returns (fun fuel => CopyN fuel dst st n)
            (st', dst ++ take (Z.to_nat n) rest, len (take (Z.to_nat n) rest),
             if len (take (Z.to_nat n) rest) <? n then Some EOF else None) /\
    inv st' (drop (Z.to_nat n) rest).
Proof.
  intros Hwb Hinv.
  destruct (ReadFrom_delivers (limited inv (drop (Z.to_nat n) rest))
              (LimitedReader_wellBehaved inv _ Hwb)
              (take (Z.to_nat n) rest) (LimitReader st n) dst) as (l & Hrun & Hl).
  { exists rest. auto. }
  destruct Hl as (full & Hfull & Hnil & Htail).
  assert (full = drop (Z.to_nat n) rest) as ->.
  { rewrite <- Htail. rewrite <- (take_drop (Z.to_nat (N l)) full) at 1.
    rewrite <- Hnil. reflexivity. }
  exists (R l). split; [|exact Hfull].
  unfold CopyN. eapply returns_bind; [exact Hrun|]. cbn beta iota.
  rewrite len_app. replace (len dst + len (take (Z.to_nat n) rest) - len dst)
    with (len (take (Z.to_nat n) rest)) by lia.
  set (k := len (take (Z.to_nat n) rest)).
  destruct (Z.eqb_spec k n) as [->|Hne].
  - rewrite Z.ltb_irrefl. apply returns_done.
  - rewrite bool_decide_eq_true_2 by reflexivity. rewrite andb_true_r.
    destruct (k <? n); apply returns_done.
Qed.

(** *** Ciphertexts of a wrong length *)

Hypothesis blockDecrypt_length :
  forall c, length c = 16%nat -> length (blockDecrypt c) = 16%nat.

Lemma bufferRead_spec (b : Buffer) (size : Z) :
  1 <= size ->
  bufferRead b size =
  (drop (Z.to_nat size) b, take (Z.to_nat size) b, if b is [] then Some EOF else None).
Proof.
  intros Hsize. unfold bufferRead. destruct b; [|reflexivity].
  replace (size =? 0) with false by lia. rewrite drop_nil, take_nil. reflexivity.
Qed.

Lemma bufferRead_nonempty (b : Buffer) (size : Z) :
  b <> [] -> 1 <= size ->
  bufferRead b size = (drop (Z.to_nat size) b, take (Z.to_nat size) b, None).
Proof.
  intros Hb Hsize. rewrite bufferRead_spec by exact Hsize. destruct b; congruence.
Qed.

Lemma decryptBlocks_length (n : nat) (iv src : list Z) :
  length iv = 16%nat -> length src = (16 * n)%nat ->
  length (fst (decryptBlocks n iv src)) = (16 * n)%nat /\
  length (snd (decryptBlocks n iv src)) = 16%nat.
Proof.
  revert iv src. induction n as [|n IH]; intros iv src Hiv Hsrc; [auto|].
  cbn [decryptBlocks].
  destruct (IH (take 16 src) (drop 16 src)) as [Hdst Hiv'].
  { rewrite length_take. lia. }
  { rewrite length_drop. lia. }
  destruct (decryptBlocks n (take 16 src) (drop 16 src)) as [dst iv']. simpl in *.
  split; [|exact Hiv']. rewrite length_app. unfold xorBytes. rewrite length_zip_with.
  rewrite blockDecrypt_length by (rewrite length_take; lia). lia.
Qed.

Lemma target_facts (k : Z) :
  0 <= k ->
  let target := (Z.quot k c_BLOCK_SIZE + 1) * c_BLOCK_SIZE in
  k < target /\ target <= k + 16 /\ Z.rem target 16 = 0 /\ Z.quot target 16 = Z.quot k 16 + 1.
Proof.
  intros Hk target. subst target. unfold c_BLOCK_SIZE.
  rewrite Z.rem_mul by lia. rewrite Z.quot_mul by lia.
  pose proof (Z.quot_rem' k 16). pose proof (Z.rem_bound_pos k 16 Hk ltac:(lia)). lia.
Qed.

Section Malformed.
Context {T : Type} `{Reader T}.
Variable inv : T -> list Z -> Prop.
Hypothesis Hwb : wellBehaved inv.

(** The decrypting reader before the end of its input, [crest] being what
    its input has left, when the ciphertext that is left has no whole
    number of blocks before the signature. *)
Definition misaligned (d : decryptReader T) (crest : list Z) : Prop :=
  dfin d = false /\ inv (dtext d) crest /\ length (dcbc d) = 16%nat /\
  Z.rem (len (enc d) + len crest - c_HMAC_SIZE) c_BLOCK_SIZE <> 0.

Lemma decryptRead_misaligned (d : decryptReader T) (crest : list Z) (size : Z) :
  misaligned d crest -> 1 <= size ->
  exists d' out err,
    returns (fun fuel => Read fuel d size) (d', out, err) /\
    (err = Some ErrNotBlockMultiple \/
     (err = None /\ out <> [] /\
      exists crest', misaligned d' crest' /\
        (length crest' + length (dbuf d') < length crest + length (dbuf d))%nat)).
Proof.
  intros (Hfin & Hinv & Hiv & Hrem) Hsize.
  unfold Read, decryptReader_Reader, decryptRead.
  rewrite (bufferRead_spec _ _ Hsize), Hfin, orb_false_r.
  set (out := take (Z.to_nat size) (dbuf d)).
  destruct (Z.eqb_spec (len out) size) as [Hfull|Hpart].
  - (* the buffer holds all that is asked for *)
    exists (mkDecryptReader (dtext d) (dcbc d) (dmac d) (drop (Z.to_nat size) (dbuf d))
                            false (enc d)), out, None.
    assert (Hne : dbuf d <> []).
    { intros Hnil. subst out. rewrite Hnil, take_nil in Hfull. unfold len in Hfull.
      simpl in Hfull. lia. }
    split.
    { destruct (dbuf d); [congruence|]. apply returns_done. }
    right. split; [reflexivity|]. split.
    { intros Hnil. rewrite Hnil in Hfull. unfold len in Hfull. simpl in Hfull. lia. }
    exists crest. split; [split; [reflexivity|split; [exact Hinv|split; assumption]]|].
    cbn [dbuf]. rewrite length_drop. destruct (dbuf d); [congruence|]. simpl. lia.
  - (* the buffer is drained and the input is read *)
    assert (Hout : len out < size).
    { subst out. rewrite len_take in *. lia. }
    assert (Hdrained : drop (Z.to_nat size) (dbuf d) = []).
    { apply drop_ge. subst out. rewrite len_take in Hout. unfold len in Hout. lia. }
    rewrite Hdrained.
    destruct (target_facts (size - len out)) as (Ht1 & Ht2 & Ht3 & Ht4);
      [pose proof (len_nonneg out); lia|].
    set (target := (Z.quot (size - len out) c_BLOCK_SIZE + 1) * c_BLOCK_SIZE) in *.
    destruct (CopyN_delivers inv (dtext d) crest (enc d) (target + c_HMAC_SIZE + 1) Hwb Hinv)
      as (t & Hcopy & Hinv').
    set (N := target + c_HMAC_SIZE + 1) in *.
    assert (HNval : N = target + 21) by (unfold N, c_HMAC_SIZE; lia).
    pose proof (len_nonneg out) as Hout0.
    destruct (Z.ltb_spec (len (take (Z.to_nat N) crest)) N) as [Hshort|Hlong].
    + (* the input ends *)
      assert (Hall : take (Z.to_nat N) crest = crest).
      { apply take_ge. rewrite len_take in Hshort. unfold len in Hshort. lia. }
      rewrite Hall in Hcopy.
      eexists _, out, (Some ErrNotBlockMultiple). split; [|left; reflexivity].
      eapply returns_bind; [exact Hcopy|]. cbn beta iota.
      unfold decryptLast. cbn [enc]. rewrite len_app.
      destruct (Z.eqb_spec (Z.rem (len (enc d) + len crest - c_HMAC_SIZE) c_BLOCK_SIZE) 0);
        [contradiction|]. apply returns_done.
    + (* a whole read-ahead has come *)
      assert (HN : len (take (Z.to_nat N) crest) = N) by (rewrite len_take in *; lia).
      assert (Hcrest : N <= len crest) by (rewrite len_take in HN; lia).
      set (e1 := enc d ++ take (Z.to_nat N) crest) in *.
      assert (He1 : target + 21 <= len e1).
      { subst e1 N. rewrite len_app, HN. pose proof (len_nonneg (enc d)).
        unfold c_HMAC_SIZE. lia. }
      destruct (CopyN_delivers (S := Buffer) (fun b rest => b = rest) e1 e1 [] target
                  Buffer_wellBehaved eq_refl) as (e2 & Hmove & He2).
      assert (Hmoved : len (take (Z.to_nat target) e1) = target) by (rewrite len_take; lia).
      rewrite Hmoved, Z.ltb_irrefl in Hmove. cbn [app] in Hmove.
      set (c1 := take (Z.to_nat target) e1) in *.
      destruct (decryptBlocks_length (Z.to_nat (Z.quot target 16)) (dcbc d) c1 Hiv) as [Hp Hiv'].
      { unfold len in Hmoved. pose proof (Z.quot_rem' target 16). lia. }
      destruct (decryptBlocks (Z.to_nat (Z.quot target 16)) (dcbc d) c1) as [p iv'] eqn:Hdec.
      simpl in Hp, Hiv'.
      assert (Hplen : len p = target).
      { unfold len. pose proof (Z.quot_rem' target 16). lia. }
      eexists _, (out ++ take (Z.to_nat (size - len out)) p), None. split.
      { eapply returns_bind; [exact Hcopy|]. cbn beta iota.
        unfold decryptRest. cbn [dbuf enc dmac dcbc dfin dtext].
        eapply returns_bind; [exact Hmove|]. cbn beta iota.
        rewrite Z.eqb_refl. cbn [negb].
        unfold CryptBlocks. fold c1. rewrite Hmoved. unfold c_BLOCK_SIZE. rewrite Ht3.
        cbn [Z.eqb]. rewrite Hdec. cbn [mbind outcome_bind].
        rewrite bufferRead_spec by lia.
        destruct p as [|z p]; [unfold len in Hplen; simpl in Hplen; lia|].
        apply returns_done. }
      right. split; [reflexivity|]. split.
      { intros Hnil. apply app_eq_nil in Hnil as [_ Hnil].
        apply (f_equal len) in Hnil. rewrite len_take, Hplen in Hnil.
        change (len []) with 0 in Hnil. lia. }
      exists (drop (Z.to_nat N) crest). unfold misaligned. cbn [dbuf dfin dtext dcbc enc]. split.
      * split; [reflexivity|]. split; [exact Hinv'|]. split; [exact Hiv'|].
        subst e2. rewrite !len_drop. subst e1. rewrite len_app, HN.
        unfold c_HMAC_SIZE, c_BLOCK_SIZE in *.
        pose proof (len_nonneg (enc d)).
        replace (Z.max 0 (Z.min target (len (enc d) + N))) with target by lia.
        replace (Z.max 0 (Z.min N (len crest))) with N by lia.
        intros Hz. apply Hrem.
        revert Hz Ht3. generalize (len (enc d)) (len crest). intros a b Hz Ht3.
        Z.to_euclidean_division_equations. lia.
      * rewrite !length_drop. unfold len in *. lia.
Qed.

Lemma ReadFrom_misaligned (bound : nat) :
  forall (d : decryptReader T) (crest : list Z) (b : Buffer),
    misaligned d crest -> (length crest + length (dbuf d) <= bound)%nat ->
    exists d' b', returns (fun fuel => ReadFrom fuel b d) (d', b', Some ErrNotBlockMultiple).
Proof.
  induction bound as [|bound IH]; intros d crest b Hmis Hbound.
  all: assert (Hroom : 1 <= room (len b))
    by (pose proof (room_MinRead (len b)) as Hroom; unfold c_MIN_READ in Hroom; lia).
  all: destruct (decryptRead_misaligned d crest (room (len b)) Hmis Hroom)
    as (d1 & out & err & [k Hrun] & [->|(-> & Hout & crest' & Hmis' & Hless)]).
  - exists d1, (b ++ out), (Datatypes.S k). intros [|fuel] Hfuel; [lia|].
    cbn [ReadFrom]. rewrite Hrun by lia. reflexivity.
  - lia.
  - exists d1, (b ++ out), (Datatypes.S k). intros [|fuel] Hfuel; [lia|].
    cbn [ReadFrom]. rewrite Hrun by lia. reflexivity.
  - destruct (IH d1 crest' (b ++ out) Hmis' ltac:(lia)) as (d' & b' & [k' Hrun']).
    exists d', b', (Datatypes.S (Nat.max k k')). intros [|fuel] Hfuel; [lia|].
    cbn [ReadFrom]. rewrite Hrun by lia. cbn [mbind outcome_bind]. apply Hrun'. lia.
Qed.

(** [DecryptReader] on an input of less than a block, and of a block or
    more. *)
Lemma DecryptReader_short (st : T) (cs : list Z) :
  inv st cs -> len cs < c_BLOCK_SIZE ->
  returns (fun fuel => DecryptReader fuel st) (inr ErrTooShort).
Proof.
  intros Hinv Hlen. unfold c_BLOCK_SIZE in Hlen.
  destruct (CopyN_delivers inv st cs [] c_BLOCK_SIZE Hwb Hinv) as (st' & Hcopy & _).
  unfold DecryptReader. eapply returns_bind; [exact Hcopy|]. cbn beta iota.
  replace (len (take (Z.to_nat c_BLOCK_SIZE) cs) <? c_BLOCK_SIZE) with true.
  - apply returns_done.
  - symmetry. apply Z.ltb_lt. rewrite len_take. unfold c_BLOCK_SIZE. lia.
Qed.

Lemma DecryptReader_opens (st : T) (cs : list Z) :
  inv st cs -> c_BLOCK_SIZE <= len cs ->
  exists st',
    returns (fun fuel => DecryptReader fuel st)
            (inl (mkDecryptReader st' (take 16 cs) (take 16 cs) [] false [])) /\
    inv st' (drop 16 cs).
Proof.
  intros Hinv Hlen. unfold c_BLOCK_SIZE in Hlen.
  destruct (CopyN_delivers inv st cs [] c_BLOCK_SIZE Hwb Hinv) as (st' & Hcopy & Hinv').
  exists st'. split; [|exact Hinv'].
  unfold DecryptReader. eapply returns_bind; [exact Hcopy|]. cbn beta iota.
  assert (Hk : len (take (Z.to_nat c_BLOCK_SIZE) cs) = c_BLOCK_SIZE).
  { rewrite len_take. unfold c_BLOCK_SIZE. lia. }
  rewrite Hk, Z.ltb_irrefl. cbn [orb app]. apply returns_done.
Qed.

(** A ciphertext of 20 bytes: the length without the signature is -16,
    which passes for a whole number of blocks, and the sanity check of the
    copy panics. *)
Lemma decryptRead_twenty (st : T) (iv crest : list Z) (size : Z) :
  inv st crest -> len crest = 4 -> 1 <= size ->
  panics (fun fuel => Read fuel (mkDecryptReader st iv iv [] false []) size).
Proof.
  intros Hinv Hlen Hsize.
  unfold Read, decryptReader_Reader, decryptRead. cbn [dbuf dfin enc dtext dcbc dmac].
  rewrite (bufferRead_spec _ _ Hsize), take_nil, drop_nil.
  change (len []) with 0. replace (0 =? size) with false by lia. cbn [orb].
  destruct (target_facts (size - 0)) as (Ht1 & Ht2 & Ht3 & Ht4); [lia|].
  set (target := (Z.quot (size - 0) c_BLOCK_SIZE + 1) * c_BLOCK_SIZE) in *.
  destruct (CopyN_delivers inv st crest [] (target + c_HMAC_SIZE + 1) Hwb Hinv)
    as (t & Hcopy & _).
  assert (Hall : take (Z.to_nat (target + c_HMAC_SIZE + 1)) crest = crest).
  { apply take_ge. unfold len in Hlen. unfold c_HMAC_SIZE. lia. }
  rewrite Hall, Hlen in Hcopy. cbn [app] in Hcopy.
  replace (4 <? target + c_HMAC_SIZE + 1) with true in Hcopy
    by (symmetry; apply Z.ltb_lt; unfold c_HMAC_SIZE; lia).
  eapply panics_bind; [exact Hcopy|]. cbn beta iota.
  unfold decryptLast. cbn [enc]. rewrite Hlen. cbn [negb].
  change (Z.rem (4 - c_HMAC_SIZE) c_BLOCK_SIZE =? 0) with true. cbn [negb].
  unfold decryptRest. cbn [enc dbuf].
  destruct (CopyN_delivers (S := Buffer) (fun b rest => b = rest) crest crest []
              (4 - c_HMAC_SIZE) Buffer_wellBehaved eq_refl) as (e2 & Hmove & _).
  change (Z.to_nat (4 - c_HMAC_SIZE)) with 0%nat in Hmove. rewrite take_0 in Hmove.
  eapply panics_bind; [exact Hmove|]. cbn beta iota.
  exists 0%nat, "sanity check"%string. reflexivity.
Qed.

End Malformed.

Lemma ReadFrom_panics {S : Type} `{Reader S} (st : S) (b : Buffer) :
  panics (fun fuel => Read fuel st (room (len b))) ->
  panics (fun fuel => ReadFrom fuel b st).
Proof.
  intros (k & why & Hk). exists (Datatypes.S k), why. intros [|fuel] Hfuel; [lia|].
  cbn [ReadFrom]. rewrite Hk by lia. reflexivity.
Qed.



(** *** Blocks, padding and chaining *)

Definition isByte (z : Z) : Prop := 0 <= z < 256.

Definition isBlock (b : list Z) : Prop := length b = 16%nat /\ Forall isByte b.

Lemma log2_byte (a : Z) : isByte a -> Z.log2 a < 8.
Proof.
  intros [Ha Hb]. destruct (Z.eq_dec a 0) as [->|Hne]; [reflexivity|].
  apply Z.log2_lt_pow2; lia.
Qed.

Lemma lxor_byte (a b : Z) : isByte a -> isByte b -> isByte (Z.lxor a b).
Proof.
  intros Ha Hb. pose proof (log2_byte a Ha). pose proof (log2_byte b Hb).
  destruct Ha as [Ha Ha'], Hb as [Hb Hb'].
  assert (Hpos : 0 <= Z.lxor a b) by (apply Z.lxor_nonneg; tauto).
  split; [exact Hpos|].
  destruct (Z.eq_dec (Z.lxor a b) 0) as [->|Hne]; [lia|].
  change 256 with (2 ^ 8). apply Z.log2_lt_pow2; [lia|].
  pose proof (Z.log2_lxor a b Ha Hb). lia.
Qed.

Lemma xorBytes_length (a b : list Z) :
  length a = length b -> length (xorBytes a b) = length a.
Proof. intros Hlen. unfold xorBytes. rewrite length_zip_with. lia. Qed.

Lemma xorBytes_bytes (a b : list Z) :
  Forall isByte a -> Forall isByte b -> Forall isByte (xorBytes a b).
Proof.
  intros Ha. revert b. induction Ha as [|x a Hx Ha IH]; intros b Hb; [constructor|].
  destruct Hb as [|y b Hy Hb]; [constructor|].
  cbn. constructor; [apply lxor_byte; assumption|apply IH, Hb].
Qed.

Lemma xorBytes_twice (a b : list Z) :
  length a = length b -> xorBytes (xorBytes a b) b = a.
Proof.
  revert b. induction a as [|x a IH]; intros [|y b] Hlen; try discriminate; [reflexivity|].
  cbn. rewrite Z.lxor_assoc, Z.lxor_nilpotent, Z.lxor_0_r. f_equal. apply IH.
  simpl in Hlen. lia.
Qed.

Lemma xorBytes_block (a b : list Z) : isBlock a -> isBlock b -> isBlock (xorBytes a b).
Proof.
  intros [Ha Ha'] [Hb Hb']. split; [rewrite xorBytes_length; lia|].
  apply xorBytes_bytes; assumption.
Qed.

Lemma pad_range (k : Z) : 0 <= k -> 1 <= c_BLOCK_SIZE - Z.rem k c_BLOCK_SIZE <= 16.
Proof.
  intros Hk. unfold c_BLOCK_SIZE. pose proof (Z.rem_bound_pos k 16 Hk ltac:(lia)). lia.
Qed.

Lemma len_repeat (z : Z) (n : nat) : len (repeat z n) = Z.of_nat n.
Proof. unfold len. rewrite repeat_length. reflexivity. Qed.

Lemma padBuffer_len (x : list Z) :
  len (padBuffer x) = len x + (c_BLOCK_SIZE - Z.rem (len x) c_BLOCK_SIZE) /\
  Z.rem (len (padBuffer x)) c_BLOCK_SIZE = 0.
Proof.
  pose proof (pad_range (len x) (len_nonneg x)) as Hpad.
  assert (Hlen : len (padBuffer x) = len x + (c_BLOCK_SIZE - Z.rem (len x) c_BLOCK_SIZE)).
  { unfold padBuffer. rewrite len_app, len_repeat. lia. }
  split; [exact Hlen|]. rewrite Hlen. unfold c_BLOCK_SIZE.
  pose proof (len_nonneg x) as Hk. revert Hk. generalize (len x). intros k Hk.
  Z.to_euclidean_division_equations. lia.
Qed.

Lemma padBuffer_bytes (x : list Z) : Forall isByte x -> Forall isByte (padBuffer x).
Proof.
  intros Hx. unfold padBuffer. apply Forall_app. split; [exact Hx|].
  pose proof (pad_range (len x) (len_nonneg x)) as Hpad.
  apply Forall_forall. intros z Hz. apply list_elem_of_In, repeat_spec in Hz. subst z.
  unfold isByte. lia.
Qed.

Lemma padBuffer_app (a b : list Z) :
  Z.rem (len a) c_BLOCK_SIZE = 0 -> padBuffer (a ++ b) = a ++ padBuffer b.
Proof.
  intros Ha. unfold padBuffer. rewrite len_app, <- app_assoc.
  replace (Z.rem (len a + len b) c_BLOCK_SIZE) with (Z.rem (len b) c_BLOCK_SIZE); [reflexivity|].
  unfold c_BLOCK_SIZE in *. pose proof (len_nonneg a). pose proof (len_nonneg b).
  generalize dependent (len a). generalize dependent (len b). intros k Hk l Hl Hl0.
  Z.to_euclidean_division_equations. lia.
Qed.

Lemma unpadBuffer_padBuffer (x : list Z) : unpadBuffer (padBuffer x) = Done (x, None).
Proof.
  pose proof (pad_range (len x) (len_nonneg x)) as Hpad.
  destruct (padBuffer_len x) as [Hlen _].
  unfold unpadBuffer. rewrite Hlen. unfold padBuffer at 1.
  set (pad := c_BLOCK_SIZE - Z.rem (len x) c_BLOCK_SIZE) in *.
  assert (Hrep : repeat pad (Z.to_nat pad) = repeat pad (Z.to_nat pad - 1) ++ [pad]).
  { replace (Z.to_nat pad) with (Datatypes.S (Z.to_nat pad - 1)) at 1 by lia.
    cbn [repeat]. apply repeat_cons. }
  rewrite Hrep, app_assoc, last_snoc.
  replace (pad >? c_BLOCK_SIZE) with false by (unfold c_BLOCK_SIZE; lia).
  replace (pad <=? 0) with false by lia. cbn [orb].
  replace (len x + pad - pad) with (len x) by lia.
  replace (len x <? 0) with false by (pose proof (len_nonneg x); lia).
  unfold padBuffer. fold pad. unfold len. rewrite Nat2Z.id.
  rewrite drop_app_length, take_app_length.
  replace (forallb (Z.eqb pad) (repeat pad (Z.to_nat pad))) with true; [reflexivity|].
  symmetry. apply forallb_forall. intros z Hz. apply repeat_spec in Hz. subst z.
  apply Z.eqb_refl.
Qed.

(** What is assumed of AES and of HMAC-SHA1: a block of 16 bytes is
    encrypted to a block, decrypting gives it back, and a signature has 20
    bytes. *)
Hypothesis blockEncrypt_block : forall b, isBlock b -> isBlock (blockEncrypt b).
Hypothesis blockDecrypt_encrypt : forall b, isBlock b -> blockDecrypt (blockEncrypt b) = b.
Hypothesis hmacSum_size : forall m, length (hmacSum m) = 20%nat.

Lemma take_block (src : list Z) :
  (16 <= length src)%nat -> Forall isByte src -> isBlock (take 16 src).
Proof.
  intros Hlen Hsrc. split; [rewrite length_take; lia|]. apply Forall_take, Hsrc.
Qed.

(** The chain of [k] blocks: what [CryptBlocks] of the encrypter gives, and
    that [CryptBlocks] of the decrypter, from the same vector, undoes it. *)
Lemma chain (k : nat) :
  forall iv src, isBlock iv -> length src = (16 * k)%nat -> Forall isByte src ->
    length (fst (encryptBlocks k iv src)) = (16 * k)%nat /\
    Forall isByte (fst (encryptBlocks k iv src)) /\
    isBlock (snd (encryptBlocks k iv src)) /\
    decryptBlocks k iv (fst (encryptBlocks k iv src)) = (src, snd (encryptBlocks k iv src)).
Proof.
  induction k as [|k IH]; intros iv src Hiv Hlen Hsrc.
  - destruct src; [|discriminate]. cbn. auto.
  - cbn [encryptBlocks].
    assert (Hb : isBlock (take 16 src)) by (apply take_block; [lia|exact Hsrc]).
    assert (Hx : isBlock (xorBytes (take 16 src) iv)) by (apply xorBytes_block; assumption).
    pose proof (blockEncrypt_block _ Hx) as Hc.
    set (c := blockEncrypt (xorBytes (take 16 src) iv)) in *.
    destruct (IH c (drop 16 src) Hc) as (Hl & Hby & Hiv' & Hdec).
    { rewrite length_drop. lia. }
    { apply Forall_drop, Hsrc. }
    destruct (encryptBlocks k c (drop 16 src)) as [dst iv'] eqn:Henc. cbn [fst snd] in *.
    destruct Hc as [Hc16 Hcb].
    split; [rewrite length_app; lia|]. split; [apply Forall_app; auto|].
    split; [exact Hiv'|].
    cbn [decryptBlocks].
    rewrite take_app_length' by (symmetry; exact Hc16).
    rewrite drop_app_length' by (symmetry; exact Hc16).
    rewrite Hdec. subst c. rewrite blockDecrypt_encrypt by exact Hx.
    rewrite xorBytes_twice by (destruct Hb, Hiv; lia).
    rewrite take_drop. reflexivity.
Qed.

Lemma encryptBlocks_app (k m : nat) :
  forall iv a b, length a = (16 * k)%nat ->
    encryptBlocks (k + m) iv (a ++ b) =
    (fst (encryptBlocks k iv a) ++ fst (encryptBlocks m (snd (encryptBlocks k iv a)) b),
     snd (encryptBlocks m (snd (encryptBlocks k iv a)) b)).
Proof.
  induction k as [|k IH]; intros iv a b Hlen.
  - destruct a; [|discriminate]. cbn. destruct (encryptBlocks m iv b). reflexivity.
  - cbn [Nat.add encryptBlocks].
    rewrite take_app_le by lia. rewrite drop_app_le by lia.
    rewrite IH by (rewrite length_drop; lia).
    destruct (encryptBlocks k _ (drop 16 a)) as [dst iv1]. cbn [fst snd].
    rewrite <- app_assoc. reflexivity.
Qed.

(** The number of blocks [CryptBlocks] goes through. *)
Definition blocksOf (src : list Z) : nat := Z.to_nat (Z.quot (len src) c_BLOCK_SIZE).

Lemma CryptBlocks_whole (mode : nat -> list Z -> list Z -> list Z * list Z) (iv src : list Z) :
  Z.rem (len src) c_BLOCK_SIZE = 0 ->
  CryptBlocks mode iv src = Done (mode (blocksOf src) iv src).
Proof. intros Hrem. unfold CryptBlocks. rewrite Hrem. reflexivity. Qed.

Lemma blocksOf_whole (src : list Z) :
  Z.rem (len src) c_BLOCK_SIZE = 0 -> length src = (16 * blocksOf src)%nat.
Proof.
  unfold blocksOf, c_BLOCK_SIZE, len. intros Hrem.
  pose proof (Z.quot_rem' (Z.of_nat (length src)) 16). lia.
Qed.

Lemma blocksOf_app (a b : list Z) :
  Z.rem (len a) c_BLOCK_SIZE = 0 -> blocksOf (a ++ b) = (blocksOf a + blocksOf b)%nat.
Proof.
  unfold blocksOf, c_BLOCK_SIZE. intros Hrem. rewrite len_app.
  pose proof (len_nonneg a). pose proof (len_nonneg b).
  revert Hrem. generalize dependent (len a). generalize dependent (len b).
  intros lb Hb la Ha Hrem.
  assert (Z.quot (la + lb) 16 = Z.quot la 16 + Z.quot lb 16)
    by (Z.to_euclidean_division_equations; lia).
  assert (0 <= Z.quot la 16) by (apply Z.quot_pos; lia).
  assert (0 <= Z.quot lb 16) by (apply Z.quot_pos; lia).
  lia.
Qed.

(** *** The envelope

    The ciphertext of [x] under the vector [iv]; the ciphertext followed
    by the signature of what has been signed, [m], and the ciphertext; and
    the envelope: the vector, the ciphertext, the signature of both. *)
Definition ciphertext (iv x : list Z) : list Z :=
  fst (encryptBlocks (blocksOf (padBuffer x)) iv (padBuffer x)).

Definition sealed (iv m x : list Z) : list Z :=
  ciphertext iv x ++ hmacSum (m ++ ciphertext iv x).

Definition envelope (iv x : list Z) : list Z := iv ++ sealed iv iv x.

Lemma ciphertext_whole (iv x : list Z) :
  isBlock iv -> Forall isByte x ->
  len (ciphertext iv x) = len (padBuffer x) /\
  Z.rem (len (ciphertext iv x)) c_BLOCK_SIZE = 0 /\
  decryptBlocks (blocksOf (ciphertext iv x)) iv (ciphertext iv x)
  = (padBuffer x, snd (encryptBlocks (blocksOf (padBuffer x)) iv (padBuffer x))).
Proof.
  intros Hiv Hx. destruct (padBuffer_len x) as [_ Hrem].
  pose proof (blocksOf_whole _ Hrem) as Hlen.
  destruct (chain (blocksOf (padBuffer x)) iv (padBuffer x) Hiv Hlen (padBuffer_bytes x Hx))
    as (Hl & _ & _ & Hdec).
  fold (ciphertext iv x) in Hl, Hdec.
  assert (Hsame : len (ciphertext iv x) = len (padBuffer x)) by (unfold len; lia).
  split; [exact Hsame|]. split; [rewrite Hsame; exact Hrem|].
  unfold blocksOf at 1. rewrite Hsame. exact Hdec.
Qed.

(** A whole number of blocks at the head of the plaintext is encrypted on
    its own, and the chain goes on from its last block. *)
Lemma sealed_split (iv m chunk xrest : list Z) :
  isBlock iv -> Forall isByte chunk -> Z.rem (len chunk) c_BLOCK_SIZE = 0 ->
  let c1 := fst (encryptBlocks (blocksOf chunk) iv chunk) in
  let iv1 := snd (encryptBlocks (blocksOf chunk) iv chunk) in
  len c1 = len chunk /\ isBlock iv1 /\
  decryptBlocks (blocksOf chunk) iv c1 = (chunk, iv1) /\
  sealed iv m (chunk ++ xrest) = c1 ++ sealed iv1 (m ++ c1) xrest.
Proof.
  intros Hiv Hchunk Hrem c1 iv1.
  pose proof (blocksOf_whole _ Hrem) as Hlen.
  destruct (chain (blocksOf chunk) iv chunk Hiv Hlen Hchunk) as (Hl & _ & Hiv1 & Hdec).
  fold c1 in Hl, Hdec. fold iv1 in Hiv1, Hdec.
  split; [unfold len; lia|]. split; [exact Hiv1|]. split; [exact Hdec|].
  unfold sealed, ciphertext.
  rewrite padBuffer_app by exact Hrem. rewrite blocksOf_app by exact Hrem.
  rewrite encryptBlocks_app by exact Hlen. cbn [fst]. fold c1 iv1.
  rewrite <- !app_assoc. reflexivity.
Qed.

(** *** The encrypting reader delivers the envelope *)

Section Sealing.
Context {T : Type} `{Reader T}.
Variable inv : T -> list Z -> Prop.
Hypothesis Hwb : wellBehaved inv.

(** What the encrypting reader has left to deliver: its buffer, and before
    the end of its input the ciphertext and signature of the plaintext
    [xrest] that its input has left. *)
Definition sealing (e : encryptReader T) (rest : list Z) : Prop :=
  if fin e then rest = buf e
  else exists xrest,
         inv (text e) xrest /\ Forall isByte xrest /\ isBlock (cbc e) /\
         rest = buf e ++ sealed (cbc e) (mac e) xrest.

Lemma drained_ending (b : Buffer) (size : Z) :
  1 <= size ->
  ((if b is [] then Some EOF else None) = None /\ take (Z.to_nat size) b <> []) \/
  ((if b is [] then Some EOF else None) = Some EOF /\ drop (Z.to_nat size) b = []).
Proof.
  intros Hsize. destruct b as [|z b]; [right; rewrite drop_nil; auto|left].
  split; [reflexivity|]. destruct (Z.to_nat size) eqn:Hn; [lia|discriminate].
Qed.

Lemma encryptReader_wellBehaved : wellBehaved sealing.
Proof.
  intros e rest size Hinv Hsize.
  unfold Read, encryptReader_Reader, encryptRead. rewrite (bufferRead_spec _ _ Hsize).
  set (out := take (Z.to_nat size) (buf e)).
  unfold sealing in Hinv. destruct (fin e) eqn:Hfin.
  - (* the signature is in the buffer: only the buffer is left *)
    rewrite orb_true_r. subst rest.
    exists (mkEncryptReader (text e) (cbc e) (mac e) (drop (Z.to_nat size) (buf e)) true),
           out, (drop (Z.to_nat size) (buf e)), (if buf e is [] then Some EOF else None).
    split; [apply returns_done|]. split; [symmetry; apply take_drop|].
    split; [subst out; rewrite len_take; lia|]. split; [reflexivity|].
    apply drained_ending, Hsize.
  - rewrite orb_false_r. destruct Hinv as (xrest & Hx & Hbytes & Hiv & ->).
    destruct (Z.eqb_spec (len out) size) as [Hfull|Hpart].
    + (* the buffer holds all that is asked for *)
      assert (Hne : buf e <> []).
      { intros Hnil. subst out. rewrite Hnil, take_nil in Hfull. change (len []) with 0 in Hfull.
        lia. }
      exists (mkEncryptReader (text e) (cbc e) (mac e) (drop (Z.to_nat size) (buf e)) false),
             out, (drop (Z.to_nat size) (buf e) ++ sealed (cbc e) (mac e) xrest), None.
      split; [destruct (buf e); [congruence|apply returns_done]|].
      split; [rewrite app_assoc; subst out; rewrite take_drop; reflexivity|].
      split; [lia|]. split.
      * unfold sealing. cbn [fin text cbc mac buf]. exists xrest. auto.
      * left. split; [reflexivity|]. intros Hnil. rewrite Hnil in Hfull.
        change (len []) with 0 in Hfull. lia.
    + (* the buffer is drained and the input is read *)
      assert (Hout : len out < size) by (subst out; rewrite len_take in *; lia).
      assert (Hdrained : drop (Z.to_nat size) (buf e) = []).
      { apply drop_ge. subst out. rewrite len_take in Hout. unfold len in Hout. lia. }
      assert (Hall : out = buf e).
      { subst out. apply take_ge. rewrite len_take in Hout. unfold len in Hout. lia. }
      rewrite Hdrained. pose proof (len_nonneg out) as Hout0.
      destruct (target_facts (size - len out)) as (Ht1 & Ht2 & Ht3 & Ht4); [lia|].
      set (target := (Z.quot (size - len out) c_BLOCK_SIZE + 1) * c_BLOCK_SIZE) in *.
      destruct (CopyN_delivers inv (text e) xrest [] target Hwb Hx) as (t & Hcopy & Hx').
      cbn [app] in Hcopy. set (chunk := take (Z.to_nat target) xrest) in *.
      assert (Hsplit : xrest = chunk ++ drop (Z.to_nat target) xrest)
        by (symmetry; apply take_drop).
      assert (Hchunk : Forall isByte chunk) by (apply Forall_take, Hbytes).
      destruct (Z.ltb_spec (len chunk) target) as [Hshort|Hlong].
      * (* the input ends: pad, encrypt, sign *)
        assert (Hwhole : chunk = xrest).
        { subst chunk. apply take_ge. rewrite len_take in Hshort. unfold len in Hshort. lia. }
        rewrite Hwhole in *. destruct (padBuffer_len xrest) as [Hplen Hprem].
        destruct (ciphertext_whole (cbc e) xrest Hiv Hbytes) as (Hclen & _ & _).
        set (b := sealed (cbc e) (mac e) xrest).
        assert (Hb : b <> []).
        { intros Hnil. apply (f_equal (@length Z)) in Hnil. unfold b, sealed in Hnil.
          rewrite length_app, hmacSum_size in Hnil. simpl in Hnil. lia. }
        eexists _, (out ++ take (Z.to_nat (size - len out)) b),
                (drop (Z.to_nat (size - len out)) b), None.
        split.
        { eapply returns_bind; [exact Hcopy|]. cbn beta iota.
          unfold encryptRest. cbn [fin buf cbc mac text].
          rewrite (CryptBlocks_whole _ _ _ Hprem).
          rewrite (surjective_pairing (encryptBlocks _ _ _)).
          cbn [mbind outcome_bind]. fold (ciphertext (cbc e) xrest).
          fold (sealed (cbc e) (mac e) xrest). fold b.
          rewrite bufferRead_nonempty by (assumption || lia). apply returns_done. }
        split; [rewrite Hall, <- app_assoc, take_drop; reflexivity|].
        split; [rewrite len_app, len_take; lia|]. split; [reflexivity|].
        left. split; [reflexivity|]. intros Hnil. apply app_eq_nil in Hnil as [_ Hnil].
        destruct b; [congruence|]. destruct (Z.to_nat (size - len out)) eqn:Hn; [lia|discriminate].
      * (* a whole number of blocks has come *)
        assert (Hclen : len chunk = target) by (subst chunk; rewrite len_take in *; lia).
        assert (Hcrem : Z.rem (len chunk) c_BLOCK_SIZE = 0) by (rewrite Hclen; exact Ht3).
        destruct (sealed_split (cbc e) (mac e) chunk (drop (Z.to_nat target) xrest)
                    Hiv Hchunk Hcrem) as (Hc1 & Hiv1 & _ & Hseal).
        rewrite <- Hsplit in Hseal.
        set (c1 := fst (encryptBlocks (blocksOf chunk) (cbc e) chunk)) in *.
        set (iv1 := snd (encryptBlocks (blocksOf chunk) (cbc e) chunk)) in *.
        assert (Hc1ne : c1 <> []).
        { intros Hnil. rewrite Hnil in Hc1. change (len []) with 0 in Hc1. lia. }
        eexists _, (out ++ take (Z.to_nat (size - len out)) c1),
                (drop (Z.to_nat (size - len out)) c1
                 ++ sealed iv1 (mac e ++ c1) (drop (Z.to_nat target) xrest)), None.
        split.
        { eapply returns_bind; [exact Hcopy|]. cbn beta iota.
          unfold encryptRest. cbn [fin buf cbc mac text].
          rewrite (CryptBlocks_whole _ _ _ Hcrem).
          rewrite (surjective_pairing (encryptBlocks _ _ _)).
          cbn [mbind outcome_bind]. fold c1 iv1.
          rewrite bufferRead_nonempty by (assumption || lia). apply returns_done. }
        split.
        { rewrite Hall, Hseal, <- !app_assoc. f_equal. rewrite app_assoc, take_drop.
          reflexivity. }
        split; [rewrite len_app, len_take; lia|]. split.
        { unfold sealing. cbn [fin text cbc mac buf].
          exists (drop (Z.to_nat target) xrest).
          split; [exact Hx'|]. split; [apply Forall_drop, Hbytes|]. split; [exact Hiv1|].
          reflexivity. }
        left. split; [reflexivity|]. intros Hnil. apply app_eq_nil in Hnil as [_ Hnil].
        destruct c1; [congruence|]. destruct (Z.to_nat (size - len out)) eqn:Hn; [lia|discriminate].
Qed.

End Sealing.

(** *** The decrypting reader delivers the plaintext *)

Section Opening.
Context {T : Type} `{Reader T}.
Variable inv : T -> list Z -> Prop.
Hypothesis Hwb : wellBehaved inv.

(** What the decrypting reader has left to deliver: its buffer, and before
    the end of its input the plaintext [xrest] whose ciphertext and
    signature are what it has read ahead and what its input has left. *)
Definition opening (d : decryptReader T) (rest : list Z) : Prop :=
  if dfin d then rest = dbuf d
  else exists xrest crest,
         inv (dtext d) crest /\ Forall isByte xrest /\ isBlock (dcbc d) /\
         enc d ++ crest = sealed (dcbc d) (dmac d) xrest /\
         rest = dbuf d ++ xrest.

Lemma app_eq_take (a b c d : list Z) :
  a ++ b = c ++ d -> (length c <= length a)%nat ->
  take (length c) a = c /\ drop (length c) a ++ b = d.
Proof.
  intros Heq Hlen. split.
  - apply (f_equal (take (length c))) in Heq.
    rewrite take_app_le in Heq by exact Hlen. rewrite take_app_length in Heq. exact Heq.
  - apply (f_equal (drop (length c))) in Heq.
    rewrite drop_app_le in Heq by exact Hlen. rewrite drop_app_length in Heq. exact Heq.
Qed.

Lemma decryptReader_wellBehaved : wellBehaved opening.
Proof.
  intros d rest size Hinv Hsize.
  unfold Read, decryptReader_Reader, decryptRead. rewrite (bufferRead_spec _ _ Hsize).
  set (out := take (Z.to_nat size) (dbuf d)).
  unfold opening in Hinv. destruct (dfin d) eqn:Hfin.
  - (* the end of the input has been seen: only the buffer is left *)
    rewrite orb_true_r. subst rest.
    exists (mkDecryptReader (dtext d) (dcbc d) (dmac d) (drop (Z.to_nat size) (dbuf d)) true
                            (enc d)),
           out, (drop (Z.to_nat size) (dbuf d)), (if dbuf d is [] then Some EOF else None).
    split; [apply returns_done|]. split; [symmetry; apply take_drop|].
    split; [subst out; rewrite len_take; lia|]. split; [reflexivity|].
    apply drained_ending, Hsize.
  - rewrite orb_false_r. destruct Hinv as (xrest & crest & Hc & Hbytes & Hiv & Henc & ->).
    destruct (Z.eqb_spec (len out) size) as [Hfull|Hpart].
    + (* the buffer holds all that is asked for *)
      assert (Hne : dbuf d <> []).
      { intros Hnil. subst out. rewrite Hnil, take_nil in Hfull. change (len []) with 0 in Hfull.
        lia. }
      exists (mkDecryptReader (dtext d) (dcbc d) (dmac d) (drop (Z.to_nat size) (dbuf d)) false
                              (enc d)),
             out, (drop (Z.to_nat size) (dbuf d) ++ xrest), None.
      split; [destruct (dbuf d); [congruence|apply returns_done]|].
      split; [rewrite app_assoc; subst out; rewrite take_drop; reflexivity|].
      split; [lia|]. split.
      * unfold opening. cbn [dfin dtext dcbc dmac dbuf enc]. exists xrest, crest. auto.
      * left. split; [reflexivity|]. intros Hnil. rewrite Hnil in Hfull.
        change (len []) with 0 in Hfull. lia.
    + (* the buffer is drained and the input is read ahead *)
      assert (Hout : len out < size) by (subst out; rewrite len_take in *; lia).
      assert (Hdrained : drop (Z.to_nat size) (dbuf d) = []).
      { apply drop_ge. subst out. rewrite len_take in Hout. unfold len in Hout. lia. }
      assert (Hall : out = dbuf d).
      { subst out. apply take_ge. rewrite len_take in Hout. unfold len in Hout. lia. }
      rewrite Hdrained. pose proof (len_nonneg out) as Hout0.
      destruct (target_facts (size - len out)) as (Ht1 & Ht2 & Ht3 & Ht4); [lia|].
      set (target := (Z.quot (size - len out) c_BLOCK_SIZE + 1) * c_BLOCK_SIZE) in *.
      destruct (CopyN_delivers inv (dtext d) crest (enc d) (target + c_HMAC_SIZE + 1) Hwb Hc)
        as (t & Hcopy & Hc').
      set (N := target + c_HMAC_SIZE + 1) in *.
      assert (HNval : N = target + 21) by (unfold N, c_HMAC_SIZE; lia).
      destruct (ciphertext_whole (dcbc d) xrest Hiv Hbytes) as (Hclen & Hcrem & Hdec).
      destruct (padBuffer_len xrest) as [Hplen _].
      pose proof (pad_range (len xrest) (len_nonneg xrest)) as Hpad.
      set (c := ciphertext (dcbc d) xrest) in *.
      set (tag := hmacSum (dmac d ++ c)).
      assert (Htag : len tag = 20) by (unfold len, tag; rewrite hmacSum_size; reflexivity).
      destruct (Z.ltb_spec (len (take (Z.to_nat N) crest)) N) as [Hshort|Hlong].
      * (* the input ends: authenticate, decrypt, unpad *)
        assert (Hwhole : take (Z.to_nat N) crest = crest).
        { apply take_ge. rewrite len_take in Hshort. unfold len in Hshort. lia. }
        rewrite Hwhole, Henc in Hcopy. unfold sealed in Hcopy. fold c tag in Hcopy.
        destruct (CopyN_delivers (S := Buffer) (fun b rest => b = rest) (c ++ tag) (c ++ tag) []
                    (len (c ++ tag) - c_HMAC_SIZE) Buffer_wellBehaved eq_refl)
          as (e2 & Hmove & He2).
        assert (Hk : Z.to_nat (len (c ++ tag) - c_HMAC_SIZE) = length c).
        { rewrite len_app, Htag. unfold c_HMAC_SIZE, len. lia. }
        rewrite Hk, take_app_length in Hmove. rewrite Hk, drop_app_length in He2. subst e2.
        replace (len c <? len (c ++ tag) - c_HMAC_SIZE) with false in Hmove
          by (rewrite len_app, Htag; unfold c_HMAC_SIZE; lia).
        cbn [app] in Hmove.
        eexists _, (out ++ take (Z.to_nat (size - len out)) xrest),
                (drop (Z.to_nat (size - len out)) xrest),
                (if xrest is [] then Some EOF else None).
        split.
        { eapply returns_bind; [exact Hcopy|]. cbn beta iota.
          unfold decryptLast. cbn [enc].
          replace (Z.rem (len (c ++ tag) - c_HMAC_SIZE) c_BLOCK_SIZE =? 0) with true
            by (rewrite len_app, Htag; unfold c_HMAC_SIZE;
                replace (len c + 20 - 20) with (len c) by lia; rewrite Hcrem; reflexivity).
          cbn [negb]. unfold decryptRest. cbn [dbuf enc dmac dcbc dfin dtext].
          eapply returns_bind; [exact Hmove|]. cbn beta iota.
          replace (len c =? len (c ++ tag) - c_HMAC_SIZE) with true
            by (rewrite len_app, Htag; unfold c_HMAC_SIZE; lia).
          cbn [negb]. rewrite (CryptBlocks_whole _ _ _ Hcrem), Hdec.
          cbn [mbind outcome_bind]. fold tag.
          rewrite bool_decide_eq_true_2 by reflexivity. cbn [negb].
          rewrite unpadBuffer_padBuffer. cbn [mbind outcome_bind].
          rewrite bufferRead_spec by lia. apply returns_done. }
        split; [rewrite Hall, <- app_assoc, take_drop; reflexivity|].
        split; [rewrite len_app, len_take; lia|]. split; [reflexivity|].
        destruct (drained_ending xrest (size - len out)) as [[He Hne]|[He Hnil]]; [lia| |].
        { left. split; [exact He|]. intros Hn. apply app_eq_nil in Hn as [_ Hn]. auto. }
        { right. auto. }
      * (* a whole read-ahead has come: decrypt the blocks before it *)
        assert (HN : len (take (Z.to_nat N) crest) = N) by (rewrite len_take in *; lia).
        set (e1 := enc d ++ take (Z.to_nat N) crest) in *.
        assert (He1 : e1 ++ drop (Z.to_nat N) crest = c ++ tag).
        { unfold e1. rewrite <- app_assoc, take_drop. exact Henc. }
        assert (He1len : target + 21 <= len e1).
        { unfold e1. rewrite len_app, HN. pose proof (len_nonneg (enc d)). lia. }
        assert (Hcbig : target + 16 <= len c).
        { apply (f_equal len) in He1. rewrite !len_app, Htag in He1.
          pose proof (len_nonneg (drop (Z.to_nat N) crest)).
          assert (Hlt : target < len c) by lia.
          unfold c_BLOCK_SIZE in Hcrem. clear - Hcrem Ht3 Hlt. clearbody target.
          revert Hcrem Ht3 Hlt. generalize (len c). intros lc Hcrem Ht3 Hlt.
          Z.to_euclidean_division_equations. lia. }
        set (chunk := take (Z.to_nat target) xrest).
        assert (Hchlen : len chunk = target).
        { unfold chunk. rewrite len_take. unfold c_BLOCK_SIZE in *. lia. }
        assert (Hchunk : Forall isByte chunk) by (apply Forall_take, Hbytes).
        assert (Hchrem : Z.rem (len chunk) c_BLOCK_SIZE = 0) by (rewrite Hchlen; exact Ht3).
        destruct (sealed_split (dcbc d) (dmac d) chunk (drop (Z.to_nat target) xrest)
                    Hiv Hchunk Hchrem) as (Hc1 & Hiv1 & Hundo & Hseal).
        unfold chunk in Hseal at 1. rewrite take_drop in Hseal. fold chunk in Hseal.
        unfold sealed in Hseal at 1. fold c tag in Hseal.
        set (c1 := fst (encryptBlocks (blocksOf chunk) (dcbc d) chunk)) in *.
        set (iv1 := snd (encryptBlocks (blocksOf chunk) (dcbc d) chunk)) in *.
        assert (Hc1len : length c1 = Z.to_nat target) by (unfold len in *; lia).
        destruct (app_eq_take e1 (drop (Z.to_nat N) crest) c1
                    (sealed iv1 (dmac d ++ c1) (drop (Z.to_nat target) xrest)))
          as [Htake Hdrop].
        { rewrite He1. exact Hseal. }
        { unfold len in He1len. lia. }
        rewrite Hc1len in Htake, Hdrop.
        destruct (CopyN_delivers (S := Buffer) (fun b rest => b = rest) e1 e1 [] target
                    Buffer_wellBehaved eq_refl) as (e2 & Hmove & He2).
        rewrite Htake in Hmove. cbn [app] in Hmove.
        replace (len c1) with target in Hmove by lia.
        rewrite Z.ltb_irrefl in Hmove.
        assert (Hchne : chunk <> []).
        { intros Hnil. rewrite Hnil in Hchlen. change (len []) with 0 in Hchlen. lia. }
        eexists _, (out ++ take (Z.to_nat (size - len out)) chunk),
                (drop (Z.to_nat (size - len out)) chunk ++ drop (Z.to_nat target) xrest), None.
        split.
        { eapply returns_bind; [exact Hcopy|]. cbn beta iota.
          unfold decryptRest. cbn [dbuf enc dmac dcbc dfin dtext].
          eapply returns_bind; [exact Hmove|]. cbn beta iota.
          rewrite Z.eqb_refl. cbn [negb].
          rewrite CryptBlocks_whole by (rewrite Hc1, Hchlen; exact Ht3).
          replace (blocksOf c1) with (blocksOf chunk) by (unfold blocksOf; rewrite Hc1; reflexivity).
          rewrite Hundo. cbn [mbind outcome_bind].
          rewrite bufferRead_nonempty by (assumption || lia). apply returns_done. }
        split.
        { rewrite Hall, <- !app_assoc. f_equal. rewrite app_assoc, take_drop.
          unfold chunk. rewrite take_drop. reflexivity. }
        split; [rewrite len_app, len_take; lia|]. split.
        { unfold opening. cbn [dfin dtext dcbc dmac dbuf enc].
          exists (drop (Z.to_nat target) xrest), (drop (Z.to_nat N) crest).
          split; [exact Hc'|]. split; [apply Forall_drop, Hbytes|]. split; [exact Hiv1|].
          split; [subst e2; exact Hdrop|reflexivity]. }
        left. split; [reflexivity|]. intros Hnil. apply app_eq_nil in Hnil as [_ Hnil].
        destruct chunk; [congruence|].
        destruct (Z.to_nat (size - len out)) eqn:Hn; [lia|discriminate].
Qed.

End Opening.

(** *** Round trips *)

Lemma EncryptReader_delivers {T : Type} `{Reader T} (t : T) (x iv : list Z) :
  Forall isByte x -> isBlock iv -> delivers t x ->
  exists e, EncryptReader (iv, None) t = inl e /\ delivers e (envelope iv x).
Proof.
  intros Hx Hiv (inv & Hwb & Hinv).
  exists (mkEncryptReader t iv iv iv false). split; [reflexivity|].
  exists (sealing inv). split; [apply encryptReader_wellBehaved, Hwb|].
  unfold sealing. cbn [fin text cbc mac buf]. exists x. auto.
Qed.

Lemma envelope_parts (iv x : list Z) :
  isBlock iv ->
  c_BLOCK_SIZE <= len (envelope iv x) /\
  take 16 (envelope iv x) = iv /\ drop 16 (envelope iv x) = sealed iv iv x.
Proof.
  intros [Hlen _]. unfold envelope. split; [|split].
  - rewrite len_app. pose proof (len_nonneg (sealed iv iv x)).
    unfold c_BLOCK_SIZE, len in *. lia.
  - rewrite <- Hlen. apply take_app_length.
  - rewrite <- Hlen. apply drop_app_length.
Qed.

Lemma DecryptReader_delivers {U : Type} `{Reader U} (u : U) (x iv : list Z) :
  Forall isByte x -> isBlock iv -> delivers u (envelope iv x) ->
  exists d, returns (fun fuel => DecryptReader fuel u) (inl d) /\ delivers d x.
Proof.
  intros Hx Hiv (inv & Hwb & Hinv).
  destruct (envelope_parts iv x Hiv) as (Hlen & Htake & Hdrop).
  destruct (DecryptReader_opens inv Hwb u (envelope iv x) Hinv Hlen) as (u' & Hopen & Hinv').
  rewrite Htake in Hopen. rewrite Hdrop in Hinv'.
  eexists. split; [exact Hopen|].
  exists (opening inv). split; [apply decryptReader_wellBehaved, Hwb|].
  unfold opening. cbn [dfin dtext dcbc dmac dbuf enc].
  exists x, (sealed iv iv x). auto.
Qed.

(** C1.  For bytes [x] and a vector [iv] of 16 bytes: [Encrypt] gives the
    envelope of [x] and [Decrypt] of it gives [x]; [EncryptReader] over any
    reader that delivers [x] delivers the envelope, and [DecryptReader] over
    any reader that delivers the envelope delivers [x], whatever the sizes
    of the reads on either side; in particular with
    [iotest.OneByteReader] at every boundary. *)
Theorem crypto_roundtrip (x iv : list Z) :
  Forall isByte x -> isBlock iv ->
  returns (fun fuel => Encrypt fuel (iv, None) x) (envelope iv x, None) /\
  returns (fun fuel => Decrypt fuel (envelope iv x)) (x, None) /\
  (forall (T : Type) (RT : Reader T) (t : T), delivers t x ->
     exists e, EncryptReader (iv, None) t = inl e /\ delivers e (envelope iv x)) /\
  (forall (U : Type) (RU : Reader U) (u : U), delivers u (envelope iv x) ->
     exists d, returns (fun fuel => DecryptReader fuel u) (inl d) /\ delivers d x) /\
  (forall (V : Type) (RV : Reader V) (v : V), delivers v x ->
     exists v', returns (fun fuel => ReadAll fuel v) (v', x, None)) /\
  (exists e d d',
     EncryptReader (iv, None) (OneByteReader (NewReader x)) = inl e /\
     returns (fun fuel => DecryptReader fuel (OneByteReader e)) (inl d) /\
     returns (fun fuel => ReadAll fuel (OneByteReader d)) (d', x, None)).
Proof.
  intros Hx Hiv.
  assert (Henc : forall (T : Type) (RT : Reader T) (t : T), delivers t x ->
            exists e, EncryptReader (iv, None) t = inl e /\ delivers e (envelope iv x)).
  { intros T RT t Ht. apply EncryptReader_delivers; assumption. }
  assert (Hdec : forall (U : Type) (RU : Reader U) (u : U), delivers u (envelope iv x) ->
            exists d, returns (fun fuel => DecryptReader fuel u) (inl d) /\ delivers d x).
  { intros U RU u Hu. apply (DecryptReader_delivers u x iv); assumption. }
  split; [|split; [|split; [exact Henc|split; [exact Hdec|split]]]].
  - destruct (Henc _ _ (NewReader x) (NewReader_delivers x)) as (e & He & Hdel).
    destruct (ReadAll_delivers e _ Hdel) as (e' & Hrun).
    unfold Encrypt. rewrite He. eapply returns_bind; [exact Hrun|]. apply returns_done.
  - destruct (Hdec _ _ (NewReader (envelope iv x)) (NewReader_delivers _)) as (d & Hd & Hdel).
    destruct (ReadAll_delivers d _ Hdel) as (d' & Hrun).
    unfold Decrypt. eapply returns_bind; [exact Hd|]. cbn beta iota.
    eapply returns_bind; [exact Hrun|]. apply returns_done.
  - intros V RV v Hv. apply ReadAll_delivers, Hv.
  - destruct (Henc _ _ (OneByteReader (NewReader x))
                (OneByteReader_delivers _ _ (NewReader_delivers x))) as (e & He & Hdel).
    destruct (Hdec _ _ (OneByteReader e) (OneByteReader_delivers _ _ Hdel)) as (d & Hd & Hdel').
    destruct (ReadAll_delivers (OneByteReader d) x (OneByteReader_delivers _ _ Hdel'))
      as (d' & Hrun).
    exists e, d, d'. auto.
Qed.

(** *** The layout of the envelope, and what [unpadBuffer] accepts *)

(** The envelope [Encrypt] returns is (iv||ciphertext||hmac): it starts
    with the vector, ends with the signature of all that is before it, and
    has between them the whole blocks of the padded plaintext, so that [n]
    bytes are sealed in [n - n mod 16 + 52]. *)
Theorem Encrypt_layout (x iv : list Z) :
  Forall isByte x -> isBlock iv ->
  exists c,
    returns (fun fuel => Encrypt fuel (iv, None) x) (c, None) /\
    len c = len x - Z.rem (len x) 16 + 52 /\
    take 16 c = iv /\
    drop (Z.to_nat (len c - 20)) c = hmacSum (take (Z.to_nat (len c - 20)) c).
Proof.
  intros Hx Hiv. exists (envelope iv x).
  destruct (EncryptReader_delivers (NewReader x) x iv Hx Hiv (NewReader_delivers x))
    as (e & He & Hdel).
  destruct (ReadAll_delivers e _ Hdel) as (e' & Hrun).
  split.
  { unfold Encrypt. rewrite He. eapply returns_bind; [exact Hrun|]. apply returns_done. }
  destruct (ciphertext_whole iv x Hiv Hx) as (Hclen & _ & _).
  destruct (padBuffer_len x) as [Hplen _].
  destruct Hiv as [Hivlen _].
  assert (Hlen : len (envelope iv x) = len x - Z.rem (len x) 16 + 52).
  { unfold envelope, sealed. rewrite !len_app, Hclen, Hplen.
    assert (Hl1 : len iv = 16) by (unfold len; lia).
    assert (Hl2 : len (hmacSum (iv ++ ciphertext iv x)) = 20)
      by (unfold len; rewrite hmacSum_size; lia).
    rewrite Hl1, Hl2. unfold c_BLOCK_SIZE. lia. }
  split; [exact Hlen|]. split.
  - unfold envelope. rewrite <- Hivlen. apply take_app_length.
  - assert (Hcut : Z.to_nat (len (envelope iv x) - 20) = length (iv ++ ciphertext iv x)).
    { rewrite Hlen. rewrite length_app. unfold len in Hclen, Hplen.
      unfold c_BLOCK_SIZE in Hplen. unfold len. lia. }
    rewrite Hcut. unfold envelope, sealed. rewrite app_assoc.
    rewrite drop_app_length, take_app_length. reflexivity.
Qed.

Lemma forallb_repeat (pad : Z) (l : list Z) :
  forallb (Z.eqb pad) l = true -> l = repeat pad (length l).
Proof.
  induction l as [|z l IH]; [reflexivity|]. cbn [forallb length repeat].
  intros Hall. apply andb_prop in Hall as [Hz Hl]. apply Z.eqb_eq in Hz. subst z.
  rewrite <- IH by exact Hl. reflexivity.
Qed.

Lemma last_padded (x : list Z) (pad : Z) :
  1 <= pad -> last (x ++ repeat pad (Z.to_nat pad)) = Some pad.
Proof.
  intros Hpad. replace (Z.to_nat pad) with (Datatypes.S (Z.to_nat pad - 1)) by lia.
  cbn [repeat]. rewrite repeat_cons, app_assoc. apply last_snoc.
Qed.

(** [unpadBuffer] accepts exactly the buffers that end in [pad] bytes of
    the value [pad], for a [pad] from 1 to 16, and gives what is before
    them; it panics exactly on the empty buffer and on a buffer whose last
    byte is from 1 to 16 and more than the buffer has bytes. *)
Theorem unpadBuffer_exact (b : list Z) :
  (forall x, unpadBuffer b = Done (x, None) <->
             exists pad, 1 <= pad <= 16 /\ b = x ++ repeat pad (Z.to_nat pad)) /\
  ((exists why, unpadBuffer b = Panic why) <->
   b = [] \/ exists pad, last b = Some pad /\ 1 <= pad <= 16 /\ len b < pad).
Proof.
  unfold unpadBuffer. destruct (last b) as [pad|] eqn:Hlast.
  2:{ apply last_None in Hlast. subst b. split.
      - intros x. split; [discriminate|]. intros (pad & Hpad & Hb).
        destruct x; [|discriminate]. cbn [app] in Hb.
        destruct (Z.to_nat pad) eqn:Hn; [lia|discriminate].
      - split; [auto|]. intros _. eauto. }
  assert (Hne : b <> []) by (intros ->; discriminate).
  unfold c_BLOCK_SIZE.
  destruct (Z.gtb_spec pad 16) as [Hbig|Hbig]; cbn [orb].
  { split.
    - intros x. split; [discriminate|]. intros (pad' & Hpad & Hb). exfalso.
      rewrite Hb, last_padded in Hlast by lia. injection Hlast as ->. lia.
    - split; [intros [why Hwhy]; discriminate|].
      intros [->|(pad' & Hl & Hpad & _)]; [congruence|]. injection Hl as ->. lia. }
  destruct (Z.leb_spec pad 0) as [Hsmall|Hsmall].
  { split.
    - intros x. split; [discriminate|]. intros (pad' & Hpad & Hb). exfalso.
      rewrite Hb, last_padded in Hlast by lia. injection Hlast as ->. lia.
    - split; [intros [why Hwhy]; discriminate|].
      intros [->|(pad' & Hl & Hpad & _)]; [congruence|]. injection Hl as ->. lia. }
  destruct (Z.ltb_spec (len b - pad) 0) as [Hshort|Hfits].
  { split.
    - intros x. split; [discriminate|]. intros (pad' & Hpad & Hb). exfalso.
      assert (pad' = pad).
      { rewrite Hb, last_padded in Hlast by lia. congruence. }
      subst pad'. apply (f_equal len) in Hb. rewrite len_app, len_repeat in Hb.
      pose proof (len_nonneg x). lia.
    - split; [|eauto]. intros _. right. exists pad. split; [reflexivity|]. lia. }
  set (k := Z.to_nat (len b - pad)).
  assert (Hk : (k + Z.to_nat pad = length b)%nat) by (unfold k, len in *; lia).
  split.
  - intros x. destruct (forallb (Z.eqb pad) (drop k b)) eqn:Hall.
    + split.
      * intros Heq. injection Heq as <-. exists pad. split; [lia|].
        apply forallb_repeat in Hall. rewrite length_drop in Hall.
        replace (length b - k)%nat with (Z.to_nat pad) in Hall by lia.
        rewrite <- Hall. symmetry. apply take_drop.
      * intros (pad' & Hpad & Hb).
        assert (pad' = pad).
        { rewrite Hb, last_padded in Hlast by lia. congruence. }
        subst pad'. f_equal. f_equal.
        assert (Hx : length x = k).
        { apply (f_equal (@length Z)) in Hb. rewrite length_app, repeat_length in Hb. lia. }
        rewrite Hb, <- Hx. apply take_app_length.
    + split; [discriminate|]. intros (pad' & Hpad & Hb). exfalso.
      assert (pad' = pad).
      { rewrite Hb, last_padded in Hlast by lia. congruence. }
      subst pad'.
      assert (Hx : length x = k).
      { apply (f_equal (@length Z)) in Hb. rewrite length_app, repeat_length in Hb. lia. }
      rewrite Hb, <- Hx, drop_app_length in Hall.
      assert (Htrue : forallb (Z.eqb pad) (repeat pad (Z.to_nat pad)) = true).
      { apply forallb_forall. intros z Hz. apply repeat_spec in Hz. subst z.
        apply Z.eqb_refl. }
      congruence.
  - split.
    + intros [why Hwhy]. destruct (forallb (Z.eqb pad) (drop k b)); discriminate.
    + intros [->|(pad' & Hl & Hpad & Hlt)]; [congruence|]. injection Hl as ->. lia.
Qed.

(** *** The one-shot functions and the readers *)

Lemma subslice_middle (a b c : list Z) (lo hi : Z) :
  lo = len a -> hi = len a + len b -> Old.subslice (a ++ b ++ c) lo hi = Done b.
Proof.
  intros -> ->. unfold Old.subslice. rewrite !len_app.
  pose proof (len_nonneg a). pose proof (len_nonneg b). pose proof (len_nonneg c).
  replace (len a <? 0) with false by lia.
  replace (len a + len b <? len a) with false by lia.
  replace (len a + (len b + len c) <? len a + len b) with false by lia. cbn [orb].
  unfold len. rewrite Nat2Z.id, drop_app_length.
  replace (Z.to_nat (Z.of_nat (length a) + Z.of_nat (length b) - Z.of_nat (length a)))
    with (length b) by lia.
  rewrite take_app_length. reflexivity.
Qed.

Lemma subslice_head (b c : list Z) (hi : Z) :
  hi = len b -> Old.subslice (b ++ c) 0 hi = Done b.
Proof. intros ->. apply (subslice_middle [] b c); reflexivity. Qed.

Lemma subslice_tail (a b : list Z) (lo hi : Z) :
  lo = len a -> hi = len a + len b -> Old.subslice (a ++ b) lo hi = Done b.
Proof.
  intros Hlo Hhi. rewrite <- (app_nil_r b) at 1. apply subslice_middle; assumption.
Qed.

Lemma unpad_pad (x : list Z) : Old.unpad (padBuffer x) = Done (x, None).
Proof.
  pose proof (pad_range (len x) (len_nonneg x)) as Hpad.
  destruct (padBuffer_len x) as [Hlen _].
  unfold Old.unpad. rewrite Hlen. unfold padBuffer at 1 2 3.
  set (pad := c_BLOCK_SIZE - Z.rem (len x) c_BLOCK_SIZE) in *.
  rewrite last_padded by lia.
  replace (pad >? c_BLOCK_SIZE) with false by (unfold c_BLOCK_SIZE; lia).
  replace (pad =? 0) with false by lia. cbn [orb].
  rewrite (subslice_tail x (repeat pad (Z.to_nat pad)) (len x + pad - pad) (len x + pad))
    by (rewrite ?len_repeat; lia).
  cbn [mbind outcome_bind].
  replace (forallb (Z.eqb pad) (repeat pad (Z.to_nat pad))) with true.
  - rewrite (subslice_head x) by lia. reflexivity.
  - symmetry. apply forallb_forall. intros z Hz. apply repeat_spec in Hz. subst z.
    apply Z.eqb_refl.
Qed.

Lemma overwrite_middle (a b b' c : list Z) :
  length b' = length b -> Old.overwrite (a ++ b ++ c) (len a) b' = a ++ b' ++ c.
Proof.
  intros Hb. unfold Old.overwrite, len. rewrite Nat2Z.id, take_app_length.
  replace (Z.to_nat (Z.of_nat (length a) + Z.of_nat (length b')))
    with (length a + length b)%nat by lia.
  rewrite drop_app_add'; [|reflexivity]. rewrite drop_app_length. reflexivity.
Qed.

Lemma ciphertext_len (iv x : list Z) :
  isBlock iv -> Forall isByte x ->
  len (ciphertext iv x) = len (padBuffer x) /\ 16 <= len (ciphertext iv x) /\
  Z.rem (len (ciphertext iv x)) 16 = 0.
Proof.
  intros Hiv Hx. destruct (ciphertext_whole iv x Hiv Hx) as (Hlen & Hrem & _).
  split; [exact Hlen|]. split; [|exact Hrem].
  rewrite Hlen. destruct (padBuffer_len x) as [-> _].
  pose proof (len_nonneg x) as Hx0. unfold c_BLOCK_SIZE.
  pose proof (Z.rem_bound_pos (len x) 16 Hx0 ltac:(lia)).
  pose proof (Z.rem_le (len x) 16 Hx0 ltac:(lia)).
  destruct (Z_lt_dec (len x) 16).
  - rewrite Z.rem_small by lia. lia.
  - lia.
Qed.

(** The one-shot functions and the readers make the same envelope (with
    the same vector), and each opens what the other has sealed: [encrypt]
    and [Encrypt] return the same bytes, and [decrypt] and [Decrypt] both
    give the plaintext back from them. *)
Theorem old_and_new_agree (x iv : list Z) :
  Forall isByte x -> isBlock iv ->
  exists c,
    Old.encrypt x (iv, None) = Done (c, None) /\
    returns (fun fuel => Encrypt fuel (iv, None) x) (c, None) /\
    Old.decrypt c = Done (x, None) /\
    returns (fun fuel => Decrypt fuel c) (x, None).
Proof.
  intros Hx Hiv. exists (envelope iv x).
  destruct (ciphertext_len iv x Hiv Hx) as (Hclen & Hc16 & Hcrem).
  destruct (ciphertext_whole iv x Hiv Hx) as (_ & _ & Hdec).
  destruct (padBuffer_len x) as [_ Hprem].
  pose proof Hiv as [Hivlen _].
  assert (Hivl : len iv = 16) by (unfold len; lia).
  set (c := ciphertext iv x) in *.
  set (t := hmacSum (iv ++ c)).
  assert (Ht : length t = 20%nat) by apply hmacSum_size.
  assert (Htl : len t = 20) by (unfold len; lia).
  assert (Henv : envelope iv x = iv ++ c ++ t) by reflexivity.
  split; [|split; [|split]].
  - unfold Old.encrypt. change (Old.pad x) with (padBuffer x).
    unfold Old.newEnvelope. cbn [fst snd].
    rewrite (take_app_length' iv) by (symmetry; exact Hivlen).
    set (n := len (padBuffer x)) in *.
    assert (Hn : 0 <= n) by apply len_nonneg.
    replace (Z.to_nat (n + c_HMAC_SIZE)) with (Z.to_nat n + 20)%nat
      by (unfold c_HMAC_SIZE; lia).
    rewrite repeat_app.
    assert (Hz : len (repeat 0 (Z.to_nat n)) = n) by (rewrite len_repeat; lia).
    assert (Hz20 : len (repeat 0 20) = 20) by reflexivity.
    unfold Old.iv. rewrite (subslice_head iv) by (unfold c_BLOCK_SIZE; lia).
    cbn [mbind outcome_bind].
    unfold Old.ciphertext, Old.msgLen.
    rewrite (subslice_middle iv (repeat 0 (Z.to_nat n)) (repeat 0 20))
      by (rewrite ?len_app, ?Hz, ?Hz20; unfold c_BLOCK_SIZE, c_HMAC_SIZE; lia).
    cbn [mbind outcome_bind].
    rewrite (CryptBlocks_whole encryptBlocks iv (padBuffer x) Hprem).
    destruct (encryptBlocks (blocksOf (padBuffer x)) iv (padBuffer x)) as [c' iv'] eqn:Henc.
    assert (c' = c) by (unfold c, ciphertext; rewrite Henc; reflexivity). subst c'.
    cbn [mbind outcome_bind]. rewrite Hz. fold n. rewrite Z.ltb_irrefl.
    replace c_BLOCK_SIZE with (len iv) by (unfold c_BLOCK_SIZE; lia).
    rewrite (overwrite_middle iv (repeat 0 (Z.to_nat n)) c (repeat 0 20))
      by (rewrite repeat_length; unfold len in Hclen; lia).
    unfold Old.sign, Old.hmac, Old.msgLen.
    assert (Hlen3 : len (iv ++ c ++ repeat 0 20) = 16 + n + 20)
      by (rewrite !len_app, Hz20; lia).
    rewrite Hlen3.
    rewrite (app_assoc iv c (repeat 0 20)).
    rewrite (subslice_head (iv ++ c) (repeat 0 20))
      by (rewrite len_app; unfold c_HMAC_SIZE; lia).
    cbn [mbind outcome_bind].
    rewrite (subslice_tail (iv ++ c) (repeat 0 20))
      by (rewrite ?len_app, ?Hz20; unfold c_HMAC_SIZE; lia).
    cbn [mbind outcome_bind]. fold t.
    replace (16 + n + 20 - c_HMAC_SIZE) with (len (iv ++ c))
      by (rewrite len_app; unfold c_HMAC_SIZE; lia).
    rewrite <- (app_nil_r (repeat 0 20)) at 1.
    rewrite (overwrite_middle (iv ++ c) (repeat 0 20) (take (length (repeat 0 20)) t) [])
      by (rewrite length_take, repeat_length; lia).
    rewrite repeat_length, take_ge by lia. rewrite app_nil_r, Henv, <- app_assoc.
    reflexivity.
  - destruct (EncryptReader_delivers (NewReader x) x iv Hx Hiv (NewReader_delivers x))
      as (e & He & Hdel).
    destruct (ReadAll_delivers e _ Hdel) as (e' & Hrun).
    unfold Encrypt. rewrite He. eapply returns_bind; [exact Hrun|]. apply returns_done.
  - rewrite Henv. unfold Old.decrypt, Old.readEnvelope, Old.msgLen.
    assert (Hlen3 : len (iv ++ c ++ t) = 16 + len c + 20) by (rewrite !len_app; lia).
    rewrite Hlen3. unfold c_HMAC_SIZE, c_BLOCK_SIZE.
    replace (16 + len c + 20 - 20 <? 16 * 2) with false by lia.
    replace (16 + len c + 20 - 20) with (16 + len c) by lia.
    assert (Hrem : Z.rem (16 + len c) 16 = 0).
    { clear -Hcrem Hc16. revert Hcrem Hc16. generalize (len c). intros k Hk Hk16.
      Z.to_euclidean_division_equations. lia. }
    rewrite Hrem. cbn [Z.eqb negb].
    unfold Old.ciphertext, Old.msgLen. rewrite Hlen3. unfold c_HMAC_SIZE, c_BLOCK_SIZE.
    rewrite (subslice_middle iv c t) by lia. cbn [mbind outcome_bind].
    unfold Old.auth, Old.hmac, Old.msgLen. rewrite Hlen3. unfold c_HMAC_SIZE.
    rewrite (app_assoc iv c t).
    rewrite (subslice_head (iv ++ c) t) by (rewrite len_app; lia).
    cbn [mbind outcome_bind].
    rewrite (subslice_tail (iv ++ c) t) by (rewrite ?len_app; lia).
    cbn [mbind outcome_bind]. fold t. rewrite bool_decide_eq_true_2 by reflexivity.
    cbn [negb]. unfold Old.iv, c_BLOCK_SIZE. rewrite <- (app_assoc iv c t).
    rewrite (subslice_head iv (c ++ t)) by lia. cbn [mbind outcome_bind].
    rewrite (CryptBlocks_whole decryptBlocks iv c Hcrem), Hdec. cbn [mbind outcome_bind].
    apply unpad_pad.
  - destruct (DecryptReader_delivers (NewReader (envelope iv x)) x iv Hx Hiv
                (NewReader_delivers _)) as (d & Hd & Hdel).
    destruct (ReadAll_delivers d _ Hdel) as (d' & Hrun).
    unfold Decrypt. eapply returns_bind; [exact Hd|]. cbn beta iota.
    eapply returns_bind; [exact Hrun|]. apply returns_done.
Qed.

Lemma subslice_spec (s : list Z) (lo hi : Z) :
  0 <= lo <= hi -> hi <= len s ->
  Old.subslice s lo hi = Done (take (Z.to_nat (hi - lo)) (drop (Z.to_nat lo) s)).
Proof.
  intros Hlo Hhi. unfold Old.subslice.
  replace (lo <? 0) with false by lia. replace (hi <? lo) with false by lia.
  replace (len s <? hi) with false by lia. reflexivity.
Qed.

(** [decrypt] does not look at the error of [readEnvelope]: a ciphertext
    that is too short, or whose length without the signature is no whole
    number of blocks, makes it panic at the nil envelope instead of
    returning that error.  A ciphertext of a right length whose last 20
    bytes are not the HMAC of the rest is refused as not authentic, before
    anything is decrypted. *)
Theorem old_decrypt_edges (c : list Z) :
  (len c < 52 \/ Z.rem (len c - 20) 16 <> 0 ->
   Old.decrypt c = Panic "slice bounds out of range") /\
  (52 <= len c -> Z.rem (len c - 20) 16 = 0 ->
   drop (Z.to_nat (len c - 20)) c <> hmacSum (take (Z.to_nat (len c - 20)) c) ->
   Old.decrypt c = Done ([], Some ErrNotAuthentic)).
Proof.
  unfold Old.decrypt, Old.readEnvelope, Old.msgLen, c_HMAC_SIZE, c_BLOCK_SIZE.
  change (16 * 2) with 32. split.
  - intros Hbad. destruct (Z.ltb_spec (len c - 20) 32) as [Hshort|Hlong]; [reflexivity|].
    destruct Hbad as [Hbad|Hbad]; [lia|].
    destruct (Z.eqb_spec (Z.rem (len c - 20) 16) 0); [contradiction|]. reflexivity.
  - intros Hlen Hrem Htag.
    replace (len c - 20 <? 32) with false by lia. rewrite Hrem. cbn [Z.eqb negb].
    unfold Old.ciphertext, Old.msgLen, c_HMAC_SIZE, c_BLOCK_SIZE.
    rewrite subslice_spec by lia. cbn [mbind outcome_bind].
    unfold Old.auth, Old.hmac, Old.msgLen, c_HMAC_SIZE.
    rewrite (subslice_spec c 0 (len c - 20)) by lia. cbn [mbind outcome_bind].
    rewrite (subslice_spec c (len c - 20) (len c)) by lia. cbn [mbind outcome_bind].
    replace (Z.to_nat (len c - 20 - 0)) with (Z.to_nat (len c - 20)) by lia.
    change (Z.to_nat 0) with 0%nat. rewrite drop_0.
    rewrite (take_ge (drop _ c)) by (rewrite length_drop; unfold len; lia).
    rewrite bool_decide_eq_false_2 by exact Htag. reflexivity.
Qed.

(** *** Ciphertexts with a wrong signature *)

Lemma split_take (n k : nat) (l : list Z) :
  (n <= k)%nat -> take n l ++ drop n (take k l) = take k l.
Proof.
  intros Hnk. rewrite <- (take_drop n (take k l)) at 2. rewrite take_take.
  replace (n `min` k)%nat with n by lia. reflexivity.
Qed.

Section Forged.
Context {T : Type} `{Reader T}.
Variable inv : T -> list Z -> Prop.
Hypothesis Hwb : wellBehaved inv.

(** The decrypting reader before the end of its input, when what is left
    of the ciphertext, [enc d] and [crest], is whole blocks and 20 bytes
    that are not the signature of what was signed and these blocks. *)
Definition forged (d : decryptReader T) (crest : list Z) : Prop :=
  dfin d = false /\ inv (dtext d) crest /\ length (dcbc d) = 16%nat /\
  let all := enc d ++ crest in
  c_HMAC_SIZE <= len all /\
  Z.rem (len all - c_HMAC_SIZE) c_BLOCK_SIZE = 0 /\
  drop (Z.to_nat (len all - c_HMAC_SIZE)) all
  <> hmacSum (dmac d ++ take (Z.to_nat (len all - c_HMAC_SIZE)) all).

Lemma decryptRead_forged (d : decryptReader T) (crest : list Z) (size : Z) :
  forged d crest -> 1 <= size ->
  exists d' out err,
    returns (fun fuel => Read fuel d size) (d', out, err) /\
    (err = Some ErrNotAuthentic \/
     (err = None /\ out <> [] /\
      exists crest', forged d' crest' /\
        (length crest' + length (dbuf d') < length crest + length (dbuf d))%nat)).
Proof.
  intros (Hfin & Hinv & Hiv & Hmin & Hrem & Htag) Hsize. cbn zeta in Hmin, Hrem, Htag.
  unfold Read, decryptReader_Reader, decryptRead.
  rewrite (bufferRead_spec _ _ Hsize), Hfin, orb_false_r.
  set (out := take (Z.to_nat size) (dbuf d)).
  destruct (Z.eqb_spec (len out) size) as [Hfull|Hpart].
  - (* the buffer holds all that is asked for *)
    exists (mkDecryptReader (dtext d) (dcbc d) (dmac d) (drop (Z.to_nat size) (dbuf d))
                            false (enc d)), out, None.
    assert (Hne : dbuf d <> []).
    { intros Hnil. subst out. rewrite Hnil, take_nil in Hfull. unfold len in Hfull.
      simpl in Hfull. lia. }
    split.
    { destruct (dbuf d); [congruence|]. apply returns_done. }
    right. split; [reflexivity|]. split.
    { intros Hnil. rewrite Hnil in Hfull. unfold len in Hfull. simpl in Hfull. lia. }
    exists crest. split.
    { split; [reflexivity|]. split; [exact Hinv|]. split; [exact Hiv|].
      cbn [enc dmac]. auto. }
    cbn [dbuf]. rewrite length_drop. destruct (dbuf d); [congruence|]. simpl. lia.
  - (* the buffer is drained and the input is read *)
    assert (Hout : len out < size).
    { subst out. rewrite len_take in *. lia. }
    assert (Hdrained : drop (Z.to_nat size) (dbuf d) = []).
    { apply drop_ge. subst out. rewrite len_take in Hout. unfold len in Hout. lia. }
    rewrite Hdrained.
    destruct (target_facts (size - len out)) as (Ht1 & Ht2 & Ht3 & Ht4);
      [pose proof (len_nonneg out); lia|].
    set (target := (Z.quot (size - len out) c_BLOCK_SIZE + 1) * c_BLOCK_SIZE) in *.
    destruct (CopyN_delivers inv (dtext d) crest (enc d) (target + c_HMAC_SIZE + 1) Hwb Hinv)
      as (t & Hcopy & Hinv').
    set (N := target + c_HMAC_SIZE + 1) in *.
    assert (HNval : N = target + 21) by (unfold N, c_HMAC_SIZE; lia).
    pose proof (len_nonneg out) as Hout0.
    pose proof (len_nonneg (enc d)) as Henc0.
    set (all := enc d ++ crest) in *.
    assert (Hall_len : len all = len (enc d) + len crest) by (unfold all; apply len_app).
    destruct (Z.ltb_spec (len (take (Z.to_nat N) crest)) N) as [Hshort|Hlong].
    + (* the input ends: the signature is checked *)
      assert (Hall : take (Z.to_nat N) crest = crest).
      { apply take_ge. rewrite len_take in Hshort. unfold len in Hshort. lia. }
      rewrite Hall in Hcopy. fold all in Hcopy.
      set (body := len all - c_HMAC_SIZE) in *.
      destruct (CopyN_delivers (S := Buffer) (fun b rest => b = rest) all all [] body
                  Buffer_wellBehaved eq_refl) as (e2 & Hmove & He2).
      assert (Hmoved : len (take (Z.to_nat body) all) = body)
        by (rewrite len_take; unfold body, c_HMAC_SIZE in *; lia).
      rewrite Hmoved, Z.ltb_irrefl in Hmove. cbn [app] in Hmove.
      destruct (decryptBlocks (Z.to_nat (Z.quot body 16)) (dcbc d) (take (Z.to_nat body) all))
        as [p iv'] eqn:Hdec.
      eexists _, out, (Some ErrNotAuthentic). split; [|left; reflexivity].
      eapply returns_bind; [exact Hcopy|]. cbn beta iota.
      unfold decryptLast. cbn [enc]. fold body. rewrite Hrem. cbn [Z.eqb negb].
      unfold decryptRest. cbn [dbuf enc dmac dcbc dfin dtext].
      eapply returns_bind; [exact Hmove|]. cbn beta iota.
      rewrite Z.eqb_refl. cbn [negb].
      unfold CryptBlocks. rewrite Hmoved, Hrem. cbn [Z.eqb]. unfold c_BLOCK_SIZE.
      rewrite Hdec. cbn [mbind outcome_bind dfin].
      subst e2. rewrite bool_decide_eq_false_2 by exact Htag. cbn [negb].
      apply returns_done.
    + (* a whole read-ahead has come *)
      assert (HN : len (take (Z.to_nat N) crest) = N) by (rewrite len_take in *; lia).
      assert (Hcrest : N <= len crest) by (rewrite len_take in HN; lia).
      set (e1 := enc d ++ take (Z.to_nat N) crest) in *.
      assert (He1 : target + 21 <= len e1).
      { subst e1 N. rewrite len_app, HN. unfold c_HMAC_SIZE. lia. }
      destruct (CopyN_delivers (S := Buffer) (fun b rest => b = rest) e1 e1 [] target
                  Buffer_wellBehaved eq_refl) as (e2 & Hmove & He2).
      assert (Hmoved : len (take (Z.to_nat target) e1) = target) by (rewrite len_take; lia).
      rewrite Hmoved, Z.ltb_irrefl in Hmove. cbn [app] in Hmove.
      set (c1 := take (Z.to_nat target) e1) in *.
      destruct (decryptBlocks_length (Z.to_nat (Z.quot target 16)) (dcbc d) c1 Hiv) as [Hp Hiv'].
      { unfold len in Hmoved. pose proof (Z.quot_rem' target 16). lia. }
      destruct (decryptBlocks (Z.to_nat (Z.quot target 16)) (dcbc d) c1) as [p iv'] eqn:Hdec.
      simpl in Hp, Hiv'.
      assert (Hplen : len p = target).
      { unfold len. pose proof (Z.quot_rem' target 16). lia. }
      eexists _, (out ++ take (Z.to_nat (size - len out)) p), None. split.
      { eapply returns_bind; [exact Hcopy|]. cbn beta iota.
        unfold decryptRest. cbn [dbuf enc dmac dcbc dfin dtext].
        eapply returns_bind; [exact Hmove|]. cbn beta iota.
        rewrite Z.eqb_refl. cbn [negb].
        unfold CryptBlocks. fold c1. rewrite Hmoved. unfold c_BLOCK_SIZE. rewrite Ht3.
        cbn [Z.eqb]. rewrite Hdec. cbn [mbind outcome_bind].
        rewrite bufferRead_spec by lia.
        destruct p as [|z p]; [unfold len in Hplen; simpl in Hplen; lia|].
        apply returns_done. }
      right. split; [reflexivity|]. split.
      { intros Hnil. apply app_eq_nil in Hnil as [_ Hnil].
        apply (f_equal len) in Hnil. rewrite len_take, Hplen in Hnil.
        change (len []) with 0 in Hnil. lia. }
      exists (drop (Z.to_nat N) crest). unfold forged. cbn [dbuf dfin dtext dcbc enc dmac].
      split.
      * split; [reflexivity|]. split; [exact Hinv'|]. split; [exact Hiv'|].
        subst e2.
        (* what is left is what was left, less the blocks decrypted *)
        assert (Hsplit : all = e1 ++ drop (Z.to_nat N) crest).
        { unfold all, e1. rewrite <- app_assoc, take_drop. reflexivity. }
        assert (Hleft : drop (Z.to_nat target) e1 ++ drop (Z.to_nat N) crest
                        = drop (Z.to_nat target) all).
        { rewrite Hsplit, drop_app_le; [reflexivity|]. unfold len in He1. lia. }
        assert (Hc1 : c1 = take (Z.to_nat target) all).
        { unfold c1. rewrite Hsplit, take_app_le; [reflexivity|]. unfold len in He1. lia. }
        assert (Hbig : target + 21 <= len all).
        { rewrite Hall_len. unfold e1 in He1. rewrite len_app, HN in He1. lia. }
        rewrite Hleft. cbn zeta.
        assert (Hlen' : len (drop (Z.to_nat target) all) = len all - target)
          by (rewrite len_drop; lia).
        rewrite Hlen'. unfold c_HMAC_SIZE, c_BLOCK_SIZE in *.
        split; [lia|]. split.
        { clear -Hrem Ht3. revert Hrem Ht3. generalize (len all). intros a Hrem Ht3.
          Z.to_euclidean_division_equations. lia. }
        rewrite drop_drop, take_drop_commute, <- app_assoc, Hc1.
        replace (Z.to_nat target + Z.to_nat (len all - target - 20))%nat
          with (Z.to_nat (len all - 20)) by lia.
        rewrite (split_take _ _ all) by lia. exact Htag.
      * rewrite !length_drop. unfold len in *. lia.
Qed.

Lemma ReadFrom_forged (bound : nat) :
  forall (d : decryptReader T) (crest : list Z) (b : Buffer),
    forged d crest -> (length crest + length (dbuf d) <= bound)%nat ->
    exists d' b', returns (fun fuel => ReadFrom fuel b d) (d', b', Some ErrNotAuthentic).
Proof.
  induction bound as [|bound IH]; intros d crest b Hmis Hbound.
  all: assert (Hroom : 1 <= room (len b))
    by (pose proof (room_MinRead (len b)) as Hroom; unfold c_MIN_READ in Hroom; lia).
  all: destruct (decryptRead_forged d crest (room (len b)) Hmis Hroom)
    as (d1 & out & err & [k Hrun] & [->|(-> & Hout & crest' & Hmis' & Hless)]).
  - exists d1, (b ++ out), (Datatypes.S k). intros [|fuel] Hfuel; [lia|].
    cbn [ReadFrom]. rewrite Hrun by lia. reflexivity.
  - lia.
  - exists d1, (b ++ out), (Datatypes.S k). intros [|fuel] Hfuel; [lia|].
    cbn [ReadFrom]. rewrite Hrun by lia. reflexivity.
  - destruct (IH d1 crest' (b ++ out) Hmis' ltac:(lia)) as (d' & b' & [k' Hrun']).
    exists d', b', (Datatypes.S (Nat.max k k')). intros [|fuel] Hfuel; [lia|].
    cbn [ReadFrom]. rewrite Hrun by lia. cbn [mbind outcome_bind]. apply Hrun'. lia.
Qed.

End Forged.

(** A ciphertext of a right length whose last 20 bytes are not the
    HMAC of the bytes before them is refused: [Decrypt] returns the error
    "ciphertext not authentic", whatever the blocks decrypt to. *)
Theorem Decrypt_forged (c : list Z) :
  36 <= len c -> Z.rem (len c - 36) 16 = 0 ->
  drop (Z.to_nat (len c - 20)) c <> hmacSum (take (Z.to_nat (len c - 20)) c) ->
  exists b, returns (fun fuel => Decrypt fuel c) (b, Some ErrNotAuthentic).
Proof.
  intros Hlen Hrem Htag.
  destruct (DecryptReader_opens _ BytesReader_wellBehaved (NewReader c) c eq_refl)
    as (st' & Hopen & Hinv); [unfold c_BLOCK_SIZE; lia|].
  assert (Hrest : len (drop 16 c) = len c - 16).
  { change 16%nat with (Z.to_nat 16). rewrite len_drop. lia. }
  destruct (ReadFrom_forged _ BytesReader_wellBehaved
              (length (drop 16 c))
              (mkDecryptReader st' (take 16 c) (take 16 c) [] false [])
              (drop 16 c) []) as (d' & b' & Hrun).
  { split; [reflexivity|]. split; [exact Hinv|]. split.
    - cbn [dcbc]. rewrite length_take. unfold len in Hlen. lia.
    - cbn [enc dmac app]. rewrite Hrest. unfold c_HMAC_SIZE, c_BLOCK_SIZE.
      split; [lia|]. split; [replace (len c - 16 - 20) with (len c - 36) by lia; exact Hrem|].
      rewrite drop_drop, take_drop_commute.
      replace (16 + Z.to_nat (len c - 16 - 20))%nat with (Z.to_nat (len c - 20)) by lia.
      rewrite (split_take _ _ c) by lia. exact Htag. }
  { cbn [dbuf]. simpl. lia. }
  exists b'. unfold Decrypt. eapply returns_bind; [exact Hopen|]. cbn beta iota.
  unfold ReadAll. eapply returns_bind; [exact Hrun|]. apply returns_done.
Qed.

End Streams.

(** ** What the bundlers do with the files *)

Section Partition.
Import Go File Backup.

Lemma insertBy_perm {A : Type} (less : A -> A -> bool) (x : A) (l : list A) :
  Permutation (insertBy less x l) (x :: l).
Proof.
  induction l as [|y l IH]; [reflexivity|]. cbn [insertBy].
  destruct (less x y); [reflexivity|]. rewrite IH. apply perm_swap.
Qed.

Lemma sortBy_perm {A : Type} (less : A -> A -> bool) (l : list A) :
  Permutation (sortBy less l) l.
Proof.
  unfold sortBy. rewrite <- (app_nil_r l) at 2. generalize (@nil A) as acc.
  induction l as [|x l IH]; intros acc; cbn [fold_left]; [reflexivity|].
  rewrite IH, insertBy_perm. symmetry. apply Permutation_middle.
Qed.

Lemma sortBundles_perm (less : File -> File -> bool) (bundles : list (list File)) :
  Permutation (concat (map (sortBy less) bundles)) (concat bundles).
Proof.
  induction bundles as [|bd bundles IH]; [reflexivity|]. cbn [map concat].
  rewrite IH, sortBy_perm. reflexivity.
Qed.

(** The three lists of [splitBundlesBySizeLimit], as filters. *)
Definition isSmall (f : File) : bool := negb (IsDir f) && negb (Size f >? c_BUNDLE_LIMIT_SIZE).
Definition isBig (f : File) : bool := negb (IsDir f) && (Size f >? c_BUNDLE_LIMIT_SIZE).

Lemma splitOne_fold (l small big dirs : list File) :
  fold_left splitOne l (small, big, dirs) =
  (small ++ filter (fun f => isSmall f = true) l,
   big ++ filter (fun f => isBig f = true) l,
   dirs ++ filter (fun f => IsDir f = true) l).
Proof.
  revert small big dirs. induction l as [|f l IH]; intros small big dirs; cbn [fold_left].
  - rewrite !filter_nil, !app_nil_r. reflexivity.
  - unfold splitOne at 2. unfold isSmall, isBig.
    rewrite !filter_cons.
    destruct (IsDir f) eqn:Hdir; [|destruct (Size f >? c_BUNDLE_LIMIT_SIZE) eqn:Hbig];
      rewrite IH; unfold isSmall, isBig; cbn [negb andb];
      repeat case_decide; try congruence; rewrite <- ?app_assoc; reflexivity.
Qed.

Lemma three_way_perm (l : list File) :
  Permutation (filter (fun f => isSmall f = true) l ++ filter (fun f => isBig f = true) l
               ++ filter (fun f => IsDir f = true) l) l.
Proof.
  induction l as [|f l IH]; [reflexivity|]. rewrite !filter_cons.
  assert (Hcases : (IsDir f = true /\ isSmall f = false /\ isBig f = false) \/
                   (IsDir f = false /\ isSmall f = false /\ isBig f = true) \/
                   (IsDir f = false /\ isSmall f = true /\ isBig f = false)).
  { unfold isSmall, isBig. destruct (IsDir f), (Size f >? c_BUNDLE_LIMIT_SIZE); auto. }
  destruct Hcases as [(H1 & H2 & H3)|[(H1 & H2 & H3)|(H1 & H2 & H3)]];
    repeat case_decide; try congruence.
  - symmetry. rewrite app_assoc. apply Permutation_cons_app. rewrite <- app_assoc.
    symmetry. exact IH.
  - symmetry. apply Permutation_cons_app. symmetry. exact IH.
  - cbn [app]. apply perm_skip, IH.
Qed.

Lemma splitBundlesBySizeLimit_one (files : list File) :
  splitBundlesBySizeLimit [files] =
  [filter (fun f => isSmall f = true) files; filter (fun f => isBig f = true) files;
   filter (fun f => IsDir f = true) files].
Proof. unfold splitBundlesBySizeLimit. cbn [fold_left]. rewrite splitOne_fold. reflexivity. Qed.

(** [bundleSmallFiles] keeps the files, and gives no empty bundle. *)
Lemma bundleSmallFiles_perm (bundles : list (list File)) :
  Permutation (concat (bundleSmallFiles bundles)) (concat bundles) /\
  Forall (fun bd => bd <> []) (bundleSmallFiles bundles).
Proof.
  unfold bundleSmallFiles, bundleLoop.
  destruct (bundleLoop_inv bundles [] bundler0 bundlerInv_init) as [[Hb Hc Ho Hf Hd] Hcur].
  cbn [app] in Hf, Hd. set (b := fold_left _ bundles bundler0) in *.
  assert (Hnil : currBundle b = []).
  { destruct bundles; [reflexivity|]. apply Hcur. discriminate. }
  rewrite Hnil, app_nil_r in Hf.
  assert (Hparts : Permutation (concat (out b) ++ dirBundle b) (concat bundles)).
  { rewrite Hf, Hd. generalize (concat bundles). intros l.
    induction l as [|f l IH]; [reflexivity|]. rewrite !filter_cons.
    destruct (IsDir f) eqn:Hdir; repeat case_decide; try congruence.
    - symmetry. apply Permutation_cons_app. symmetry. exact IH.
    - cbn [app]. apply perm_skip, IH. }
  assert (Hout : Forall (fun bd => bd <> []) (out b)).
  { eapply Forall_impl; [exact Ho|]. intros bd [Hne _]. exact Hne. }
  destruct (dirBundle b) as [|d ds] eqn:Hdirs; cbn [length Nat.ltb Nat.leb].
  - rewrite app_nil_r in Hparts. auto.
  - split.
    + rewrite concat_app. cbn [concat]. rewrite app_nil_r. exact Hparts.
    + apply Forall_app. split; [exact Hout|]. constructor; [discriminate|constructor].
Qed.

(** Every bundle [bundleSmallFiles] gives is cut from one of the bundles it
    is given. *)
Definition within (inputs : list (list File)) (bd : list File) : Prop :=
  exists ib, ib ∈ inputs /\ forall f, f ∈ bd -> f ∈ ib.

Lemma nextBundle_within (inputs : list (list File)) (cur : list File) (b : bundler) :
  cur ∈ inputs -> Forall (within inputs) (out b) -> (forall f, f ∈ currBundle b -> f ∈ cur) ->
  Forall (within inputs) (out (nextBundle b)) /\ currBundle (nextBundle b) = [].
Proof.
  intros Hcur Hout Hin. unfold nextBundle.
  destruct (currBundle b) as [|f bd] eqn:Hb; cbn [length Nat.ltb Nat.leb]; [auto|].
  cbn [out currBundle]. split; [|reflexivity].
  apply Forall_app. split; [exact Hout|]. constructor; [|constructor].
  exists cur. split; [exact Hcur|]. exact Hin.
Qed.

Lemma addFile_within (inputs : list (list File)) (cur : list File) (b : bundler) (f : File) :
  cur ∈ inputs -> f ∈ cur ->
  Forall (within inputs) (out b) -> (forall g, g ∈ currBundle b -> g ∈ cur) ->
  Forall (within inputs) (out (addFile b f)) /\
  (forall g, g ∈ currBundle (addFile b f) -> g ∈ cur).
Proof.
  intros Hcur Hf Hout Hin. unfold addFile. destruct (IsDir f); [auto|].
  set (b1 := if Size f >? c_BUNDLE_LIMIT_SIZE then nextBundle b else b).
  assert (H1 : Forall (within inputs) (out b1) /\ (forall g, g ∈ currBundle b1 -> g ∈ cur)).
  { subst b1. destruct (Size f >? c_BUNDLE_LIMIT_SIZE); [|auto].
    destruct (nextBundle_within inputs cur b Hcur Hout Hin) as [Ho ->].
    split; [exact Ho|]. intros g Hg. inversion Hg. }
  destruct H1 as [Hout1 Hin1].
  set (b2 := if currBytes b1 >? c_BUNDLE_MAX_SIZE then nextBundle b1 else b1).
  assert (H2 : Forall (within inputs) (out b2) /\ (forall g, g ∈ currBundle b2 -> g ∈ cur)).
  { subst b2. destruct (currBytes b1 >? c_BUNDLE_MAX_SIZE); [|auto].
    destruct (nextBundle_within inputs cur b1 Hcur Hout1 Hin1) as [Ho ->].
    split; [exact Ho|]. intros g Hg. inversion Hg. }
  destruct H2 as [Hout2 Hin2]. cbn [out currBundle]. split; [exact Hout2|].
  intros g Hg. apply elem_of_app in Hg as [Hg|Hg]; [auto|].
  apply list_elem_of_singleton in Hg. subst g. exact Hf.
Qed.

Lemma addFiles_within (inputs : list (list File)) (cur l : list File) (b : bundler) :
  cur ∈ inputs -> (forall f, f ∈ l -> f ∈ cur) ->
  Forall (within inputs) (out b) -> (forall g, g ∈ currBundle b -> g ∈ cur) ->
  Forall (within inputs) (out (fold_left addFile l b)) /\
  (forall g, g ∈ currBundle (fold_left addFile l b) -> g ∈ cur).
Proof.
  intros Hcur. revert b. induction l as [|f l IH]; intros b Hl Hout Hin; cbn [fold_left];
    [auto|].
  destruct (addFile_within inputs cur b f Hcur) as [Ho Hi]; auto.
  { apply Hl. constructor. }
  apply IH; auto. intros g Hg. apply Hl. now constructor.
Qed.

Lemma bundleLoop_within (inputs bundles : list (list File)) (b : bundler) :
  (forall bd, bd ∈ bundles -> bd ∈ inputs) ->
  Forall (within inputs) (out b) -> currBundle b = [] ->
  Forall (within inputs)
         (out (fold_left (fun b bundle => nextBundle (fold_left addFile bundle b)) bundles b)).
Proof.
  revert b. induction bundles as [|bd bundles IH]; intros b Hsub Hout Hnil; cbn [fold_left];
    [exact Hout|].
  assert (Hbd : bd ∈ inputs) by (apply Hsub; constructor).
  destruct (addFiles_within inputs bd bd b Hbd) as [Ho Hi]; auto.
  { rewrite Hnil. intros g Hg. inversion Hg. }
  destruct (nextBundle_within inputs bd _ Hbd Ho Hi) as [Ho' Hnil'].
  apply IH; auto. intros bd' Hbd'. apply Hsub. now constructor.
Qed.

(** A bundle that keeps its files apart above the limit, cut from files
    that are all above the limit, holds one file. *)
Lemma packedOK_single (bd : list File) (f : File) :
  packedOK bd -> (forall g, g ∈ bd -> c_BUNDLE_LIMIT_SIZE < Size g) -> f ∈ bd -> bd = [f].
Proof.
  intros Hok Hbig Hf. destruct bd as [|f0 [|g rest]].
  - inversion Hf.
  - apply list_elem_of_singleton in Hf. subst f. reflexivity.
  - destruct (Hok [f0] g rest eq_refl) as (_ & _ & Hpre).
    discriminate Hpre. apply Hbig. right. left.
Qed.

Lemma acrossPaths_perm (files : list File) :
  Permutation (concat (bundleSmallFilesAcrossPaths files)) files.
Proof.
  unfold bundleSmallFilesAcrossPaths.
  destruct (bundleSmallFiles_perm
              (sortBundlesByPath (splitBundlesBySizeLimit (makeBundle files)))) as [Hperm _].
  rewrite Hperm. unfold sortBundlesByPath. rewrite sortBundles_perm.
  unfold makeBundle. destruct files as [|f files]; [reflexivity|].
  cbn [length Nat.ltb Nat.leb]. rewrite splitBundlesBySizeLimit_one.
  cbn [concat]. rewrite app_nil_r. apply three_way_perm.
Qed.

(** The new bundling approach keeps every file, gives no empty bundle, and
    gives every file above [c_BUNDLE_LIMIT_SIZE] that is no directory a
    bundle of its own. *)
Theorem bundleSmallFilesAcrossPaths_partition (files : list File) :
  let bundles := bundleSmallFilesAcrossPaths files in
  Permutation (concat bundles) files /\
  Forall (fun bd => bd <> []) bundles /\
  Forall (fun bd => forall f, f ∈ bd -> IsDir f = false ->
                              c_BUNDLE_LIMIT_SIZE < Size f -> bd = [f]) bundles.
Proof.
  intros bundles. subst bundles. unfold bundleSmallFilesAcrossPaths.
  set (inputs := sortBundlesByPath (splitBundlesBySizeLimit (makeBundle files))).
  destruct (bundleSmallFiles_perm inputs) as [Hperm Hne].
  split; [|split; [exact Hne|]].
  - rewrite Hperm. unfold inputs, sortBundlesByPath. rewrite sortBundles_perm.
    unfold makeBundle. destruct files as [|f files]; [reflexivity|].
    cbn [length Nat.ltb Nat.leb]. rewrite splitBundlesBySizeLimit_one.
    cbn [concat]. rewrite app_nil_r. apply three_way_perm.
  - (* the bundles given to [bundleSmallFiles] are of one kind each *)
    assert (Hkind : forall ib, ib ∈ inputs ->
              forall f g, f ∈ ib -> g ∈ ib -> isBig f = true -> IsDir g = false ->
                          c_BUNDLE_LIMIT_SIZE < Size g).
    { intros ib Hib f g Hf Hg Hbig Hdir. unfold inputs, sortBundlesByPath, makeBundle in Hib.
      destruct files as [|f0 files]; [inversion Hib|].
      cbn [length Nat.ltb Nat.leb] in Hib. rewrite splitBundlesBySizeLimit_one in Hib.
      cbn [map] in Hib.
      assert (Hmem : forall (x : File) l, x ∈ sortBy ByPath l -> x ∈ l).
      { intros x l Hx. rewrite <- (sortBy_perm ByPath l). exact Hx. }
      unfold isBig in Hbig. apply andb_prop in Hbig as [Hfd Hfb].
      apply negb_true_iff in Hfd.
      repeat (apply elem_of_cons in Hib as [->|Hib]); [| | |inversion Hib].
      - apply Hmem, list_elem_of_filter in Hf as [Hsm _]. unfold isSmall in Hsm.
        rewrite Hfb in Hsm. rewrite andb_false_r in Hsm. discriminate.
      - apply Hmem, list_elem_of_filter in Hg as [Hgb _]. unfold isBig in Hgb.
        apply andb_prop in Hgb as [_ Hgb]. lia.
      - apply Hmem, list_elem_of_filter in Hg as [Hgd _]. congruence. }
    unfold bundleSmallFiles, bundleLoop.
    destruct (bundleLoop_inv inputs [] bundler0 bundlerInv_init) as [[Hb Hc Ho Hf Hd] _].
    pose proof (bundleLoop_within inputs inputs bundler0 ltac:(auto)) as Hw.
    specialize (Hw ltac:(constructor) eq_refl).
    set (b := fold_left _ inputs bundler0) in *.
    assert (Hout : Forall (fun bd => forall f, f ∈ bd -> IsDir f = false ->
                             c_BUNDLE_LIMIT_SIZE < Size f -> bd = [f]) (out b)).
    { apply Forall_forall. intros bd Hbd f Hfbd Hdir Hbig.
      rewrite Forall_forall in Ho, Hw.
      destruct (Ho bd Hbd) as [_ Hpk]. destruct (Hw bd Hbd) as (ib & Hib & Hsub).
      apply (packedOK_single bd f Hpk); [|exact Hfbd].
      intros g Hg. apply (Hkind ib Hib f g); auto.
      - unfold isBig. rewrite Hdir. cbn [negb andb]. lia.
      - apply list_elem_of_split in Hg as (pre & suf & ->).
        destruct (Hpk pre g suf eq_refl) as [Hgd _]. exact Hgd. }
    destruct (0 <? length (dirBundle b))%nat; [|exact Hout].
    apply Forall_app. split; [exact Hout|]. constructor; [|constructor].
    intros f Hfd Hdir _. rewrite Hd in Hfd. apply list_elem_of_filter in Hfd as [Hyes _].
    congruence.
Qed.

(** [bundleByPath] cuts the files it is given where the root changes and
    where a bundle ends: it keeps them and their order, every bundle it
    gives holds files of one root, and none is empty. *)
Lemma nextBundleP_keeps (b : bundler) :
  concat (out (nextBundleP b)) ++ currBundle (nextBundleP b) = concat (out b) ++ currBundle b /\
  currBundle (nextBundleP b) = [] /\ currRoot (nextBundleP b) = currRoot b /\
  (Forall (fun bd => bd <> [] /\ exists r, Forall (fun f => Root f = r) bd) (out b) ->
   (exists r, Forall (fun f => Root f = r) (currBundle b)) ->
   Forall (fun bd => bd <> [] /\ exists r, Forall (fun f => Root f = r) bd)
          (out (nextBundleP b))).
Proof.
  unfold nextBundleP. destruct (currBundle b) as [|f bd] eqn:Hb; cbn [length Nat.ltb Nat.leb].
  - rewrite Hb. auto.
  - cbn [out currBundle currRoot]. rewrite concat_app. cbn [concat].
    rewrite !app_nil_r. split; [reflexivity|]. split; [reflexivity|]. split; [reflexivity|].
    intros Hout Hcur. apply Forall_app. split; [exact Hout|].
    constructor; [|constructor]. split; [discriminate|exact Hcur].
Qed.

Definition byPathStep (b : bundler) (f : File) : bundler :=
  let b1 := if String.eqb (Root f) (currRoot b) then b
            else let b' := nextBundleP b in
                 Bundler (out b') (Root f) (currBytes b') (currBundle b') (dirBundle b') in
  Bundler (out b1) (currRoot b1) (currBytes b1) (currBundle b1 ++ [f]) (dirBundle b1).

Definition oneRoot (b : bundler) : Prop :=
  Forall (fun bd => bd <> [] /\ exists r, Forall (fun f => Root f = r) bd) (out b) /\
  Forall (fun f => Root f = currRoot b) (currBundle b).

Lemma byPathStep_keeps (b : bundler) (f : File) :
  oneRoot b ->
  concat (out (byPathStep b f)) ++ currBundle (byPathStep b f)
  = (concat (out b) ++ currBundle b) ++ [f] /\
  oneRoot (byPathStep b f).
Proof.
  intros [Hout Hcur]. unfold byPathStep.
  destruct (String.eqb_spec (Root f) (currRoot b)) as [Heq|Hne]; cbn [out currBundle currRoot].
  - split; [rewrite app_assoc; reflexivity|]. split; [exact Hout|].
    apply Forall_app. split; [exact Hcur|]. constructor; [exact Heq|constructor].
  - destruct (nextBundleP_keeps b) as (Hkeep & Hnil & _ & Hroots).
    rewrite Hnil in *. rewrite app_nil_r in Hkeep. rewrite Hkeep.
    split; [reflexivity|]. split; [apply Hroots; eauto|].
    cbn [app]. constructor; [reflexivity|constructor].
Qed.

Lemma bundleByPath_keeps (bundles : list (list File)) :
  concat (bundleByPath bundles) = concat bundles /\
  Forall (fun bd => bd <> [] /\ exists r, Forall (fun f => Root f = r) bd)
         (bundleByPath bundles).
Proof.
  unfold bundleByPath. fold byPathStep.
  assert (Hgen : forall bs b, oneRoot b -> currBundle b = [] ->
            let b' := fold_left (fun b bundle => nextBundleP (fold_left byPathStep bundle b))
                                bs b in
            concat (out b') = concat (out b) ++ concat bs /\ oneRoot b' /\ currBundle b' = []).
  { induction bs as [|bd bs IH]; intros b Hone Hnil; cbn [fold_left concat].
    - rewrite app_nil_r. auto.
    - assert (Hinner : forall l b0, oneRoot b0 ->
                concat (out (fold_left byPathStep l b0)) ++ currBundle (fold_left byPathStep l b0)
                = (concat (out b0) ++ currBundle b0) ++ l /\
                oneRoot (fold_left byPathStep l b0)).
      { induction l as [|f l IHl]; intros b0 Hb0; cbn [fold_left].
        - rewrite app_nil_r. auto.
        - destruct (byPathStep_keeps b0 f Hb0) as [Hk Ho].
          destruct (IHl _ Ho) as [Hk' Ho']. rewrite Hk', Hk, <- app_assoc. auto. }
      destruct (Hinner bd b Hone) as [Hk [Hout Hcur]].
      destruct (nextBundleP_keeps (fold_left byPathStep bd b)) as (Hkeep & Hnil' & Hroot & Hroots).
      destruct (IH (nextBundleP (fold_left byPathStep bd b))) as (Hc & Ho & Hn).
      { split; [apply Hroots; eauto|]. rewrite Hnil'. constructor. }
      { exact Hnil'. }
      split; [|auto]. rewrite Hc. rewrite Hnil', app_nil_r in Hkeep.
      rewrite Hkeep, Hk, Hnil, app_nil_r, app_assoc. reflexivity. }
  destruct (Hgen bundles bundler0) as (Hc & [Ho _] & _).
  { split; constructor. }
  { reflexivity. }
  split; [exact Hc|exact Ho].
Qed.

(** The traditional bundling approach keeps every file, gives no empty
    bundle, and bundles files that are no directories with files of their
    own root only. *)
Theorem bundleByPathAndSize_partition (files : list File) :
  let bundles := bundleByPathAndSize files in
  Permutation (concat bundles) files /\
  Forall (fun bd => bd <> []) bundles /\
  Forall (fun bd => forall f g, f ∈ bd -> g ∈ bd -> IsDir f = false -> Root g = Root f)
         bundles.
Proof.
  intros bundles. subst bundles. unfold bundleByPathAndSize.
  set (inputs := sortBundlesBySize (bundleByPath (sortBundlesByPath (makeBundle files)))).
  destruct (bundleSmallFiles_perm inputs) as [Hperm Hne].
  destruct (bundleByPath_keeps (sortBundlesByPath (makeBundle files))) as [Hkeep Hroots].
  split; [|split; [exact Hne|]].
  - rewrite Hperm. unfold inputs, sortBundlesBySize. rewrite sortBundles_perm, Hkeep.
    unfold sortBundlesByPath. rewrite sortBundles_perm.
    unfold makeBundle. destruct files; cbn; rewrite ?app_nil_r; reflexivity.
  - assert (Hroot : forall ib, ib ∈ inputs -> forall f g, f ∈ ib -> g ∈ ib -> Root g = Root f).
    { intros ib Hib f g Hf Hg. unfold inputs, sortBundlesBySize in Hib.
      apply list_elem_of_In, in_map_iff in Hib as (bd & <- & Hbd).
      rewrite Forall_forall in Hroots.
      destruct (Hroots bd (proj2 (list_elem_of_In _ _) Hbd)) as (_ & r & Hr).
      rewrite Forall_forall in Hr. rewrite sortBy_perm in Hf, Hg.
      rewrite (Hr f Hf), (Hr g Hg). reflexivity. }
    unfold bundleSmallFiles, bundleLoop.
    destruct (bundleLoop_inv inputs [] bundler0 bundlerInv_init) as [[Hb Hc Ho Hf Hd] _].
    pose proof (bundleLoop_within inputs inputs bundler0 ltac:(auto)) as Hw.
    specialize (Hw ltac:(constructor) eq_refl).
    set (b := fold_left _ inputs bundler0) in *.
    assert (Hout : Forall (fun bd => forall f g, f ∈ bd -> g ∈ bd -> IsDir f = false ->
                                                 Root g = Root f) (out b)).
    { eapply Forall_impl; [exact Hw|]. intros bd (ib & Hib & Hsub) f g Hfb Hgb _.
      apply (Hroot ib Hib); auto. }
    destruct (0 <? length (dirBundle b))%nat; [|exact Hout].
    apply Forall_app. split; [exact Hout|]. constructor; [|constructor].
    intros f g Hfd _ Hdir. rewrite Hd in Hfd. apply list_elem_of_filter in Hfd as [Hyes _].
    congruence.
Qed.

End Partition.

(** ** What the operations of a manifest record *)

Section ManifestUse.
Import Go Json File Backup.
Context {FP : FilePath} {FS : FileSystem} {CD : Codecs}.

(** The entry [Update] writes for a file of the bundle with the key [key]. *)
Definition entryFor (lastSet key : string) (f : File) : ManifestEntry :=
  mkEntry f lastSet (if negb (IsDir f) then [mkPart key (0, 0)] else []).

Lemma view_None (h : heap) (m : Manifest) (path : string) :
  manifestOK h m -> view h m !! path = None -> pathMap m !! path = None.
Proof.
  intros Hok Hv. rewrite lookup_view in Hv.
  destruct (pathMap m !! path) as [p|] eqn:Hl; [|reflexivity].
  destruct (ok_paths _ _ Hok _ _ Hl) as (_ & e & He & _). simpl in Hv. congruence.
Qed.

(** [Remove] returns whether the manifest had the file, and takes its entry
    away and no other: afterwards the manifest has not the file, holds one
    entry less if it had it, and by path all the others as before. *)
Theorem Remove_deletes (h : heap) (m : Manifest) (f : File) :
  manifestOK h m ->
  exists h' m',
    Remove h m f = Done (h', m', Has m f) /\
    Has m' f = false /\
    view h' m' = delete (Path f) (view h m) /\
    length (Entries m') = (length (Entries m) - (if Has m f then 1 else 0))%nat.
Proof.
  intros Hok. unfold Remove, Has. destruct (pathMap m !! Path f) as [p|] eqn:Hl.
  - destruct (removeEntry_spec h m (Path f) p Hok Hl)
      as (q & tail & m' & _ & _ & Hrun & Hlen & _ & _ & Hok' & Hview).
    exists (<[p := tail]> h), m'. rewrite Hrun. split; [reflexivity|].
    split; [|split; [exact Hview|lia]].
    rewrite (view_None _ _ (Path f) Hok'); [reflexivity|].
    rewrite Hview. apply lookup_delete_eq.
  - exists h, m. split; [reflexivity|]. rewrite Hl. split; [reflexivity|].
    split; [|lia]. symmetry. apply delete_id. rewrite lookup_view, Hl. reflexivity.
Qed.

Lemma updateOne_view (lastSet key : string) (h : heap) (m : Manifest) (f : File) :
  manifestOK h m ->
  view (fst (updateOne lastSet key (h, m) f)) (snd (updateOne lastSet key (h, m) f))
  = <[Path f := entryFor lastSet key f]> (view h m).
Proof.
  intros Hok. apply map_eq. intros path. rewrite lookup_view. unfold updateOne.
  fold (entryFor lastSet key f).
  destruct (pathMap m !! Path f) as [p|] eqn:Hl; cbn [fst snd alloc pathMap setIndex].
  - destruct (decide (path = Path f)) as [->|Hne].
    + rewrite Hl, lookup_insert_eq. cbn. apply lookup_insert_eq.
    + rewrite lookup_insert_ne by congruence. rewrite lookup_view.
      destruct (pathMap m !! path) as [q|] eqn:Hq; [|reflexivity]. cbn.
      apply lookup_insert_ne. intros <-.
      destruct (ok_paths _ _ Hok _ _ Hl) as (_ & e & He & Hp).
      destruct (ok_paths _ _ Hok _ _ Hq) as (_ & e' & He' & Hp'). congruence.
  - destruct (decide (path = Path f)) as [->|Hne].
    + rewrite !lookup_insert_eq. cbn. apply lookup_insert_eq.
    + rewrite !lookup_insert_ne by congruence. rewrite lookup_view.
      destruct (pathMap m !! path) as [q|] eqn:Hq; [|reflexivity]. cbn.
      apply lookup_insert_ne. intros <-.
      destruct (ok_paths _ _ Hok _ _ Hq) as (_ & e' & He' & _).
      pose proof (is_fresh (dom h)) as Hf. apply not_elem_of_dom in Hf. congruence.
Qed.

(** The files of the bundles with the keys [Update] gives them. *)
Fixpoint keyedFiles (ks : keyState) (bundles : list (list File)) : list (string * File) :=
  match bundles with
  | [] => []
  | bd :: rest => map (pair (fst (nextKey ks))) bd ++ keyedFiles (snd (nextKey ks)) rest
  end.

Definition record (lastSet : string) (v : gmap string ManifestEntry) (kf : string * File) :
    gmap string ManifestEntry :=
  <[Path (snd kf) := entryFor lastSet (fst kf) (snd kf)]> v.

Lemma updateFiles_view (lastSet key : string) (files : list File) (hm : heap * Manifest) :
  manifestOK (fst hm) (snd hm) ->
  view (fst (fold_left (updateOne lastSet key) files hm))
       (snd (fold_left (updateOne lastSet key) files hm))
  = fold_left (record lastSet) (map (pair key) files) (view (fst hm) (snd hm)).
Proof.
  revert hm. induction files as [|f files IH]; intros [h m] Hok; cbn [fold_left map];
    [reflexivity|].
  rewrite IH by apply (updateOne_ok lastSet key h m f Hok).
  rewrite updateOne_view by exact Hok. reflexivity.
Qed.

Lemma updateBundles_view (lastSet : string) (bundles : list (list File))
    (acc : heap * Manifest * keyState) :
  manifestOK (fst (fst acc)) (snd (fst acc)) ->
  let r := fold_left (updateBundle lastSet) bundles acc in
  view (fst (fst r)) (snd (fst r))
  = fold_left (record lastSet) (keyedFiles (snd acc) bundles)
              (view (fst (fst acc)) (snd (fst acc))) /\
  LastSet (snd (fst r)) = LastSet (snd (fst acc)) /\
  Updated (snd (fst r)) = Updated (snd (fst acc)).
Proof.
  revert acc. induction bundles as [|bd bundles IH]; intros [[h m] ks] Hok;
    cbn [fold_left keyedFiles]; [auto|].
  cbn zeta in IH.
  set (acc1 := updateBundle lastSet (h, m, ks) bd).
  assert (Hacc : acc1 = (fold_left (updateOne lastSet (fst (nextKey ks))) bd (h, m),
                         snd (nextKey ks))) by reflexivity.
  assert (Hok1 : manifestOK (fst (fst acc1)) (snd (fst acc1))).
  { rewrite Hacc. apply (updateFiles_ok _ _ bd (h, m)), Hok. }
  destruct (IH acc1 Hok1) as (Hv & Hs & Hu). rewrite Hv, Hs, Hu, Hacc. cbn [fst snd].
  rewrite (updateFiles_view _ _ bd (h, m)) by exact Hok. rewrite fold_left_app.
  split; [reflexivity|].
  assert (Hkeep : forall l hm, LastSet (snd (fold_left (updateOne lastSet (fst (nextKey ks))) l hm))
                               = LastSet (snd hm) /\
                               Updated (snd (fold_left (updateOne lastSet (fst (nextKey ks))) l hm))
                               = Updated (snd hm)).
  { induction l as [|f l IHl]; intros [h0 m0]; cbn [fold_left]; [auto|].
    destruct (IHl (updateOne lastSet (fst (nextKey ks)) (h0, m0) f)) as [-> ->].
    unfold updateOne. destruct (pathMap m0 !! Path f); auto. }
  apply (Hkeep bd (h, m)).
Qed.

Lemma record_other (lastSet : string) (l : list (string * File)) (v : gmap string ManifestEntry)
    (path : string) :
  (forall kf, kf ∈ l -> Path (snd kf) <> path) ->
  fold_left (record lastSet) l v !! path = v !! path.
Proof.
  revert v. induction l as [|kf l IH]; intros v Hno; cbn [fold_left]; [reflexivity|].
  rewrite IH by (intros kf' Hkf; apply Hno; now constructor).
  unfold record. apply lookup_insert_ne. apply Hno. constructor.
Qed.

Lemma record_lookup (lastSet : string) (l : list (string * File)) (v : gmap string ManifestEntry)
    (key : string) (f : File) :
  NoDup (map (fun kf => Path (snd kf)) l) -> (key, f) ∈ l ->
  fold_left (record lastSet) l v !! Path f = Some (entryFor lastSet key f).
Proof.
  revert v. induction l as [|kf l IH]; intros v Hnd Hin; [inversion Hin|].
  cbn [map] in Hnd. apply NoDup_cons in Hnd as [Hfresh Hnd]. cbn [fold_left].
  apply elem_of_cons in Hin as [<-|Hin]; [|apply IH; assumption].
  rewrite record_other.
  - unfold record. cbn [fst snd]. apply lookup_insert_eq.
  - intros kf' Hkf' Heq. apply Hfresh. cbn [snd]. rewrite <- Heq.
    apply list_elem_of_In. apply (in_map (fun kf => Path (snd kf)) l kf').
    apply list_elem_of_In, Hkf'.
Qed.

Lemma keyedFiles_files (ks : keyState) (bundles : list (list File)) :
  map snd (keyedFiles ks bundles) = concat bundles.
Proof.
  revert ks. induction bundles as [|bd bundles IH]; intros ks; cbn [keyedFiles concat];
    [reflexivity|].
  rewrite map_app, IH, map_map. cbn [snd]. rewrite map_id. reflexivity.
Qed.

Lemma keyedFiles_elem (fmt : hexFormat) (k0 : Z) (bundles : list (list File)) (i : nat)
    (bd : list File) (f : File) :
  bundles !! i = Some bd -> f ∈ bd ->
  (Sprintf fmt (k0 + Z.of_nat i), f) ∈ keyedFiles (KeyState fmt k0) bundles.
Proof.
  revert k0 i. induction bundles as [|bd0 bundles IH]; intros k0 i Hbd Hf; [discriminate|].
  cbn [keyedFiles nextKey fst snd keyFormat k]. apply elem_of_app.
  destruct i as [|i]; cbn in Hbd.
  - left. injection Hbd as ->. replace (k0 + Z.of_nat 0) with k0 by lia.
    apply list_elem_of_In, in_map, list_elem_of_In, Hf.
  - right. replace (k0 + Z.of_nat (S i)) with (k0 + 1 + Z.of_nat i) by lia.
    apply IH; assumption.
Qed.

(** The files as [Update] bundles them: after [ChecksumFiles]. *)
Definition checkedFiles (files : list File) : list File :=
  match ChecksumFiles [files] with
  | [fs] => fs
  | _ => files
  end.

Lemma checkedFiles_cases (files : list File) :
  checkedFiles files = files \/ checkedFiles files = map checksumOne files.
Proof.
  unfold checkedFiles, ChecksumFiles. destruct (_ =? _)%nat; [left|right]; reflexivity.
Qed.

Lemma checkedFiles_Path (files : list File) :
  map Path (checkedFiles files) = map Path files.
Proof.
  destruct (checkedFiles_cases files) as [->| ->]; [reflexivity|].
  rewrite map_map. apply map_ext. intros a. apply checksumOne_Path.
Qed.

(** Every file has its checked file, of the same path, mode, size and time. *)
Lemma checkedFiles_elem (files : list File) (f : File) :
  f ∈ files ->
  exists g, g ∈ checkedFiles files /\ Path g = Path f /\ Mode g = Mode f /\
            Size g = Size f /\ ModTime g = ModTime f /\ (g = f \/ g = checksumOne f).
Proof.
  intros Hf. destruct (checkedFiles_cases files) as [->| ->].
  - exists f. auto 10.
  - exists (checksumOne f). destruct (checksumOne_fields f) as (Hm & Hs & Ht).
    split; [apply list_elem_of_fmap; eauto|]. rewrite checksumOne_Path. auto 10.
Qed.

(** [Update] as a whole: the stamps it sets, and every file of every bundle
    recorded by its path, in the order of the bundles. *)
Lemma Update_view (h : heap) (m : Manifest) (files : list File) (now : Z) :
  manifestOK h m ->
  let r := Update h m files now in
  let bundles := bundleSmallFilesAcrossPaths (checkedFiles files) in
  snd r = now /\ LastSet (snd (fst r)) = manifestKey now /\
  Updated (snd (fst r)) = truncateSecond now /\
  view (fst (fst r)) (snd (fst r))
  = fold_left (record (manifestKey now))
              (keyedFiles (keyFactory (Z.of_nat (length bundles))) bundles) (view h m).
Proof.
  intros Hok r bundles. subst r. unfold Update. fold (checkedFiles files). fold bundles.
  set (m1 := mkManifest _ _ _ _ _ _).
  set (acc := (h, m1, _)).
  pose proof (updateBundles_view (LastSet m1) bundles acc) as Hb.
  cbn zeta in Hb. specialize (Hb (manifestOK_ext h m m1 eq_refl eq_refl Hok)).
  destruct (fold_left _ _ acc) as [[h' m'] ks]. cbn [fst snd] in *.
  destruct Hb as (Hv & Hs & Hu). auto.
Qed.

Lemma keyed_NoDup (ks : keyState) (files : list File) :
  NoDup (map Path files) ->
  NoDup (map (fun kf : string * File => Path (snd kf))
             (keyedFiles ks (bundleSmallFilesAcrossPaths (checkedFiles files)))).
Proof.
  intros Hnd. rewrite <- (map_map snd Path), keyedFiles_files.
  rewrite (Permutation_map Path (acrossPaths_perm (checkedFiles files))).
  rewrite checkedFiles_Path. exact Hnd.
Qed.

Lemma bundled_elem (files : list File) (g : File) :
  g ∈ files ->
  exists i bd, bundleSmallFilesAcrossPaths files !! i = Some bd /\ g ∈ bd.
Proof.
  intros Hg. rewrite <- (acrossPaths_perm files) in Hg.
  apply elem_of_concat in Hg as (bd & Hgbd & Hbd).
  apply list_elem_of_lookup in Hbd as [i Hi]. exists i, bd. auto.
Qed.

Lemma Update_stored (h : heap) (m : Manifest) (files : list File) (now : Z) (f : File) :
  manifestOK h m -> NoDup (map Path files) -> f ∈ files ->
  let r := Update h m files now in
  exists g key, view (fst (fst r)) (snd (fst r)) !! Path f
                = Some (entryFor (manifestKey now) key g) /\
    Mode g = Mode f /\ Size g = Size f /\ ModTime g = ModTime f /\
    (g = f \/ g = checksumOne f).
Proof.
  intros Hok Hnd Hf r. destruct (Update_view h m files now Hok) as (_ & _ & _ & Hv).
  fold r in Hv. rewrite Hv.
  destruct (checkedFiles_elem files f Hf) as (g & Hg & Hp & Hm & Hs & Ht & Hcase).
  destruct (bundled_elem _ g Hg) as (i & bd & Hi & Hgbd).
  exists g. eexists. rewrite <- Hp. split; [|auto].
  apply record_lookup; [apply keyed_NoDup, Hnd|].
  apply (keyedFiles_elem _ 0 _ i bd g Hi Hgbd).
Qed.

(** [Update] stamps the manifest with the set of the clock and records every
    file it is given.  When no two of the files share a path: the file at
    the place [i] of the bundles is held under its path with the new set
    and, unless it is a directory, with the one part whose key is the
    numeral of [i]; every file given is in some bundle after the checksum
    pass; two bundles never share a key; and the entries of all other paths
    are left as they were. *)
Theorem Update_records (h : heap) (m : Manifest) (files : list File) (now : Z) :
  manifestOK h m -> NoDup (map Path files) ->
  let r := Update h m files now in
  let bundles := bundleSmallFilesAcrossPaths (checkedFiles files) in
  let key i := Sprintf (HexFormat (hexLog (Z.of_nat (length bundles)))) (Z.of_nat i) in
  snd r = now /\ LastSet (snd (fst r)) = manifestKey now /\
  Updated (snd (fst r)) = truncateSecond now /\
  (forall i bd f, bundles !! i = Some bd -> f ∈ bd ->
     view (fst (fst r)) (snd (fst r)) !! Path f
     = Some (mkEntry f (manifestKey now)
                     (if IsDir f then [] else [mkPart (key i) (0, 0)]))) /\
  (forall f, f ∈ files ->
     exists i bd, bundles !! i = Some bd /\ (f ∈ bd \/ checksumOne f ∈ bd)) /\
  (forall i j, i <> j -> key i <> key j) /\
  (forall path, (forall f, f ∈ files -> Path f <> path) ->
     view (fst (fst r)) (snd (fst r)) !! path = view h m !! path).
Proof.
  intros Hok Hnd r bundles key.
  destruct (Update_view h m files now Hok) as (Hnow & Hset & Hupd & Hv).
  fold r bundles in Hnow, Hset, Hupd, Hv.
  split; [exact Hnow|]. split; [exact Hset|]. split; [exact Hupd|].
  split; [|split; [|split]].
  - intros i bd f Hi Hf. rewrite Hv.
    replace (mkEntry f (manifestKey now) (if IsDir f then [] else [mkPart (key i) (0, 0)]))
      with (entryFor (manifestKey now) (key i) f)
      by (unfold entryFor; destruct (IsDir f); reflexivity).
    apply record_lookup; [apply keyed_NoDup, Hnd|].
    apply (keyedFiles_elem _ 0 _ i bd f Hi Hf).
  - intros f Hf.
    destruct (checkedFiles_elem files f Hf) as (g & Hg & _ & _ & _ & _ & Hcase).
    destruct (bundled_elem _ g Hg) as (i & bd & Hi & Hgbd). exists i, bd.
    split; [exact Hi|]. destruct Hcase as [<-| <-]; auto.
  - intros i j Hij Heq. apply (f_equal hexValue) in Heq. unfold key in Heq.
    rewrite !hexValue_Sprintf in Heq by lia. injection Heq. lia.
  - intros path Hno. rewrite Hv. apply record_other. intros kf Hkf Heq.
    assert (Hin : snd kf ∈ concat bundles).
    { rewrite <- (keyedFiles_files (keyFactory (Z.of_nat (length bundles)))).
      apply list_elem_of_fmap. eauto. }
    unfold bundles in Hin. rewrite acrossPaths_perm in Hin.
    assert (Hp : Path (snd kf) ∈ map Path files).
    { rewrite <- checkedFiles_Path. apply list_elem_of_fmap. eauto. }
    apply list_elem_of_fmap in Hp as (f & Hpf & Hf). apply (Hno f Hf). congruence.
Qed.

Lemma filter_none {A : Type} (f : A -> bool) (l : list A) :
  (forall x, x ∈ l -> f x = false) -> filter (fun x => f x = true) l = [].
Proof.
  induction l as [|a l IH]; intros Hall; [reflexivity|].
  rewrite filter_cons_bool, (Hall a) by constructor.
  apply IH. intros x Hx. apply Hall. now constructor.
Qed.

Lemma Update_stored_file (h : heap) (m : Manifest) (files : list File) (now : Z) (f : File) :
  manifestOK h m -> NoDup (map Path files) -> f ∈ files ->
  let r := Update h m files now in
  exists b, stored (fst (fst r)) (snd (fst r)) f = Some b /\
    Mode b = Mode f /\ Size b = Size f /\ ModTime b = ModTime f.
Proof.
  intros Hok Hnd Hf r.
  destruct (Update_stored h m files now f Hok Hnd Hf) as (g & key & Hv & Hm & Hs & Ht & _).
  fold r in Hv. exists g. split; [|auto]. unfold stored. rewrite lookup_view in Hv.
  destruct (pathMap (snd (fst r)) !! Path f) as [p|]; [|discriminate]. cbn in *.
  rewrite Hv. reflexivity.
Qed.

(** A scan that finds the files as they were when [Update] recorded them
    finds nothing to back up: [Compare] returns no file, and [HasIdentical]
    holds of each of them. *)
Theorem Compare_after_Update (h : heap) (m : Manifest) (files : list File) (now : Z) :
  manifestOK h m -> NoDup (map Path files) ->
  let r := Update h m files now in
  Compare (fst (fst r)) (snd (fst r)) files = Done [] /\
  forall f, f ∈ files -> HasIdentical (fst (fst r)) (snd (fst r)) f = Done true.
Proof.
  intros Hok Hnd r.
  pose proof (Update_ok h m files now Hok) as Hok'. fold r in Hok'.
  assert (Hsame : forall f, f ∈ files ->
            isTouched (fst (fst r)) (snd (fst r)) f = false /\
            isChanged (fst (fst r)) (snd (fst r)) f = false).
  { intros f Hf.
    destruct (Update_stored_file h m files now f Hok Hnd Hf) as (b & Hst & Hm & Hs & Ht).
    fold r in Hst. unfold isTouched, isChanged, sizeChanged. rewrite Hst, Hs, Ht.
    rewrite !Z.eqb_refl. destruct (IsDir f); auto. }
  split.
  - unfold Compare. rewrite (compare_pass1 _ _ files [] [] Hok'). cbn [mbind outcome_bind app].
    assert (Ht : filter (fun a => isTouched (fst (fst r)) (snd (fst r)) a = true) files = []).
    { apply filter_none. intros f Hf. apply (Hsame f Hf). }
    assert (Hc : filter (fun a => isChanged (fst (fst r)) (snd (fst r)) a = true) files = []).
    { apply filter_none. intros f Hf. apply (Hsame f Hf). }
    rewrite Ht, Hc. reflexivity.
  - intros f Hf.
    destruct (Update_stored h m files now f Hok Hnd Hf) as (g & key & Hv & Hm & Hs & Ht & _).
    fold r in Hv. unfold HasIdentical. rewrite lookup_view in Hv.
    destruct (pathMap (snd (fst r)) !! Path f) as [p|]; [|discriminate]. cbn in Hv.
    unfold load. rewrite Hv. cbn [mbind outcome_bind entryFor EFile].
    rewrite Hs, Hm, Ht, !Z.eqb_refl. destruct (IsDir g); reflexivity.
Qed.

(** The key of a set is written in exactly 16 places for every instant an
    [int64] of nanoseconds since 1970 can hold, and sets made at different
    instants have different keys. *)
Theorem manifestKey_distinct (t1 t2 : Z) :
  0 <= t1 <= maxInt -> 0 <= t2 <= maxInt ->
  String.length (manifestKey t1) = 16%nat /\
  (manifestKey t1 = manifestKey t2 -> t1 = t2).
Proof.
  intros Ht1 Ht2. unfold manifestKey. split.
  - assert (Hw : hexLog t1 <= 16).
    { pose proof (hexLog_mono t1 maxInt Ht1) as Hmono.
      destruct (hexLog_bounds maxInt ltac:(unfold maxInt; lia)) as (Hw & _ & Hlo).
      specialize (Hlo ltac:(unfold maxInt; lia)).
      destruct (Z_le_dec (hexLog maxInt) 16) as [|Hgt]; [lia|exfalso].
      assert (16 ^ 16 <= 16 ^ (hexLog maxInt - 1)) by (apply Z.pow_le_mono_r; lia).
      unfold maxInt in Hlo at 2. lia. }
    pose proof (Sprintf_length 16 t1 ltac:(lia) Hw). lia.
  - intros Heq. apply (f_equal hexValue) in Heq.
    rewrite !hexValue_Sprintf in Heq by lia. congruence.
Qed.

End ManifestUse.

(** ** The metadata header of a store *)

Section MetadataUse.
Import Go Json Store.
Context {CD : Codecs}.

(** What package base64 gives: decoding what it encoded. *)
Hypothesis base64_roundtrip :
  forall b, Forall isByte b -> base64Decode (base64Encode b) = Some b.

Ltac fold_keys :=
  repeat match goal with
         | |- context [keyMatches ?a ?b] =>
             let v := eval vm_compute in (keyMatches a b) in
             change (keyMatches a b) with v
         end.

Lemma unmarshalInt_in (lo hi z x : Z) :
  lo <= z <= hi -> unmarshalInt lo hi (JInt z) x = (z, None).
Proof.
  intros Hz. unfold unmarshalInt.
  destruct (Z.leb_spec lo z); [|lia]. destruct (Z.leb_spec z hi); [|lia]. reflexivity.
Qed.

Lemma ParseVersionJSON_marshal (md : storeMetadata) :
  minInt <= Version md <= maxInt ->
  ParseVersionJSON (Some (marshalMetadata md)) = (Version md, true).
Proof.
  intros Hv. unfold ParseVersionJSON, marshalMetadata. cbn [fold_left fst snd].
  fold_keys. cbn iota. rewrite (unmarshalInt_in _ _ _ _ Hv). reflexivity.
Qed.

Lemma unmarshalMetadata_marshal (md : storeMetadata) :
  minInt <= Version md <= maxInt -> minInt <= StoreFormat md <= maxInt ->
  Forall isByte (Salt md) ->
  exists ud, unmarshalMetadata (Some (marshalMetadata md))
             = (mkMetadata (Version md) (StoreFormat md) (Salt md) ud, None).
Proof.
  intros Hv Hf Hs. unfold unmarshalMetadata, marshalMetadata.
  cbn [fold_left]. unfold unmarshalMetadataField at 4. fold_keys. cbn iota.
  rewrite (unmarshalInt_in _ _ _ _ Hv). cbn [Version StoreFormat Salt UserData firstErr].
  unfold unmarshalMetadataField at 3. fold_keys. cbn iota.
  rewrite (unmarshalInt_in _ _ _ _ Hf). cbn [Version StoreFormat Salt UserData firstErr].
  unfold unmarshalMetadataField at 2. fold_keys. cbn iota.
  cbn [unmarshalBytes]. rewrite (base64_roundtrip _ Hs).
  cbn [Version StoreFormat Salt UserData firstErr].
  unfold unmarshalMetadataField. fold_keys. cbn iota.
  cbn [Version StoreFormat Salt UserData firstErr unmarshalUserData]. eauto.
Qed.

(** The header [putStoreMetadata] has written is the header a store
    opened afresh on the same layer reads: with the version 1 it gets the
    version, the format and the salt that were put, and keeps them; with
    any other version it gets [ErrBadVersion]. *)
Theorem putStoreMetadata_roundtrip (s t : Store) (md : storeMetadata) :
  minInt <= Version md <= maxInt -> minInt <= StoreFormat md <= maxInt ->
  Forall isByte (Salt md) ->
  snd (putStoreMetadata s md) = None ->
  layer t = layer (fst (putStoreMetadata s md)) -> meta t = None ->
  requestFn (layer s) c_METADATA_KEY = None ->
  if Version md =? 1
  then exists md', getStoreMetadata t = (setMeta t md', md', None) /\
                   Version md' = 1 /\ StoreFormat md' = StoreFormat md /\ Salt md' = Salt md
  else snd (getStoreMetadata t) = Some ErrBadVersionStore.
Proof.
  intros Hv Hf Hs Hput Hlayer Hmeta Hreq.
  assert (Hget : GetReader (layer t) c_METADATA_KEY = inl (Plain (Some (marshalMetadata md)))).
  { rewrite Hlayer. revert Hput. unfold putStoreMetadata, PutReader.
    destruct (putFn (layer s) c_METADATA_KEY); cbn; try discriminate. intros _.
    unfold GetReader. cbn. rewrite Hreq, lookup_insert_eq. reflexivity. }
  unfold getStoreMetadata. rewrite Hmeta, Hget. cbn [readPlain].
  rewrite (ParseVersionJSON_marshal md Hv).
  destruct (Z.eqb_spec (Version md) 1) as [H1|H1]; [|reflexivity].
  destruct (unmarshalMetadata_marshal md Hv Hf Hs) as (ud & ->).
  eexists. split; [reflexivity|]. cbn. auto.
Qed.

(** A field [putUserMetadata] has stored is the field [getUserMetadata]
    then gives, and the other fields read as before. *)
Theorem putUserMetadata_then_get (s : Store) (key : string) (v : json) :
  snd (putUserMetadata s key v) = None ->
  let s' := fst (putUserMetadata s key v) in
  getUserMetadata s' key = (s', Some v, None) /\
  forall k, k <> key ->
    getUserMetadata s' k
    = (s', snd (fst (getUserMetadata s k)), snd (getUserMetadata s k)).
Proof.
  unfold putUserMetadata, getUserMetadata.
  destruct (getStoreMetadata s) as [[s1 md] [e|]]; [discriminate|].
  unfold putStoreMetadata.
  destruct (PutReader (layer s1) c_METADATA_KEY _) as [l [e|]]; [discriminate|].
  cbn [fst snd]. intros _. unfold getStoreMetadata. cbn [meta setMeta UserData].
  split.
  - rewrite lookup_insert_eq. reflexivity.
  - intros k Hk. rewrite lookup_insert_ne by congruence.
    destruct (UserData md !! k); reflexivity.
Qed.

(** *** Wiping and unlocking *)

Import Opening.
Context {KD : KeyDerivation}.

(** What package pbkdf2 gives: a key of the length asked for. *)
Hypothesis pbkdf2Key_length :
  forall secret salt n, 0 <= n -> Crypto.len (pbkdf2Key secret salt n) = n.

Lemma DeriveKeys_lengths (secret salt : list Z) :
  Crypto.len (fst (DeriveKeys secret salt)) = c_ENC_KEY_SIZE /\
  Crypto.len (snd (DeriveKeys secret salt)) = c_HMAC_KEY_SIZE.
Proof.
  unfold DeriveKeys. cbn [fst snd].
  pose proof (pbkdf2Key_length secret salt (c_ENC_KEY_SIZE + c_HMAC_KEY_SIZE)) as Hlen.
  unfold c_ENC_KEY_SIZE, c_HMAC_KEY_SIZE, Crypto.len in *.
  rewrite length_take, length_drop. lia.
Qed.

Lemma Open_derived (s : Store) (secret salt : list Z) :
  Open s (mkKeys (fst (DeriveKeys secret salt)) (snd (DeriveKeys secret salt)))
  = (setEnc s (mkKeys (fst (DeriveKeys secret salt)) (snd (DeriveKeys secret salt))), None).
Proof.
  destruct (DeriveKeys_lengths secret salt) as [He Ha].
  unfold Open, Exists, NewCrypter. cbn [negb EncKey AuthKey].
  rewrite He, Ha, !Z.eqb_refl. reflexivity.
Qed.

(** The keys of a secret and a salt. *)
Definition keysOf (secret salt : list Z) : Keys :=
  mkKeys (fst (DeriveKeys secret salt)) (snd (DeriveKeys secret salt)).

Lemma Unlock_with (s : Store) (md : storeMetadata) (secret : list Z) (s1 : Store) :
  getStoreMetadata s = (s1, md, None) ->
  Unlock s secret = (setEnc s1 (keysOf secret (Store.Salt md)), keysOf secret (Store.Salt md), None).
Proof.
  intros Hget. unfold Unlock. rewrite Hget.
  destruct (DeriveKeys secret (Store.Salt md)) as [e a] eqn:Hk.
  pose proof (Open_derived s1 secret (Store.Salt md)) as Ho. rewrite Hk in Ho.
  cbn [fst snd] in Ho. rewrite Ho. unfold keysOf. rewrite Hk. reflexivity.
Qed.

(** [Wipe] on a layer that takes the header leaves a store that is
    connected, with the keys of the secret and the new salt, of 32 and 64
    bytes; and [Unlock] with the same secret, on a handle that has read
    nothing yet, finds the header, derives these very keys and connects,
    while [IsClean] says no. *)
Theorem Wipe_then_Unlock (s : Store) (secret salt : list Z) :
  Forall isByte salt ->
  putFn (layer s) c_METADATA_KEY = PutFine ->
  requestFn (layer s) c_METADATA_KEY = None ->
  let wiped := Wipe s secret (salt, None) in
  let keys := snd (fst wiped) in
  snd wiped = None /\ isConnected (fst (fst wiped)) = true /\
  keys = keysOf secret salt /\
  Crypto.len (EncKey keys) = 32 /\ Crypto.len (AuthKey keys) = 64 /\
  forall t, layer t = layer (fst (fst wiped)) -> meta t = None ->
    snd (Unlock t secret) = None /\ snd (fst (Unlock t secret)) = keys /\
    isConnected (fst (fst (Unlock t secret))) = true /\
    snd (IsClean t) = false.
Proof.
  intros Hsalt Hput Hreq wiped keys.
  set (md := newMetadata salt).
  set (l1 := setData (layer s) (<[c_METADATA_KEY := Plain (Some (marshalMetadata md))]>
                                  (dataStore (layer s)))).
  set (s1 := setMeta (setLayer s l1) md).
  assert (Hwipe : wiped = (setEnc s1 (keysOf secret salt), keysOf secret salt, None)).
  { unfold wiped, Wipe, Opening.Salt, Exists. cbn [fst snd negb].
    unfold putStoreMetadata, PutReader. rewrite Hput. fold md. fold l1. fold s1.
    apply (Unlock_with s1 md secret s1). reflexivity. }
  unfold keys. rewrite Hwipe. cbn [fst snd].
  destruct (DeriveKeys_lengths secret salt) as [He Ha].
  split; [reflexivity|]. split; [reflexivity|]. split; [reflexivity|].
  split; [exact He|]. split; [exact Ha|].
  intros t Hlayer Hmeta. cbn [setEnc layer] in Hlayer.
  assert (Hget : GetReader (layer t) c_METADATA_KEY = inl (Plain (Some (marshalMetadata md)))).
  { rewrite Hlayer. unfold GetReader. cbn. rewrite Hreq, lookup_insert_eq. reflexivity. }
  destruct (unmarshalMetadata_marshal md) as (ud & Hum).
  { cbn. unfold minInt, maxInt. lia. }
  { cbn. unfold minInt, maxInt. lia. }
  { exact Hsalt. }
  assert (Hmd : getStoreMetadata t
                = (setMeta t (mkMetadata 1 1 salt ud), mkMetadata 1 1 salt ud, None)).
  { unfold getStoreMetadata. rewrite Hmeta, Hget. cbn [readPlain].
    rewrite (ParseVersionJSON_marshal md) by (cbn; unfold minInt, maxInt; lia).
    cbn [Version md newMetadata Z.eqb Pos.eqb]. rewrite Hum. reflexivity. }
  rewrite (Unlock_with t _ secret _ Hmd). cbn [fst snd Store.Salt].
  split; [reflexivity|]. split; [reflexivity|]. split; [reflexivity|].
  unfold IsClean. rewrite Hmd. reflexivity.
Qed.

(** [IsClean] says yes exactly when the layer answers that the header is
    not there; then [Unlock] returns [ErrStoreNotInitialized] and leaves
    the store as it is.  A header that cannot be read, or is malformed, or
    of a bad version, does not make the store clean. *)
Theorem IsClean_exact (s : Store) (secret : list Z) :
  meta s = None ->
  (snd (IsClean s) = true <-> GetReader (layer s) c_METADATA_KEY = inr ErrNoSuchKey) /\
  (GetReader (layer s) c_METADATA_KEY = inr ErrNoSuchKey ->
   Unlock s secret = (s, mkKeys [] [], Some (Err ErrStoreNotInitialized))).
Proof.
  intros Hmeta. unfold IsClean, Unlock, getStoreMetadata. rewrite Hmeta.
  destruct (GetReader (layer s) c_METADATA_KEY) as [c|e] eqn:Hget.
  - split; [|discriminate]. split; [|discriminate].
    destruct (ParseVersionJSON (readPlain c)) as [ver [|]]; [|discriminate].
    destruct (ver =? 1); [|discriminate].
    destruct (unmarshalMetadata (readPlain c)) as [md [f|]]; discriminate.
  - cbn [snd]. unfold IsNotExist. split.
    + split.
      * intros Hc. apply bool_decide_eq_true in Hc. congruence.
      * intros Heq. apply bool_decide_eq_true. congruence.
    + intros Heq. injection Heq as ->. reflexivity.
Qed.

End MetadataUse.

(** ** Writing a manifest and reading it *)

Section ManifestCodec.
Import Go Json File Backup.
Context {FP : FilePath} {FS : FileSystem} {CD : Codecs}.

(** The values of the types of the fields: an [int] or [int64], a
    [uint32], a time that package time reads as it wrote it, a checksum of
    [sha1.Size] bytes that package base64 reads as it wrote it. *)
Definition isInt (z : Z) : Prop := minInt <= z <= maxInt.

Definition timeOK (t : Z) : Prop := parseRFC3339 (formatRFC3339 t) = Some t.

Definition partOK (p : ManifestEntryPart) : Prop :=
  isInt (fst (Range p)) /\ isInt (snd (Range p)).

Record wellTyped (e : ManifestEntry) : Prop := {
  wt_size : isInt (Size (EFile e));
  wt_mode : 0 <= Mode (EFile e) <= maxUint32;
  wt_time : timeOK (ModTime (EFile e));
  wt_uid : isInt (UID (EFile e));
  wt_gid : isInt (GID (EFile e));
  wt_sha1 : length (SHA1 (EFile e)) = 20%nat;
  wt_base64 : base64Decode (base64Encode (SHA1 (EFile e))) = Some (SHA1 (EFile e));
  wt_parts : Forall partOK (Parts e)
}.

(** An entry as it is read back: the size of a directory is not written. *)
Definition readBack (e : ManifestEntry) : ManifestEntry :=
  let f := EFile e in
  mkEntry (mkFile (Root f) (Name f) (if IsDir f then 0 else Size f) (Mode f) (ModTime f)
                  (UID f) (GID f) (SHA1 f))
          (Set_ e) (Parts e).

Ltac fold_keys :=
  repeat match goal with
         | |- context [keyMatches ?a ?b] =>
             let v := eval vm_compute in (keyMatches a b) in
             change (keyMatches a b) with v
         end.

Lemma unmarshalInt_range (lo hi z x : Z) :
  lo <= z <= hi -> unmarshalInt lo hi (JInt z) x = (z, None).
Proof.
  intros Hz. unfold unmarshalInt.
  destruct (Z.leb_spec lo z); [|lia]. destruct (Z.leb_spec z hi); [|lia]. reflexivity.
Qed.

Lemma unmarshalPart_marshal (p : ManifestEntryPart) :
  partOK p -> unmarshalPart (marshalPart p) = (p, None).
Proof.
  intros [Hlo Hhi]. destruct p as [key [lo hi]]. cbn [Range Key fst snd] in *.
  unfold marshalPart, unmarshalPart. cbn [Range Key].
  case_bool_decide as Hr.
  - cbn [fold_left fst snd]. fold_keys. cbn iota. cbn [unmarshalString Key Range Store.firstErr].
    rewrite Hr. reflexivity.
  - cbn [fold_left fst snd app]. fold_keys. cbn iota.
    cbn [unmarshalString Key Range Store.firstErr unmarshalRange fst snd].
    rewrite (unmarshalInt_range _ _ lo _ Hlo), (unmarshalInt_range _ _ hi _ Hhi). reflexivity.
Qed.

Lemma unmarshalParts_marshal (ps x : list ManifestEntryPart) :
  Forall partOK ps -> unmarshalParts (JArr (map marshalPart ps)) x = (ps, None).
Proof.
  intros Hps. unfold unmarshalParts.
  assert (Hgen : forall acc,
            fold_left (fun acc item =>
                         let '(p, e) := unmarshalPart item in
                         (fst acc ++ [p], Store.firstErr (snd acc) e))
                      (map marshalPart ps) (acc, None) = (acc ++ ps, None)).
  { induction Hps as [|p ps Hp _ IH]; intros acc; cbn [map fold_left].
    - rewrite app_nil_r. reflexivity.
    - rewrite (unmarshalPart_marshal p Hp). cbn [fst snd Store.firstErr].
      rewrite IH, <- app_assoc. reflexivity. }
  apply (Hgen []).
Qed.

Lemma copySHA1_whole (b : list Z) : length b = 20%nat -> copySHA1 zeroSHA1 b = b.
Proof.
  intros Hb. unfold copySHA1. change (length zeroSHA1) with 20%nat.
  rewrite take_ge by lia. rewrite Hb. cbn [drop zeroSHA1 repeat]. apply app_nil_r.
Qed.

Ltac lookups :=
  repeat first [rewrite lookup_insert_eq
               |rewrite lookup_insert_ne by discriminate
               |rewrite lookup_empty].

Lemma UnmarshalEntry_marshal (e : ManifestEntry) :
  wellTyped e -> UnmarshalEntry (marshalEntry e) zeroEntry = Done (readBack e, None).
Proof.
  intros [Hsize Hmode Htime Huid Hgid Hsha Hb64 Hparts].
  destruct e as [f set parts]. cbn [EFile Set_ Parts] in *.
  unfold UnmarshalEntry, marshalEntry, readBack, field. cbn [EFile Set_ Parts].
  assert (Hps : forall x, (0 <? length parts)%nat = true ->
                          unmarshalParts (JArr (map marshalPart parts)) x = (parts, None)).
  { intros x _. apply unmarshalParts_marshal, Hparts. }
  assert (Hnil : (0 <? length parts)%nat = false -> parts = []).
  { destruct parts; [reflexivity|discriminate]. }
  assert (Hzero : HasChecksum f = false -> SHA1 f = zeroSHA1).
  { unfold HasChecksum. case_bool_decide; [auto|discriminate]. }
  destruct (0 <? length parts)%nat eqn:Hlen, (HasChecksum f) eqn:Hsum, (IsDir f) eqn:Hdir;
    cbn [negb app unmarshalKeymap fold_left fst snd];
    unfold deref, optional, unmarshalTime, keymap;
    repeat first [progress lookups
                 |progress cbn [mbind outcome_bind unmarshalString]
                 |rewrite (unmarshalInt_range 0 maxUint32 _ _ Hmode)
                 |rewrite Htime
                 |rewrite (unmarshalInt_range minInt maxInt (UID f) _ Huid)
                 |rewrite (unmarshalInt_range minInt maxInt (GID f) _ Hgid)
                 |rewrite (unmarshalInt_range minInt maxInt (Size f) _ Hsize)
                 |rewrite (Hps _ eq_refl)
                 |progress cbn [unmarshalBytes]
                 |rewrite Hb64];
    cbn [EFile zeroEntry zeroFile SHA1 Size anyError fold_left Store.firstErr];
    try rewrite (copySHA1_whole _ Hsha); try rewrite (Hnil eq_refl);
    try rewrite (Hzero eq_refl); reflexivity.
Qed.

Lemma entries_marshal (vs : list ManifestEntry) (acc : list (option ManifestEntry)) :
  Forall wellTyped vs ->
  fold_left unmarshalEntryItem (map marshalEntry vs) (Done (Decoded acc None))
  = Done (Decoded (acc ++ map (fun v => Some (readBack v)) vs) None).
Proof.
  intros Hvs. revert acc. induction Hvs as [|v vs Hv _ IH]; intros acc; cbn [map fold_left].
  - rewrite app_nil_r. reflexivity.
  - assert (Hstep : unmarshalEntryItem (Done (Decoded acc None)) (marshalEntry v)
                    = Done (Decoded (acc ++ [Some (readBack v)]) None)).
    { unfold unmarshalEntryItem. cbn [mbind outcome_bind].
      unfold marshalEntry at 1. rewrite (UnmarshalEntry_marshal v Hv). reflexivity. }
    rewrite Hstep, IH, <- app_assoc. reflexivity.
Qed.

Lemma marshalEntries_run (h : heap) (ps : list ptr) (vs : list ManifestEntry)
    (acc : list json) :
  Forall2 (fun p v => h !! p = Some v) ps vs ->
  fold_left (fun acc p => es ← acc; e ← load h p; Done (es ++ [marshalEntry e]))
            ps (Done acc)
  = Done (acc ++ map marshalEntry vs).
Proof.
  intros Hall. revert acc. induction Hall as [|p v ps vs Hp _ IH]; intros acc;
    cbn [fold_left map].
  - rewrite app_nil_r. reflexivity.
  - cbn [mbind outcome_bind]. unfold load at 2. rewrite Hp. cbn [mbind outcome_bind].
    rewrite IH, <- app_assoc. reflexivity.
Qed.

Lemma install_run (vs : list ManifestEntry) (h0 : heap) (ps0 : list ptr) :
  exists h' ps', fold_left installStep (Some <$> vs) (Done (h0, ps0)) = Done (h', ps').
Proof.
  revert h0 ps0. induction vs as [|v vs IH]; intros h0 ps0; [eexists _, _; reflexivity|].
  rewrite fmap_cons. cbn [fold_left]. unfold installStep at 2.
  cbn [mbind outcome_bind alloc]. apply IH.
Qed.

Lemma EPath_readBack (e : ManifestEntry) : EPath (readBack e) = EPath e.
Proof. reflexivity. Qed.

(** The entries a manifest lists, read through its pointers. *)
Lemma listed_entries (h : heap) (m : Manifest) :
  manifestOK h m ->
  exists vs, Forall2 (fun p v => h !! p = Some v) (Entries m) vs /\ NoDup (EPath <$> vs).
Proof.
  intros Hok.
  assert (Hvs : forall ps, (forall p, p ∈ ps -> p ∈ Entries m) ->
                  exists vs, Forall2 (fun p v => h !! p = Some v) ps vs).
  { induction ps as [|p ps IH]; intros Hin; [exists []; constructor|].
    destruct (ok_entries _ _ Hok p) as (e & He & _); [apply Hin; constructor|].
    destruct IH as (vs & Hvs); [intros q Hq; apply Hin; now constructor|].
    exists (e :: vs). constructor; assumption. }
  destruct (Hvs (Entries m)) as (vs & Hall); [auto|]. exists vs. split; [exact Hall|].
  apply NoDup_alt. intros i j path Hi Hj.
  apply list_lookup_fmap_Some in Hi as (e & -> & Hi).
  apply list_lookup_fmap_Some in Hj as (e' & Hpath & Hj).
  destruct (Forall2_lookup_r _ _ _ _ _ Hall Hi) as (p & Hp & Hhp).
  destruct (Forall2_lookup_r _ _ _ _ _ Hall Hj) as (q & Hq & Hhq).
  assert (p = q).
  { apply (manifestOK_unique h m p q e e' Hok); eauto using list_elem_of_lookup_2. }
  subst q. apply (NoDup_lookup _ _ _ _ (ok_nodup _ _ Hok) Hp Hq).
Qed.

Lemma view_listed (h : heap) (m : Manifest) (vs : list ManifestEntry) :
  manifestOK h m -> Forall2 (fun p v => h !! p = Some v) (Entries m) vs ->
  forall path e, view h m !! path = Some e <-> e ∈ vs /\ EPath e = path.
Proof.
  intros Hok Hall path e. rewrite lookup_view. split.
  - destruct (pathMap m !! path) as [p|] eqn:Hl; [|discriminate]. cbn. intros He.
    destruct (ok_paths _ _ Hok _ _ Hl) as (Hin & e' & He' & Hpath).
    assert (e' = e) by congruence. subst e'. split; [|exact Hpath].
    apply list_elem_of_lookup in Hin as [i Hi].
    destruct (Forall2_lookup_l _ _ _ _ _ Hall Hi) as (v & Hv & Hpv).
    assert (v = e) by congruence. subst v. eapply list_elem_of_lookup_2, Hv.
  - intros [Hin <-]. apply list_elem_of_lookup in Hin as [i Hi].
    destruct (Forall2_lookup_r _ _ _ _ _ Hall Hi) as (p & Hp & Hpe).
    destruct (ok_entries _ _ Hok p) as (e' & He' & Hl); [eapply list_elem_of_lookup_2, Hp|].
    assert (e' = e) by congruence. subst e'. rewrite Hl. exact Hpe.
Qed.

Definition manifestDocument (m : Manifest) (vs : list ManifestEntry) : json :=
  JObj [("version", JInt 3); ("lastSet", JStr (LastSet m));
        ("created", JStr (formatRFC3339 (Created m)));
        ("updated", JStr (formatRFC3339 (Updated m)));
        ("entries", JArr (map marshalEntry vs))]%string.

Lemma UnmarshalManifest_document (h0 : heap) (m : Manifest) (vs : list ManifestEntry) :
  timeOK (Created m) -> timeOK (Updated m) -> Forall wellTyped vs ->
  ReadManifestData h0 (Some (manifestDocument m vs))
  = '(h', ps) ← installEntries h0 (Some <$> (readBack <$> vs));
    pm ← buildPathMap h' ps;
    Done (h', mkManifest 3 (LastSet m) (Created m) (Updated m) ps pm, None).
Proof.
  intros Hc Hu Hvs. unfold ReadManifestData.
  assert (Hver : ParseVersionJSON (Some (manifestDocument m vs)) = (3, true)).
  { unfold ParseVersionJSON, manifestDocument. cbn [fold_left fst snd]. fold_keys. cbn iota.
    rewrite unmarshalInt_range by (unfold minInt, maxInt; lia). reflexivity. }
  rewrite Hver. cbn [Z.eqb orb Pos.eqb]. unfold UnmarshalManifest, manifestDocument.
  cbn [fold_left].
  unfold unmarshalField at 5. cbn [mbind outcome_bind]. fold_keys. cbn iota.
  rewrite unmarshalInt_range by (unfold minInt, maxInt; lia).
  cbn [fVersion fLastSet fCreated fUpdated fEntries zeroFields Store.firstErr].
  unfold unmarshalField at 4. cbn [mbind outcome_bind]. fold_keys. cbn iota.
  cbn [unmarshalString fVersion fLastSet fCreated fUpdated fEntries Store.firstErr].
  unfold unmarshalField at 3. cbn [mbind outcome_bind]. fold_keys. cbn iota.
  unfold unmarshalTime at 1. rewrite Hc.
  cbn [fVersion fLastSet fCreated fUpdated fEntries Store.firstErr].
  unfold unmarshalField at 2. cbn [mbind outcome_bind]. fold_keys. cbn iota.
  unfold unmarshalTime at 1. rewrite Hu.
  cbn [fVersion fLastSet fCreated fUpdated fEntries Store.firstErr].
  unfold unmarshalField. cbn [mbind outcome_bind]. fold_keys. cbn iota.
  rewrite (entries_marshal vs [] Hvs). cbn [mbind outcome_bind app].
  cbn [fVersion fLastSet fCreated fUpdated fEntries].
  rewrite <- list_fmap_compose. reflexivity.
Qed.

(** A manifest written by [JSON] is read by [ReadManifestData] as it was:
    when the values of its fields are of their types and no two entries
    share a path, the manifest read has the version 3, the set and the
    times of the manifest written, keeps the invariant, and holds under
    every path the entry written, but for the size of a directory, which
    is not written and reads as zero.  Nothing panics, and the objects of
    the heap it is read into stay as they are. *)
Theorem manifest_JSON_roundtrip (h h0 : heap) (m : Manifest) :
  manifestOK h m ->
  (forall p e, p ∈ Entries m -> h !! p = Some e -> wellTyped e) ->
  timeOK (Created m) -> timeOK (Updated m) ->
  exists doc h' m',
    marshalManifest h m = Done doc /\
    ReadManifestData h0 (Some doc) = Done (h', m', None) /\
    Version m' = 3 /\ LastSet m' = LastSet m /\
    Created m' = Created m /\ Updated m' = Updated m /\
    manifestOK h' m' /\
    view h' m' = readBack <$> view h m /\
    (forall p, is_Some (h0 !! p) -> h' !! p = h0 !! p).
Proof.
  intros Hok Htyped Hc Hu.
  destruct (listed_entries h m Hok) as (vs & Hall & Hnd).
  assert (Hvs : Forall wellTyped vs).
  { apply Forall_forall. intros v Hv. apply list_elem_of_lookup in Hv as [i Hi].
    destruct (Forall2_lookup_r _ _ _ _ _ Hall Hi) as (p & Hp & Hpv).
    apply (Htyped p v); [eapply list_elem_of_lookup_2, Hp|exact Hpv]. }
  exists (manifestDocument m vs).
  assert (Hdoc : marshalManifest h m = Done (manifestDocument m vs)).
  { unfold marshalManifest. rewrite (marshalEntries_run h (Entries m) vs [] Hall).
    reflexivity. }
  rewrite (UnmarshalManifest_document h0 m vs Hc Hu Hvs), installEntries_fold.
  destruct (install_run (readBack <$> vs) h0 []) as (h' & ps' & Hinst).
  destruct (install_inv _ h0 [] h' ps' Hinst (NoDup_nil_2))
    as (ps & vs' & Hps & Hvs' & Hndp & Hall' & Hold).
  { intros p Hp. inversion Hp. }
  cbn [app] in Hps. subst ps'. apply (inj (fmap Some)) in Hvs'. subst vs'.
  assert (Hnd' : NoDup (EPath <$> (readBack <$> vs))).
  { rewrite <- list_fmap_compose. exact Hnd. }
  destruct (buildPathMap_ok h' ps _ Hall' Hndp Hnd') as (pm & Hpm & Hok').
  rewrite Hinst. cbn [mbind outcome_bind]. rewrite Hpm. cbn [mbind outcome_bind].
  set (m' := mkManifest 3 (LastSet m) (Created m) (Updated m) ps pm).
  specialize (Hok' m' eq_refl eq_refl).
  exists h', m'. repeat (split; [first [reflexivity | assumption]|]).
  split; [|exact Hold].
  apply map_eq. intros path. apply option_eq. intros e'.
  rewrite (view_listed h' m' _ Hok' Hall' path e'), lookup_fmap, fmap_Some.
  split.
  - intros [Hin Hpath]. apply list_elem_of_fmap in Hin as (e & -> & Hin).
    exists e. split; [|reflexivity]. apply (view_listed h m vs Hok Hall). auto.
  - intros (e & He & ->). apply (view_listed h m vs Hok Hall) in He as [Hin Hpath].
    split; [apply list_elem_of_fmap; eauto|exact Hpath].
Qed.

(** *** Documents of other versions *)

Definition versionStep (acc : Z * option error) (kv : string * json) : Z * option error :=
  if keyMatches "version" (fst kv)
  then let '(v, e) := unmarshalInt minInt maxInt (snd kv) (fst acc) in
       (v, if snd acc is Some e0 then Some e0 else e)
  else acc.

Lemma versionStep_skip (fields : list (string * json)) (acc : Z * option error) :
  Forall (fun kv => keyMatches "version" (fst kv) = false) fields ->
  fold_left versionStep fields acc = acc.
Proof.
  intros Hno. revert acc. induction Hno as [|kv fields Hkv _ IH]; intros acc; [reflexivity|].
  cbn [fold_left]. unfold versionStep at 2. rewrite Hkv. apply IH.
Qed.

Lemma ParseVersionJSON_unique (before after : list (string * json)) (key : string) (v : Z) :
  Forall (fun kv => keyMatches "version" (fst kv) = false) before ->
  keyMatches "version" key = true ->
  Forall (fun kv => keyMatches "version" (fst kv) = false) after ->
  minInt <= v <= maxInt ->
  ParseVersionJSON (Some (JObj (before ++ (key, JInt v) :: after))) = (v, true).
Proof.
  intros Hb Hkey Ha Hv. unfold ParseVersionJSON. fold versionStep.
  rewrite fold_left_app, (versionStep_skip before _ Hb). cbn [fold_left].
  unfold versionStep at 2. cbn [fst snd]. rewrite Hkey, (unmarshalInt_range _ _ _ _ Hv).
  rewrite (versionStep_skip after _ Ha). reflexivity.
Qed.

(** [ReadManifestData] refuses with [ErrBadVersion], and without reading
    any further, a document whose version is an integer other than 1, 2
    and 3, and also a document that has no version at all: the object
    without the key (whatever else it holds) and the document [null];
    bytes that are no JSON give [ErrMalformedConfig]. *)
Theorem ReadManifestData_other_versions (h : heap) :
  (forall before after key v,
     Forall (fun kv => keyMatches "version" (fst kv) = false) before ->
     keyMatches "version" key = true ->
     Forall (fun kv => keyMatches "version" (fst kv) = false) after ->
     minInt <= v <= maxInt -> v <> 1 -> v <> 2 -> v <> 3 ->
     ReadManifestData h (Some (JObj (before ++ (key, JInt v) :: after)))
     = Done (h, zeroManifest, Some ErrBadVersion)) /\
  (forall fields,
     Forall (fun kv => keyMatches "version" (fst kv) = false) fields ->
     ReadManifestData h (Some (JObj fields)) = Done (h, zeroManifest, Some ErrBadVersion)) /\
  ReadManifestData h (Some JNull) = Done (h, zeroManifest, Some ErrBadVersion) /\
  ReadManifestData h None = Done (h, zeroManifest, Some ErrMalformedConfig).
Proof.
  split; [|split; [|split; reflexivity]].
  - intros before after key v Hb Hkey Ha Hv H1 H2 H3. unfold ReadManifestData.
    rewrite (ParseVersionJSON_unique before after key v Hb Hkey Ha Hv).
    destruct (Z.eqb_spec v 1); [contradiction|]. destruct (Z.eqb_spec v 2); [contradiction|].
    destruct (Z.eqb_spec v 3); [contradiction|]. reflexivity.
  - intros fields Hno. unfold ReadManifestData.
    rewrite (ParseVersionJSON_no_version fields Hno). reflexivity.
Qed.

End ManifestCodec.

(** ** The key of the metadata is forbidden *)

Section ForbiddenKey.
Import Go Json Store.

(** What the store keeps of its header: the object of the layer and the
    copy in memory. *)
Definition header (s : Store) : option content * option storeMetadata :=
  (dataStore (layer s) !! c_METADATA_KEY, meta s).

(** What is done with a packer. *)
Inductive packerCall : Type :=
| CallPutReader (r : body + error)
| CallClose.

Definition call (sp : Store * Packer) (c : packerCall) : Store * Packer :=
  match c with
  | CallPutReader r => fst (PackerPutReader (fst sp) (snd sp) r)
  | CallClose => fst (PackerClose (fst sp) (snd sp))
  end.

Lemma isForbiddenKey_false (key : string) :
  isForbiddenKey key = false -> c_METADATA_KEY <> key.
Proof. unfold isForbiddenKey. intros Hk Heq. rewrite <- Heq in Hk. discriminate. Qed.

Lemma layerPut_header (l : Layer) (key : string) (r : content + error) :
  c_METADATA_KEY <> key ->
  dataStore (fst (PutReader l key r)) !! c_METADATA_KEY = dataStore l !! c_METADATA_KEY.
Proof.
  intros Hne. unfold PutReader.
  destruct (putFn l key), r; cbn; try reflexivity; apply lookup_insert_ne; congruence.
Qed.

Lemma closeWriter_header (s : Store) (p : Packer) (err : option error) :
  c_METADATA_KEY <> pkey p ->
  header (fst (closeWriter s p err)) = header s /\
  pkey (snd (closeWriter s p err)) = pkey p.
Proof.
  intros Hne. unfold closeWriter. destruct (closed p); [auto|].
  match goal with
  | |- context [PutReader ?l ?key ?r] =>
      pose proof (layerPut_header l key r Hne) as Hput;
      destruct (PutReader l key r) as [l' e]
  end.
  cbn in *. unfold header. cbn. rewrite Hput. auto.
Qed.

Lemma call_header (sp : Store * Packer) (c : packerCall) :
  c_METADATA_KEY <> pkey (snd sp) ->
  header (fst (call sp c)) = header (fst sp) /\ pkey (snd (call sp c)) = pkey (snd sp).
Proof.
  destruct sp as [s p]. cbn [fst snd]. intros Hne. destruct c as [r|]; cbn [call fst snd].
  - unfold PackerPutReader. destruct r as [b|e].
    + destruct (closed p); [auto|]. destruct (putFn (layer s) (pkey p)); cbn; auto.
      pose proof (closeWriter_header s p (Some e) Hne) as Hc.
      destruct (closeWriter s p (Some e)) as [s' p']. exact Hc.
    + pose proof (closeWriter_header s p (Some e) Hne) as Hc.
      destruct (closeWriter s p (Some e)) as [s' p']. exact Hc.
  - unfold PackerClose. pose proof (closeWriter_header s p None Hne) as Hc.
    destruct (closeWriter s p None) as [s' p']. exact Hc.
Qed.


End ForbiddenKey.

(** ** What is restored is what was backed up *)

Section Restore.
Import Go Json File Backup.
Context {FP : FilePath} {FS : FileSystem} {CD : Codecs}.
Variables (hl : heap) (local : Manifest) (incl : list string).
Hypothesis Hlocal : manifestOK hl local.

(** An entry the loop of [RestoreToPath] tags: it has no identical file
    under the root, its path is asked for, and it is no directory. *)
Definition wants (e : ManifestEntry) : bool :=
  match HasIdentical hl local (EFile e) with
  | Done identical => negb identical && included incl (EPath e) && negb (IsDir (EFile e))
  | _ => false
  end.

(** The object the loop fetches it from: [blob/<set>/<key>], for the key
    of its first part. *)
Definition targetOf (e : ManifestEntry) : option string :=
  match Parts e with
  | part :: _ => Some ("blob/" ++ Set_ e ++ "/" ++ Key part)%string
  | [] => None
  end.

Definition partless (e : ManifestEntry) : bool :=
  wants e && (if Parts e is [] then true else false).

Definition tag (targets : gmap string (list File)) (e : ManifestEntry) :
    gmap string (list File) :=
  if wants e
  then match targetOf e with
       | Some key => <[key := default [] (targets !! key) ++ [EFile e]]> targets
       | None => targets
       end
  else targets.

Lemma HasIdentical_total (f : File) : exists b, HasIdentical hl local f = Done b.
Proof.
  unfold HasIdentical. destruct (pathMap local !! Path f) as [p|] eqn:Hl; [|eauto].
  destruct (ok_paths _ _ Hlocal _ _ Hl) as (_ & e & He & _). unfold load. rewrite He.
  cbn [mbind outcome_bind].
  destruct (negb (IsDir (EFile e)) && negb (Size (EFile e) =? Size f)); [eauto|].
  destruct (negb (Mode (EFile e) =? Mode f)); [eauto|].
  destruct (negb (ModTime (EFile e) =? ModTime f)); eauto.
Qed.

Lemma tagForRestore_step (h : heap) (targets : gmap string (list File)) (p : ptr)
    (e : ManifestEntry) :
  h !! p = Some e ->
  tagForRestore hl local incl h (Done targets) p
  = if partless e then Panic "index out of range" else Done (tag targets e).
Proof.
  intros He. unfold tagForRestore, partless, tag, wants, targetOf.
  cbn [mbind outcome_bind]. unfold load. rewrite He. cbn [mbind outcome_bind].
  destruct (HasIdentical_total (EFile e)) as [b ->]. cbn [mbind outcome_bind].
  destruct (negb b && included incl (EPath e)); cbn [andb]; [|reflexivity].
  destruct (IsDir (EFile e)); cbn [negb]; [reflexivity|].
  destruct (Parts e) as [|part rest]; reflexivity.
Qed.

Lemma tagForRestore_panic (h : heap) (ps : list ptr) (why : string) :
  fold_left (tagForRestore hl local incl h) ps (Panic why) = Panic why.
Proof. induction ps as [|p ps IH]; [reflexivity|exact IH]. Qed.

Lemma tagForRestore_fold (h : heap) (ps : list ptr) (vs : list ManifestEntry)
    (targets : gmap string (list File)) :
  Forall2 (fun p v => h !! p = Some v) ps vs ->
  fold_left (tagForRestore hl local incl h) ps (Done targets)
  = if existsb partless vs then Panic "index out of range"
    else Done (fold_left tag vs targets).
Proof.
  intros Hall. revert targets. induction Hall as [|p v ps vs Hp _ IH]; intros targets;
    [reflexivity|].
  cbn [fold_left existsb]. rewrite (tagForRestore_step h targets p v Hp).
  destruct (partless v); cbn [orb]; [apply tagForRestore_panic|apply IH].
Qed.

(** The files tagged for an object, in the order of the entries. *)
Definition filesFor (key : string) (vs : list ManifestEntry) : list File :=
  EFile <$> filter (fun v => wants v = true /\ targetOf v = Some key) vs.

Lemma tag_fold (vs : list ManifestEntry) (targets : gmap string (list File)) (key : string) :
  default [] (fold_left tag vs targets !! key) = default [] (targets !! key) ++ filesFor key vs.
Proof.
  revert targets. induction vs as [|v vs IH]; intros targets.
  - unfold filesFor. rewrite filter_nil, app_nil_r. reflexivity.
  - cbn [fold_left]. rewrite IH. unfold filesFor. rewrite filter_cons. unfold tag.
    destruct (wants v) eqn:Hw.
    + destruct (targetOf v) as [k|] eqn:Ht.
      * destruct (decide (k = key)) as [->|Hne].
        -- rewrite lookup_insert_eq. case_decide as Hc; [|exfalso; apply Hc; auto].
           cbn [from_option id]. rewrite fmap_cons, <- app_assoc. reflexivity.
        -- rewrite lookup_insert_ne by exact Hne.
           case_decide as Hc; [destruct Hc; congruence|reflexivity].
      * case_decide as Hc; [destruct Hc; congruence|reflexivity].
    + case_decide as Hc; [destruct Hc; congruence|reflexivity].
Qed.

Lemma tag_fold_Some (vs : list ManifestEntry) (key : string) (fs : list File) :
  fold_left tag vs ∅ !! key = Some fs -> fs = filesFor key vs.
Proof.
  intros Hfs. pose proof (tag_fold vs ∅ key) as Hd. rewrite Hfs, lookup_empty in Hd.
  exact Hd.
Qed.

(** The loop that tags for restore.  When every entry it wants has a part,
    it returns the map that holds under [blob/<set>/<key>] the files of the
    wanted entries whose first part has that key, and nothing else; when
    it wants an entry that is no directory and has no part, it panics at
    [e.Parts[0]]. *)
Theorem restoreTargets_spec (h : heap) (m : Manifest) :
  manifestOK h m ->
  ((forall p e, p ∈ Entries m -> h !! p = Some e -> wants e = true -> Parts e <> []) ->
   exists targets,
     restoreTargets hl local incl h m = Done targets /\
     forall key f,
       (exists fs, targets !! key = Some fs /\ f ∈ fs) <->
       (exists p e, p ∈ Entries m /\ h !! p = Some e /\ EFile e = f /\
                    wants e = true /\ targetOf e = Some key)) /\
  ((exists p e, p ∈ Entries m /\ h !! p = Some e /\ wants e = true /\ Parts e = []) ->
   restoreTargets hl local incl h m = Panic "index out of range").
Proof.
  intros Hok. destruct (listed_entries h m Hok) as (vs & Hall & _).
  unfold restoreTargets. rewrite (tagForRestore_fold h (Entries m) vs ∅ Hall). split.
  - intros Hparts.
    assert (Hnone : existsb partless vs = false).
    { apply not_true_is_false. intros Hex. apply existsb_exists in Hex as (v & Hv & Hbad).
      apply list_elem_of_In, list_elem_of_lookup in Hv as [i Hi].
      destruct (Forall2_lookup_r _ _ _ _ _ Hall Hi) as (p & Hp & Hpv).
      unfold partless in Hbad. apply andb_prop in Hbad as [Hw Hnil].
      apply (Hparts p v); [eapply list_elem_of_lookup_2, Hp|exact Hpv|exact Hw|].
      destruct (Parts v); [reflexivity|discriminate]. }
    rewrite Hnone. eexists. split; [reflexivity|]. intros key f. split.
    + intros (fs & Hfs & Hf). apply tag_fold_Some in Hfs. subst fs.
      unfold filesFor in Hf. apply list_elem_of_fmap in Hf as (v & -> & Hv).
      apply list_elem_of_filter in Hv as [[Hw Ht] Hv].
      apply list_elem_of_lookup in Hv as [i Hi].
      destruct (Forall2_lookup_r _ _ _ _ _ Hall Hi) as (p & Hp & Hpv).
      exists p, v. split; [eapply list_elem_of_lookup_2, Hp|auto].
    + intros (p & e & Hp & He & <- & Hw & Ht).
      apply list_elem_of_lookup in Hp as [i Hi].
      destruct (Forall2_lookup_l _ _ _ _ _ Hall Hi) as (v & Hv & Hpv).
      assert (v = e) by congruence. subst v.
      assert (Hin : EFile e ∈ filesFor key vs).
      { unfold filesFor. apply list_elem_of_fmap. exists e. split; [reflexivity|].
        apply list_elem_of_filter. split; [auto|]. eapply list_elem_of_lookup_2, Hv. }
      pose proof (tag_fold vs ∅ key) as Hd. rewrite lookup_empty in Hd. cbn [from_option id app] in Hd.
      destruct (fold_left tag vs ∅ !! key) as [fs|] eqn:Hfs.
      * exists fs. split; [reflexivity|]. cbn [from_option id] in Hd. rewrite Hd. exact Hin.
      * cbn [from_option id] in Hd. rewrite <- Hd in Hin. inversion Hin.
  - intros (p & e & Hp & He & Hw & Hnil).
    assert (Hex : existsb partless vs = true).
    { apply existsb_exists. exists e. split.
      - apply list_elem_of_lookup in Hp as [i Hi].
        destruct (Forall2_lookup_l _ _ _ _ _ Hall Hi) as (v & Hv & Hpv).
        assert (v = e) by congruence. subst v.
        apply list_elem_of_In. eapply list_elem_of_lookup_2, Hv.
      - unfold partless. rewrite Hw, Hnil. reflexivity. }
    rewrite Hex. reflexivity.
Qed.


End Restore.

(** ** Keys sort as the numbers they write *)

Section KeyOrder.
Import Go Json Backup.

(** The digit a character of [ldigits] stands for, and its code. *)
Lemma hexValue1_inv (c : ascii) (d : Z) :
  hexValue1 c = Some d -> 0 <= d < 16 /\ c = hexDigit d.
Proof.
  unfold hexValue1, ldigits.
  repeat match goal with
         | |- context [Ascii.eqb c ?x] =>
             destruct (Ascii.eqb_spec c x) as [->|?];
             [intros Hd; injection Hd as <-; split; [lia|reflexivity]|]
         end.
  discriminate.
Qed.

Definition digitCode (d : Z) : N := if d <? 10 then Z.to_N (48 + d) else Z.to_N (87 + d).

Lemma hexDigit_code (d : Z) : 0 <= d < 16 -> N_of_ascii (hexDigit d) = digitCode d.
Proof.
  intros Hd.
  assert (Hcases : d = 0 \/ d = 1 \/ d = 2 \/ d = 3 \/ d = 4 \/ d = 5 \/ d = 6 \/ d = 7 \/
                   d = 8 \/ d = 9 \/ d = 10 \/ d = 11 \/ d = 12 \/ d = 13 \/ d = 14 \/ d = 15)
    by lia.
  repeat (destruct Hcases as [->|Hcases]; [reflexivity|]). subst d. reflexivity.
Qed.

Lemma hexDigit_compare (d1 d2 : Z) :
  0 <= d1 < 16 -> 0 <= d2 < 16 ->
  Ascii.compare (hexDigit d1) (hexDigit d2) = (d1 ?= d2).
Proof.
  intros H1 H2. unfold Ascii.compare. rewrite !hexDigit_code by assumption.
  unfold digitCode. destruct (Z.ltb_spec d1 10), (Z.ltb_spec d2 10);
    destruct (Z.compare_spec d1 d2); try lia;
    first [apply N.compare_eq_iff | apply N.compare_lt_iff | apply N.compare_gt_iff]; lia.
Qed.

(** What a numeral of [n] digits after [acc] reads as. *)
Lemma hexValueFrom_range (cs : list ascii) (acc v : Z) :
  hexValueFrom acc cs = Some v ->
  acc * 16 ^ Z.of_nat (length cs) <= v < (acc + 1) * 16 ^ Z.of_nat (length cs).
Proof.
  revert acc. induction cs as [|c cs IH]; intros acc Hv.
  - injection Hv as <-. cbn. lia.
  - cbn [hexValueFrom] in Hv. destruct (hexValue1 c) as [d|] eqn:Hc; [|discriminate].
    destruct (hexValue1_inv c d Hc) as [Hd _]. specialize (IH _ Hv).
    cbn [length]. rewrite Nat2Z.inj_succ, Z.pow_succ_r by lia.
    assert (0 < 16 ^ Z.of_nat (length cs)) by (apply Z.pow_pos_nonneg; lia).
    nia.
Qed.

Lemma numerals_compare (l1 l2 : list ascii) (acc v1 v2 : Z) :
  length l1 = length l2 ->
  hexValueFrom acc l1 = Some v1 -> hexValueFrom acc l2 = Some v2 -> v1 < v2 ->
  String.compare (string_of_list_ascii l1) (string_of_list_ascii l2) = Lt.
Proof.
  revert l2 acc. induction l1 as [|c1 l1 IH]; intros [|c2 l2] acc Hlen H1 H2 Hlt;
    try discriminate.
  - cbn in H1, H2. injection H1 as <-. injection H2 as <-. lia.
  - cbn [hexValueFrom] in H1, H2.
    destruct (hexValue1 c1) as [d1|] eqn:Hc1; [|discriminate].
    destruct (hexValue1 c2) as [d2|] eqn:Hc2; [|discriminate].
    destruct (hexValue1_inv c1 d1 Hc1) as [Hd1 ->].
    destruct (hexValue1_inv c2 d2 Hc2) as [Hd2 ->].
    cbn [string_of_list_ascii String.compare]. rewrite hexDigit_compare by assumption.
    injection Hlen as Hlen.
    pose proof (hexValueFrom_range _ _ _ H1) as R1.
    pose proof (hexValueFrom_range _ _ _ H2) as R2. rewrite Hlen in R1.
    assert (0 < 16 ^ Z.of_nat (length l2)) by (apply Z.pow_pos_nonneg; lia).
    destruct (Z.compare_spec d1 d2) as [->|Hd|Hd].
    + apply (IH l2 (16 * acc + d2)); assumption.
    + reflexivity.
    + exfalso. nia.
Qed.

Lemma zeroPad_length (w i : Z) :
  0 <= i -> hexLog i <= w -> length (zeroPad w (hexDigits i)) = Z.to_nat w.
Proof.
  intros Hi Hw. unfold zeroPad. rewrite length_app, repeat_length.
  pose proof (hexDigits_length i Hi). lia.
Qed.

Lemma Sprintf_ltb (w i j : Z) :
  0 <= i < j -> hexLog j <= w ->
  String.ltb (Sprintf (HexFormat w) i) (Sprintf (HexFormat w) j) = true.
Proof.
  intros Hij Hw. unfold String.ltb, Sprintf. cbn [fmtWidth].
  pose proof (hexLog_mono i j ltac:(lia)) as Hmono.
  rewrite (numerals_compare _ _ 0 i j); [reflexivity| | | |lia].
  - rewrite !zeroPad_length by lia. reflexivity.
  - unfold zeroPad. rewrite hexValueFrom_zeros. apply hexValueFrom_hexDigits. lia.
  - unfold zeroPad. rewrite hexValueFrom_zeros. apply hexValueFrom_hexDigits. lia.
Qed.


End KeyOrder.

(** ** The paths of a scan *)

Section CleanPaths.
Import Go File Main.
Context {PC : PathCleaner}.

Definition ascending (l : list string) : Prop :=
  forall i j a b, l !! i = Some a -> l !! j = Some b -> (i < j)%nat -> String.ltb a b = true.

Lemma ltb_trans (a b c : string) :
  String.ltb a b = true -> String.ltb b c = true -> String.ltb a c = true.
Proof.
  unfold String.ltb. intros Hab Hbc.
  destruct (String.compare a b) eqn:Eab; try discriminate.
  destruct (String.compare b c) eqn:Ebc; try discriminate.
  apply String_as_OT.cmp_lt in Eab, Ebc.
  pose proof (String_as_OT.lt_trans _ _ _ Eab Ebc) as Hac.
  apply String_as_OT.cmp_lt in Hac. unfold String_as_OT.cmp in Hac. rewrite Hac. reflexivity.
Qed.

Lemma ltb_total (a b : string) :
  a <> b -> String.ltb a b = false -> String.ltb b a = true.
Proof.
  unfold String.ltb. intros Hne Hab. rewrite (String.compare_antisym b a).
  destruct (String.compare a b) eqn:Eab; try discriminate; [|reflexivity].
  apply String.compare_eq_iff in Eab. contradiction.
Qed.

Lemma ltb_irrefl (a : string) : String.ltb a a = false.
Proof.
  unfold String.ltb. destruct (String.compare a a) eqn:E; try reflexivity.
  pose proof (String.compare_antisym a a) as H. rewrite E in H. discriminate.
Qed.

Lemma ascending_cons (x : string) (l : list string) :
  ascending (x :: l) <-> (forall y, y ∈ l -> String.ltb x y = true) /\ ascending l.
Proof.
  split.
  - intros Hasc. split.
    + intros y Hy. apply list_elem_of_lookup in Hy as [j Hj].
      apply (Hasc 0%nat (S j) x y); [reflexivity|exact Hj|lia].
    + intros i j a b Hi Hj Hij. apply (Hasc (S i) (S j)); [exact Hi|exact Hj|lia].
  - intros [Hx Hl] i j a b Hi Hj Hij. destruct j as [|j]; [lia|]. cbn in Hj.
    destruct i as [|i]; cbn in Hi.
    + injection Hi as <-. apply Hx. eapply list_elem_of_lookup_2, Hj.
    + apply (Hl i j); [exact Hi|exact Hj|lia].
Qed.

Lemma insertBy_ascending (x : string) (l : list string) :
  x ∉ l -> ascending l -> ascending (insertBy String.ltb x l).
Proof.
  induction l as [|y l IH]; intros Hx Hasc.
  - intros i j a b Hi Hj Hij. destruct i, j; cbn in *; try lia; discriminate.
  - cbn [insertBy]. apply ascending_cons in Hasc as [Hy Hl].
    destruct (String.ltb x y) eqn:Hxy.
    + apply ascending_cons. split.
      * intros z Hz. apply elem_of_cons in Hz as [->|Hz]; [exact Hxy|].
        apply (ltb_trans x y z); auto.
      * apply ascending_cons. auto.
    + assert (Hyx : String.ltb y x = true).
      { apply ltb_total; [|exact Hxy]. intros ->. apply Hx. constructor. }
      apply ascending_cons. split.
      * intros z Hz. rewrite (insertBy_perm String.ltb x l) in Hz.
        apply elem_of_cons in Hz as [->|Hz]; auto.
      * apply IH; [|exact Hl]. intros Hin. apply Hx. now constructor.
Qed.

Lemma sortBy_ascending (l : list string) : NoDup l -> ascending (sortBy String.ltb l).
Proof.
  unfold sortBy.
  assert (Hgen : forall acc, NoDup (acc ++ l) -> ascending acc ->
                   ascending (fold_left (fun acc x => insertBy String.ltb x acc) l acc)).
  { induction l as [|x l IH]; intros acc Hnd Hacc; [exact Hacc|]. cbn [fold_left].
    apply NoDup_app in Hnd as (Hnd1 & Hdisj & Hnd2). apply NoDup_cons in Hnd2 as [Hx Hnd2].
    apply IH.
    - rewrite (insertBy_perm String.ltb x acc). cbn [app]. apply NoDup_cons. split.
      + intros Hin. apply elem_of_app in Hin as [Hin|Hin]; [|contradiction].
        apply (Hdisj x Hin). constructor.
      + apply NoDup_app. split; [exact Hnd1|]. split; [|exact Hnd2].
        intros y Hy Hy'. apply (Hdisj y Hy). now constructor.
    - apply insertBy_ascending; [|exact Hacc]. intros Hin. apply (Hdisj x Hin). constructor. }
  intros Hnd. apply Hgen; [exact Hnd|].
  intros i j a b Hi. discriminate.
Qed.

(** An ascending list is determined by its elements. *)
Lemma ascending_unique (l1 l2 : list string) :
  ascending l1 -> ascending l2 -> (forall x, x ∈ l1 <-> x ∈ l2) -> l1 = l2.
Proof.
  revert l2. induction l1 as [|x l1 IH]; intros l2 H1 H2 Hsame.
  - destruct l2 as [|y l2]; [reflexivity|]. exfalso.
    assert (Hy : y ∈ []) by (apply Hsame; constructor). inversion Hy.
  - destruct l2 as [|y l2].
    { exfalso. assert (Hx : x ∈ []) by (apply Hsame; constructor). inversion Hx. }
    apply ascending_cons in H1 as [Hx H1]. apply ascending_cons in H2 as [Hy H2].
    assert (x = y).
    { assert (Hxin : x ∈ y :: l2) by (apply Hsame; constructor).
      assert (Hyin : y ∈ x :: l1) by (apply Hsame; constructor).
      apply elem_of_cons in Hxin as [?|Hxin]; [assumption|].
      apply elem_of_cons in Hyin as [?|Hyin]; [congruence|].
      pose proof (ltb_trans x y x (Hx y Hyin) (Hy x Hxin)) as Hxx.
      rewrite ltb_irrefl in Hxx. discriminate. }
    subst y. f_equal. apply IH; [exact H1|exact H2|].
    intros z. split; intros Hz.
    + assert (Hz' : z ∈ x :: l2) by (apply Hsame; now constructor).
      apply elem_of_cons in Hz' as [->|?]; [|assumption].
      pose proof (ltb_irrefl x) as Hxx. specialize (Hx x Hz). congruence.
    + assert (Hz' : z ∈ x :: l1) by (apply Hsame; now constructor).
      apply elem_of_cons in Hz' as [->|?]; [|assumption].
      pose proof (ltb_irrefl x) as Hxx. specialize (Hy x Hz). congruence.
Qed.

Lemma uniq_keys (paths : list string) (acc : gmap string bool) (key : string) :
  is_Some (fold_left (fun (uniq : gmap string bool) p => <[CleanPath p := true]> uniq)
                     paths acc !! key)
  <-> is_Some (acc !! key) \/ exists p, p ∈ paths /\ key = CleanPath p.
Proof.
  revert acc. induction paths as [|p paths IH]; intros acc; cbn [fold_left].
  - split; [auto|]. intros [?|(p & Hp & _)]; [assumption|inversion Hp].
  - rewrite IH. split.
    + intros [Hl|(q & Hq & ->)].
      * destruct (decide (CleanPath p = key)) as [<-|Hne].
        -- right. exists p. split; [constructor|reflexivity].
        -- rewrite lookup_insert_ne in Hl by exact Hne. auto.
      * right. exists q. split; [now constructor|reflexivity].
    + intros [Hl|(q & Hq & ->)].
      * left. destruct (decide (CleanPath p = key)) as [<-|Hne].
        -- rewrite lookup_insert_eq. eauto.
        -- rewrite lookup_insert_ne by exact Hne. exact Hl.
      * apply elem_of_cons in Hq as [->|Hq].
        -- left. rewrite lookup_insert_eq. eauto.
        -- right. eauto.
Qed.

(** [cleanPaths] gives the cleaned paths, each once, in ascending order;
    so its result is the same for the same set of cleaned paths, whatever
    the order and the repetitions of the paths given, and whatever the
    order in which the map yields its keys. *)
Theorem cleanPaths_spec (paths : list string) :
  (forall p, p ∈ cleanPaths paths <-> exists q, q ∈ paths /\ p = CleanPath q) /\
  NoDup (cleanPaths paths) /\
  ascending (cleanPaths paths) /\
  (forall others, (forall p, p ∈ (CleanPath <$> others) <-> p ∈ (CleanPath <$> paths)) ->
     cleanPaths others = cleanPaths paths) /\
  (forall keys, Permutation keys (cleanPaths paths) -> sortBy String.ltb keys = cleanPaths paths).
Proof.
  assert (Hmem : forall l p, p ∈ cleanPaths l <-> exists q, q ∈ l /\ p = CleanPath q).
  { intros l p. unfold cleanPaths. rewrite (sortBy_perm String.ltb).
    rewrite list_elem_of_fmap. split.
    - intros ([k b] & -> & Hkb). apply elem_of_map_to_list in Hkb.
      assert (Hs : is_Some (fold_left (fun (uniq : gmap string bool) p =>
                                         <[CleanPath p := true]> uniq) l ∅ !! k)) by eauto.
      apply uniq_keys in Hs as [Hs|Hs]; [|exact Hs].
      rewrite lookup_empty in Hs. destruct Hs; discriminate.
    - intros Hq.
      assert (Hs : is_Some (fold_left (fun (uniq : gmap string bool) p =>
                                         <[CleanPath p := true]> uniq) l ∅ !! p))
        by (apply uniq_keys; auto).
      destruct Hs as [b Hb]. exists (p, b). split; [reflexivity|].
      apply elem_of_map_to_list. exact Hb. }
  assert (Hnd : forall l, NoDup (cleanPaths l)).
  { intros l. unfold cleanPaths. rewrite (sortBy_perm String.ltb).
    apply NoDup_fst_map_to_list. }
  assert (Hasc : forall l, ascending (cleanPaths l)).
  { intros l. unfold cleanPaths. apply sortBy_ascending, NoDup_fst_map_to_list. }
  split; [apply Hmem|]. split; [apply Hnd|]. split; [apply Hasc|]. split.
  - intros others Hsame. apply ascending_unique; [apply Hasc|apply Hasc|].
    intros p. rewrite !Hmem. specialize (Hsame p). rewrite !list_elem_of_fmap in Hsame.
    split; intros (q & Hq & ->).
    + destruct (proj1 Hsame (ex_intro _ q (conj eq_refl Hq))) as (q' & Heq & Hq'). eauto.
    + destruct (proj2 Hsame (ex_intro _ q (conj eq_refl Hq))) as (q' & Heq & Hq'). eauto.
  - intros keys Hperm. apply ascending_unique.
    + apply sortBy_ascending. rewrite Hperm. apply Hnd.
    + apply Hasc.
    + intros p. rewrite (sortBy_perm String.ltb), Hperm. reflexivity.
Qed.

End CleanPaths.

(** Instances for running the definitions: paths joined by a slash, a file
    system whose files all hash to one value and that never fails, and
    codecs that read every time as the instant 0. *)
Definition slashJoin : File.FilePath := fun root name => (root ++ "/" ++ name)%string.

Definition calmFS : File.FileSystem :=
  {| File.checksumFile := fun _ => repeat 1 20;
     File.checksumSymlink := fun _ => repeat 2 20;
     File.packError := fun _ => None;
     File.writeError := fun _ => None |}.

Definition testCodecs : Json.Codecs :=
  {| Json.base64Decode := fun _ => Some [];
     Json.base64Encode := fun _ => EmptyString;
     Json.parseRFC3339 := fun _ => Some 0;
     Json.formatRFC3339 := fun _ => EmptyString |}.

Definition emptyManifest : Backup.Manifest :=
  Backup.mkManifest 0 EmptyString 0 0 [] ∅.

Lemma manifest_invariant_witness :
  exists h' m' found,
    Backup.Remove (H := slashJoin) ∅ emptyManifest (File.mkFile "/" "a" 1 420 0 0 0 File.zeroSHA1)
    = Go.Done (h', m', found) /\
    manifestOK (FP := slashJoin) h' m'.
Proof.
  apply (manifest_invariant (FP := slashJoin) (FS := calmFS) (CD := testCodecs) ∅ emptyManifest).
  apply manifestOK_empty; reflexivity.
Defined.

(** A version-3 manifest whose two entries have the same root and name. *)
Definition twiceEntry (size : Z) : Json.json :=
  Json.JObj [("root", Json.JStr "/home"); ("name", Json.JStr "a"); ("mode", Json.JInt 420);
             ("mtime", Json.JStr "2015-03-04T05:06:07Z"); ("uid", Json.JInt 0);
             ("gid", Json.JInt 0); ("set", Json.JStr "14"); ("size", Json.JInt size)]%string.

Definition twiceDoc : Json.json :=
  Json.JObj [("version", Json.JInt 3); ("lastSet", Json.JStr "14");
             ("entries", Json.JArr [twiceEntry 1; twiceEntry 2])]%string.

(** C5, as stated, fails at unmarshalling: the manifest read from
    [twiceDoc] lists two entries of one path, and [pathMap] holds the second
    for it, so the first listed entry is not the object [pathMap] gives for
    its path. *)
Lemma unmarshal_breaks_invariant :
  exists h' m',
    Backup.ReadManifestData (H := slashJoin) (H1 := testCodecs) ∅ (Some twiceDoc)
    = Go.Done (h', m', None) /\
    Backup.Entries m' = [0%nat; 1%nat] /\
    entryPaths (FP := slashJoin) h' m' = [Some "/home/a"; Some "/home/a"]%string /\
    Backup.pathMap m' !! "/home/a"%string = Some 1%nat /\
    ~ manifestOK (FP := slashJoin) h' m'.
Proof.
  eexists _, _. split; [vm_compute; reflexivity|].
  split; [reflexivity|]. split; [reflexivity|]. split; [reflexivity|].
  intros [_ Hen _]. destruct (Hen 0%nat) as (e & He & Hm); [constructor|].
  vm_compute in He. injection He as <-. vm_compute in Hm. discriminate.
Qed.

(** A manifest that holds the file [/home/a] with the checksum of an
    earlier content, and the same file as a scan finds it now: the same size
    and time, no checksum yet, and a content that hashes to something else. *)
Definition staleFile : File.File :=
  File.mkFile "/home" "a" 5 420 100 0 0 (repeat 9 20).

Definition scannedFile : File.File :=
  File.mkFile "/home" "a" 5 420 100 0 0 File.zeroSHA1.

Definition staleManifest : gmap nat Backup.ManifestEntry * Backup.Manifest :=
  Backup.NewManifest (H := slashJoin) (H0 := calmFS) ∅ [staleFile] 1425445567000000000.



(** A directory alone: the manifest of its backup has no object to put. *)
Definition homeDir : File.File :=
  File.mkFile "/home" "d" 0 (File.ModeDir + 493) 100 0 0 File.zeroSHA1.

Lemma backupLatest_only_dirs_witness :
  exists u,
    Backup.backupLatest (H := slashJoin) (H0 := calmFS) (H1 := testCodecs) (mockStore None)
      (fst (fst (Backup.Update (H := slashJoin) (H0 := calmFS) ∅ emptyManifest [homeDir] 7)))
      (snd (fst (Backup.Update (H := slashJoin) (H0 := calmFS) ∅ emptyManifest [homeDir] 7)))
    = Go.Done (u, None) /\
    Backup.st u = mockStore None.
Proof.
  destruct (backupLatest_only_dirs (FP := slashJoin) (FS := calmFS) (CD := testCodecs)
              (mockStore None) ∅ emptyManifest [homeDir] 7) as (u & Hrun & Hst & _).
  - apply manifestOK_empty; reflexivity.
  - apply dirsBare_empty. reflexivity.
  - apply latestAreDirs_check. vm_compute. reflexivity.
  - exists u. auto.
Defined.

(** A store whose layer breaks every upload, and the manifest of a first
    backup of one file. *)
Definition brokenStore : Store.Store :=
  Store.mkStore
    (Store.mkLayer ∅ (fun _ => None) (fun _ => Store.PutBreaks (Go.ErrIO "broken pipe")))
    "test" None (Some (Store.mkKeys [] [])).

Definition firstBackup : gmap nat Backup.ManifestEntry * Backup.Manifest :=
  fst (Backup.Update (H := slashJoin) (H0 := calmFS) ∅ emptyManifest [staleFile] 7).


(** A version-3 manifest whose entry has no [set], and a version-2 manifest
    with the same entry. *)
Definition setlessEntry : Json.json :=
  Json.JObj [("root", Json.JStr "/home"); ("name", Json.JStr "a"); ("mode", Json.JInt 420);
             ("mtime", Json.JStr "2015-03-04T05:06:07Z"); ("uid", Json.JInt 0);
             ("gid", Json.JInt 0)]%string.

Definition setlessDoc (version : Z) : Json.json :=
  Json.JObj [("version", Json.JInt version); ("key", Json.JStr "14");
             ("created", Json.JStr "2015-03-04T05:06:07Z");
             ("entries", Json.JArr [setlessEntry])]%string.

Lemma ReadManifestData_panics_witness :
  exists why,
    Backup.ReadManifestData (H := slashJoin) (H1 := testCodecs) ∅ (Some (setlessDoc 3))
    = Go.Panic why.
Proof.
  apply (ReadManifestData_panics (FP := slashJoin) (CD := testCodecs) ∅ 3 (setlessDoc 3)).
  - reflexivity.
  - apply (omission_v3 (CD := testCodecs)
             [("version", Json.JInt 3); ("key", Json.JStr "14");
              ("created", Json.JStr "2015-03-04T05:06:07Z")]%string
             [] "entries" [] [] setlessEntry
             (Backup.mkFields 3 EmptyString 0 Backup.zeroTime []) None).
    + reflexivity.
    + vm_compute. reflexivity.
    + constructor.
    + vm_compute. reflexivity.
Defined.

(** C9, as stated, fails for versions 1 and 2: an entry that omits [set] is
    read without a panic and without an error, because the decoder of those
    versions never looks [set] up. *)
Lemma v2_entry_without_set :
  omits ["set"%string] setlessEntry = true /\
  Json.ParseVersionJSON (Some (setlessDoc 2)) = (2, true) /\
  exists h m,
    Backup.ReadManifestData (H := slashJoin) (H1 := testCodecs) ∅ (Some (setlessDoc 2))
    = Go.Done (h, m, None).
Proof.
  split; [vm_compute; reflexivity|]. split; [reflexivity|].
  eexists _, _. vm_compute. reflexivity.
Qed.

(** Primitives for running the readers: a block cipher that flips bits of
    every byte, a signature of 20 bytes that sums the bytes signed, and
    buffers that offer [bytes.MinRead] bytes of room. *)
Definition flipCipher : Crypto.Primitives :=
  {| Crypto.blockEncrypt := map (Z.lxor 165);
     Crypto.blockDecrypt := map (Z.lxor 165);
     Crypto.hmacSum := fun m => repeat (fold_right Z.add 0 m mod 256) 20 |}.

Definition minRoom : Crypto.Allocator := fun _ => Crypto.c_MIN_READ.

Lemma minRoom_MinRead : forall n, Crypto.c_MIN_READ <= Crypto.room (Allocator := minRoom) n.
Proof. intros n. unfold Crypto.room, minRoom. lia. Qed.

Lemma flipCipher_length (c : list Z) :
  length c = 16%nat -> length (Crypto.blockDecrypt (Primitives := flipCipher) c) = 16%nat.
Proof. intros Hc. cbn. rewrite length_map. exact Hc. Qed.

Lemma flipCipher_block (b : list Z) :
  isBlock b -> isBlock (Crypto.blockEncrypt (Primitives := flipCipher) b).
Proof.
  intros [Hlen Hb]. cbn. split; [rewrite length_map; exact Hlen|].
  apply List.Forall_map. eapply Forall_impl; [exact Hb|].
  intros z Hz. apply lxor_byte; [unfold isByte; lia|exact Hz].
Qed.

Lemma flipCipher_inverse (b : list Z) :
  isBlock b ->
  Crypto.blockDecrypt (Primitives := flipCipher) (Crypto.blockEncrypt (Primitives := flipCipher) b)
  = b.
Proof.
  intros _. cbn. rewrite map_map. rewrite <- (map_id b) at 2. apply map_ext.
  intros z. rewrite <- Z.lxor_assoc, Z.lxor_nilpotent. apply Z.lxor_0_l.
Qed.

Lemma flipCipher_size (m : list Z) :
  length (Crypto.hmacSum (Primitives := flipCipher) m) = 20%nat.
Proof. unfold Crypto.hmacSum, flipCipher. apply repeat_length. Qed.

#[local] Existing Instance flipCipher.
#[local] Existing Instance minRoom.

(** Stripping the padding of a padded buffer gives the buffer back, with
    no error and no panic, whatever its length. *)
Theorem padding_roundtrip (x : list Z) :
  Crypto.unpadBuffer (Crypto.padBuffer x) = Go.Done (x, None).
Proof. exact (unpadBuffer_padBuffer x). Qed.

Definition hi : list Z := [104; 105].

Definition sevens : list Z := repeat 7 16.

Lemma crypto_roundtrip_witness :
  returns (fun fuel => Crypto.Decrypt (H := flipCipher) (H0 := minRoom) fuel
                         (envelope (PR := flipCipher) sevens hi))
          (hi, None).
Proof.
  refine (proj1 (proj2 (crypto_roundtrip (PR := flipCipher) (AL := minRoom)
                          minRoom_MinRead flipCipher_block flipCipher_inverse flipCipher_size
                          hi sevens _ _))).
  - repeat constructor; unfold isByte; lia.
  - split; [reflexivity|]. repeat constructor; unfold isByte; lia.
Defined.

(** The readers run: one byte at a time at every boundary, the two bytes
    come back. *)
Example roundtrip_by_bytes :
  match Crypto.EncryptReader (sevens, None) (Crypto.OneByteReader (Crypto.NewReader hi)) with
  | inl e =>
      d ← Crypto.DecryptReader 100 (Crypto.OneByteReader e);
      match d with
      | inl d => '(_, b, err) ← Crypto.ReadAll 100 (Crypto.OneByteReader d); Go.Done (b, err)
      | inr err => Go.Done ([], Some err)
      end
  | inr err => Go.Done ([], Some err)
  end = Go.Done (hi, None).
Proof. vm_compute. reflexivity. Qed.



(** The manifest of [staleManifest] loses its one file. *)
Lemma Remove_deletes_witness :
  exists h' m',
    Backup.Remove (H := slashJoin) (fst staleManifest) (snd staleManifest) staleFile
    = Go.Done (h', m', Backup.Has (H := slashJoin) (snd staleManifest) staleFile) /\
    Backup.Has (H := slashJoin) m' staleFile = false /\
    view h' m'
    = delete (File.Path (H := slashJoin) staleFile)
             (view (fst staleManifest) (snd staleManifest)) /\
    length (Backup.Entries m')
    = (length (Backup.Entries (snd staleManifest))
       - (if Backup.Has (H := slashJoin) (snd staleManifest) staleFile then 1 else 0))%nat.
Proof.
  apply (Remove_deletes (FP := slashJoin) (fst staleManifest) (snd staleManifest) staleFile).
  apply (NewManifest_ok (FP := slashJoin) (FS := calmFS)).
Defined.

(** A file and a directory recorded in an empty manifest. *)
Lemma Update_records_witness :
  Backup.LastSet
    (snd (fst (Backup.Update (H := slashJoin) (H0 := calmFS) ∅ emptyManifest
                 [staleFile; homeDir] 7)))
  = Backup.manifestKey 7.
Proof.
  refine (proj1 (proj2 (Update_records (FP := slashJoin) (FS := calmFS) ∅ emptyManifest
                          [staleFile; homeDir] 7 _ _))).
  - apply manifestOK_empty; reflexivity.
  - apply NoDup_cons. split; [|apply NoDup_singleton].
    intros Hin. apply list_elem_of_singleton in Hin. vm_compute in Hin. discriminate.
Defined.

Lemma Compare_after_Update_witness :
  Backup.Compare (H := slashJoin) (H0 := calmFS)
    (fst (fst (Backup.Update (H := slashJoin) (H0 := calmFS) ∅ emptyManifest
                 [staleFile; homeDir] 7)))
    (snd (fst (Backup.Update (H := slashJoin) (H0 := calmFS) ∅ emptyManifest
                 [staleFile; homeDir] 7)))
    [staleFile; homeDir]
  = Go.Done [].
Proof.
  refine (proj1 (Compare_after_Update (FP := slashJoin) (FS := calmFS) ∅ emptyManifest
                   [staleFile; homeDir] 7 _ _)).
  - apply manifestOK_empty; reflexivity.
  - apply NoDup_cons. split; [|apply NoDup_singleton].
    intros Hin. apply list_elem_of_singleton in Hin. vm_compute in Hin. discriminate.
Defined.

(** Codecs that can be run and that read what they write: bytes written as
    the characters of their codes, instants as a sign and hexadecimal
    digits. *)
Definition byteString (b : list Z) : string :=
  string_of_list_ascii (map (fun z => ascii_of_nat (Z.to_nat z)) b).

Definition stringBytes (s : string) : list Z :=
  map (fun c => Z.of_nat (nat_of_ascii c)) (list_ascii_of_string s).

Definition plainCodecs : Json.Codecs :=
  {| Json.base64Decode := fun s => Some (stringBytes s);
     Json.base64Encode := byteString;
     Json.parseRFC3339 := fun s =>
       match s with
       | String "-" digits => Z.opp <$> hexValue digits
       | String _ digits => hexValue digits
       | EmptyString => None
       end;
     Json.formatRFC3339 := fun t =>
       String (if t <? 0 then "-"%char else "+"%char) (Go.Sprintf (Go.HexFormat 1) (Z.abs t)) |}.

Lemma plainCodecs_base64 (b : list Z) :
  Forall isByte b ->
  Json.base64Decode (Codecs := plainCodecs) (Json.base64Encode (Codecs := plainCodecs) b)
  = Some b.
Proof.
  intros Hb. cbn. f_equal. unfold stringBytes, byteString.
  rewrite list_ascii_of_string_of_list_ascii, map_map.
  induction Hb as [|z b [Hz0 Hz1] _ IH]; [reflexivity|]. cbn [map]. rewrite IH. f_equal.
  rewrite nat_ascii_embedding by lia. lia.
Qed.

Lemma plainCodecs_time (t : Z) :
  Json.parseRFC3339 (Codecs := plainCodecs) (Json.formatRFC3339 (Codecs := plainCodecs) t)
  = Some t.
Proof.
  cbn. destruct (Z.ltb_spec t 0).
  - rewrite hexValue_Sprintf by lia. cbn. f_equal. lia.
  - rewrite hexValue_Sprintf by lia. f_equal. lia.
Qed.

(** A header put into an empty store, read by a second handle. *)
Definition wipedStore : Store.Store :=
  fst (Store.putStoreMetadata (H := plainCodecs) (mockStore None) (Store.newMetadata [1; 2; 3])).

Definition reopened : Store.Store :=
  Store.mkStore (Store.layer wipedStore) "test" None None.

Lemma putStoreMetadata_roundtrip_witness :
  exists md',
    Store.getStoreMetadata (H := plainCodecs) reopened = (Store.setMeta reopened md', md', None) /\
    Store.Version md' = 1 /\ Store.StoreFormat md' = 1 /\ Store.Salt md' = [1; 2; 3].
Proof.
  apply (putStoreMetadata_roundtrip (CD := plainCodecs) plainCodecs_base64
           (mockStore None) reopened (Store.newMetadata [1; 2; 3])).
  - cbn. unfold Json.minInt, Json.maxInt. lia.
  - cbn. unfold Json.minInt, Json.maxInt. lia.
  - repeat constructor; unfold isByte; lia.
  - reflexivity.
  - reflexivity.
  - reflexivity.
  - reflexivity.
Defined.

Lemma putUserMetadata_then_get_witness :
  Store.getUserMetadata (H := plainCodecs)
    (fst (Store.putUserMetadata (H := plainCodecs) wipedStore "manifest/latest" (Json.JStr "7")))
    "manifest/latest"
  = (fst (Store.putUserMetadata (H := plainCodecs) wipedStore "manifest/latest" (Json.JStr "7")),
     Some (Json.JStr "7"), None).
Proof.
  refine (proj1 (putUserMetadata_then_get (CD := plainCodecs) wipedStore "manifest/latest"
                   (Json.JStr "7") _)).
  reflexivity.
Defined.

(** The manifest of [staleManifest], written and read. *)
Lemma manifest_JSON_roundtrip_witness :
  exists doc h' m',
    Backup.marshalManifest (H1 := plainCodecs) (fst staleManifest) (snd staleManifest)
    = Go.Done doc /\
    Backup.ReadManifestData (H := slashJoin) (H1 := plainCodecs) ∅ (Some doc)
    = Go.Done (h', m', None) /\
    view h' m' = readBack <$> view (fst staleManifest) (snd staleManifest).
Proof.
  destruct (manifest_JSON_roundtrip (FP := slashJoin) (CD := plainCodecs)
              (fst staleManifest) ∅ (snd staleManifest))
    as (doc & h' & m' & Hdoc & Hread & _ & _ & _ & _ & _ & Hview & _).
  - apply (NewManifest_ok (FP := slashJoin) (FS := calmFS)).
  - intros p e Hp He. vm_compute in Hp. apply list_elem_of_singleton in Hp. subst p.
    vm_compute in He. injection He as <-.
    split; cbn [Backup.EFile Backup.Parts File.Size File.Mode File.ModTime File.UID File.GID
                File.SHA1].
    + unfold isInt, Json.minInt, Json.maxInt. lia.
    + unfold Json.maxUint32. lia.
    + apply plainCodecs_time.
    + unfold isInt, Json.minInt, Json.maxInt. lia.
    + unfold isInt, Json.minInt, Json.maxInt. lia.
    + reflexivity.
    + apply plainCodecs_base64. repeat constructor; unfold isByte; lia.
    + repeat constructor; unfold isInt, Json.minInt, Json.maxInt; cbn; lia.
  - apply plainCodecs_time.
  - apply plainCodecs_time.
  - exists doc, h', m'. auto.
Defined.

(** Thirty-six bytes whose last twenty are not the signature of the first
    sixteen. *)
Lemma Decrypt_forged_witness :
  exists b,
    returns (fun fuel => Crypto.Decrypt (H := flipCipher) (H0 := minRoom) fuel
                           (repeat 0 35 ++ [1]))
            (b, Some Go.ErrNotAuthentic).
Proof.
  apply (Decrypt_forged (PR := flipCipher) (AL := minRoom) minRoom_MinRead flipCipher_length).
  - unfold Crypto.len. simpl. lia.
  - reflexivity.
  - vm_compute. discriminate.
Defined.

(** Two bytes are sealed in 52. *)
Lemma Encrypt_layout_witness :
  exists c,
    returns (fun fuel => Crypto.Encrypt (H := flipCipher) (H0 := minRoom) fuel (sevens, None) hi)
            (c, None) /\
    Crypto.len c = 52 /\ take 16 c = sevens.
Proof.
  destruct (Encrypt_layout (PR := flipCipher) (AL := minRoom)
              minRoom_MinRead flipCipher_block flipCipher_inverse flipCipher_size hi sevens)
    as (c & Hrun & Hlen & Hiv & _).
  - repeat constructor; unfold isByte; lia.
  - split; [reflexivity|]. repeat constructor; unfold isByte; lia.
  - exists c. auto.
Defined.

Lemma manifestKey_distinct_witness :
  String.length (Backup.manifestKey 1425445567000000000) = 16%nat /\
  (Backup.manifestKey 1425445567000000000 = Backup.manifestKey 7 -> 1425445567000000000 = 7).
Proof.
  apply manifestKey_distinct; unfold Json.maxInt; lia.
Defined.

(** The restore of one file into an empty folder, and a store that takes
    every upload. *)
Lemma restoreTargets_spec_witness :
  exists targets,
    Backup.restoreTargets (H := slashJoin) ∅ emptyManifest ["/"%string]
      (fst staleManifest) (snd staleManifest) = Go.Done targets.
Proof.
  destruct (proj1 (restoreTargets_spec (FP := slashJoin) ∅ emptyManifest ["/"%string]
                     (manifestOK_empty ∅ emptyManifest eq_refl eq_refl)
                     (fst staleManifest) (snd staleManifest)
                     (NewManifest_ok (FP := slashJoin) (FS := calmFS) ∅ [staleFile] _)))
    as (targets & Hrun & _).
  - intros p e Hp He _. vm_compute in Hp. apply list_elem_of_singleton in Hp. subst p.
    vm_compute in He. injection He as <-. discriminate.
  - exists targets. exact Hrun.
Defined.

Definition openStore : Store.Store :=
  Store.mkStore (Store.mkLayer ∅ (fun _ => None) (fun _ => Store.PutFine))
                "test" None (Some (Store.mkKeys [] [])).


(** A document of a version 4, with its key in capitals. *)
Lemma ReadManifestData_other_versions_witness :
  Backup.ReadManifestData (H := slashJoin) (H1 := testCodecs) ∅
    (Some (Json.JObj [("lastSet", Json.JStr "7"); ("VERSION", Json.JInt 4)]%string))
  = Go.Done (∅, Backup.zeroManifest, Some Go.ErrBadVersion).
Proof.
  apply (proj1 (ReadManifestData_other_versions (FP := slashJoin) (CD := testCodecs) ∅)
           [("lastSet", Json.JStr "7")]%string [] "VERSION"%string 4).
  - repeat constructor.
  - reflexivity.
  - constructor.
  - unfold Json.minInt, Json.maxInt. lia.
  - lia.
  - lia.
  - lia.
Defined.

Lemma old_and_new_agree_witness :
  exists c,
    Old.encrypt (H := flipCipher) hi (sevens, None) = Go.Done (c, None) /\
    Old.decrypt (H := flipCipher) c = Go.Done (hi, None).
Proof.
  destruct (old_and_new_agree (PR := flipCipher) (AL := minRoom)
              minRoom_MinRead flipCipher_block flipCipher_inverse flipCipher_size hi sevens)
    as (c & Henc & _ & Hdec & _).
  - repeat constructor; unfold isByte; lia.
  - split; [reflexivity|]. repeat constructor; unfold isByte; lia.
  - exists c. auto.
Defined.

(** The old functions at work: a sealed envelope, a forged one, a short
    one. *)
Example old_crypto_runs :
  (c ← Old.encrypt (H := flipCipher) hi (sevens, None);
   Old.decrypt (H := flipCipher) (fst c)) = Go.Done (hi, None) /\
  Old.decrypt (H := flipCipher) (repeat 0 51 ++ [1]) = Go.Done ([], Some Go.ErrNotAuthentic) /\
  Old.decrypt (H := flipCipher) (repeat 0 36) = Go.Panic "slice bounds out of range".
Proof. repeat split; vm_compute; reflexivity. Qed.

(** A key derivation that runs: the bytes asked for, all zero. *)
Definition zeroKeys : Opening.KeyDerivation := fun _ _ n => repeat 0 (Z.to_nat n).

Lemma zeroKeys_length (secret salt : list Z) (n : Z) :
  0 <= n -> Crypto.len (Opening.pbkdf2Key (KeyDerivation := zeroKeys) secret salt n) = n.
Proof.
  intros Hn. unfold Opening.pbkdf2Key, zeroKeys, Crypto.len. rewrite repeat_length. lia.
Qed.

(** A store on a mock layer that holds nothing. *)
Definition bareStore : Store.Store :=
  Store.mkStore (Store.mkLayer ∅ (fun _ => None) (fun _ => Store.PutFine)) "test" None None.

Lemma Wipe_then_Unlock_witness :
  let wiped := Opening.Wipe (H := plainCodecs) (H0 := zeroKeys) bareStore [7] ([1; 2; 3], None) in
  snd wiped = None /\ Store.isConnected (fst (fst wiped)) = true /\
  Crypto.len (Store.EncKey (snd (fst wiped))) = 32 /\
  snd (Opening.Unlock (H := plainCodecs) (H0 := zeroKeys)
         (Store.mkStore (Store.layer (fst (fst wiped))) "test" None None) [7]) = None.
Proof.
  pose proof (Wipe_then_Unlock (CD := plainCodecs) plainCodecs_base64 (KD := zeroKeys)
                zeroKeys_length bareStore [7] [1; 2; 3]) as W.
  cbv zeta in W |- *.
  destruct W as (Herr & Hconn & _ & Henc & _ & Hun).
  - repeat constructor; unfold isByte; lia.
  - reflexivity.
  - reflexivity.
  - destruct (Hun (Store.mkStore
                     (Store.layer (fst (fst (Opening.Wipe (H := plainCodecs) (H0 := zeroKeys)
                                                bareStore [7] ([1; 2; 3], None)))))
                     "test" None None) eq_refl eq_refl) as (Hu & _).
    repeat split; assumption.
Defined.

Lemma IsClean_exact_witness :
  snd (Opening.IsClean (H := plainCodecs) bareStore) = true /\
  Opening.Unlock (H := plainCodecs) (H0 := zeroKeys) bareStore [7]
  = (bareStore, Store.mkKeys [] [], Some (Opening.Err Go.ErrStoreNotInitialized)).
Proof.
  destruct (IsClean_exact (CD := plainCodecs) (KD := zeroKeys) bareStore [7] eq_refl)
    as [Hclean Hunlock].
  split.
  - apply Hclean. reflexivity.
  - apply Hunlock. reflexivity.
Defined.
